(** * rr: record-and-replay engine -- verification of selected properties

  A shallow embedding of parts of rr's sources:

  - [Registers.cc] / [Registers.h] / [kernel_abi.h]: the register table
    and the register-file comparison;
  - [preload/preload.c]: the commit path of the syscall buffer;
  - [TraceStream.cc] / [Event.h] / [ExtraRegisters.h]: trace frames and
    the version check of the trace reader;
  - [AutoRemoteSyscalls.cc] / [AddressSpace.h]: the choice of the scratch
    stack and the robust iteration over the memory map;
  - [ReplayCommand.cc]: the exit status of the replay command.

  Machine integers are values in [Z]; wrap-around and reinterpretation
  between signed and unsigned views are written out. *)

From Stdlib Require Import ZArith List String Ascii Bool Lia Sorted.
From Stdlib Require Import DecimalString DecimalN DecimalPos.
Import ListNotations.
Open Scope Z_scope.

(* ================================================================== *)
(** ** Machine integers *)

Module Int.

(** Value of a [w]-bit two's complement pattern read as unsigned. *)
Definition to_unsigned (w : Z) (v : Z) : Z := v mod 2 ^ w.

(** Value of a [w]-bit two's complement pattern read as signed. *)
Definition to_signed (w : Z) (v : Z) : Z :=
  let u := v mod 2 ^ w in
  if u <? 2 ^ (w - 1) then u else u - 2 ^ w.

Definition u32 := to_unsigned 32.
Definition u64 := to_unsigned 64.
Definition s32 := to_signed 32.
Definition s64 := to_signed 64.

End Int.

(* ================================================================== *)
(** ** kernel_abi.h: the per-architecture register structures *)

Inductive SupportedArch : Type := x86 | x86_64.

Definition SupportedArch_eqb (a b : SupportedArch) : bool :=
match a, b with
| x86, x86 | x86_64, x86_64 => true
| _, _ => false
end.

Module X86Arch.
(** [struct user_regs_struct] of the 32-bit architecture; every member is
    an [int32_t]. *)
Record user_regs_struct : Type := {
  ebx : Z; ecx : Z; edx : Z; esi : Z; edi : Z; ebp : Z; eax : Z;
  xds : Z; xes : Z; xfs : Z; xgs : Z; orig_eax : Z; eip : Z; xcs : Z;
  eflags : Z; esp : Z; xss : Z
}.

Definition zero : user_regs_struct :=
  {| ebx := 0; ecx := 0; edx := 0; esi := 0; edi := 0; ebp := 0; eax := 0;
     xds := 0; xes := 0; xfs := 0; xgs := 0; orig_eax := 0; eip := 0;
     xcs := 0; eflags := 0; esp := 0; xss := 0 |}.

(** The members the accessors of [Registers] assign to, one update
    each. *)
Definition set_ebx (v : Z) (u : user_regs_struct) : user_regs_struct :=
  {| ebx := v; ecx := ecx u; edx := edx u; esi := esi u; edi := edi u;
     ebp := ebp u; eax := eax u; xds := xds u; xes := xes u; xfs := xfs u;
     xgs := xgs u; orig_eax := orig_eax u; eip := eip u; xcs := xcs u;
     eflags := eflags u; esp := esp u; xss := xss u |}.

Definition set_ecx (v : Z) (u : user_regs_struct) : user_regs_struct :=
  {| ebx := ebx u; ecx := v; edx := edx u; esi := esi u; edi := edi u;
     ebp := ebp u; eax := eax u; xds := xds u; xes := xes u; xfs := xfs u;
     xgs := xgs u; orig_eax := orig_eax u; eip := eip u; xcs := xcs u;
     eflags := eflags u; esp := esp u; xss := xss u |}.

Definition set_edx (v : Z) (u : user_regs_struct) : user_regs_struct :=
  {| ebx := ebx u; ecx := ecx u; edx := v; esi := esi u; edi := edi u;
     ebp := ebp u; eax := eax u; xds := xds u; xes := xes u; xfs := xfs u;
     xgs := xgs u; orig_eax := orig_eax u; eip := eip u; xcs := xcs u;
     eflags := eflags u; esp := esp u; xss := xss u |}.

Definition set_esi (v : Z) (u : user_regs_struct) : user_regs_struct :=
  {| ebx := ebx u; ecx := ecx u; edx := edx u; esi := v; edi := edi u;
     ebp := ebp u; eax := eax u; xds := xds u; xes := xes u; xfs := xfs u;
     xgs := xgs u; orig_eax := orig_eax u; eip := eip u; xcs := xcs u;
     eflags := eflags u; esp := esp u; xss := xss u |}.

Definition set_edi (v : Z) (u : user_regs_struct) : user_regs_struct :=
  {| ebx := ebx u; ecx := ecx u; edx := edx u; esi := esi u; edi := v;
     ebp := ebp u; eax := eax u; xds := xds u; xes := xes u; xfs := xfs u;
     xgs := xgs u; orig_eax := orig_eax u; eip := eip u; xcs := xcs u;
     eflags := eflags u; esp := esp u; xss := xss u |}.

Definition set_ebp (v : Z) (u : user_regs_struct) : user_regs_struct :=
  {| ebx := ebx u; ecx := ecx u; edx := edx u; esi := esi u; edi := edi u;
     ebp := v; eax := eax u; xds := xds u; xes := xes u; xfs := xfs u;
     xgs := xgs u; orig_eax := orig_eax u; eip := eip u; xcs := xcs u;
     eflags := eflags u; esp := esp u; xss := xss u |}.

Definition set_eax (v : Z) (u : user_regs_struct) : user_regs_struct :=
  {| ebx := ebx u; ecx := ecx u; edx := edx u; esi := esi u; edi := edi u;
     ebp := ebp u; eax := v; xds := xds u; xes := xes u; xfs := xfs u;
     xgs := xgs u; orig_eax := orig_eax u; eip := eip u; xcs := xcs u;
     eflags := eflags u; esp := esp u; xss := xss u |}.

Definition set_orig_eax (v : Z) (u : user_regs_struct) : user_regs_struct :=
  {| ebx := ebx u; ecx := ecx u; edx := edx u; esi := esi u; edi := edi u;
     ebp := ebp u; eax := eax u; xds := xds u; xes := xes u; xfs := xfs u;
     xgs := xgs u; orig_eax := v; eip := eip u; xcs := xcs u;
     eflags := eflags u; esp := esp u; xss := xss u |}.

Definition set_eip (v : Z) (u : user_regs_struct) : user_regs_struct :=
  {| ebx := ebx u; ecx := ecx u; edx := edx u; esi := esi u; edi := edi u;
     ebp := ebp u; eax := eax u; xds := xds u; xes := xes u; xfs := xfs u;
     xgs := xgs u; orig_eax := orig_eax u; eip := v; xcs := xcs u;
     eflags := eflags u; esp := esp u; xss := xss u |}.

Definition set_eflags (v : Z) (u : user_regs_struct) : user_regs_struct :=
  {| ebx := ebx u; ecx := ecx u; edx := edx u; esi := esi u; edi := edi u;
     ebp := ebp u; eax := eax u; xds := xds u; xes := xes u; xfs := xfs u;
     xgs := xgs u; orig_eax := orig_eax u; eip := eip u; xcs := xcs u;
     eflags := v; esp := esp u; xss := xss u |}.

Definition set_esp (v : Z) (u : user_regs_struct) : user_regs_struct :=
  {| ebx := ebx u; ecx := ecx u; edx := edx u; esi := esi u; edi := edi u;
     ebp := ebp u; eax := eax u; xds := xds u; xes := xes u; xfs := xfs u;
     xgs := xgs u; orig_eax := orig_eax u; eip := eip u; xcs := xcs u;
     eflags := eflags u; esp := v; xss := xss u |}.
End X86Arch.

Module X64Arch.
(** [struct user_regs_struct] of the 64-bit architecture.  The members
    are [uint64_t], except the segment registers and [eflags], which are
    [uint32_t] followed by a [uint32_t] [_upper] word. *)
Record user_regs_struct : Type := {
  r15 : Z; r14 : Z; r13 : Z; r12 : Z; rbp : Z; rbx : Z; r11 : Z; r10 : Z;
  r9 : Z; r8 : Z; rax : Z; rcx : Z; rdx : Z; rsi : Z; rdi : Z;
  orig_rax : Z; rip : Z;
  cs : Z; cs_upper : Z; eflags : Z; eflags_upper : Z;
  rsp : Z;
  ss : Z; ss_upper : Z;
  fs_base : Z; gs_base : Z;
  ds : Z; ds_upper : Z; es : Z; es_upper : Z;
  fs : Z; fs_upper : Z; gs : Z; gs_upper : Z
}.

Definition zero : user_regs_struct :=
  {| r15 := 0; r14 := 0; r13 := 0; r12 := 0; rbp := 0; rbx := 0; r11 := 0;
     r10 := 0; r9 := 0; r8 := 0; rax := 0; rcx := 0; rdx := 0; rsi := 0;
     rdi := 0; orig_rax := 0; rip := 0; cs := 0; cs_upper := 0;
     eflags := 0; eflags_upper := 0; rsp := 0; ss := 0; ss_upper := 0;
     fs_base := 0; gs_base := 0; ds := 0; ds_upper := 0; es := 0;
     es_upper := 0; fs := 0; fs_upper := 0; gs := 0; gs_upper := 0 |}.

(** The members the accessors of [Registers] assign to, one update
    each. *)
Definition set_rdi (v : Z) (u : user_regs_struct) : user_regs_struct :=
  {| r15 := r15 u; r14 := r14 u; r13 := r13 u; r12 := r12 u; rbp := rbp u;
     rbx := rbx u; r11 := r11 u; r10 := r10 u; r9 := r9 u; r8 := r8 u;
     rax := rax u; rcx := rcx u; rdx := rdx u; rsi := rsi u; rdi := v;
     orig_rax := orig_rax u; rip := rip u; cs := cs u;
     cs_upper := cs_upper u; eflags := eflags u;
     eflags_upper := eflags_upper u; rsp := rsp u; ss := ss u;
     ss_upper := ss_upper u; fs_base := fs_base u; gs_base := gs_base u;
     ds := ds u; ds_upper := ds_upper u; es := es u;
     es_upper := es_upper u; fs := fs u; fs_upper := fs_upper u;
     gs := gs u; gs_upper := gs_upper u |}.

Definition set_rsi (v : Z) (u : user_regs_struct) : user_regs_struct :=
  {| r15 := r15 u; r14 := r14 u; r13 := r13 u; r12 := r12 u; rbp := rbp u;
     rbx := rbx u; r11 := r11 u; r10 := r10 u; r9 := r9 u; r8 := r8 u;
     rax := rax u; rcx := rcx u; rdx := rdx u; rsi := v; rdi := rdi u;
     orig_rax := orig_rax u; rip := rip u; cs := cs u;
     cs_upper := cs_upper u; eflags := eflags u;
     eflags_upper := eflags_upper u; rsp := rsp u; ss := ss u;
     ss_upper := ss_upper u; fs_base := fs_base u; gs_base := gs_base u;
     ds := ds u; ds_upper := ds_upper u; es := es u;
     es_upper := es_upper u; fs := fs u; fs_upper := fs_upper u;
     gs := gs u; gs_upper := gs_upper u |}.

Definition set_rdx (v : Z) (u : user_regs_struct) : user_regs_struct :=
  {| r15 := r15 u; r14 := r14 u; r13 := r13 u; r12 := r12 u; rbp := rbp u;
     rbx := rbx u; r11 := r11 u; r10 := r10 u; r9 := r9 u; r8 := r8 u;
     rax := rax u; rcx := rcx u; rdx := v; rsi := rsi u; rdi := rdi u;
     orig_rax := orig_rax u; rip := rip u; cs := cs u;
     cs_upper := cs_upper u; eflags := eflags u;
     eflags_upper := eflags_upper u; rsp := rsp u; ss := ss u;
     ss_upper := ss_upper u; fs_base := fs_base u; gs_base := gs_base u;
     ds := ds u; ds_upper := ds_upper u; es := es u;
     es_upper := es_upper u; fs := fs u; fs_upper := fs_upper u;
     gs := gs u; gs_upper := gs_upper u |}.

Definition set_r10 (v : Z) (u : user_regs_struct) : user_regs_struct :=
  {| r15 := r15 u; r14 := r14 u; r13 := r13 u; r12 := r12 u; rbp := rbp u;
     rbx := rbx u; r11 := r11 u; r10 := v; r9 := r9 u; r8 := r8 u;
     rax := rax u; rcx := rcx u; rdx := rdx u; rsi := rsi u; rdi := rdi u;
     orig_rax := orig_rax u; rip := rip u; cs := cs u;
     cs_upper := cs_upper u; eflags := eflags u;
     eflags_upper := eflags_upper u; rsp := rsp u; ss := ss u;
     ss_upper := ss_upper u; fs_base := fs_base u; gs_base := gs_base u;
     ds := ds u; ds_upper := ds_upper u; es := es u;
     es_upper := es_upper u; fs := fs u; fs_upper := fs_upper u;
     gs := gs u; gs_upper := gs_upper u |}.

Definition set_r8 (v : Z) (u : user_regs_struct) : user_regs_struct :=
  {| r15 := r15 u; r14 := r14 u; r13 := r13 u; r12 := r12 u; rbp := rbp u;
     rbx := rbx u; r11 := r11 u; r10 := r10 u; r9 := r9 u; r8 := v;
     rax := rax u; rcx := rcx u; rdx := rdx u; rsi := rsi u; rdi := rdi u;
     orig_rax := orig_rax u; rip := rip u; cs := cs u;
     cs_upper := cs_upper u; eflags := eflags u;
     eflags_upper := eflags_upper u; rsp := rsp u; ss := ss u;
     ss_upper := ss_upper u; fs_base := fs_base u; gs_base := gs_base u;
     ds := ds u; ds_upper := ds_upper u; es := es u;
     es_upper := es_upper u; fs := fs u; fs_upper := fs_upper u;
     gs := gs u; gs_upper := gs_upper u |}.

Definition set_r9 (v : Z) (u : user_regs_struct) : user_regs_struct :=
  {| r15 := r15 u; r14 := r14 u; r13 := r13 u; r12 := r12 u; rbp := rbp u;
     rbx := rbx u; r11 := r11 u; r10 := r10 u; r9 := v; r8 := r8 u;
     rax := rax u; rcx := rcx u; rdx := rdx u; rsi := rsi u; rdi := rdi u;
     orig_rax := orig_rax u; rip := rip u; cs := cs u;
     cs_upper := cs_upper u; eflags := eflags u;
     eflags_upper := eflags_upper u; rsp := rsp u; ss := ss u;
     ss_upper := ss_upper u; fs_base := fs_base u; gs_base := gs_base u;
     ds := ds u; ds_upper := ds_upper u; es := es u;
     es_upper := es_upper u; fs := fs u; fs_upper := fs_upper u;
     gs := gs u; gs_upper := gs_upper u |}.

Definition set_rax (v : Z) (u : user_regs_struct) : user_regs_struct :=
  {| r15 := r15 u; r14 := r14 u; r13 := r13 u; r12 := r12 u; rbp := rbp u;
     rbx := rbx u; r11 := r11 u; r10 := r10 u; r9 := r9 u; r8 := r8 u;
     rax := v; rcx := rcx u; rdx := rdx u; rsi := rsi u; rdi := rdi u;
     orig_rax := orig_rax u; rip := rip u; cs := cs u;
     cs_upper := cs_upper u; eflags := eflags u;
     eflags_upper := eflags_upper u; rsp := rsp u; ss := ss u;
     ss_upper := ss_upper u; fs_base := fs_base u; gs_base := gs_base u;
     ds := ds u; ds_upper := ds_upper u; es := es u;
     es_upper := es_upper u; fs := fs u; fs_upper := fs_upper u;
     gs := gs u; gs_upper := gs_upper u |}.

Definition set_orig_rax (v : Z) (u : user_regs_struct) : user_regs_struct :=
  {| r15 := r15 u; r14 := r14 u; r13 := r13 u; r12 := r12 u; rbp := rbp u;
     rbx := rbx u; r11 := r11 u; r10 := r10 u; r9 := r9 u; r8 := r8 u;
     rax := rax u; rcx := rcx u; rdx := rdx u; rsi := rsi u; rdi := rdi u;
     orig_rax := v; rip := rip u; cs := cs u; cs_upper := cs_upper u;
     eflags := eflags u; eflags_upper := eflags_upper u; rsp := rsp u;
     ss := ss u; ss_upper := ss_upper u; fs_base := fs_base u;
     gs_base := gs_base u; ds := ds u; ds_upper := ds_upper u; es := es u;
     es_upper := es_upper u; fs := fs u; fs_upper := fs_upper u;
     gs := gs u; gs_upper := gs_upper u |}.

Definition set_rip (v : Z) (u : user_regs_struct) : user_regs_struct :=
  {| r15 := r15 u; r14 := r14 u; r13 := r13 u; r12 := r12 u; rbp := rbp u;
     rbx := rbx u; r11 := r11 u; r10 := r10 u; r9 := r9 u; r8 := r8 u;
     rax := rax u; rcx := rcx u; rdx := rdx u; rsi := rsi u; rdi := rdi u;
     orig_rax := orig_rax u; rip := v; cs := cs u; cs_upper := cs_upper u;
     eflags := eflags u; eflags_upper := eflags_upper u; rsp := rsp u;
     ss := ss u; ss_upper := ss_upper u; fs_base := fs_base u;
     gs_base := gs_base u; ds := ds u; ds_upper := ds_upper u; es := es u;
     es_upper := es_upper u; fs := fs u; fs_upper := fs_upper u;
     gs := gs u; gs_upper := gs_upper u |}.

Definition set_rsp (v : Z) (u : user_regs_struct) : user_regs_struct :=
  {| r15 := r15 u; r14 := r14 u; r13 := r13 u; r12 := r12 u; rbp := rbp u;
     rbx := rbx u; r11 := r11 u; r10 := r10 u; r9 := r9 u; r8 := r8 u;
     rax := rax u; rcx := rcx u; rdx := rdx u; rsi := rsi u; rdi := rdi u;
     orig_rax := orig_rax u; rip := rip u; cs := cs u;
     cs_upper := cs_upper u; eflags := eflags u;
     eflags_upper := eflags_upper u; rsp := v; ss := ss u;
     ss_upper := ss_upper u; fs_base := fs_base u; gs_base := gs_base u;
     ds := ds u; ds_upper := ds_upper u; es := es u;
     es_upper := es_upper u; fs := fs u; fs_upper := fs_upper u;
     gs := gs u; gs_upper := gs_upper u |}.

Definition set_r11 (v : Z) (u : user_regs_struct) : user_regs_struct :=
  {| r15 := r15 u; r14 := r14 u; r13 := r13 u; r12 := r12 u; rbp := rbp u;
     rbx := rbx u; r11 := v; r10 := r10 u; r9 := r9 u; r8 := r8 u;
     rax := rax u; rcx := rcx u; rdx := rdx u; rsi := rsi u; rdi := rdi u;
     orig_rax := orig_rax u; rip := rip u; cs := cs u;
     cs_upper := cs_upper u; eflags := eflags u;
     eflags_upper := eflags_upper u; rsp := rsp u; ss := ss u;
     ss_upper := ss_upper u; fs_base := fs_base u; gs_base := gs_base u;
     ds := ds u; ds_upper := ds_upper u; es := es u;
     es_upper := es_upper u; fs := fs u; fs_upper := fs_upper u;
     gs := gs u; gs_upper := gs_upper u |}.

Definition set_rcx (v : Z) (u : user_regs_struct) : user_regs_struct :=
  {| r15 := r15 u; r14 := r14 u; r13 := r13 u; r12 := r12 u; rbp := rbp u;
     rbx := rbx u; r11 := r11 u; r10 := r10 u; r9 := r9 u; r8 := r8 u;
     rax := rax u; rcx := v; rdx := rdx u; rsi := rsi u; rdi := rdi u;
     orig_rax := orig_rax u; rip := rip u; cs := cs u;
     cs_upper := cs_upper u; eflags := eflags u;
     eflags_upper := eflags_upper u; rsp := rsp u; ss := ss u;
     ss_upper := ss_upper u; fs_base := fs_base u; gs_base := gs_base u;
     ds := ds u; ds_upper := ds_upper u; es := es u;
     es_upper := es_upper u; fs := fs u; fs_upper := fs_upper u;
     gs := gs u; gs_upper := gs_upper u |}.

Definition set_eflags (v : Z) (u : user_regs_struct) : user_regs_struct :=
  {| r15 := r15 u; r14 := r14 u; r13 := r13 u; r12 := r12 u; rbp := rbp u;
     rbx := rbx u; r11 := r11 u; r10 := r10 u; r9 := r9 u; r8 := r8 u;
     rax := rax u; rcx := rcx u; rdx := rdx u; rsi := rsi u; rdi := rdi u;
     orig_rax := orig_rax u; rip := rip u; cs := cs u;
     cs_upper := cs_upper u; eflags := v; eflags_upper := eflags_upper u;
     rsp := rsp u; ss := ss u; ss_upper := ss_upper u;
     fs_base := fs_base u; gs_base := gs_base u; ds := ds u;
     ds_upper := ds_upper u; es := es u; es_upper := es_upper u;
     fs := fs u; fs_upper := fs_upper u; gs := gs u;
     gs_upper := gs_upper u |}.

Definition set_eflags_upper (v : Z) (u : user_regs_struct) : user_regs_struct :=
  {| r15 := r15 u; r14 := r14 u; r13 := r13 u; r12 := r12 u; rbp := rbp u;
     rbx := rbx u; r11 := r11 u; r10 := r10 u; r9 := r9 u; r8 := r8 u;
     rax := rax u; rcx := rcx u; rdx := rdx u; rsi := rsi u; rdi := rdi u;
     orig_rax := orig_rax u; rip := rip u; cs := cs u;
     cs_upper := cs_upper u; eflags := eflags u; eflags_upper := v;
     rsp := rsp u; ss := ss u; ss_upper := ss_upper u;
     fs_base := fs_base u; gs_base := gs_base u; ds := ds u;
     ds_upper := ds_upper u; es := es u; es_upper := es_upper u;
     fs := fs u; fs_upper := fs_upper u; gs := gs u;
     gs_upper := gs_upper u |}.
End X64Arch.

(* ================================================================== *)
(** ** Registers.h / Registers.cc *)

Module Registers.

Inductive MismatchBehavior : Type :=
| EXPECT_MISMATCHES | LOG_MISMATCHES | BAIL_ON_MISMATCH.

Definition behavior_level (b : MismatchBehavior) : Z :=
  match b with
  | EXPECT_MISMATCHES => 0 | LOG_MISMATCHES => 1 | BAIL_ON_MISMATCH => 2
  end.

Definition X86_RESERVED_FLAG : Z := Z.shiftl 1 1.
Definition X86_TF_FLAG : Z := Z.shiftl 1 8.
Definition X86_IF_FLAG : Z := Z.shiftl 1 9.
Definition X86_DF_FLAG : Z := Z.shiftl 1 10.
Definition X86_RF_FLAG : Z := Z.shiftl 1 16.
Definition X86_ID_FLAG : Z := Z.shiftl 1 21.

(** The register file: [union AllRegisters u] discriminated by [arch_]. *)
Inductive t : Type :=
| X86Regs (u : X86Arch.user_regs_struct)
| X64Regs (u : X64Arch.user_regs_struct).

Definition arch (r : t) : SupportedArch :=
  match r with X86Regs _ => x86 | X64Regs _ => x86_64 end.

(** [RR_GET_REG_SIGNED(orig_eax, orig_rax)] returned as [intptr_t]. *)
Definition original_syscallno (r : t) : Z :=
  match r with
  | X86Regs u => X86Arch.orig_eax u
  | X64Regs u => Int.s64 (X64Arch.orig_rax u)
  end.

(** [struct RegisterValue].  [offset] is the member that
    [offsetof(user_regs_struct, name)] designates, as a projection. *)
Record RegisterValue (S : Type) : Type := {
  name : string;
  offset : S -> Z;
  nbytes : Z;
  comparison_mask : Z
}.
Arguments name {S}.
Arguments offset {S}.
Arguments nbytes {S}.
Arguments comparison_mask {S}.

Definition sizeof_comparison_mask : Z := 8.

(** [RegisterValue::mask_for_nbytes], computed in [uint64_t]. *)
Definition mask_for_nbytes (n : Z) : Z :=
  Int.u64 ((if n =? sizeof_comparison_mask then 0
            else Z.shiftl 1 (n * 8)) - 1).

(** The three-argument constructor. *)
Definition RV {S} (nm : string) (off : S -> Z) (n : Z) : RegisterValue S :=
  {| name := nm; offset := off; nbytes := n;
     comparison_mask := mask_for_nbytes n |}.

(** The four-argument constructor. *)
Definition RV_WITH_MASK {S} (nm : string) (off : S -> Z) (n : Z) (m : Z)
  : RegisterValue S :=
  {| name := nm; offset := off; nbytes := n; comparison_mask := m |}.

(** [~uint32_t(...)] widened to [uint64_t]. *)
Definition deterministic_eflags_mask : Z :=
  Int.u32 (Z.lnot (Z.lor X86_RESERVED_FLAG
                    (Z.lor X86_IF_FLAG (Z.lor X86_RF_FLAG X86_ID_FLAG)))).

(** [RegisterInfo<X86Arch>::registers]: the entries of the initializer
    list.  The remaining slots of the table are default-constructed, have
    [nbytes = 0] and are skipped by every loop over the table. *)
Definition x86_registers : list (RegisterValue X86Arch.user_regs_struct) :=
  [ RV "eax" X86Arch.eax 4; RV "ecx" X86Arch.ecx 4;
    RV "edx" X86Arch.edx 4; RV "ebx" X86Arch.ebx 4;
    RV "esp" X86Arch.esp 4; RV "ebp" X86Arch.ebp 4;
    RV "esi" X86Arch.esi 4; RV "edi" X86Arch.edi 4;
    RV "eip" X86Arch.eip 4;
    RV_WITH_MASK "eflags" X86Arch.eflags 4 deterministic_eflags_mask;
    RV_WITH_MASK "xcs" X86Arch.xcs 4 0; RV_WITH_MASK "xss" X86Arch.xss 4 0;
    RV_WITH_MASK "xds" X86Arch.xds 4 0; RV_WITH_MASK "xes" X86Arch.xes 4 0;
    RV "xfs" X86Arch.xfs 4; RV "xgs" X86Arch.xgs 4;
    RV_WITH_MASK "orig_eax" X86Arch.orig_eax 4 0 ].

(** [RegisterInfo<X64Arch>::registers]. *)
Definition x64_registers : list (RegisterValue X64Arch.user_regs_struct) :=
  [ RV "rax" X64Arch.rax 8; RV "rcx" X64Arch.rcx 8;
    RV "rdx" X64Arch.rdx 8; RV "rbx" X64Arch.rbx 8;
    RV_WITH_MASK "rsp" X64Arch.rsp 8 0; RV "rbp" X64Arch.rbp 8;
    RV "rsi" X64Arch.rsi 8; RV "rdi" X64Arch.rdi 8;
    RV "r8" X64Arch.r8 8; RV "r9" X64Arch.r9 8; RV "r10" X64Arch.r10 8;
    RV "r11" X64Arch.r11 8; RV "r12" X64Arch.r12 8; RV "r13" X64Arch.r13 8;
    RV "r14" X64Arch.r14 8; RV "r15" X64Arch.r15 8; RV "rip" X64Arch.rip 8;
    RV_WITH_MASK "eflags" X64Arch.eflags 4 deterministic_eflags_mask;
    RV_WITH_MASK "cs" X64Arch.cs 4 0; RV_WITH_MASK "ss" X64Arch.ss 4 0;
    RV_WITH_MASK "ds" X64Arch.ds 4 0; RV_WITH_MASK "es" X64Arch.es 4 0;
    RV "fs" X64Arch.fs 4; RV "gs" X64Arch.gs 4;
    RV_WITH_MASK "orig_rax" X64Arch.orig_rax 8 0 ].

(** One call of [maybe_print_reg_mismatch]: the register's name and the
    two values, both as [uint64_t]. *)
Record Mismatch : Type := {
  regname : string; val1 : Z; val2 : Z
}.

(** The state a comparison threads: the [match] flag and the calls of
    [maybe_print_reg_mismatch] made so far. *)
Record Comparison : Type := {
  matched : bool;
  mismatches : list Mismatch
}.

Definition all_match : Comparison := {| matched := true; mismatches := [] |}.

Definition record_mismatch (nm : string) (v1 v2 : Z) (c : Comparison)
  : Comparison :=
  {| matched := false;
     mismatches := mismatches c ++ [{| regname := nm; val1 := v1;
                                       val2 := v2 |}] |}.

(** [memcpy(&val, rv.pointer_into(&reg.u), rv.nbytes)] into a zeroed
    [uint64_t]. *)
Definition load {S} (rv : RegisterValue S) (u : S) : Z :=
  Int.to_unsigned (8 * nbytes rv) (offset rv u).

(** The body of the loop of [compare_registers_core]. *)
Definition compare_one {S} (u1 u2 : S) (c : Comparison)
           (rv : RegisterValue S) : Comparison :=
  if nbytes rv =? 0 then c
  else if comparison_mask rv =? 0 then c
  else
    let v1 := load rv u1 in
    let v2 := load rv u2 in
    if Z.land (Z.lxor v1 v2) (comparison_mask rv) =? 0 then c
    else record_mismatch (name rv) v1 v2 c.

Definition compare_registers_core {S} (table : list (RegisterValue S))
           (u1 u2 : S) : Comparison :=
  fold_left (compare_one u1 u2) table all_match.

(** The macro [REGCMP]: the two members compared with [!=]; on a
    difference they are passed on converted to [uint64_t]. *)
Definition REGCMP (nm : string) (f1 f2 : Z) (c : Comparison) : Comparison :=
  if f1 =? f2 then c else record_mismatch nm (Int.u64 f1) (Int.u64 f2) c.

(** [compare_registers_arch<X86Arch>]. *)
Definition compare_registers_arch_x86 (u1 u2 : X86Arch.user_regs_struct)
  : Comparison :=
  let c := compare_registers_core x86_registers u1 u2 in
  if (X86Arch.orig_eax u1 >=? 0) || (X86Arch.orig_eax u2 >=? 0)
  then REGCMP "orig_eax" (X86Arch.orig_eax u1) (X86Arch.orig_eax u2) c
  else c.

(** [compare_registers_arch<X64Arch>]. *)
Definition compare_registers_arch_x64 (u1 u2 : X64Arch.user_regs_struct)
  : Comparison :=
  let c := compare_registers_core x64_registers u1 u2 in
  let c :=
    if (Int.s64 (X64Arch.orig_rax u1) >=? 0)
       || (Int.s64 (X64Arch.orig_rax u2) >=? 0)
    then REGCMP "orig_rax" (X64Arch.orig_rax u1) (X64Arch.orig_rax u2) c
    else c in
  let c := REGCMP "cs_upper" (X64Arch.cs_upper u1) (X64Arch.cs_upper u2) c in
  let c := REGCMP "ds_upper" (X64Arch.ds_upper u1) (X64Arch.ds_upper u2) c in
  let c := REGCMP "es_upper" (X64Arch.es_upper u1) (X64Arch.es_upper u2) c in
  let c := REGCMP "fs_upper" (X64Arch.fs_upper u1) (X64Arch.fs_upper u2) c in
  let c := REGCMP "gs_upper" (X64Arch.gs_upper u1) (X64Arch.gs_upper u2) c in
  let c := REGCMP "ss_upper" (X64Arch.ss_upper u1) (X64Arch.ss_upper u2) c in
  REGCMP "eflags_upper" (X64Arch.eflags_upper u1) (X64Arch.eflags_upper u2) c.

(** [compare_register_files_internal]: [assert(reg1.arch() == reg2.arch())]
    and the dispatch of [RR_ARCH_FUNCTION].  [None] is the failed
    assertion. *)
Definition compare_register_files_internal (reg1 reg2 : t)
  : option Comparison :=
  match reg1, reg2 with
  | X86Regs u1, X86Regs u2 => Some (compare_registers_arch_x86 u1 u2)
  | X64Regs u1, X64Regs u2 => Some (compare_registers_arch_x64 u1 u2)
  | _, _ => None
  end.

(** [compare_register_files]: the [ASSERT] that, under
    [BAIL_ON_MISMATCH], the files match; [None] is a fatal error. *)
Definition compare_register_files (reg1 reg2 : t)
           (mismatch_behavior : MismatchBehavior) : option Comparison :=
  let bail_error :=
    behavior_level mismatch_behavior >=? behavior_level BAIL_ON_MISMATCH in
  match compare_register_files_internal reg1 reg2 with
  | None => None
  | Some c => if negb bail_error || matched c then Some c else None
  end.

(** What the comparison writes to the log: a line for a mismatch, at the
    level of [LOG(error)] or [LOG(info)], and the line that tells that
    the register files are the same. *)
Inductive LogLevel : Type := LOG_error | LOG_info.

Inductive LogLine : Type :=
| MismatchLine (level : LogLevel) (m : Mismatch)
| SameLine.

(** [maybe_print_reg_mismatch]: the lines it logs for the mismatch it is
    called with. *)
Definition maybe_print_reg_mismatch (mismatch_behavior : MismatchBehavior)
           (m : Mismatch) : list LogLine :=
  if behavior_level mismatch_behavior >=? behavior_level BAIL_ON_MISMATCH
  then [MismatchLine LOG_error m]
  else if behavior_level mismatch_behavior >=? behavior_level LOG_MISMATCHES
  then [MismatchLine LOG_info m]
  else [].

(** The log of a comparison that went through the calls of
    [maybe_print_reg_mismatch] noted in [c]: their lines in order, and
    after them what [compare_register_files] logs when
    [match && mismatch_behavior == LOG_MISMATCHES]. *)
Definition logged (mismatch_behavior : MismatchBehavior) (c : Comparison)
  : list LogLine :=
  flat_map (maybe_print_reg_mismatch mismatch_behavior) (mismatches c)
  ++ (if matched c
         && (behavior_level mismatch_behavior
             =? behavior_level LOG_MISMATCHES)
      then [SameLine] else []).

(** A comparison reports a mismatch on the register called [nm]. *)
Definition reports (nm : string) (c : Comparison) : bool :=
  existsb (fun m => String.eqb (regname m) nm) (mismatches c).

(** The name under which the [orig_*ax] register of an architecture is
    reported. *)
Definition orig_ax_name (a : SupportedArch) : string :=
  match a with x86 => "orig_eax" | x86_64 => "orig_rax" end.

(** The [orig_*ax] member as stored. *)
Definition orig_ax (r : t) : Z :=
  match r with
  | X86Regs u => X86Arch.orig_eax u
  | X64Regs u => X64Arch.orig_rax u
  end.

(** The entry [rv] makes [compare_one] record a mismatch. *)
Definition differs {S} (u1 u2 : S) (rv : RegisterValue S) : bool :=
  negb (nbytes rv =? 0) && negb (comparison_mask rv =? 0)
  && negb (Z.land (Z.lxor (load rv u1) (load rv u2)) (comparison_mask rv) =? 0).

(** Names under which the table lists the segment registers cs, ss, ds
    and es of an architecture. *)
Definition css_names (a : SupportedArch) : list string :=
  match a with
  | x86 => ["xcs"%string; "xss"%string; "xds"%string; "xes"%string]
  | x86_64 => ["cs"%string; "ss"%string; "ds"%string; "es"%string]
  end.

Definition fs_name (a : SupportedArch) : string :=
  match a with x86 => "xfs" | x86_64 => "fs" end.

Definition gs_name (a : SupportedArch) : string :=
  match a with x86 => "xgs" | x86_64 => "gs" end.

(** The [fs] and [gs] members as stored. *)
Definition fs_of (r : t) : Z :=
  match r with X86Regs u => X86Arch.xfs u | X64Regs u => X64Arch.fs u end.

Definition gs_of (r : t) : Z :=
  match r with X86Regs u => X86Arch.xgs u | X64Regs u => X64Arch.gs u end.

(** Register files used as examples below. *)
Definition x86_with_orig_eax (v : Z) : t :=
  X86Regs {| X86Arch.ebx := 0; X86Arch.ecx := 0; X86Arch.edx := 0;
             X86Arch.esi := 0; X86Arch.edi := 0; X86Arch.ebp := 0;
             X86Arch.eax := 0; X86Arch.xds := 0; X86Arch.xes := 0;
             X86Arch.xfs := 0; X86Arch.xgs := 0; X86Arch.orig_eax := v;
             X86Arch.eip := 0; X86Arch.xcs := 0; X86Arch.eflags := 0;
             X86Arch.esp := 0; X86Arch.xss := 0 |}.

Definition x86_with_segments (vcs vfs : Z) : t :=
  X86Regs {| X86Arch.ebx := 0; X86Arch.ecx := 0; X86Arch.edx := 0;
             X86Arch.esi := 0; X86Arch.edi := 0; X86Arch.ebp := 0;
             X86Arch.eax := 0; X86Arch.xds := 0; X86Arch.xes := 0;
             X86Arch.xfs := vfs; X86Arch.xgs := 0; X86Arch.orig_eax := 0;
             X86Arch.eip := 0; X86Arch.xcs := vcs; X86Arch.eflags := 0;
             X86Arch.esp := 0; X86Arch.xss := 0 |}.

(** *** The accessors of Registers.h

    A member of a register structure holds a bit pattern.  Reading an
    [int32_t] member gives [Int.s32] of it, casting it to [uint32_t]
    gives [Int.u32]; a [uint64_t] member reads as [Int.u64], and as
    [Int.s64] once converted to [intptr_t].  An assignment converts the
    value to the type of the member.  [uintptr_t] and [intptr_t] are
    64 bits wide. *)

(** [RR_GET_REG(x86case, x64case)], a [uintptr_t]. *)
Definition RR_GET_REG (x86case : X86Arch.user_regs_struct -> Z)
           (x64case : X64Arch.user_regs_struct -> Z) (r : t) : Z :=
  match r with
  | X86Regs u => Int.u32 (x86case u)
  | X64Regs u => Int.u64 (x64case u)
  end.

(** [RR_GET_REG_SIGNED(x86case, x64case)] converted to [intptr_t]. *)
Definition RR_GET_REG_SIGNED (x86case : X86Arch.user_regs_struct -> Z)
           (x64case : X64Arch.user_regs_struct -> Z) (r : t) : Z :=
  match r with
  | X86Regs u => Int.s32 (x86case u)
  | X64Regs u => Int.s64 (x64case u)
  end.

(** [RR_SET_REG(x86case, x64case, value)]; the members assigned to are
    given by their updates. *)
Definition RR_SET_REG
           (x86case : Z -> X86Arch.user_regs_struct -> X86Arch.user_regs_struct)
           (x64case : Z -> X64Arch.user_regs_struct -> X64Arch.user_regs_struct)
           (value : Z) (r : t) : t :=
  match r with
  | X86Regs u => X86Regs (x86case (Int.s32 value) u)
  | X64Regs u => X64Regs (x64case (Int.u64 value) u)
  end.

Definition ip : t -> Z := RR_GET_REG X86Arch.eip X64Arch.rip.
Definition set_ip : Z -> t -> t := RR_SET_REG X86Arch.set_eip X64Arch.set_rip.
Definition sp : t -> Z := RR_GET_REG X86Arch.esp X64Arch.rsp.
Definition set_sp : Z -> t -> t := RR_SET_REG X86Arch.set_esp X64Arch.set_rsp.

(** [intptr_t syscallno() const { return RR_GET_REG(eax, rax); }]. *)
Definition syscallno (r : t) : Z :=
  Int.s64 (RR_GET_REG X86Arch.eax X64Arch.rax r).
Definition set_syscallno : Z -> t -> t :=
  RR_SET_REG X86Arch.set_eax X64Arch.set_rax.

Definition syscall_result : t -> Z := RR_GET_REG X86Arch.eax X64Arch.rax.
Definition syscall_result_signed : t -> Z :=
  RR_GET_REG_SIGNED X86Arch.eax X64Arch.rax.
Definition set_syscall_result : Z -> t -> t :=
  RR_SET_REG X86Arch.set_eax X64Arch.set_rax.

(** Of errno.h and kernel_supplement.h. *)
Definition ERANGE : Z := 34.
Definition ERESTARTSYS : Z := 512.
Definition ERESTARTNOINTR : Z := 513.
Definition ERESTARTNOHAND : Z := 514.
Definition ERESTART_RESTARTBLOCK : Z := 516.

Definition syscall_failed (r : t) : bool :=
  let result := syscall_result_signed r in
  (- ERANGE <=? result) && (result <? 0).

(** The [switch] on [-syscall_result_signed()], an [intptr_t]. *)
Definition syscall_may_restart (r : t) : bool :=
  let v := Int.s64 (- syscall_result_signed r) in
  (v =? ERESTART_RESTARTBLOCK) || (v =? ERESTARTNOINTR)
  || (v =? ERESTARTNOHAND) || (v =? ERESTARTSYS).

Definition set_original_syscallno : Z -> t -> t :=
  RR_SET_REG X86Arch.set_orig_eax X64Arch.set_orig_rax.

Definition arg1 : t -> Z := RR_GET_REG X86Arch.ebx X64Arch.rdi.
Definition arg1_signed : t -> Z := RR_GET_REG_SIGNED X86Arch.ebx X64Arch.rdi.
Definition set_arg1 : Z -> t -> t := RR_SET_REG X86Arch.set_ebx X64Arch.set_rdi.

Definition arg2 : t -> Z := RR_GET_REG X86Arch.ecx X64Arch.rsi.
Definition arg2_signed : t -> Z := RR_GET_REG_SIGNED X86Arch.ecx X64Arch.rsi.
Definition set_arg2 : Z -> t -> t := RR_SET_REG X86Arch.set_ecx X64Arch.set_rsi.

Definition arg3 : t -> Z := RR_GET_REG X86Arch.edx X64Arch.rdx.
Definition arg3_signed : t -> Z := RR_GET_REG_SIGNED X86Arch.edx X64Arch.rdx.
Definition set_arg3 : Z -> t -> t := RR_SET_REG X86Arch.set_edx X64Arch.set_rdx.

Definition arg4 : t -> Z := RR_GET_REG X86Arch.esi X64Arch.r10.
Definition arg4_signed : t -> Z := RR_GET_REG_SIGNED X86Arch.esi X64Arch.r10.
Definition set_arg4 : Z -> t -> t := RR_SET_REG X86Arch.set_esi X64Arch.set_r10.

Definition arg5 : t -> Z := RR_GET_REG X86Arch.edi X64Arch.r8.
Definition arg5_signed : t -> Z := RR_GET_REG_SIGNED X86Arch.edi X64Arch.r8.
Definition set_arg5 : Z -> t -> t := RR_SET_REG X86Arch.set_edi X64Arch.set_r8.

Definition arg6 : t -> Z := RR_GET_REG X86Arch.ebp X64Arch.r9.
Definition arg6_signed : t -> Z := RR_GET_REG_SIGNED X86Arch.ebp X64Arch.r9.
Definition set_arg6 : Z -> t -> t := RR_SET_REG X86Arch.set_ebp X64Arch.set_r9.

(** [arg(int index)]; [None] is the failed assertion "Argument index out
    of range". *)
Definition arg (index : Z) (r : t) : option Z :=
  if index =? 1 then Some (arg1 r)
  else if index =? 2 then Some (arg2 r)
  else if index =? 3 then Some (arg3 r)
  else if index =? 4 then Some (arg4 r)
  else if index =? 5 then Some (arg5 r)
  else if index =? 6 then Some (arg6 r)
  else None.

(** [set_arg(int index, uintptr_t value)]. *)
Definition set_arg (index : Z) (value : Z) (r : t) : option t :=
  if index =? 1 then Some (set_arg1 value r)
  else if index =? 2 then Some (set_arg2 value r)
  else if index =? 3 then Some (set_arg3 value r)
  else if index =? 4 then Some (set_arg4 value r)
  else if index =? 5 then Some (set_arg5 value r)
  else if index =? 6 then Some (set_arg6 value r)
  else None.

(** [set_rdtsc_output(uint64_t value)]. *)
Definition set_rdtsc_output (value : Z) (r : t) : t :=
  let value := Int.u64 value in
  let r := RR_SET_REG X86Arch.set_eax X64Arch.set_rax
                      (Z.land value 4294967295) r in
  RR_SET_REG X86Arch.set_edx X64Arch.set_rdx (Z.shiftr value 32) r.

(** [r11()] and [set_r11()]; [None] is the failed assertion
    [arch() == x86_64]. *)
Definition r11 (r : t) : option Z :=
  match r with
  | X64Regs u => Some (Int.u64 (X64Arch.r11 u))
  | X86Regs _ => None
  end.

Definition set_r11 (value : Z) (r : t) : option t :=
  match r with
  | X64Regs u => Some (X64Regs (X64Arch.set_r11 (Int.u64 value) u))
  | X86Regs _ => None
  end.

Definition di : t -> Z := RR_GET_REG X86Arch.edi X64Arch.rdi.
Definition set_di : Z -> t -> t := RR_SET_REG X86Arch.set_edi X64Arch.set_rdi.
Definition si : t -> Z := RR_GET_REG X86Arch.esi X64Arch.rsi.
Definition set_si : Z -> t -> t := RR_SET_REG X86Arch.set_esi X64Arch.set_rsi.
Definition cx : t -> Z := RR_GET_REG X86Arch.ecx X64Arch.rcx.
Definition set_cx : Z -> t -> t := RR_SET_REG X86Arch.set_ecx X64Arch.set_rcx.
Definition bp : t -> Z := RR_GET_REG X86Arch.ebp X64Arch.rbp.

(** [Registers::flags]: on x86 the [int32_t] member converted to
    [uintptr_t]; on x86-64 the two [uint32_t] halves put together. *)
Definition flags (r : t) : Z :=
  match r with
  | X86Regs u => Int.u64 (Int.s32 (X86Arch.eflags u))
  | X64Regs u =>
      Z.lor (Int.u32 (X64Arch.eflags u))
            (Int.u64 (Z.shiftl (Int.u32 (X64Arch.eflags_upper u)) 32))
  end.

(** [Registers::set_flags]. *)
Definition set_flags (value : Z) (r : t) : t :=
  let value := Int.u64 value in
  match r with
  | X86Regs u => X86Regs (X86Arch.set_eflags (Int.s32 value) u)
  | X64Regs u =>
      X64Regs (X64Arch.set_eflags_upper (Int.u32 (Z.shiftr value 32))
                 (X64Arch.set_eflags (Int.u32 value) u))
  end.

Definition singlestep_flag (r : t) : bool :=
  negb (Z.land (flags r) X86_TF_FLAG =? 0).

(** [set_flags(flags() & ~X86_TF_FLAG)], the complement taken in
    [uintptr_t]. *)
Definition clear_singlestep_flag (r : t) : t :=
  set_flags (Z.land (flags r) (Int.u64 (Z.lnot X86_TF_FLAG))) r.

Definition df_flag (r : t) : bool :=
  negb (Z.land (flags r) X86_DF_FLAG =? 0).

(** [matches]: [compare_register_files] under [EXPECT_MISMATCHES]; [None]
    is the failed assertion that the architectures agree. *)
Definition matches (r other : t) : option bool :=
  option_map matched (compare_register_files r other EXPECT_MISMATCHES).

(** *** Conversion to and from the native [user_regs_struct] *)

Definition to_x86_narrow (r64 : Z) : Z := Int.s32 r64.
Definition to_x86_same (r64 : Z) : Z := Int.s32 r64.
Definition from_x86_narrow (r32 : Z) : Z := Int.u64 (Int.u32 r32).
Definition from_x86_narrow_signed (r32 : Z) : Z := Int.u64 (Int.s32 r32).
Definition from_x86_same (r32 : Z) : Z := Int.u32 r32.

(** [convert_x86<to_x86_narrow, to_x86_narrow, to_x86_same>]: every
    member of the x86 structure is assigned from the x86-64 one. *)
Definition convert_x86_to_x86 (x64 : X64Arch.user_regs_struct)
  : X86Arch.user_regs_struct :=
  {| X86Arch.eax := to_x86_narrow (X64Arch.rax x64);
     X86Arch.ebx := to_x86_narrow (X64Arch.rbx x64);
     X86Arch.ecx := to_x86_narrow (X64Arch.rcx x64);
     X86Arch.edx := to_x86_narrow (X64Arch.rdx x64);
     X86Arch.esi := to_x86_narrow (X64Arch.rsi x64);
     X86Arch.edi := to_x86_narrow (X64Arch.rdi x64);
     X86Arch.esp := to_x86_narrow (X64Arch.rsp x64);
     X86Arch.ebp := to_x86_narrow (X64Arch.rbp x64);
     X86Arch.eip := to_x86_narrow (X64Arch.rip x64);
     X86Arch.orig_eax := to_x86_narrow (X64Arch.orig_rax x64);
     X86Arch.eflags := to_x86_same (X64Arch.eflags x64);
     X86Arch.xcs := to_x86_same (X64Arch.cs x64);
     X86Arch.xds := to_x86_same (X64Arch.ds x64);
     X86Arch.xes := to_x86_same (X64Arch.es x64);
     X86Arch.xfs := to_x86_same (X64Arch.fs x64);
     X86Arch.xgs := to_x86_same (X64Arch.gs x64);
     X86Arch.xss := to_x86_same (X64Arch.ss x64) |}.

(** [convert_x86<from_x86_narrow, from_x86_narrow_signed, from_x86_same>]:
    the members of the x86-64 structure that are assigned; the others
    keep what [x64] holds. *)
Definition convert_x86_from_x86 (x86 : X86Arch.user_regs_struct)
           (x64 : X64Arch.user_regs_struct) : X64Arch.user_regs_struct :=
  {| X64Arch.r15 := X64Arch.r15 x64; X64Arch.r14 := X64Arch.r14 x64;
     X64Arch.r13 := X64Arch.r13 x64; X64Arch.r12 := X64Arch.r12 x64;
     X64Arch.rbp := from_x86_narrow (X86Arch.ebp x86);
     X64Arch.rbx := from_x86_narrow (X86Arch.ebx x86);
     X64Arch.r11 := X64Arch.r11 x64; X64Arch.r10 := X64Arch.r10 x64;
     X64Arch.r9 := X64Arch.r9 x64; X64Arch.r8 := X64Arch.r8 x64;
     X64Arch.rax := from_x86_narrow_signed (X86Arch.eax x86);
     X64Arch.rcx := from_x86_narrow (X86Arch.ecx x86);
     X64Arch.rdx := from_x86_narrow (X86Arch.edx x86);
     X64Arch.rsi := from_x86_narrow (X86Arch.esi x86);
     X64Arch.rdi := from_x86_narrow (X86Arch.edi x86);
     X64Arch.orig_rax := from_x86_narrow (X86Arch.orig_eax x86);
     X64Arch.rip := from_x86_narrow (X86Arch.eip x86);
     X64Arch.cs := from_x86_same (X86Arch.xcs x86);
     X64Arch.cs_upper := X64Arch.cs_upper x64;
     X64Arch.eflags := from_x86_same (X86Arch.eflags x86);
     X64Arch.eflags_upper := X64Arch.eflags_upper x64;
     X64Arch.rsp := from_x86_narrow (X86Arch.esp x86);
     X64Arch.ss := from_x86_same (X86Arch.xss x86);
     X64Arch.ss_upper := X64Arch.ss_upper x64;
     X64Arch.fs_base := X64Arch.fs_base x64;
     X64Arch.gs_base := X64Arch.gs_base x64;
     X64Arch.ds := from_x86_same (X86Arch.xds x86);
     X64Arch.ds_upper := X64Arch.ds_upper x64;
     X64Arch.es := from_x86_same (X86Arch.xes x86);
     X64Arch.es_upper := X64Arch.es_upper x64;
     X64Arch.fs := from_x86_same (X86Arch.xfs x86);
     X64Arch.fs_upper := X64Arch.fs_upper x64;
     X64Arch.gs := from_x86_same (X86Arch.xgs x86);
     X64Arch.gs_upper := X64Arch.gs_upper x64 |}.

(** [Registers::set_from_ptrace].  [native] is [NativeArch::arch()], the
    architecture rr is built for, and [ptrace_regs] a [user_regs_struct]
    of that architecture.  [None] is the failed assertion
    [arch() == x86 && NativeArch::arch() == x86_64]. *)
Definition set_from_ptrace (native : SupportedArch) (ptrace_regs : t)
           (r : t) : option t :=
  if negb (SupportedArch_eqb (arch ptrace_regs) native) then None
  else if SupportedArch_eqb (arch r) native then Some ptrace_regs
  else
    match r, ptrace_regs with
    | X86Regs _, X64Regs p => Some (X86Regs (convert_x86_to_x86 p))
    | _, _ => None
    end.

(** [Registers::get_ptrace]: the native [user_regs_struct]. *)
Definition get_ptrace (native : SupportedArch) (r : t) : option t :=
  if SupportedArch_eqb (arch r) native then Some r
  else
    match r, native with
    | X86Regs u, x86_64 =>
        Some (X64Regs (convert_x86_from_x86 u X64Arch.zero))
    | _, _ => None
    end.

(** Every member of an x86 register file holds an [int32_t] value, every
    member of an x86-64 one a value of its unsigned type. *)
Definition canonical32 (v : Z) : Prop := - 2 ^ 31 <= v < 2 ^ 31.

Definition canonical (r : t) : Prop :=
  match r with
  | X86Regs u =>
      Forall (fun f => canonical32 (f u))
        [X86Arch.ebx; X86Arch.ecx; X86Arch.edx; X86Arch.esi; X86Arch.edi;
         X86Arch.ebp; X86Arch.eax; X86Arch.xds; X86Arch.xes; X86Arch.xfs;
         X86Arch.xgs; X86Arch.orig_eax; X86Arch.eip; X86Arch.xcs;
         X86Arch.eflags; X86Arch.esp; X86Arch.xss]
  | X64Regs u => True
  end.

(** What [compare_registers_arch] looks at, member by member: the
    general-purpose registers, the instruction pointer and [fs], [gs] in
    full, the flags under [deterministic_eflags_mask], [orig_*ax] unless
    both values are negative and, on x86-64, the upper halves of the
    segment registers and the flags. *)
Definition same32 (a b : Z) : Prop := Int.u32 a = Int.u32 b.
Definition same64 (a b : Z) : Prop := Int.u64 a = Int.u64 b.

Definition same_flags (a b : Z) : Prop :=
  Z.land (Z.lxor (Int.u32 a) (Int.u32 b)) deterministic_eflags_mask = 0.

Definition x86_same (u1 u2 : X86Arch.user_regs_struct) : Prop :=
  Forall (fun f => same32 (f u1) (f u2))
    [X86Arch.eax; X86Arch.ecx; X86Arch.edx; X86Arch.ebx; X86Arch.esp;
     X86Arch.ebp; X86Arch.esi; X86Arch.edi; X86Arch.eip;
     X86Arch.xfs; X86Arch.xgs]
  /\ same_flags (X86Arch.eflags u1) (X86Arch.eflags u2)
  /\ ((X86Arch.orig_eax u1 < 0 /\ X86Arch.orig_eax u2 < 0)
      \/ X86Arch.orig_eax u1 = X86Arch.orig_eax u2).

Definition x64_same (u1 u2 : X64Arch.user_regs_struct) : Prop :=
  Forall (fun f => same64 (f u1) (f u2))
    [X64Arch.rax; X64Arch.rcx; X64Arch.rdx; X64Arch.rbx; X64Arch.rbp;
     X64Arch.rsi; X64Arch.rdi; X64Arch.r8; X64Arch.r9; X64Arch.r10;
     X64Arch.r11; X64Arch.r12; X64Arch.r13; X64Arch.r14; X64Arch.r15;
     X64Arch.rip]
  /\ same32 (X64Arch.fs u1) (X64Arch.fs u2)
  /\ same32 (X64Arch.gs u1) (X64Arch.gs u2)
  /\ same_flags (X64Arch.eflags u1) (X64Arch.eflags u2)
  /\ ((Int.s64 (X64Arch.orig_rax u1) < 0 /\ Int.s64 (X64Arch.orig_rax u2) < 0)
      \/ X64Arch.orig_rax u1 = X64Arch.orig_rax u2)
  /\ Forall (fun f => f u1 = f u2)
       [X64Arch.cs_upper; X64Arch.ds_upper; X64Arch.es_upper;
        X64Arch.fs_upper; X64Arch.gs_upper; X64Arch.ss_upper;
        X64Arch.eflags_upper].

Definition same_registers (r1 r2 : t) : Prop :=
  match r1, r2 with
  | X86Regs u1, X86Regs u2 => x86_same u1 u2
  | X64Regs u1, X64Regs u2 => x64_same u1 u2
  | _, _ => False
  end.

(** The width a syscall argument has in a register file. *)
Definition truncate (a : SupportedArch) (v : Z) : Z :=
  match a with x86 => Int.u32 v | x86_64 => Int.u64 v end.

End Registers.

(* ================================================================== *)
(** ** preload/preload.c: the syscall buffer *)

Module Preload.

(** What [preload_interface.h] (not among the sources at hand) supplies to
    preload.c: the helper [stored_record_size], the sizes of the two
    structures and of the buffer.  They are kept as parameters. *)
Record Interface : Type := {
  stored_record_size : Z -> Z;
  sizeof_syscallbuf_hdr : Z;
  sizeof_syscallbuf_record : Z;
  SYSCALLBUF_BUFFER_SIZE : Z;
  SYSCALLBUF_FDS_DISABLED_SIZE : Z
}.

(** [struct syscallbuf_hdr], the header of the ring. *)
Record syscallbuf_hdr : Type := {
  num_rec_bytes : Z;
  abort_commit : Z;
  notify_on_syscall_hook_exit : Z;
  locked : Z;
  desched_signal_may_be_relevant : Z
}.

(** [struct syscallbuf_record], the fixed part of a record. *)
Record syscallbuf_record : Type := {
  ret : Z;
  syscallno : Z;
  desched : Z;
  size : Z
}.

(** The places preload.c writes to in the shared buffer. *)
Inductive Field : Type :=
| hdr_num_rec_bytes
| hdr_abort_commit
| hdr_locked
| hdr_desched_signal_may_be_relevant
| rec_ret (rec : Z)
| rec_syscallno (rec : Z)
| rec_desched (rec : Z)
| rec_size (rec : Z).

Inductive IoctlCmd : Type := PERF_EVENT_IOC_ENABLE | PERF_EVENT_IOC_DISABLE.

(** What a run does, in program order: stores into the shared buffer and
    entries into the kernel. *)
Inductive Effect : Type :=
| Store (f : Field) (v : Z)
| Ioctl (fd : Z) (cmd : IoctlCmd)
| UntracedSyscall (no : Z)
| TracedSyscall (no : Z)
| LocalMemcpy (dst src n : Z)
| BreakpointCall (entry : Z).

(** The surroundings of the library: what the kernel answers, and whether
    the tracer, having seen the task descheduled inside the untraced
    syscall, sets [abort_commit] before the syscall returns. *)
Record Kernel : Type := {
  ioctl_result : IoctlCmd -> Z;
  syscall_result : Z -> Z;
  descheduled : bool
}.

Record State : Type := {
  buffer : Z;                      (* address of the buffer, 0 when absent *)
  hdr : syscallbuf_hdr;
  recs : Z -> syscallbuf_record;   (* a record, by the address it starts at *)
  syscallbuf_fds_disabled : Z -> bool;
  desched_counter_fd : Z;
  kernel : Kernel;
  trace : list Effect
}.

(** [fatal()] and a failed [assert] end the run. *)
Inductive Outcome (A : Type) : Type :=
| Done (a : A) (s : State)
| Fatal (s : State).
Arguments Done {A}.
Arguments Fatal {A}.

Definition M (A : Type) : Type := State -> Outcome A.

Definition mret {A} (a : A) : M A := fun s => Done a s.

Definition bind {A B} (m : M A) (k : A -> M B) : M B :=
  fun s => match m s with
           | Done a s' => k a s'
           | Fatal s' => Fatal s'
           end.

Notation "x <- m ;; k" := (bind m (fun x => k))
  (at level 61, m at next level, right associativity).
Notation "m ;;; k" := (bind m (fun _ => k))
  (at level 61, right associativity).

Definition fatal {A} : M A := fun s => Fatal s.

Definition assert (b : bool) : M unit :=
  if b then mret tt else fatal.

Definition get {A} (f : State -> A) : M A := fun s => Done (f s) s.

Definition emit (e : Effect) (s : State) : State :=
  {| buffer := buffer s; hdr := hdr s; recs := recs s;
     syscallbuf_fds_disabled := syscallbuf_fds_disabled s;
     desched_counter_fd := desched_counter_fd s; kernel := kernel s;
     trace := trace s ++ [e] |}.

Definition with_hdr (h : syscallbuf_hdr) (s : State) : State :=
  {| buffer := buffer s; hdr := h; recs := recs s;
     syscallbuf_fds_disabled := syscallbuf_fds_disabled s;
     desched_counter_fd := desched_counter_fd s; kernel := kernel s;
     trace := trace s |}.

Definition with_rec (a : Z) (r : syscallbuf_record) (s : State) : State :=
  {| buffer := buffer s; hdr := hdr s;
     recs := fun b => if b =? a then r else recs s b;
     syscallbuf_fds_disabled := syscallbuf_fds_disabled s;
     desched_counter_fd := desched_counter_fd s; kernel := kernel s;
     trace := trace s |}.

(** A store into the buffer: the memory changes and the store is noted. *)
Definition store (f : Field) (v : Z) : M unit := fun s =>
  let h := hdr s in
  let s' :=
    match f with
    | hdr_num_rec_bytes =>
        with_hdr {| num_rec_bytes := v; abort_commit := abort_commit h;
                    notify_on_syscall_hook_exit := notify_on_syscall_hook_exit h;
                    locked := locked h;
                    desched_signal_may_be_relevant :=
                      desched_signal_may_be_relevant h |} s
    | hdr_abort_commit =>
        with_hdr {| num_rec_bytes := num_rec_bytes h; abort_commit := v;
                    notify_on_syscall_hook_exit := notify_on_syscall_hook_exit h;
                    locked := locked h;
                    desched_signal_may_be_relevant :=
                      desched_signal_may_be_relevant h |} s
    | hdr_locked =>
        with_hdr {| num_rec_bytes := num_rec_bytes h;
                    abort_commit := abort_commit h;
                    notify_on_syscall_hook_exit := notify_on_syscall_hook_exit h;
                    locked := v;
                    desched_signal_may_be_relevant :=
                      desched_signal_may_be_relevant h |} s
    | hdr_desched_signal_may_be_relevant =>
        with_hdr {| num_rec_bytes := num_rec_bytes h;
                    abort_commit := abort_commit h;
                    notify_on_syscall_hook_exit := notify_on_syscall_hook_exit h;
                    locked := locked h;
                    desched_signal_may_be_relevant := v |} s
    | rec_ret a =>
        let r := recs s a in
        with_rec a {| ret := v; syscallno := syscallno r;
                      desched := desched r; size := size r |} s
    | rec_syscallno a =>
        let r := recs s a in
        with_rec a {| ret := ret r; syscallno := v;
                      desched := desched r; size := size r |} s
    | rec_desched a =>
        let r := recs s a in
        with_rec a {| ret := ret r; syscallno := syscallno r;
                      desched := v; size := size r |} s
    | rec_size a =>
        let r := recs s a in
        with_rec a {| ret := ret r; syscallno := syscallno r;
                      desched := desched r; size := v |} s
    end in
  Done tt (emit (Store f v) s').

(** [privileged_untraced_syscall3(SYS_ioctl, fd, cmd, 0)]. *)
Definition privileged_untraced_ioctl (fd : Z) (cmd : IoctlCmd) : M Z :=
  fun s => Done (ioctl_result (kernel s) cmd) (emit (Ioctl fd cmd) s).

(** [untraced_syscall*]: the syscall instruction that does not trap to the
    tracer.  If the task is descheduled inside it, the tracer records the
    syscall itself and sets [abort_commit]. *)
Definition untraced_syscall (no : Z) : M Z := fun s =>
  let s1 := emit (UntracedSyscall no) s in
  let h := hdr s1 in
  let s2 :=
    if descheduled (kernel s1)
    then with_hdr {| num_rec_bytes := num_rec_bytes h; abort_commit := 1;
                     notify_on_syscall_hook_exit := notify_on_syscall_hook_exit h;
                     locked := locked h;
                     desched_signal_may_be_relevant :=
                       desched_signal_may_be_relevant h |} s1
    else s1 in
  Done (syscall_result (kernel s) no) s2.

(** [traced_raw_syscall]: the syscall instruction that traps to the
    tracer. *)
Definition traced_raw_syscall (no : Z) : M Z := fun s =>
  Done (syscall_result (kernel s) no) (emit (TracedSyscall no) s).

Definition local_memcpy (dst src n : Z) : M unit := fun s =>
  Done tt (emit (LocalMemcpy dst src n) s).

Definition breakpoint_function (entry : Z) : M unit := fun s =>
  Done tt (emit (BreakpointCall entry) s).

Definition emit_all (evs : list Effect) (s : State) : State :=
  fold_left (fun s e => emit e s) evs s.

Definition memcpy_effect (c : Z * Z * Z) : Effect :=
  match c with (dst, src, n) => LocalMemcpy dst src n end.

(** Arithmetic on [void*] in the library as built for x86-64, where a
    pointer, a [size_t] and a [long] have 64 bits and an [int] has 32:
    the sum wraps around. *)
Definition ptr_add (p n : Z) : Z := Int.u64 (p + n).

Section WithInterface.

Variable I : Interface.

(** [buffer_last()]: [next_record(buffer_hdr())], the byte after the last
    committed record. *)
Definition buffer_last (s : State) : Z :=
  buffer s + sizeof_syscallbuf_hdr I + num_rec_bytes (hdr s).

Definition buffer_end (s : State) : Z :=
  buffer s + SYSCALLBUF_BUFFER_SIZE I.

Definition prep_syscall : M Z :=
  b <- get buffer ;;
  if b =? 0 then mret 0
  else
    l <- get (fun s => locked (hdr s)) ;;
    if negb (l =? 0) then mret 0
    else
      store hdr_locked 1 ;;;
      last <- get buffer_last ;;
      mret (last + sizeof_syscallbuf_record I).

Definition prep_syscall_for_fd (fd : Z) : M Z :=
  dis <- get (fun s => syscallbuf_fds_disabled s fd) ;;
  if (fd <? 0) || (fd >=? SYSCALLBUF_FDS_DISABLED_SIZE I) || dis
  then mret 0
  else prep_syscall.

Definition arm_desched_event : M unit :=
  fd <- get desched_counter_fd ;;
  r <- privileged_untraced_ioctl fd PERF_EVENT_IOC_ENABLE ;;
  if negb (r =? 0) then fatal else mret tt.

Definition disarm_desched_event : M unit :=
  fd <- get desched_counter_fd ;;
  r <- privileged_untraced_ioctl fd PERF_EVENT_IOC_DISABLE ;;
  if negb (r =? 0) then fatal else mret tt.

Definition MAY_BLOCK : Z := -1.
Definition WONT_BLOCK : Z := -2.

Definition start_commit_buffered_syscall (syscallno_ record_end blockness : Z)
  : M Z :=
  b <- get buffer ;;
  if b =? 0 then mret 0
  else
    record_start <- get buffer_last ;;
    let stored_end :=
      record_start + stored_record_size I (record_end - record_start) in
    let rec := record_start in
    if stored_end <? record_start + sizeof_syscallbuf_record I
    then mret 0
    else
      bend <- get buffer_end ;;
      if stored_end >? bend - sizeof_syscallbuf_record I
      then store hdr_locked 0 ;;; mret 0
      else
        store (rec_syscallno rec) syscallno_ ;;;
        store (rec_desched rec) (if MAY_BLOCK =? blockness then 1 else 0) ;;;
        store (rec_size rec) (record_end - record_start) ;;;
        d <- get (fun s => desched (recs s rec)) ;;
        (if negb (d =? 0)
         then store hdr_desched_signal_may_be_relevant 1 ;;;
              arm_desched_event
         else mret tt) ;;;
        mret 1.

Definition commit_raw_syscall (syscallno_ record_end ret_ : Z) : M Z :=
  record_start <- get buffer_last ;;
  let rec := record_start in
  assert (record_end >=? record_start) ;;;
  store (rec_size rec) (record_end - record_start) ;;;
  l <- get (fun s => locked (hdr s)) ;;
  assert (negb (l =? 0)) ;;;
  store hdr_desched_signal_may_be_relevant 0 ;;;
  no <- get (fun s => syscallno (recs s rec)) ;;
  (if negb (no =? syscallno_) then fatal else mret tt) ;;;
  ac <- get (fun s => abort_commit (hdr s)) ;;
  bp <- (if negb (ac =? 0)
         then
           store hdr_abort_commit 0 ;;;
           store (rec_ret rec) 0 ;;;
           mret None
         else
           store (rec_ret rec) ret_ ;;;
           sz <- get (fun s => size (recs s rec)) ;;
           n <- get (fun s => num_rec_bytes (hdr s)) ;;
           store hdr_num_rec_bytes (n + stored_record_size I sz) ;;;
           n' <- get (fun s => num_rec_bytes (hdr s)) ;;
           mret (Some (n' / 8))) ;;
  d <- get (fun s => desched (recs s rec)) ;;
  (if negb (d =? 0) then disarm_desched_event else mret tt) ;;;
  store hdr_locked 0 ;;;
  match bp with
  | Some entry => breakpoint_function entry
  | None => mret tt
  end ;;;
  mret ret_.

(** [copy_output_buffer]; [ret_size] is an [int]. *)
Definition copy_output_buffer (ret_size ptr buf buf2 : Z) : M Z :=
  if buf2 =? 0 then mret ptr
  else if ret_size <=? 0 then mret buf2
  else local_memcpy buf buf2 ret_size ;;; mret (ptr_add buf2 ret_size).

Definition SYS_read : Z := 0.

(** [sys_read], one of the wrappers of a syscall that may block.  The
    arguments are [call->args[0]], [call->args[1]] and [call->args[2]],
    which the wrapper takes as an [int], a pointer and a [size_t];
    [ptr += count] wraps around, and the result of the syscall, a [long],
    is passed to [copy_output_buffer] as an [int]. *)
Definition sys_read (fd buf count : Z) : M Z :=
  let syscallno_ := SYS_read in
  let fd := Int.s32 fd in
  let buf := Int.u64 buf in
  let count := Int.u64 count in
  ptr <- prep_syscall_for_fd fd ;;
  let buf2 := if negb (buf =? 0) && (count >? 0) then ptr else 0 in
  let ptr := if negb (buf =? 0) && (count >? 0) then ptr_add ptr count
             else ptr in
  ok <- start_commit_buffered_syscall syscallno_ ptr MAY_BLOCK ;;
  if ok =? 0 then traced_raw_syscall syscallno_
  else
    r <- untraced_syscall syscallno_ ;;
    ptr <- copy_output_buffer (Int.s32 r) ptr buf buf2 ;;
    commit_raw_syscall syscallno_ ptr r.

Fixpoint local_memcpys (l : list (Z * Z * Z)) : M unit :=
  match l with
  | [] => mret tt
  | (dst, src, n) :: l' => local_memcpy dst src n ;;; local_memcpys l'
  end.

(** The shape the wrappers of the may-block syscalls ([sys_poll],
    [sys_read], ...) share: [start_commit_buffered_syscall(.., MAY_BLOCK)],
    copies of input parameters into the record, the untraced syscall,
    copies of the outputs to the caller's buffers (chosen from the result),
    which also fix the end of the record, and [commit_raw_syscall]. *)
Definition may_block_syscall (syscallno_ record_end : Z)
           (inputs : list (Z * Z * Z))
           (outputs : Z -> list (Z * Z * Z) * Z) : M Z :=
  ok <- start_commit_buffered_syscall syscallno_ record_end MAY_BLOCK ;;
  if ok =? 0 then traced_raw_syscall syscallno_
  else
    local_memcpys inputs ;;;
    r <- untraced_syscall syscallno_ ;;
    local_memcpys (fst (outputs r)) ;;;
    commit_raw_syscall syscallno_ (snd (outputs r)) r.

(** [sys_read] in that shape: the record end and the copies that
    [copy_output_buffer] chooses, for the pointer [buf], the [size_t]
    [count] and the result [r] of the syscall. *)
Definition sys_read_record_end (buf count ptr : Z) : Z :=
  if negb (buf =? 0) && (count >? 0) then ptr_add ptr count else ptr.

Definition sys_read_outputs (buf count ptr : Z) (r : Z)
  : list (Z * Z * Z) * Z :=
  let buf2 := if negb (buf =? 0) && (count >? 0) then ptr else 0 in
  let ret_size := Int.s32 r in
  if buf2 =? 0 then ([], sys_read_record_end buf count ptr)
  else if ret_size <=? 0 then ([], buf2)
  else ([(buf, buf2, ret_size)], ptr_add buf2 ret_size).

(** The effects of a [commit_raw_syscall] that returns, in program
    order. *)
Definition commit_effects (record_end ret_ : Z) (s : State) : list Effect :=
  let rec := buffer_last s in
  let sz := record_end - rec in
  let n := num_rec_bytes (hdr s) in
  [Store (rec_size rec) sz; Store hdr_desched_signal_may_be_relevant 0]
  ++ (if abort_commit (hdr s) =? 0
      then [Store (rec_ret rec) ret_;
            Store hdr_num_rec_bytes (n + stored_record_size I sz)]
      else [Store hdr_abort_commit 0; Store (rec_ret rec) 0])
  ++ (if desched (recs s rec) =? 0 then []
      else [Ioctl (desched_counter_fd s) PERF_EVENT_IOC_DISABLE])
  ++ [Store hdr_locked 0]
  ++ (if abort_commit (hdr s) =? 0
      then [BreakpointCall ((n + stored_record_size I sz) / 8)] else []).

Definition SYS_close : Z := 3.

(** [sys_close], one of the wrappers of a syscall that does not block. *)
Definition sys_close (fd : Z) : M Z :=
  let syscallno_ := SYS_close in
  ptr <- prep_syscall_for_fd fd ;;
  ok <- start_commit_buffered_syscall syscallno_ ptr WONT_BLOCK ;;
  if ok =? 0 then traced_raw_syscall syscallno_
  else
    r <- untraced_syscall syscallno_ ;;
    commit_raw_syscall syscallno_ ptr r.

End WithInterface.

(** The entries into the kernel for the wrapped syscall itself, traced or
    untraced, among the effects of a run. *)
Definition syscall_entry (e : Effect) : bool :=
  match e with
  | UntracedSyscall _ => true
  | TracedSyscall _ => true
  | _ => false
  end.

(** The state a run ends in, whether it returns or dies in [fatal()]. *)
Definition final {A} (o : Outcome A) : State :=
  match o with
  | Done _ s => s
  | Fatal s => s
  end.

(** The steps of the desched protocol among the effects of a run. *)
Definition desched_step (e : Effect) : bool :=
  match e with
  | Store hdr_desched_signal_may_be_relevant _ => true
  | Ioctl _ _ => true
  | UntracedSyscall _ => true
  | _ => false
  end.

(** An interface with records rounded up to eight bytes, and a state to
    run examples on. *)
Definition example_interface : Interface :=
  {| stored_record_size := fun n => Z.land (n + 7) (Z.lnot 7);
     sizeof_syscallbuf_hdr := 8;
     sizeof_syscallbuf_record := 16;
     SYSCALLBUF_BUFFER_SIZE := 4096;
     SYSCALLBUF_FDS_DISABLED_SIZE := 1024 |}.

Definition example_kernel (desch : bool) : Kernel :=
  {| ioctl_result := fun _ => 0;
     syscall_result := fun _ => 5;
     descheduled := desch |}.

Definition example_state (desch : bool) (lock abort : Z) : State :=
  {| buffer := 65536;
     hdr := {| num_rec_bytes := 0; abort_commit := abort;
               notify_on_syscall_hook_exit := 0; locked := lock;
               desched_signal_may_be_relevant := 0 |};
     recs := fun _ => {| ret := 0; syscallno := 0; desched := 1; size := 0 |};
     syscallbuf_fds_disabled := fun _ => false;
     desched_counter_fd := 7;
     kernel := example_kernel desch;
     trace := [] |}.

(** The example state once [prep_syscall] has locked the buffer. *)
Definition example_locked_state : State := example_state false 1 0.

End Preload.

(* ================================================================== *)
(** ** Event.h, ExtraRegisters.h, TraceStream.h, TraceStream.cc *)

Module Trace.

Inductive EventType : Type :=
| EV_UNASSIGNED | EV_SENTINEL | EV_NOOP | EV_DESCHED
| EV_EXIT | EV_EXIT_SIGHANDLER | EV_INTERRUPTED_SYSCALL_NOT_RESTARTED
| EV_SCHED | EV_SEGV_RDTSC | EV_SYSCALLBUF_FLUSH
| EV_SYSCALLBUF_ABORT_COMMIT | EV_SYSCALLBUF_RESET | EV_PATCH_SYSCALL
| EV_GROW_MAP | EV_TRACE_TERMINATION | EV_UNSTABLE_EXIT
| EV_SIGNAL | EV_SIGNAL_DELIVERY | EV_SIGNAL_HANDLER
| EV_SYSCALL | EV_SYSCALL_INTERRUPTION
| EV_LAST.

Inductive HasExecInfo : Type := NO_EXEC_INFO | HAS_EXEC_INFO.

(** [union EncodedEvent], by its bit fields. *)
Record EncodedEvent : Type := {
  e_type : EventType;
  e_is_syscall_entry : bool;
  e_has_exec_info : HasExecInfo;
  e_arch : SupportedArch;
  e_data : Z
}.

Record BaseEvent : Type := {
  has_exec_info : HasExecInfo;
  arch_ : SupportedArch
}.

(** The members of [siginfo_t] that Event.h uses. *)
Record siginfo_t : Type := { si_signo : Z; si_addr : Z }.

Inductive SignalDeterministic : Type :=
| NONDETERMINISTIC_SIG | DETERMINISTIC_SIG.

Record SignalEvent : Type := {
  siginfo : siginfo_t;
  deterministic : SignalDeterministic
}.

Inductive SyscallState : Type :=
| NO_SYSCALL | ENTERING_SYSCALL | PROCESSING_SYSCALL | EXITING_SYSCALL.

Record SyscallEvent : Type := {
  state : SyscallState;
  number : Z;
  is_restart : bool
}.

(** [struct Event]: the type tag, the [BaseEvent] every variant starts
    with, and the members the signal and syscall variants add.  (In the
    source the variants share storage; only the one the tag selects is
    meaningful.) *)
Record Event : Type := {
  event_type : EventType;
  base : BaseEvent;
  signal : SignalEvent;
  syscall : SyscallEvent
}.

Definition SIGILL : Z := 4.
Definition SIGTRAP : Z := 5.
Definition SIGBUS : Z := 7.
Definition SIGFPE : Z := 8.
Definition SIGSEGV : Z := 11.

(** The signals for which [si_addr] is the payload. *)
Definition carries_addr (signo : Z) : bool :=
  (signo =? SIGILL) || (signo =? SIGFPE) || (signo =? SIGSEGV)
  || (signo =? SIGBUS) || (signo =? SIGTRAP).

(** [SignalEvent::signal_data]. *)
Definition signal_data (sig : SignalEvent) : Z :=
  if carries_addr (si_signo (siginfo sig)) then si_addr (siginfo sig) else 0.

(** [SignalEvent::set_signal_data]. *)
Definition set_signal_data (d : Z) (sig : SignalEvent) : SignalEvent :=
  if carries_addr (si_signo (siginfo sig))
  then {| siginfo := {| si_signo := si_signo (siginfo sig); si_addr := d |};
          deterministic := deterministic sig |}
  else sig.

Definition with_signal (sig : SignalEvent) (e : Event) : Event :=
  {| event_type := event_type e; base := base e; signal := sig;
     syscall := syscall e |}.

(** [Event::has_exec_info] and [Event::arch]. *)
Definition Event_has_exec_info (e : Event) : HasExecInfo :=
  has_exec_info (base e).

Definition Event_arch (e : Event) : SupportedArch := arch_ (base e).

(** Modelled from the spec: [Event::is_signal_event] and
    [Event::is_syscall_event] are defined in Event.cc, which is not among
    the sources.  The spec's events SIGNAL and SYSCALL are, after the
    comments of [enum EventType], the types that use the signal and the
    syscall variant. *)
Definition is_signal_event (e : Event) : bool :=
  match event_type e with
  | EV_SIGNAL | EV_SIGNAL_DELIVERY | EV_SIGNAL_HANDLER => true
  | _ => false
  end.

Definition is_syscall_event (e : Event) : bool :=
  match event_type e with
  | EV_SYSCALL | EV_SYSCALL_INTERRUPTION => true
  | _ => false
  end.

(** [Event::DET_SIGNAL_BIT]. *)
Definition DET_SIGNAL_BIT : Z := 128.

(** What TraceStream.cc takes from files that are not among the sources:
    the type [PerfCounters::Extra] with the value a default-constructed
    frame holds, and the two directions of the event encoding,
    [Event::encode] and the constructor [Event(EncodedEvent)] of
    Event.cc. *)
Record Externals : Type := {
  Extra : Type;
  Extra_default : Extra;
  encode : Event -> EncodedEvent;
  decode : EncodedEvent -> Event;
  (* the events [encode] is meant for *)
  encodable : Event -> Prop
}.

(** What the round trip needs of the encoding: decoding an encoded event
    gives back its exec-info flag, its architecture, whether it is a
    signal event and, for a signal event, whether the signal is one that
    carries an address; encoding is idempotent through decoding and does
    not look at [si_addr]. *)
Record lawful (X : Externals) : Prop := {
  decode_has_exec_info : forall e, encodable X e ->
    Event_has_exec_info (decode X (encode X e)) = Event_has_exec_info e;
  decode_arch : forall e, encodable X e ->
    Event_arch (decode X (encode X e)) = Event_arch e;
  decode_is_signal : forall e, encodable X e ->
    is_signal_event (decode X (encode X e)) = is_signal_event e;
  decode_signo : forall e, encodable X e ->
    is_signal_event e = true ->
    carries_addr (si_signo (siginfo (signal (decode X (encode X e)))))
    = carries_addr (si_signo (siginfo (signal e)));
  encode_decode : forall e, encodable X e ->
    encode X (decode X (encode X e)) = encode X e;
  encode_si_addr : forall e d,
    encode X (with_signal (set_signal_data d (signal e)) e) = encode X e
}.

(** ExtraRegisters.h.  [arch_] is [None] for [SupportedArch(-1)], the
    default of the constructor. *)
Module ExtraRegisters.

Inductive Format : Type := NONE | XSAVE.

Record t : Type := {
  format_ : Format;
  arch_ : option SupportedArch;
  data_ : list Z
}.

Definition create (arch : option SupportedArch) : t :=
  {| format_ := NONE; arch_ := arch; data_ := [] |}.

Definition set_to_raw_data (format : Format) (consume_data : list Z) (r : t)
  : t :=
  {| format_ := format; arch_ := arch_ r; data_ := consume_data |}.

Definition set_arch (a : SupportedArch) (r : t) : t :=
  {| format_ := format_ r; arch_ := Some a; data_ := data_ r |}.

(** [int data_size() const { return data_.size(); }]. *)
Definition data_size (r : t) : Z := Int.s32 (Z.of_nat (List.length (data_ r))).

Definition Format_to_char (f : Format) : Z :=
  match f with NONE => 0 | XSAVE => 1 end.

(** [(ExtraRegisters::Format)extra_reg_format]. *)
Definition Format_of_char (c : Z) : Format :=
  if c =? 0 then NONE else XSAVE.

End ExtraRegisters.

Section WithExternals.

Variable X : Externals.

(** A [Registers] object; [None] is the default-constructed one, with
    [SupportedArch(-1)] and all members zero. *)
Definition Regs : Type := option Registers.t.

(** TraceFrame.h is not among the sources; the members are those
    TraceStream.cc reads and writes. *)
Record TraceFrame : Type := {
  global_time : Z;
  tid_ : Z;
  ev : Event;
  ticks_ : Z;
  monotonic_time_ : Z;
  recorded_regs : Regs;
  extra_perf : Extra X;
  recorded_extra_regs : ExtraRegisters.t
}.

(** The five-argument constructor of [TraceFrame]. *)
Definition TraceFrame_create (time tid : Z) (e : Event) (ticks mono : Z)
  : TraceFrame :=
  {| global_time := time; tid_ := tid; ev := e; ticks_ := ticks;
     monotonic_time_ := mono; recorded_regs := None;
     extra_perf := Extra_default X;
     recorded_extra_regs := ExtraRegisters.create None |}.

(** [struct BasicInfo]. *)
Record BasicInfo : Type := {
  bi_global_time : Z;
  bi_tid_ : Z;
  bi_ev : EncodedEvent;
  bi_ticks_ : Z;
  bi_monotonic_sec : Z
}.

(** The [events] substream.  [operator<<] of CompressedWriter writes the
    object representation of its argument and [operator>>] of
    CompressedReader reads one back; [write] and [read] do the same for a
    run of bytes.  The substream is kept as the sequence of the objects
    written. *)
Inductive Item : Type :=
| ItemBasicInfo (b : BasicInfo)
| ItemRegisters (r : Regs)
| ItemExtra (e : Extra X)
| ItemChar (c : Z)
| ItemInt (n : Z)
| ItemUint64 (v : Z)
| ItemBytes (bytes : list Z).

(** [TraceWriter]: the [events] substream and the global time. *)
Record TraceWriter : Type := {
  w_events : list Item;
  w_global_time : Z
}.

(** A writer as its constructor leaves it: nothing written, time 1. *)
Definition TraceWriter_create : TraceWriter :=
  {| w_events := []; w_global_time := 1 |}.

Definition put (i : Item) (w : TraceWriter) : TraceWriter :=
  {| w_events := w_events w ++ [i]; w_global_time := w_global_time w |}.

Definition w_tick_time (w : TraceWriter) : TraceWriter :=
  {| w_events := w_events w; w_global_time := w_global_time w + 1 |}.

(** [TraceWriter::write_frame] on a stream that stays good. *)
Definition write_frame (frame : TraceFrame) (w : TraceWriter) : TraceWriter :=
  let basic_info :=
    {| bi_global_time := global_time frame; bi_tid_ := tid_ frame;
       bi_ev := encode X (ev frame); bi_ticks_ := ticks_ frame;
       bi_monotonic_sec := monotonic_time_ frame |} in
  let w := put (ItemBasicInfo basic_info) w in
  let w :=
    match Event_has_exec_info (ev frame) with
    | HAS_EXEC_INFO =>
        let w := put (ItemRegisters (recorded_regs frame)) w in
        let w := put (ItemExtra (extra_perf frame)) w in
        let extra_reg_bytes :=
          ExtraRegisters.data_size (recorded_extra_regs frame) in
        let extra_reg_format :=
          ExtraRegisters.Format_to_char
            (ExtraRegisters.format_ (recorded_extra_regs frame)) in
        let w := put (ItemChar extra_reg_format) w in
        let w := put (ItemInt extra_reg_bytes) w in
        if extra_reg_bytes >? 0
        then put (ItemBytes
                    (firstn (Z.to_nat extra_reg_bytes)
                            (ExtraRegisters.data_ (recorded_extra_regs frame))))
                 w
        else w
    | NO_EXEC_INFO => w
    end in
  let w :=
    if is_signal_event (ev frame)
    then put (ItemUint64 (signal_data (signal (ev frame)))) w
    else w in
  w_tick_time w.

(** [TraceReader]: the [events] substream, what of it is still unread, and
    the global time. *)
Record TraceReader : Type := {
  trace_dir : string;
  r_events : list Item;
  r_unread : list Item;
  r_global_time : Z
}.

Definition r_tick_time (r : TraceReader) : TraceReader :=
  {| trace_dir := trace_dir r; r_events := r_events r;
     r_unread := r_unread r; r_global_time := r_global_time r + 1 |}.

(** Reading one object off the substream; [None] when there is none left
    or it is not of the kind asked for. *)
Definition take (r : TraceReader) : option (Item * TraceReader) :=
  match r_unread r with
  | [] => None
  | i :: rest =>
      Some (i, {| trace_dir := trace_dir r; r_events := r_events r;
                  r_unread := rest; r_global_time := r_global_time r |})
  end.

Definition with_regs_perf (regs : Regs) (perf : Extra X) (f : TraceFrame)
  : TraceFrame :=
  {| global_time := global_time f; tid_ := tid_ f; ev := ev f;
     ticks_ := ticks_ f; monotonic_time_ := monotonic_time_ f;
     recorded_regs := regs; extra_perf := perf;
     recorded_extra_regs := recorded_extra_regs f |}.

Definition with_extra_regs (x : ExtraRegisters.t) (f : TraceFrame)
  : TraceFrame :=
  {| global_time := global_time f; tid_ := tid_ f; ev := ev f;
     ticks_ := ticks_ f; monotonic_time_ := monotonic_time_ f;
     recorded_regs := recorded_regs f; extra_perf := extra_perf f;
     recorded_extra_regs := x |}.

Definition with_ev (e : Event) (f : TraceFrame) : TraceFrame :=
  {| global_time := global_time f; tid_ := tid_ f; ev := e;
     ticks_ := ticks_ f; monotonic_time_ := monotonic_time_ f;
     recorded_regs := recorded_regs f; extra_perf := extra_perf f;
     recorded_extra_regs := recorded_extra_regs f |}.

(** The part of [read_frame] under [has_exec_info() == HAS_EXEC_INFO]. *)
Definition read_exec_info (frame : TraceFrame) (r : TraceReader)
  : option (TraceFrame * TraceReader) :=
  match take r with
  | Some (ItemRegisters regs, r) =>
    match take r with
    | Some (ItemExtra perf, r) =>
      let frame := with_regs_perf regs perf frame in
      match take r with
      | Some (ItemChar extra_reg_format, r) =>
        match take r with
        | Some (ItemInt extra_reg_bytes, r) =>
          if extra_reg_bytes >? 0 then
            match take r with
            | Some (ItemBytes data, r) =>
              if Z.of_nat (List.length data) =? extra_reg_bytes then
                let x := ExtraRegisters.set_arch (Event_arch (ev frame))
                           (recorded_extra_regs frame) in
                let x := ExtraRegisters.set_to_raw_data
                           (ExtraRegisters.Format_of_char extra_reg_format)
                           data x in
                Some (with_extra_regs x frame, r)
              else None
            | _ => None
            end
          else
            (* assert(extra_reg_format == ExtraRegisters::NONE) *)
            if extra_reg_format
               =? ExtraRegisters.Format_to_char ExtraRegisters.NONE
            then Some (with_extra_regs
                         (ExtraRegisters.create (Some (Event_arch (ev frame))))
                         frame, r)
            else None
        | _ => None
        end
      | _ => None
      end
    | _ => None
    end
  | _ => None
  end.

(** [TraceReader::read_frame].  [None] stands for a failed assertion and
    for a substream that ends or holds something else than what is read. *)
Definition read_frame (r : TraceReader) : option (TraceFrame * TraceReader) :=
  match take r with
  | Some (ItemBasicInfo basic_info, r) =>
    let frame :=
      TraceFrame_create (bi_global_time basic_info) (bi_tid_ basic_info)
                        (decode X (bi_ev basic_info)) (bi_ticks_ basic_info)
                        (bi_monotonic_sec basic_info) in
    let after_exec_info :=
      match Event_has_exec_info (ev frame) with
      | HAS_EXEC_INFO => read_exec_info frame r
      | NO_EXEC_INFO => Some (frame, r)
      end in
    match after_exec_info with
    | Some (frame, r) =>
      let after_signal :=
        if is_signal_event (ev frame) then
          match take r with
          | Some (ItemUint64 signal_data_, r) =>
            Some (with_ev (with_signal
                             (set_signal_data signal_data_
                                              (signal (ev frame)))
                             (ev frame)) frame, r)
          | _ => None
          end
        else Some (frame, r) in
      match after_signal with
      | Some (frame, r) =>
        let r := r_tick_time r in
        (* assert(time() == frame.time()) *)
        if r_global_time r =? global_time frame then Some (frame, r)
        else None
      | None => None
      end
    | None => None
    end
  | _ => None
  end.

(** [TraceReader::rewind]. *)
Definition rewind (r : TraceReader) : TraceReader :=
  {| trace_dir := trace_dir r; r_events := r_events r;
     r_unread := r_events r; r_global_time := 0 |}.

(** A reader on the substream a writer has produced, as the constructor
    leaves it once the version check has passed: nothing read, time 0. *)
Definition reader_on (dir : string) (w : TraceWriter) : TraceReader :=
  {| trace_dir := dir; r_events := w_events w; r_unread := w_events w;
     r_global_time := 0 |}.

Definition mk_reader (dir : string) (all unread : list Item) (t : Z)
  : TraceReader :=
  {| trace_dir := dir; r_events := all; r_unread := unread;
     r_global_time := t |}.

Definition write_frames (frames : list TraceFrame) (w : TraceWriter)
  : TraceWriter :=
  fold_left (fun w f => write_frame f w) frames w.

(** [n] calls of [read_frame]. *)
Fixpoint read_frames (n : nat) (r : TraceReader)
  : option (list TraceFrame * TraceReader) :=
  match n with
  | O => Some ([], r)
  | S n' =>
      match read_frame r with
      | Some (f, r') =>
          match read_frames n' r' with
          | Some (fs, r'') => Some (f :: fs, r'')
          | None => None
          end
      | None => None
      end
  end.

(** A trace frame as the spec's data model has it: event time, tid,
    encoded event, ticks, monotonic time; registers, extra perf values
    and extra registers when the event has exec info; the signal payload
    when it is a signal event. *)
Record FrameView : Type := {
  v_time : Z;
  v_tid : Z;
  v_event : EncodedEvent;
  v_ticks : Z;
  v_monotonic : Z;
  v_exec_info : option (Regs * Extra X * ExtraRegisters.t);
  v_signal : option Z
}.

Definition view (f : TraceFrame) : FrameView :=
  {| v_time := global_time f; v_tid := tid_ f; v_event := encode X (ev f);
     v_ticks := ticks_ f; v_monotonic := monotonic_time_ f;
     v_exec_info :=
       match Event_has_exec_info (ev f) with
       | HAS_EXEC_INFO =>
           Some (recorded_regs f, extra_perf f, recorded_extra_regs f)
       | NO_EXEC_INFO => None
       end;
     v_signal :=
       if is_signal_event (ev f) then Some (signal_data (signal (ev f)))
       else None |}.

(** The extra registers of a frame as a recording task hands them over:
    they carry the architecture of the event, they are of format NONE
    when they hold no data, and the data fit an [int] count. *)
Definition extra_regs_ok (f : TraceFrame) : Prop :=
  Event_has_exec_info (ev f) = HAS_EXEC_INFO ->
  ExtraRegisters.arch_ (recorded_extra_regs f) = Some (Event_arch (ev f))
  /\ (ExtraRegisters.data_ (recorded_extra_regs f) = [] ->
      ExtraRegisters.format_ (recorded_extra_regs f) = ExtraRegisters.NONE)
  /\ Z.of_nat (List.length (ExtraRegisters.data_ (recorded_extra_regs f)))
     < 2 ^ 31.

(** What the round trip asks of a frame: its event is one [encode] is
    meant for, and its extra registers are as [extra_regs_ok] says. *)
Definition recordable (f : TraceFrame) : Prop :=
  encodable X (ev f) /\ extra_regs_ok f.

(** The frames carry the event times [t], [t+1], ... in order. *)
Fixpoint numbered_from (t : Z) (frames : list TraceFrame) : Prop :=
  match frames with
  | [] => True
  | f :: rest => global_time f = t /\ numbered_from (t + 1) rest
  end.

(** The items [write_frame] appends for a frame. *)
Definition basic_info_of (frame : TraceFrame) : BasicInfo :=
  {| bi_global_time := global_time frame; bi_tid_ := tid_ frame;
     bi_ev := encode X (ev frame); bi_ticks_ := ticks_ frame;
     bi_monotonic_sec := monotonic_time_ frame |}.

Definition extra_regs_items (x : ExtraRegisters.t) : list Item :=
  [ItemChar (ExtraRegisters.Format_to_char (ExtraRegisters.format_ x));
   ItemInt (ExtraRegisters.data_size x)]
  ++ (if ExtraRegisters.data_size x >? 0
      then [ItemBytes (firstn (Z.to_nat (ExtraRegisters.data_size x))
                              (ExtraRegisters.data_ x))]
      else []).

Definition exec_info_items (frame : TraceFrame) : list Item :=
  match Event_has_exec_info (ev frame) with
  | HAS_EXEC_INFO =>
      [ItemRegisters (recorded_regs frame); ItemExtra (extra_perf frame)]
      ++ extra_regs_items (recorded_extra_regs frame)
  | NO_EXEC_INFO => []
  end.

Definition signal_items (frame : TraceFrame) : list Item :=
  if is_signal_event (ev frame)
  then [ItemUint64 (signal_data (signal (ev frame)))] else [].

Definition frame_items (frame : TraceFrame) : list Item :=
  ItemBasicInfo (basic_info_of frame)
  :: exec_info_items frame ++ signal_items frame.

End WithExternals.

Arguments global_time {X}.
Arguments tid_ {X}.
Arguments ev {X}.
Arguments ticks_ {X}.
Arguments monotonic_time_ {X}.
Arguments recorded_regs {X}.
Arguments extra_perf {X}.
Arguments recorded_extra_regs {X}.
Arguments ItemBasicInfo {X}.
Arguments ItemRegisters {X}.
Arguments ItemExtra {X}.
Arguments ItemChar {X}.
Arguments ItemInt {X}.
Arguments ItemUint64 {X}.
Arguments ItemBytes {X}.
Arguments w_events {X}.
Arguments w_global_time {X}.
Arguments put {X}.
Arguments w_tick_time {X}.
Arguments write_frame {X}.
Arguments trace_dir {X}.
Arguments r_events {X}.
Arguments r_unread {X}.
Arguments r_global_time {X}.
Arguments r_tick_time {X}.
Arguments take {X}.
Arguments with_regs_perf {X}.
Arguments with_extra_regs {X}.
Arguments with_ev {X}.
Arguments read_exec_info {X}.
Arguments read_frame {X}.
Arguments rewind {X}.
Arguments reader_on {X}.
Arguments write_frames {X}.
Arguments read_frames {X}.
Arguments v_time {X}.
Arguments v_tid {X}.
Arguments v_event {X}.
Arguments v_ticks {X}.
Arguments v_monotonic {X}.
Arguments v_exec_info {X}.
Arguments v_signal {X}.
Arguments view {X}.
Arguments extra_regs_ok {X}.
Arguments numbered_from {X}.
Arguments frame_items {X}.
Arguments mk_reader {X}.
Arguments recordable {X}.
Arguments basic_info_of {X}.
Arguments extra_regs_items {X}.
Arguments exec_info_items {X}.
Arguments signal_items {X}.

(** [#define TRACE_VERSION 41], and [EX_DATAERR] of <sysexits.h>. *)
Definition TRACE_VERSION : Z := 41.
Definition EX_DATAERR : Z := 65.

(** [std::istream::operator>>(int&)] on the contents of a file: leading
    white space is skipped, an optional sign and decimal digits are read,
    whatever follows is left.  The result is the value and [failbit]: with
    no digit the value is 0 and the extraction fails; a value outside
    [int] is clamped and the extraction fails. *)
Definition isspace (c : ascii) : bool :=
  let n := Z.of_nat (nat_of_ascii c) in
  (n =? 32) || ((9 <=? n) && (n <=? 13)).

Definition digit_value (c : ascii) : option Z :=
  let n := Z.of_nat (nat_of_ascii c) in
  if (48 <=? n) && (n <=? 57) then Some (n - 48) else None.

Fixpoint skip_space (s : string) : string :=
  match s with
  | String c rest => if isspace c then skip_space rest else s
  | EmptyString => s
  end.

(** The digits at the head of [s]: their value after [acc], and whether
    there was any. *)
Fixpoint read_digits (s : string) (acc : Z) (any : bool) : Z * bool :=
  match s with
  | String c rest =>
      match digit_value c with
      | Some d => read_digits rest (10 * acc + d) true
      | None => (acc, any)
      end
  | EmptyString => (acc, any)
  end.

Definition INT_MAX : Z := 2 ^ 31 - 1.
Definition INT_MIN : Z := - 2 ^ 31.

Definition extract_int (s : string) : Z * bool :=
  let s := skip_space s in
  let '(negative, s) :=
    match s with
    | String "-"%char rest => (true, rest)
    | String "+"%char rest => (false, rest)
    | _ => (false, s)
    end in
  let '(magnitude, any) := read_digits s 0 false in
  if negb any then (0, true)
  else
    let v := if negative then - magnitude else magnitude in
    if v >? INT_MAX then (INT_MAX, true)
    else if v <? INT_MIN then (INT_MIN, true)
    else (v, false).

(** What the constructor of [TraceReader] prints on [stderr]: which of its
    two texts, and the arguments [fprintf] fills it with.  The first text
    begins "rr: error: Version file for recorded trace `%s' not found.",
    the second "rr: error: Recorded trace `%s' has an incompatible version
    %d; expected %d.". *)
Inductive PrintfArg : Type :=
| ArgString (s : string)
| ArgInt (n : Z).

Inductive Text : Type :=
| VERSION_FILE_NOT_FOUND
| INCOMPATIBLE_VERSION.

Record Message : Type := {
  text : Text;
  args : list PrintfArg
}.

(** The message names the file [path]; the message names the version the
    engine expects. *)
Definition names_file (path : string) (m : Message) : Prop :=
  In (ArgString path) (args m).

Definition names_expected_version (m : Message) : Prop :=
  In (ArgInt TRACE_VERSION) (args m).

(** The files of a trace directory that the constructor looks at; [None]
    is a file that cannot be opened. *)
Record TraceFiles (X : Externals) : Type := {
  version_file : option string;
  args_env_file : option string;
  events_file : list (Item X)
}.
Arguments version_file {X}.
Arguments args_env_file {X}.
Arguments events_file {X}.

(** How the constructor ends: it returns, it calls [exit], or its
    [assert(in.good())] on the [args_env] file fails. *)
Inductive Opened (X : Externals) : Type :=
| Returned (r : TraceReader X)
| Exited (status : Z) (stderr : Message)
| AssertionFailed.
Arguments Returned {X}.
Arguments Exited {X}.
Arguments AssertionFailed {X}.

Definition version_path (trace_dir : string) : string :=
  (trace_dir ++ "/version")%string.

(** [dir.empty() ? latest_trace_symlink() : dir]. *)
Definition opened_dir (latest_trace_symlink dir : string) : string :=
  if (String.length dir =? 0)%nat then latest_trace_symlink else dir.

(** [TraceReader::TraceReader(const string& dir)].  [files] gives the
    files of a directory, [latest_trace_symlink] the path
    [latest_trace_symlink()] returns. *)
Definition TraceReader_create {X : Externals}
           (files : string -> TraceFiles X) (latest_trace_symlink : string)
           (dir : string) : Opened X :=
  let trace_dir := opened_dir latest_trace_symlink dir in
  let path := version_path trace_dir in
  match version_file (files trace_dir) with
  | None =>
      Exited EX_DATAERR
             {| text := VERSION_FILE_NOT_FOUND;
                args := [ArgString path; ArgString path; ArgString path] |}
  | Some contents =>
      let '(version, fail) := extract_int contents in
      if fail || negb (TRACE_VERSION =? version) then
        Exited EX_DATAERR
               {| text := INCOMPATIBLE_VERSION;
                  args := [ArgString path; ArgInt version;
                           ArgInt TRACE_VERSION;
                           ArgString path; ArgString path] |}
      else
        match args_env_file (files trace_dir) with
        | None => AssertionFailed
        | Some _ =>
            Returned {| trace_dir := trace_dir;
                        r_events := events_file (files trace_dir);
                        r_unread := events_file (files trace_dir);
                        r_global_time := 0 |}
        end
  end.

(** Trace directories to run examples on: one without a version file, one
    whose version file holds the given text. *)
Definition files_without_version (X : Externals) (dir : string)
  : TraceFiles X :=
  {| version_file := None; args_env_file := Some EmptyString;
     events_file := [] |}.

Definition files_with_version (X : Externals) (contents : string)
           (dir : string) : TraceFiles X :=
  {| version_file := Some contents; args_env_file := Some EmptyString;
     events_file := [] |}.

(** An encoding in the layout of [EncodedEvent]: the type, the exec-info
    flag and the architecture in their fields; for a signal event the
    signal number with [DET_SIGNAL_BIT] in [data], for a syscall event the
    syscall number in [data] and entry or exit in [is_syscall_entry]. *)
Definition example_encode (e : Event) : EncodedEvent :=
  {| e_type := event_type e;
     e_is_syscall_entry :=
       if is_syscall_event e
       then match state (syscall e) with
            | ENTERING_SYSCALL => true | _ => false end
       else true;
     e_has_exec_info := has_exec_info (base e);
     e_arch := arch_ (base e);
     e_data :=
       if is_signal_event e
       then Z.lor (si_signo (siginfo (signal e)))
                  (match deterministic (signal e) with
                   | DETERMINISTIC_SIG => DET_SIGNAL_BIT
                   | NONDETERMINISTIC_SIG => 0
                   end)
       else if is_syscall_event e then number (syscall e) else 0 |}.

Definition example_decode (ee : EncodedEvent) : Event :=
  {| event_type := e_type ee;
     base := {| has_exec_info := e_has_exec_info ee; arch_ := e_arch ee |};
     signal :=
       {| siginfo := {| si_signo := Z.land (e_data ee) (Z.lnot DET_SIGNAL_BIT);
                        si_addr := 0 |};
          deterministic :=
            if Z.testbit (e_data ee) 7 then DETERMINISTIC_SIG
            else NONDETERMINISTIC_SIG |};
     syscall :=
       {| state := if e_is_syscall_entry ee then ENTERING_SYSCALL
                   else EXITING_SYSCALL;
          number := e_data ee;
          is_restart := false |} |}.

Definition example_encodable (e : Event) : Prop :=
  is_signal_event e = true -> 0 <= si_signo (siginfo (signal e)) < 128.

Definition example_externals : Externals :=
  {| Extra := Z;
     Extra_default := 0;
     encode := example_encode;
     decode := example_decode;
     encodable := example_encodable |}.

(** Two frames to run examples on: a SIGSEGV at address 4096 with exec
    info and extra registers, and a SCHED event without exec info. *)
Definition example_signal_event : Event :=
  {| event_type := EV_SIGNAL;
     base := {| has_exec_info := HAS_EXEC_INFO; arch_ := x86 |};
     signal := {| siginfo := {| si_signo := SIGSEGV; si_addr := 4096 |};
                  deterministic := DETERMINISTIC_SIG |};
     syscall := {| state := NO_SYSCALL; number := 0; is_restart := false |} |}.

Definition example_sched_event : Event :=
  {| event_type := EV_SCHED;
     base := {| has_exec_info := NO_EXEC_INFO; arch_ := x86 |};
     signal := {| siginfo := {| si_signo := 0; si_addr := 0 |};
                  deterministic := NONDETERMINISTIC_SIG |};
     syscall := {| state := NO_SYSCALL; number := 0; is_restart := false |} |}.

Definition example_frame (time : Z) : TraceFrame example_externals :=
  Build_TraceFrame example_externals time 100 example_signal_event 7 0
    (Some (Registers.x86_with_orig_eax 3)) 9
    {| ExtraRegisters.format_ := ExtraRegisters.XSAVE;
       ExtraRegisters.arch_ := Some x86;
       ExtraRegisters.data_ := [1; 2; 3] |}.

Definition example_sched_frame (time : Z) : TraceFrame example_externals :=
  TraceFrame_create example_externals time 100 example_sched_event 8 0.

End Trace.

(* ================================================================== *)
(** ** TraceStream.cc: the raw data saved from tracees *)

Module TraceRawData.

(** The RAW_DATA_HEADER and RAW_DATA substreams of a trace, with the
    global time of the stream.  [operator<<] of CompressedWriter writes
    the object representation of its argument and [operator>>] of
    CompressedReader reads one back, so the header substream is kept as
    the sequence of the values written; RAW_DATA is the sequence of the
    bytes. *)
Record TraceWriter : Type := {
  w_global_time : Z;
  w_data_header : list Z;
  w_data : list Z
}.

(** A writer as its constructor leaves it: nothing written, time 1. *)
Definition TraceWriter_create : TraceWriter :=
  {| w_global_time := 1; w_data_header := []; w_data := [] |}.

Definition w_tick_time (w : TraceWriter) : TraceWriter :=
  {| w_global_time := w_global_time w + 1;
     w_data_header := w_data_header w; w_data := w_data w |}.

(** [TraceWriter::write_raw]; [d] holds the [len] bytes at the pointer. *)
Definition write_raw (d : list Z) (addr : Z) (w : TraceWriter)
  : TraceWriter :=
  let len := Z.of_nat (List.length d) in
  {| w_global_time := w_global_time w;
     w_data_header := w_data_header w ++ [w_global_time w; addr; len];
     w_data := w_data w ++ d |}.

(** What is still unread of the two substreams, and the global time. *)
Record TraceReader : Type := {
  r_global_time : Z;
  r_data_header : list Z;
  r_data : list Z
}.

Definition r_tick_time (r : TraceReader) : TraceReader :=
  {| r_global_time := r_global_time r + 1;
     r_data_header := r_data_header r; r_data := r_data r |}.

(** [struct RawData]. *)
Record RawData : Type := {
  data : list Z;
  addr : Z
}.

(** How a read ends.  [ReadFails] stands for a read past the end of a
    substream, after which the source goes on with whatever the buffers
    hold. *)
Inductive Read (A : Type) : Type :=
| Returns (a : A) (r : TraceReader)
| AssertionFails
| ReadFails.
Arguments Returns {A}.
Arguments AssertionFails {A}.
Arguments ReadFails {A}.

(** [TraceReader::read_raw_data]. *)
Definition read_raw_data (r : TraceReader) : Read RawData :=
  match r_data_header r with
  | time :: addr_ :: num_bytes :: rest =>
      if negb (time =? r_global_time r) then AssertionFails
      else if Z.of_nat (List.length (r_data r)) <? num_bytes then ReadFails
      else
        Returns {| data := firstn (Z.to_nat num_bytes) (r_data r);
                   addr := addr_ |}
                {| r_global_time := r_global_time r;
                   r_data_header := rest;
                   r_data := skipn (Z.to_nat num_bytes) (r_data r) |}
  | _ => ReadFails
  end.

(** [TraceReader::read_raw_data_for_frame], for a frame of time
    [frame_time]; the result is [None] where the source returns false. *)
Definition read_raw_data_for_frame (frame_time : Z) (r : TraceReader)
  : Read (option RawData) :=
  match r_data_header r with
  | [] => Returns None r
  | time :: _ =>
      if negb (time >=? frame_time) then AssertionFails
      else if time >? frame_time then Returns None r
      else
        match read_raw_data r with
        | Returns d r' => Returns (Some d) r'
        | AssertionFails => AssertionFails
        | ReadFails => ReadFails
        end
  end.

(** What a recording does to the two substreams: it saves raw data, and
    it writes a frame, which ticks the time. *)
Inductive WriterStep : Type :=
| WriteRaw (d : list Z) (addr_ : Z)
| WriteFrame.

Definition writer_step (w : TraceWriter) (o : WriterStep) : TraceWriter :=
  match o with
  | WriteRaw d a => write_raw d a w
  | WriteFrame => w_tick_time w
  end.

Definition record (steps : list WriterStep) (w : TraceWriter) : TraceWriter :=
  fold_left writer_step steps w.

(** A reader on what a writer has produced, as the constructor leaves
    it: nothing read, time 0.  [read_frame] ticks the time when it reads
    a frame. *)
Definition reader_on (w : TraceWriter) : TraceReader :=
  {| r_global_time := 0; r_data_header := w_data_header w;
     r_data := w_data w |}.

(** The replay of a recording: where the recording saved raw data,
    [read_raw_data_for_frame] for the current frame returns them; where
    it wrote the frame, and at the end, [read_raw_data_for_frame] finds
    nothing more for the current frame and leaves the reader alone, and
    the replay goes on to the next frame. *)
Fixpoint replays (steps : list WriterStep) (r : TraceReader) : Prop :=
  match steps with
  | [] => read_raw_data_for_frame (r_global_time r) r = Returns None r
  | WriteRaw d a :: rest =>
      exists r',
        read_raw_data_for_frame (r_global_time r) r
        = Returns (Some {| data := d; addr := a |}) r'
        /\ r_global_time r' = r_global_time r
        /\ replays rest r'
  | WriteFrame :: rest =>
      read_raw_data_for_frame (r_global_time r) r = Returns None r
      /\ replays rest (r_tick_time r)
  end.

(** What a recording from time [t] on appends to the substreams. *)
Fixpoint headers (t : Z) (steps : list WriterStep) : list Z :=
  match steps with
  | [] => []
  | WriteRaw d a :: rest =>
      [t; a; Z.of_nat (List.length d)] ++ headers t rest
  | WriteFrame :: rest => headers (t + 1) rest
  end.

Fixpoint bytes (steps : list WriterStep) : list Z :=
  match steps with
  | [] => []
  | WriteRaw d a :: rest => d ++ bytes rest
  | WriteFrame :: rest => bytes rest
  end.

End TraceRawData.

(* ================================================================== *)
(** ** AddressSpace.h: the memory map and its iterators *)

Module AddressSpace.

(** Modelled from the spec: MemoryRange.h is not among the sources.  A
    range is the half-open [[start, end)] of the spec's data model; two
    ranges intersect when they share a byte. *)
Record MemoryRange : Type := { start_ : Z; end_ : Z }.

Definition intersects (a b : MemoryRange) : bool :=
  Z.max (start_ a) (start_ b) <? Z.min (end_ a) (end_ b).

Definition contains (r : MemoryRange) (p : Z) : bool :=
  (start_ r <=? p) && (p <? end_ r).

(** [class KernelMapping : public MemoryRange]. *)
Record KernelMapping : Type := {
  range : MemoryRange;
  fsname_ : string;
  device_ : Z;
  inode_ : Z;
  prot_ : Z;
  flags_ : Z;
  offset : Z
}.

Definition set_prot (prot : Z) (km : KernelMapping) : KernelMapping :=
  {| range := range km; fsname_ := fsname_ km; device_ := device_ km;
     inode_ := inode_ km; prot_ := prot; flags_ := flags_ km;
     offset := offset km |}.

(** [class AddressSpace::Mapping]. *)
Record Mapping : Type := {
  map : KernelMapping;
  recorded_map : KernelMapping
}.

(** [struct MappingComparator]. *)
Definition MappingComparator (a b : MemoryRange) : bool :=
  if intersects a b then false else start_ a <? start_ b.

(** [std::map<MemoryRange, Mapping, MappingComparator>]: the entries in
    the order of the container. *)
Definition MemoryMap : Type := list (MemoryRange * Mapping).

(** [std::map::lower_bound]: the position of the first entry whose key is
    not ordered before [k], as the entries from there on; [[]] is
    [end()]. *)
Fixpoint lower_bound (mem : MemoryMap) (k : MemoryRange) : MemoryMap :=
  match mem with
  | [] => []
  | e :: rest =>
      if MappingComparator (fst e) k then lower_bound rest k else mem
  end.

(** [class AddressSpace::Maps::iterator]: no container iterator is kept,
    only the address [ptr] and the flag [at_end]. *)
Record iterator : Type := { ptr : Z; at_end : bool }.

(** [iterator::to_it] on the map as it is now. *)
Definition to_it (outer : MemoryMap) (it : iterator) : MemoryMap :=
  if at_end it then []
  else lower_bound outer {| start_ := ptr it; end_ := ptr it |}.

(** [Maps::begin] and [Maps::end] for a walk from [start]; [maps()] starts
    at the null address. *)
Definition begin_ (start : Z) : iterator := {| ptr := start; at_end := false |}.
Definition end_it : iterator := {| ptr := 0; at_end := true |}.
Definition maps_begin : iterator := begin_ 0.

(** [operator*]: [to_it()->second]; there is none at [end()]. *)
Definition deref (outer : MemoryMap) (it : iterator) : option Mapping :=
  match to_it outer it with
  | [] => None
  | e :: _ => Some (snd e)
  end.

(** [operator++]: [ptr = to_it()->second.map.end()]. *)
Definition incr (outer : MemoryMap) (it : iterator) : option iterator :=
  match to_it outer it with
  | [] => None
  | e :: _ => Some {| ptr := end_ (range (map (snd e))); at_end := at_end it |}
  end.

(** [it != end()]: the two positions [to_it()] differ. *)
Definition not_at_end (outer : MemoryMap) (it : iterator) : bool :=
  match to_it outer it with
  | [] => false
  | _ :: _ => true
  end.

(** What the body of the [k]th round of a loop does to the map: the head
    of [body], nothing once [body] is used up. *)
Definition step (body : list (MemoryMap -> MemoryMap)) (mem : MemoryMap)
  : MemoryMap :=
  match body with g :: _ => g mem | [] => mem end.

(** The loop [for (auto m : maps()) body], where the body may change the
    map: a round tests [it != end()], yields [*it], runs the body and
    advances the iterator with [++].  The result is the mappings yielded
    and the map at the end; [None] when [fuel] rounds do not reach the end
    (or when [end()] is dereferenced). *)
Fixpoint iterate (fuel : nat) (body : list (MemoryMap -> MemoryMap))
         (mem : MemoryMap) (it : iterator)
  : option (list Mapping * MemoryMap) :=
  match fuel with
  | O => None
  | S fuel' =>
      if not_at_end mem it then
        match deref mem it with
        | None => None
        | Some m =>
            match incr (step body mem) it with
            | None => None
            | Some it' =>
                match iterate fuel' (tl body) (step body mem) it' with
                | Some (ms, final) => Some (m :: ms, final)
                | None => None
                end
            end
        end
      else Some ([], mem)
  end.

(** The map of an address space: the ranges are not empty, each key is
    the range of the mapping stored under it, and the entries are in
    address order without overlap, none starting below [lo]. *)
Fixpoint well_formed_from (lo : Z) (mem : MemoryMap) : Prop :=
  match mem with
  | [] => True
  | (k, m) :: rest =>
      lo <= start_ k /\ start_ k < end_ k /\ range (map m) = k
      /\ well_formed_from (end_ k) rest
  end.

Definition well_formed (mem : MemoryMap) : Prop := well_formed_from 0 mem.

(** A change of the map that neither adds nor removes an entry. *)
Definition keeps_entries (g : MemoryMap -> MemoryMap) : Prop :=
  forall mem, well_formed mem ->
    well_formed (g mem) /\ List.map fst (g mem) = List.map fst mem.

(** What a walk by position would yield: the mapping stored at position
    [i] when the walk gets there, for [n] positions from [i] on. *)
Fixpoint walk (n : nat) (body : list (MemoryMap -> MemoryMap))
         (mem : MemoryMap) (i : nat) : list Mapping :=
  match n with
  | O => []
  | S n' =>
      match nth_error mem i with
      | None => []
      | Some e => snd e :: walk n' (tl body) (step body mem) (S i)
      end
  end.

(** Number of leading keys that start below [p]. *)
Fixpoint lb_index (keys : list MemoryRange) (p : Z) : nat :=
  match keys with
  | [] => O
  | k :: rest => if start_ k <? p then S (lb_index rest p) else O
  end.

(** An iterator that stands at the address [p]. *)
Definition at_ (p : Z) : iterator := {| ptr := p; at_end := false |}.

(** The mappings are in increasing address order and do not overlap. *)
Definition in_address_order (ms : list Mapping) : Prop :=
  StronglySorted
    (fun a b => end_ (range (map a)) <= start_ (range (map b))) ms.

(** A protection change on the mapping that holds [addr]: the entry stays,
    its mapping is replaced by [set_prot]. *)
Definition protect_mapping (addr prot : Z) (mem : MemoryMap) : MemoryMap :=
  List.map (fun e =>
         if contains (fst e) addr
         then (fst e, {| map := set_prot prot (map (snd e));
                         recorded_map := recorded_map (snd e) |})
         else e) mem.

(** Modelled from the spec: [AddressSpace::has_mapping] and
    [AddressSpace::mapping_of] are defined in AddressSpace.cc, which is
    not among the sources.  After their declarations: whether there is
    some mapping for the byte at [addr], and the mapping for the byte at
    [addr]. *)
Definition mapping_of (mem : MemoryMap) (addr : Z) : option Mapping :=
  option_map snd (find (fun e => contains (fst e) addr) mem).

Definition has_mapping (mem : MemoryMap) (addr : Z) : bool :=
  match mapping_of mem addr with Some _ => true | None => false end.

(** Maps to run examples on. *)
Definition example_mapping (a b prot flags : Z) : MemoryRange * Mapping :=
  let km := {| range := {| start_ := a; end_ := b |};
               fsname_ := EmptyString; device_ := 0; inode_ := 0;
               prot_ := prot; flags_ := flags; offset := 0 |} in
  ({| start_ := a; end_ := b |}, {| map := km; recorded_map := km |}).

Definition example_map : MemoryMap :=
  [example_mapping 4096 8192 5 2;
   example_mapping 8192 16384 3 2;
   example_mapping 65536 69632 3 2].

(** A map whose first mapping is private and writable but not readable. *)
Definition write_only_map : MemoryMap :=
  [example_mapping 4096 16384 2 2;
   example_mapping 65536 69632 3 2].

(** *** [KernelMapping]: construction and the derived mappings *)

(** Of <sys/mman.h>, on x86 and x86-64. *)
Module mman.
Definition MAP_SHARED : Z := 1.
Definition MAP_PRIVATE : Z := 2.
Definition MAP_ANONYMOUS : Z := 32.
Definition MAP_GROWSDOWN : Z := 256.
Definition MAP_NORESERVE : Z := 16384.
Definition MAP_STACK : Z := 131072.
End mman.

Definition map_flags_mask : Z :=
  Z.lor mman.MAP_ANONYMOUS
    (Z.lor mman.MAP_NORESERVE
       (Z.lor mman.MAP_PRIVATE
          (Z.lor mman.MAP_SHARED
             (Z.lor mman.MAP_STACK mman.MAP_GROWSDOWN)))).

Definition checkable_flags_mask : Z := Z.lor mman.MAP_PRIVATE mman.MAP_SHARED.
Definition NO_DEVICE : Z := 0.
Definition NO_INODE : Z := 0.

(** Modelled from the spec: [MemoryRange::size], the number of bytes of
    the range. *)
Definition size (r : MemoryRange) : Z := end_ r - start_ r.

(** [KernelMapping::assert_valid]; [page_size] is what [page_size()] of
    util.h returns. *)
Definition assert_valid (page_size : Z) (km : KernelMapping) : bool :=
  (end_ (range km) >=? start_ (range km))
  && (size (range km) mod page_size =? 0)
  && (Z.land (flags_ km) (Z.lnot map_flags_mask) =? 0)
  && (offset km mod page_size =? 0).

(** The constructor [KernelMapping(start, end, fsname, device, inode, prot,
    flags, offset)]; [None] is a failed assertion of [assert_valid]. *)
Definition KernelMapping_create (page_size : Z) (start end_addr : Z)
           (fsname : string) (device inode prot flags offset_bytes : Z)
  : option KernelMapping :=
  let km := {| range := {| start_ := start; end_ := end_addr |};
               fsname_ := fsname; device_ := device; inode_ := inode;
               prot_ := prot; flags_ := Z.land flags map_flags_mask;
               offset := Int.u64 offset_bytes |} in
  if assert_valid page_size km then Some km else None.

Definition is_real_device (km : KernelMapping) : bool :=
  device_ km >? NO_DEVICE.

(** [KernelMapping::extend]. *)
Definition extend (page_size : Z) (end_addr : Z) (km : KernelMapping)
  : option KernelMapping :=
  if end_addr >=? end_ (range km) then
    KernelMapping_create page_size (start_ (range km)) end_addr (fsname_ km)
      (device_ km) (inode_ km) (prot_ km) (flags_ km) (offset km)
  else None.

(** [KernelMapping::set_range]. *)
Definition set_range (page_size : Z) (start end_addr : Z) (km : KernelMapping)
  : option KernelMapping :=
  KernelMapping_create page_size start end_addr (fsname_ km)
    (device_ km) (inode_ km) (prot_ km) (flags_ km) (offset km).

(** [KernelMapping::subrange]. *)
Definition subrange (page_size : Z) (start end_addr : Z) (km : KernelMapping)
  : option KernelMapping :=
  if (start >=? start_ (range km)) && (end_addr <=? end_ (range km)) then
    KernelMapping_create page_size start end_addr (fsname_ km)
      (device_ km) (inode_ km) (prot_ km) (flags_ km)
      (offset km + (if is_real_device km then start - start_ (range km)
                    else 0))
  else None.

(** *** [AddressSpace::Breakpoint] and [AddressSpace::Watchpoint]

    The counters are [int]s; in what follows [None] is a failed
    assertion, or an increment or sum that leaves [int]. *)

Inductive BreakpointType : Type := BKPT_NONE | BKPT_INTERNAL | BKPT_USER.

Record Breakpoint : Type := {
  internal_count : Z;
  user_count : Z;
  overwritten_data : Z
}.

(** The constructor [Breakpoint()]; it leaves [overwritten_data] as it
    finds it. *)
Definition Breakpoint_create (data : Z) : Breakpoint :=
  {| internal_count := 0; user_count := 0; overwritten_data := data |}.

(** [Breakpoint::counter]: the counter it points to, as its value. *)
Definition counter (which : BreakpointType) (b : Breakpoint) : option Z :=
  match which with
  | BKPT_NONE => None
  | BKPT_USER => if user_count b >=? 0 then Some (user_count b) else None
  | BKPT_INTERNAL =>
      if internal_count b >=? 0 then Some (internal_count b) else None
  end.

(** An assignment through the pointer [counter(which)]. *)
Definition set_counter (which : BreakpointType) (v : Z) (b : Breakpoint)
  : Breakpoint :=
  match which with
  | BKPT_USER =>
      {| internal_count := internal_count b; user_count := v;
         overwritten_data := overwritten_data b |}
  | _ =>
      {| internal_count := v; user_count := user_count b;
         overwritten_data := overwritten_data b |}
  end.

Definition counts_valid (b : Breakpoint) : bool :=
  (internal_count b >=? 0) && (user_count b >=? 0).

(** [Breakpoint::ref]. *)
Definition ref (which : BreakpointType) (b : Breakpoint)
  : option Breakpoint :=
  if counts_valid b then
    match counter which b with
    | Some c =>
        if c =? Trace.INT_MAX then None
        else Some (set_counter which (c + 1) b)
    | None => None
    end
  else None.

(** [Breakpoint::unref]: what it returns and the breakpoint it leaves. *)
Definition unref (which : BreakpointType) (b : Breakpoint)
  : option (Z * Breakpoint) :=
  if (internal_count b >? 0) || (user_count b >? 0) then
    match counter which b with
    | Some c =>
        let b' := set_counter which (c - 1) b in
        if counts_valid b' then
          if internal_count b' + user_count b' >? Trace.INT_MAX then None
          else Some (internal_count b' + user_count b', b')
        else None
    | None => None
    end
  else None.

(** [Breakpoint::type]. *)
Definition type (b : Breakpoint) : BreakpointType :=
  if user_count b >? 0 then BKPT_USER else BKPT_INTERNAL.

(** Calls of [ref] and [unref] on one breakpoint, in turn. *)
Inductive BreakpointOp : Type :=
| Ref (which : BreakpointType)
| Unref (which : BreakpointType).

Fixpoint run_ops (ops : list BreakpointOp) (b : Breakpoint)
  : option Breakpoint :=
  match ops with
  | [] => Some b
  | Ref which :: rest =>
      match ref which b with
      | Some b' => run_ops rest b'
      | None => None
      end
  | Unref which :: rest =>
      match unref which b with
      | Some (_, b') => run_ops rest b'
      | None => None
      end
  end.

Definition BreakpointType_eqb (a b : BreakpointType) : bool :=
  match a, b with
  | BKPT_NONE, BKPT_NONE | BKPT_INTERNAL, BKPT_INTERNAL
  | BKPT_USER, BKPT_USER => true
  | _, _ => false
  end.

(** The references of type [which] that [ops] add, less those they
    remove. *)
Fixpoint balance (which : BreakpointType) (ops : list BreakpointOp) : Z :=
  match ops with
  | [] => 0
  | Ref w :: rest =>
      (if BreakpointType_eqb w which then 1 else 0) + balance which rest
  | Unref w :: rest =>
      (if BreakpointType_eqb w which then -1 else 0) + balance which rest
  end.

Definition EXEC_BIT : Z := 1.
Definition READ_BIT : Z := 2.
Definition WRITE_BIT : Z := 4.

Record Watchpoint : Type := {
  exec_count : Z;
  read_count : Z;
  write_count : Z;
  debug_regs_for_exec_read : list Z;
  value_bytes : list Z;
  valid : bool;
  changed : bool
}.

(** The constructor [Watchpoint(num_bytes)]. *)
Definition Watchpoint_create (num_bytes : nat) : Watchpoint :=
  {| exec_count := 0; read_count := 0; write_count := 0;
     debug_regs_for_exec_read := []; value_bytes := repeat 0 num_bytes;
     valid := false; changed := false |}.

(** [Watchpoint::assert_valid]. *)
Definition watch_valid (w : Watchpoint) : bool :=
  (exec_count w >=? 0) && (read_count w >=? 0) && (write_count w >=? 0).

Definition with_counts (e r wr : Z) (w : Watchpoint) : Watchpoint :=
  {| exec_count := e; read_count := r; write_count := wr;
     debug_regs_for_exec_read := debug_regs_for_exec_read w;
     value_bytes := value_bytes w; valid := valid w; changed := changed w |}.

(** [(BIT & which) != 0] as an [int]. *)
Definition has_bit (bit which : Z) : Z :=
  if Z.land bit which =? 0 then 0 else 1.

(** [Watchpoint::watch]. *)
Definition watch (which : Z) (w : Watchpoint) : option Watchpoint :=
  if watch_valid w then
    let e := exec_count w + has_bit EXEC_BIT which in
    let r := read_count w + has_bit READ_BIT which in
    let wr := write_count w + has_bit WRITE_BIT which in
    if (e >? Trace.INT_MAX) || (r >? Trace.INT_MAX) || (wr >? Trace.INT_MAX)
    then None
    else Some (with_counts e r wr w)
  else None.

(** [Watchpoint::unwatch]: what it returns and the watchpoint it
    leaves. *)
Definition unwatch (which : Z) (w : Watchpoint) : option (Z * Watchpoint) :=
  if watch_valid w then
    let step (bit count : Z) : option Z :=
      if Z.land bit which =? 0 then Some count
      else if count >? 0 then Some (count - 1) else None in
    match step EXEC_BIT (exec_count w), step READ_BIT (read_count w),
          step WRITE_BIT (write_count w) with
    | Some e, Some r, Some wr =>
        if e + r + wr >? Trace.INT_MAX then None
        else Some (e + r + wr, with_counts e r wr w)
    | _, _, _ => None
    end
  else None.

(** [Watchpoint::watched_bits]. *)
Definition watched_bits (w : Watchpoint) : Z :=
  Z.lor (if exec_count w >? 0 then EXEC_BIT else 0)
    (Z.lor (if read_count w >? 0 then READ_BIT else 0)
           (if write_count w >? 0 then WRITE_BIT else 0)).

(** One of the three access bits is among the watched bits. *)
Definition watches (bit : Z) (w : Watchpoint) : bool :=
  negb (Z.land bit (watched_bits w) =? 0).

Definition example_file_mapping : KernelMapping :=
  {| range := {| start_ := 65536; end_ := 98304 |};
     fsname_ := "/lib/libc.so"; device_ := 2049; inode_ := 77;
     prot_ := 5; flags_ := 2; offset := 8192 |}.

End AddressSpace.

(* ================================================================== *)
(** ** AutoRemoteSyscalls.cc: the stack for remote syscalls *)

Module AutoRemoteSyscalls.

Import AddressSpace.

Definition PROT_READ : Z := 1.
Definition PROT_WRITE : Z := 2.
Definition MAP_PRIVATE : Z := 2.

Definition is_usable_area (km : KernelMapping) : bool :=
  (Z.land (prot_ km) (Z.lor PROT_READ PROT_WRITE)
   =? Z.lor PROT_READ PROT_WRITE)
  && negb (Z.land (flags_ km) MAP_PRIVATE =? 0).

(** What [maybe_fix_stack_pointer] reads of the task: whether its session
    has done the initial exec, its stack pointer and the map of its
    address space. *)
Record Task : Type := {
  done_initial_exec : bool;
  sp : Z;
  vm : MemoryMap
}.

(** How [maybe_fix_stack_pointer] ends: it returns without touching
    [initial_regs], it sets the stack pointer of [initial_regs], or its
    assertion "No stack area found" fails. *)
Inductive Fix : Type :=
| Unchanged
| SetSp (sp : Z)
| NoStackAreaFound.

(** The loop [for (auto m : t->vm()->maps())] with its [break]: the range
    of the first usable mapping, or the default range when there is none.
    [None] when [fuel] steps do not end the loop. *)
Fixpoint find_stack (fuel : nat) (mem : MemoryMap) (it : iterator)
  : option MemoryRange :=
  match fuel with
  | O => None
  | S fuel' =>
      if not_at_end mem it then
        match deref mem it with
        | None => None
        | Some m =>
            if is_usable_area (map m) then Some (range (map m))
            else match incr mem it with
                 | None => None
                 | Some it' => find_stack fuel' mem it'
                 end
        end
      else Some {| start_ := 0; end_ := 0 |}
  end.

Definition maybe_fix_stack_pointer (fuel : nat) (t : Task) : option Fix :=
  if negb (done_initial_exec t) then Some Unchanged
  else
    let last_stack_byte := sp t - 1 in
    let plenty :=
      if has_mapping (vm t) last_stack_byte then
        match mapping_of (vm t) last_stack_byte with
        | Some m =>
            is_usable_area (map m)
            && (start_ (range (map m)) + 2048 <=? sp t)
        | None => false
        end
      else false in
    if plenty then Some Unchanged
    else
      match find_stack fuel (vm t) maps_begin with
      | None => None
      | Some found_stack =>
          if start_ found_stack =? 0 then Some NoStackAreaFound
          else Some (SetSp (end_ found_stack))
      end.

(** The first mapping of the map, in address order, that is usable. *)
Definition first_usable (mem : MemoryMap) : option Mapping :=
  option_map snd (find (fun e => is_usable_area (map (snd e))) mem).

(** The stack pointer has plenty of room below it: the byte below it lies
    in a usable mapping that starts at least 2048 bytes lower. *)
Definition plenty_of_space (t : Task) : Prop :=
  exists m,
    mapping_of (vm t) (sp t - 1) = Some m
    /\ is_usable_area (map m) = true
    /\ start_ (range (map m)) + 2048 <= sp t.

Definition example_task (initial_exec : bool) (sp_ : Z) (mem : MemoryMap)
  : Task :=
  {| done_initial_exec := initial_exec; sp := sp_; vm := mem |}.

(** The range [found_stack] ends up with. *)
Definition default_range : MemoryRange := {| start_ := 0; end_ := 0 |}.

Definition found_range (mem : MemoryMap) : MemoryRange :=
  match find (fun e => is_usable_area (map (snd e))) mem with
  | Some e => range (map (snd e))
  | None => default_range
  end.

End AutoRemoteSyscalls.

(** AutoRemoteSyscalls.cc: the scratch area on the stack of the tracee. *)
Module AutoRestoreMem.

(** Modelled from the spec: Task.h is not among the sources.  The spec
    has the scratch area carved out of the tracee's stack, its original
    contents copied aside and restored on scope exit.  The memory of the
    tracee is kept as a map from addresses to bytes;
    [read_bytes_helper] and [write_bytes_helper] read and write a run of
    them. *)
Definition Memory : Type := Z -> Z.

Fixpoint read_bytes_helper (m : Memory) (addr : Z) (len : nat) : list Z :=
  match len with
  | O => []
  | S n => m addr :: read_bytes_helper m (addr + 1) n
  end.

Fixpoint write_bytes (m : Memory) (addr : Z) (bytes : list Z) : Memory :=
  match bytes with
  | [] => m
  | b :: rest =>
      write_bytes (fun a => if a =? addr then b else m a) (addr + 1) rest
  end.

Definition write_bytes_helper (m : Memory) (addr : Z) (len : nat)
           (buf : list Z) : Memory :=
  write_bytes m addr (firstn len buf).

(** What an [AutoRestoreMem] works on: the registers of the
    [AutoRemoteSyscalls] it belongs to, which [set_regs] hands to the
    task, and the memory of the task. *)
Record Remote : Type := {
  regs : Registers.t;
  mem : Memory
}.

(** The members of [AutoRestoreMem]. *)
Record t : Type := {
  addr : Z;
  data : list Z;
  len : Z;
  saved_sp : Z
}.

(** [AutoRestoreMem::init]; [None] when its assertion fails.  [mem_] is
    [None] for a null pointer. *)
Definition init (mem_ : option (list Z)) (num_bytes : Z) (x : Remote)
  : option (t * Remote) :=
  if Registers.sp (regs x) =? 0 then None
  else
    let len_ := num_bytes in
    let saved_sp_ := Registers.sp (regs x) in
    let r := Registers.set_sp (Int.u64 (Registers.sp (regs x) - len_))
                              (regs x) in
    let addr_ := Registers.sp r in
    let data_ := read_bytes_helper (mem x) addr_ (Z.to_nat len_) in
    let m :=
      match mem_ with
      | Some bytes => write_bytes_helper (mem x) addr_ (Z.to_nat len_) bytes
      | None => mem x
      end in
    Some ({| addr := addr_; data := data_; len := len_;
             saved_sp := saved_sp_ |},
          {| regs := r; mem := m |}).

(** [AutoRestoreMem::~AutoRestoreMem]; [None] when its assertion
    fails. *)
Definition destroy (a : t) (x : Remote) : option Remote :=
  if negb (saved_sp a =? Int.u64 (Registers.sp (regs x) + len a)) then None
  else
    let m := write_bytes_helper (mem x) (addr a) (Z.to_nat (len a))
                                (data a) in
    let r := Registers.set_sp (Int.u64 (Registers.sp (regs x) + len a))
                              (regs x) in
    Some {| regs := r; mem := m |}.

(** A task stopped with its stack pointer at [sp_], for examples. *)
Definition example_remote (sp_ : Z) : Remote :=
  {| regs := Registers.set_sp sp_ (Registers.X64Regs X64Arch.zero);
     mem := fun a => a mod 256 |}.

End AutoRestoreMem.

(** AutoRemoteSyscalls.cc: allocation in the scratch area. *)
Module RemoteAllocation.

(** [sizeof(uintptr_t)] in a build for x86-64. *)
Definition sizeof_uintptr_t : Z := 8.

(** [align_size]; [size] is a [size_t] and [align_amount] an [int]. *)
Definition align_size (size : Z) : Z :=
  let align_amount := sizeof_uintptr_t in
  Z.land (Int.u64 (size + align_amount - 1))
         (Int.u64 (Z.lnot (align_amount - 1))).

(** [allocate]: the place allocated and the new [*buf_end], or [None]
    when the assertion fails.  AutoRemoteSyscalls.h is not among the
    sources; [get()] and [size()] of the buffer are taken to be its
    [addr] and [len]. *)
Definition allocate (buf_end : Z) (remote_buf : AutoRestoreMem.t) (size : Z)
  : option (Z * Z) :=
  let r := buf_end in
  let buf_end := Int.u64 (buf_end + align_size size) in
  if Int.u64 (buf_end - AutoRestoreMem.addr remote_buf)
     <=? AutoRestoreMem.len remote_buf
  then Some (r, buf_end)
  else None.

(** What [retrieve_fd_arch] takes from its architecture: the sizes of
    the structures it passes to the tracee, [Arch::cmsg_space(sizeof(fd))]
    and [has_socketcall_syscall(Arch::arch())]. *)
Record Arch : Type := {
  sizeof_sockaddr_un : Z;
  sizeof_msghdr : Z;
  sizeof_iovec : Z;
  cmsg_space_fd : Z;
  sizeof_socketcall_args : Z;
  has_socketcall_syscall : bool
}.

(** [reserve<T>()]. *)
Definition reserve (sizeof_T : Z) : Z := align_size sizeof_T.

(** The size [retrieve_fd_arch] asks of its [AutoRestoreMem]. *)
Definition data_length (A : Arch) : Z :=
  let data_length :=
    Z.max (reserve (sizeof_sockaddr_un A))
          (Int.u64 (Int.u64 (reserve (sizeof_msghdr A)
                             + align_size (cmsg_space_fd A))
                    + reserve (sizeof_iovec A))) in
  if has_socketcall_syscall A
  then Int.u64 (data_length + reserve (sizeof_socketcall_args A))
  else data_length.

(** The places in the buffer that [retrieve_fd_arch],
    [child_connect_socket] and [child_sendmsg] allocate; [sc_args] is 0,
    the null pointer, without the socketcall syscall. *)
Record Places : Type := {
  sc_args : Z;
  remote_dot : Z;
  remote_addr : Z;
  remote_msg : Z;
  remote_msgdata : Z;
  remote_cmsgbuf : Z
}.

(** The allocations of [retrieve_fd_arch] in the order they are made:
    its own of [sc_args]; those of [child_connect_socket], which
    allocates [remote_dot] from a copy of [buf_end] and then
    [remote_addr] from [buf_end]; those of [child_sendmsg], which starts
    again from the [sc_args_end] it is passed.  [None] when an assertion
    of [allocate] fails. *)
Definition retrieve_fd_places (A : Arch) (remote_buf : AutoRestoreMem.t)
  : option Places :=
  let sc_args_end := AutoRestoreMem.addr remote_buf in
  match (if has_socketcall_syscall A
         then allocate sc_args_end remote_buf (sizeof_socketcall_args A)
         else Some (0, sc_args_end)) with
  | None => None
  | Some (sc_args_, sc_args_end) =>
    match allocate sc_args_end remote_buf 2 with
    | None => None
    | Some (remote_dot_, _) =>
      match allocate sc_args_end remote_buf (sizeof_sockaddr_un A) with
      | None => None
      | Some (remote_addr_, _) =>
        match allocate sc_args_end remote_buf (sizeof_msghdr A) with
        | None => None
        | Some (remote_msg_, buf_end) =>
          match allocate buf_end remote_buf (sizeof_iovec A) with
          | None => None
          | Some (remote_msgdata_, buf_end) =>
            match allocate buf_end remote_buf (cmsg_space_fd A) with
            | None => None
            | Some (remote_cmsgbuf_, _) =>
                Some {| sc_args := sc_args_; remote_dot := remote_dot_;
                        remote_addr := remote_addr_;
                        remote_msg := remote_msg_;
                        remote_msgdata := remote_msgdata_;
                        remote_cmsgbuf := remote_cmsgbuf_ |}
            end
          end
        end
      end
    end
  end.

(** The sizes of kernel_abi.h for the two architectures. *)
Definition X86Sizes : Arch :=
  {| sizeof_sockaddr_un := 110; sizeof_msghdr := 28; sizeof_iovec := 8;
     cmsg_space_fd := 16; sizeof_socketcall_args := 12;
     has_socketcall_syscall := true |}.

Definition X64Sizes : Arch :=
  {| sizeof_sockaddr_un := 110; sizeof_msghdr := 56; sizeof_iovec := 16;
     cmsg_space_fd := 24; sizeof_socketcall_args := 24;
     has_socketcall_syscall := false |}.

End RemoteAllocation.

(* ================================================================== *)
(** ** ReplayCommand.cc: the replay command *)

Module ReplayCommand.

Inductive ProcessCreatedHow : Type :=
| CREATED_NONE | CREATED_EXEC | CREATED_FORK.

(** [struct ReplayFlags]. *)
Record ReplayFlags : Type := {
  goto_event : Z;
  singlestep_to_event : Z;
  target_process : Z;
  target_command : string;
  process_created_how : ProcessCreatedHow;
  dont_launch_debugger : bool;
  dbg_port : Z;
  gdb_command_file_path : string;
  gdb_binary_file_path : string;
  redirect : bool
}.

(** The constructor [ReplayFlags()]. *)
Definition ReplayFlags_default : ReplayFlags :=
  {| goto_event := 0; singlestep_to_event := 0; target_process := 0;
     target_command := EmptyString; process_created_how := CREATED_NONE;
     dont_launch_debugger := false; dbg_port := -1;
     gdb_command_file_path := EmptyString; gdb_binary_file_path := "gdb";
     redirect := true |}.

(** [struct ParsedOption] of Command.h, as far as it is used here. *)
Record ParsedOption : Type := {
  short_name : ascii;
  value : string;
  int_value : Z
}.

(** A task event of the [tasks] substream, as far as it is used here. *)
Inductive TaskEventType : Type := NONE | CLONE | FORK | EXEC | EXIT.

Record TraceTaskEvent : Type := {
  type_ : TaskEventType;
  tid_ : Z;
  cmd_line_ : list string
}.

(** Opening a [TraceReader] on a directory: its constructor exits, or the
    reader is there.  [good] is what [trace.good()] answers before
    anything is read, [events] are the records of the [tasks] substream,
    and [at_end_tid] is the tid of the record of type NONE that
    [read_task_event] returns when it reads at the end of the
    substream. *)
Inductive OpenedTrace : Type :=
| OpenExits (status : Z)
| Tasks (good : bool) (events : list TraceTaskEvent) (at_end_tid : Z).

(** The wait status that ends the [waitpid] loop of [replay]. *)
Inductive WaitStatus : Type :=
| WIFEXITED (exit_status : Z)
| WIFSIGNALED (signal : Z).

(** How things go on once the arguments are accepted: whether
    [assert_prerequisites] and [check_performance_settings] return,
    whether serving the replay comes to its end, what [pipe2], [fork] and
    [sigaction] give, whether [launch_gdb] returns (it does not when gdb
    is exec()ed), and the wait status of the child ([None]: [waitpid]
    fails). *)
Record Session : Type := {
  prerequisites_ok : bool;
  serve_replay_returns : bool;
  pipe2_fails : bool;
  fork_returns_zero : bool;
  sigaction_fails : bool;
  launch_gdb_returns : bool;
  child_status : option WaitStatus
}.

(** The surroundings of the command.  The option parsers are those of
    Command.cc and main.cc, which are not among the sources: each either
    fails or succeeds and returns what is left of [args]. *)
Record Env : Type := {
  RUNNING_UNDER_RR : bool;
  parse_global_option : list string -> option (list string);
  parse_option : list string -> option (ParsedOption * list string);
  verify_valid_int : ParsedOption -> Z -> Z -> bool;
  parse_optional_trace_dir : list string -> option (string * list string);
  open_trace : string -> OpenedTrace;
  session : Session
}.

(** How the process ends: a value is returned to [main], [exit] is
    called, the process is aborted ([FATAL], a failed assertion) or does
    not come back from serving, or it has become the debugger. *)
Inductive Ending : Type :=
| Returns (code : Z)
| Exits (code : Z)
| Aborted
| Debugger.

Definition INT32_MAX : Z := 2 ^ 31 - 1.
Definition UINT32_MAX : Z := 2 ^ 32 - 1.
Definition Time_max : Z := 2 ^ 64 - 1.

Definition set_autopilot (f : ReplayFlags) : ReplayFlags :=
  {| goto_event := Time_max;
     singlestep_to_event := singlestep_to_event f;
     target_process := target_process f; target_command := target_command f;
     process_created_how := process_created_how f;
     dont_launch_debugger := true; dbg_port := dbg_port f;
     gdb_command_file_path := gdb_command_file_path f;
     gdb_binary_file_path := gdb_binary_file_path f; redirect := redirect f |}.

Definition set_debugger (v : string) (f : ReplayFlags) : ReplayFlags :=
  {| goto_event := goto_event f;
     singlestep_to_event := singlestep_to_event f;
     target_process := target_process f; target_command := target_command f;
     process_created_how := process_created_how f;
     dont_launch_debugger := dont_launch_debugger f; dbg_port := dbg_port f;
     gdb_command_file_path := gdb_command_file_path f;
     gdb_binary_file_path := v; redirect := redirect f |}.

Definition set_target (pid : Z) (cmd : string) (how : ProcessCreatedHow)
           (f : ReplayFlags) : ReplayFlags :=
  {| goto_event := goto_event f;
     singlestep_to_event := singlestep_to_event f;
     target_process := pid; target_command := cmd;
     process_created_how := how;
     dont_launch_debugger := dont_launch_debugger f; dbg_port := dbg_port f;
     gdb_command_file_path := gdb_command_file_path f;
     gdb_binary_file_path := gdb_binary_file_path f; redirect := redirect f |}.

Definition set_goto (v : Z) (f : ReplayFlags) : ReplayFlags :=
  {| goto_event := v;
     singlestep_to_event := singlestep_to_event f;
     target_process := target_process f; target_command := target_command f;
     process_created_how := process_created_how f;
     dont_launch_debugger := dont_launch_debugger f; dbg_port := dbg_port f;
     gdb_command_file_path := gdb_command_file_path f;
     gdb_binary_file_path := gdb_binary_file_path f; redirect := redirect f |}.

Definition set_redirect (v : bool) (f : ReplayFlags) : ReplayFlags :=
  {| goto_event := goto_event f;
     singlestep_to_event := singlestep_to_event f;
     target_process := target_process f; target_command := target_command f;
     process_created_how := process_created_how f;
     dont_launch_debugger := dont_launch_debugger f; dbg_port := dbg_port f;
     gdb_command_file_path := gdb_command_file_path f;
     gdb_binary_file_path := gdb_binary_file_path f; redirect := v |}.

Definition set_dbgport (v : Z) (f : ReplayFlags) : ReplayFlags :=
  {| goto_event := goto_event f;
     singlestep_to_event := singlestep_to_event f;
     target_process := target_process f; target_command := target_command f;
     process_created_how := process_created_how f;
     dont_launch_debugger := true; dbg_port := v;
     gdb_command_file_path := gdb_command_file_path f;
     gdb_binary_file_path := gdb_binary_file_path f; redirect := redirect f |}.

Definition set_singlestep (v : Z) (f : ReplayFlags) : ReplayFlags :=
  {| goto_event := goto_event f;
     singlestep_to_event := v;
     target_process := target_process f; target_command := target_command f;
     process_created_how := process_created_how f;
     dont_launch_debugger := dont_launch_debugger f; dbg_port := dbg_port f;
     gdb_command_file_path := gdb_command_file_path f;
     gdb_binary_file_path := gdb_binary_file_path f; redirect := redirect f |}.

Definition set_gdb_x (v : string) (f : ReplayFlags) : ReplayFlags :=
  {| goto_event := goto_event f;
     singlestep_to_event := singlestep_to_event f;
     target_process := target_process f; target_command := target_command f;
     process_created_how := process_created_how f;
     dont_launch_debugger := dont_launch_debugger f; dbg_port := dbg_port f;
     gdb_command_file_path := v;
     gdb_binary_file_path := gdb_binary_file_path f; redirect := redirect f |}.

(** What [parse_replay_arg] gives: [true] or [false], with the arguments
    it leaves and the flags; or its assertion [0 && "Unknown option"]
    fails. *)
Inductive Parsed : Type :=
| Accepted (args : list string) (flags : ReplayFlags)
| Rejected (args : list string) (flags : ReplayFlags)
| UnknownOption.

(** The state of the loop of [run]. *)
Record LoopState : Type := {
  args : list string;
  found_dir : bool;
  trace_dir : string;
  flags : ReplayFlags
}.

(** A round of the loop of [run]: [continue], or [print_help] and
    [return 1], or the failed assertion. *)
Inductive Round : Type :=
| Continue (st : LoopState)
| Help
| AssertionFails.

(** [cmd.substr(pos)]. *)
Definition substr (pos : nat) (s : string) : string :=
  String.substring pos (String.length s - pos) s.

(** The test of [find_pid_for_command] on the first word of a command
    line. *)
Definition command_matches (cmd command : string) : bool :=
  String.eqb cmd command
  || ((String.length command <? String.length cmd)%nat
      && String.eqb
           (substr (String.length cmd - String.length command - 1) cmd)
           (String "/" command)).

(** The record read at the end of the [tasks] substream. *)
Definition record_at_end (tid : Z) : TraceTaskEvent :=
  {| type_ := NONE; tid_ := tid; cmd_line_ := [] |}.

(** The loops [while (trace.good()) { auto e = trace.read_task_event();
    ... return ...; }] of [find_pid_for_command], [pid_exists] and
    [pid_execs]: [test e] is [Some a] where the body returns [a].  The
    records of the substream are read in turn; reading one of type NONE
    while the substream is good fails the assertion of
    [read_task_event]; after the last one the record of the end is
    read, and the trace is good no longer. *)
Fixpoint task_loop {A : Type} (test : TraceTaskEvent -> option A)
         (default : A) (events : list TraceTaskEvent) (at_end_tid : Z)
  : Ending + A :=
  match events with
  | [] =>
      match test (record_at_end at_end_tid) with
      | Some a => inr a
      | None => inr default
      end
  | e :: rest =>
      match type_ e with
      | NONE => inl Aborted
      | _ =>
          match test e with
          | Some a => inr a
          | None => task_loop test default rest at_end_tid
          end
      end
  end.

Definition with_trace {A : Type} (o : OpenedTrace)
           (test : TraceTaskEvent -> option A) (default : A) : Ending + A :=
  match o with
  | OpenExits status => inl (Exits status)
  | Tasks good events at_end_tid =>
      if good then task_loop test default events at_end_tid
      else inr default
  end.

Definition find_pid_test (command : string) (e : TraceTaskEvent)
  : option Z :=
  match type_ e with
  | EXEC =>
      match cmd_line_ e with
      | [] => None
      | cmd :: _ => if command_matches cmd command then Some (tid_ e) else None
      end
  | _ => None
  end.

Definition pid_exists_test (pid : Z) (e : TraceTaskEvent) : option bool :=
  if tid_ e =? pid then Some true else None.

Definition is_exec (e : TraceTaskEvent) : bool :=
  match type_ e with EXEC => true | _ => false end.

Definition pid_execs_test (pid : Z) (e : TraceTaskEvent) : option bool :=
  if (tid_ e =? pid) && is_exec e then Some true else None.

(** What the task events of a trace tell of a process, stated on the
    events themselves.  The first word of a command line names [command]
    when it is the command, or a path whose last component is the
    command. *)
Definition names_command (cmd command : string) : Prop :=
  cmd = command
  \/ exists dir : string, cmd = (dir ++ String "/" command)%string.

(** A process of the trace has exec()ed [command]. *)
Definition execs_command (events : list TraceTaskEvent) (command : string)
  : Prop :=
  exists e cmd rest,
    In e events /\ type_ e = EXEC /\ cmd_line_ e = cmd :: rest
    /\ names_command cmd command.

(** One of the records carries the process id [pid]. *)
Definition has_record (records : list TraceTaskEvent) (pid : Z) : Prop :=
  exists e, In e records /\ tid_ e = pid.

(** The process [pid] has exec()ed. *)
Definition has_exec (events : list TraceTaskEvent) (pid : Z) : Prop :=
  exists e, In e events /\ tid_ e = pid /\ type_ e = EXEC.

(** The events of a [tasks] substream as a recording leaves them: none is
    of type NONE, and each carries the id of a task, which is above 0. *)
Definition well_formed (events : list TraceTaskEvent) : Prop :=
  Forall (fun e => type_ e <> NONE /\ 0 < tid_ e) events.

(** The process that the flags ask for is not found in the trace.  Asked
    for by the name of a command: no process has exec()ed the command.
    Asked for by its id: no record read from the substream, the one read
    at its end included, carries the id; or an exec is required and the
    process has not exec()ed. *)
Definition not_in_trace (events : list TraceTaskEvent) (at_end_tid : Z)
           (f : ReplayFlags) : Prop :=
  (target_command f <> EmptyString
   /\ ~ execs_command events (target_command f))
  \/ (target_command f = EmptyString
      /\ process_created_how f <> CREATED_NONE
      /\ (~ has_record (events ++ [record_at_end at_end_tid])
                       (target_process f)
          \/ (process_created_how f = CREATED_EXEC
              /\ ~ has_exec events (target_process f)))).

Section WithEnv.

Variable env : Env.

(** [parse_replay_arg].  The arguments are consumed by [parse_option]
    also when the value of the option is then found invalid. *)
Definition parse_replay_arg (args : list string) (flags : ReplayFlags)
  : Parsed :=
  match parse_global_option env args with
  | Some args' => Accepted args' flags
  | None =>
    match parse_option env args with
    | None => Rejected args flags
    | Some (opt, args') =>
      let c := short_name opt in
      if Ascii.eqb c "a" then Accepted args' (set_autopilot flags)
      else if Ascii.eqb c "d"
      then Accepted args' (set_debugger (value opt) flags)
      else if Ascii.eqb c "f" then
        if negb (verify_valid_int env opt 1 INT32_MAX)
        then Rejected args' flags
        else Accepted args'
               (set_target (int_value opt) (target_command flags)
                           CREATED_FORK flags)
      else if Ascii.eqb c "g" then
        if negb (verify_valid_int env opt 1 UINT32_MAX)
        then Rejected args' flags
        else Accepted args' (set_goto (int_value opt) flags)
      else if Ascii.eqb c "p" then
        if int_value opt >? 0 then
          if negb (verify_valid_int env opt 1 INT32_MAX)
          then Rejected args' flags
          else Accepted args'
                 (set_target (int_value opt) (target_command flags)
                             CREATED_EXEC flags)
        else Accepted args'
               (set_target (target_process flags) (value opt)
                           CREATED_EXEC flags)
      else if Ascii.eqb c "q"
      then Accepted args' (set_redirect false flags)
      else if Ascii.eqb c "s" then
        if negb (verify_valid_int env opt 1 INT32_MAX)
        then Rejected args' flags
        else Accepted args' (set_dbgport (int_value opt) flags)
      else if Ascii.eqb c "t" then
        if negb (verify_valid_int env opt 1 INT32_MAX)
        then Rejected args' flags
        else Accepted args' (set_singlestep (int_value opt) flags)
      else if Ascii.eqb c "x"
      then Accepted args' (set_gdb_x (value opt) flags)
      else UnknownOption
    end
  end.

(** [find_pid_for_command], [pid_exists], [pid_execs]: each opens a
    reader of its own. *)
Definition find_pid_for_command (trace_dir command : string) : Ending + Z :=
  with_trace (open_trace env trace_dir) (find_pid_test command) (-1).

Definition pid_exists (trace_dir : string) (pid : Z) : Ending + bool :=
  with_trace (open_trace env trace_dir) (pid_exists_test pid) false.

Definition pid_execs (trace_dir : string) (pid : Z) : Ending + bool :=
  with_trace (open_trace env trace_dir) (pid_execs_test pid) false.

(** [replay]. *)
Definition replay (trace_dir : string) (flags : ReplayFlags) : Ending :=
  let s := session env in
  if dont_launch_debugger flags then
    if serve_replay_returns s then Returns 0 else Aborted
  else if pipe2_fails s then Aborted
  else if fork_returns_zero s then
    if sigaction_fails s then Aborted
    else if serve_replay_returns s then Returns 0 else Aborted
  else
    if sigaction_fails s then Aborted
    else if negb (launch_gdb_returns s) then Debugger
    else
      match child_status s with
      | None => Aborted
      | Some (WIFEXITED status) => Exits status
      | Some (WIFSIGNALED _) => Exits 1
      end.

(** The body of the loop [while (!args.empty())] of [run]. *)
Definition parse_round (st : LoopState) : Round :=
  match parse_replay_arg (args st) (flags st) with
  | UnknownOption => AssertionFails
  | Accepted args' flags' =>
      Continue {| args := args'; found_dir := found_dir st;
                  trace_dir := trace_dir st; flags := flags' |}
  | Rejected args' flags' =>
      if found_dir st then Help
      else
        match parse_optional_trace_dir env args' with
        | Some (dir, args'') =>
            Continue {| args := args''; found_dir := true;
                        trace_dir := dir; flags := flags' |}
        | None => Help
        end
  end.

(** The loop of [run]: the state it is left with, or how [run] ends in
    it.  [None]: [fuel] rounds did not use up the arguments. *)
Fixpoint parse_args (fuel : nat) (st : LoopState)
  : option (Ending + LoopState) :=
  match args st with
  | [] => Some (inr st)
  | _ :: _ =>
    match fuel with
    | O => None
    | S fuel' =>
      match parse_round st with
      | Continue st' => parse_args fuel' st'
      | Help => Some (inl (Returns 1))
      | AssertionFails => Some (inl Aborted)
      end
    end
  end.

(** [run], the lookup of the command name: the flags with the target
    process set, or how [run] ends. *)
Definition resolve_command (trace_dir : string) (flags : ReplayFlags)
  : Ending + ReplayFlags :=
  if negb (String.eqb (target_command flags) EmptyString) then
    match find_pid_for_command trace_dir (target_command flags) with
    | inl e => inl e
    | inr pid =>
        if pid <=? 0 then inl (Returns 2)
        else inr (set_target pid (target_command flags)
                             (process_created_how flags) flags)
    end
  else inr flags.

(** [run], the checks of the target process: [Some] how [run] ends in
    them. *)
Definition check_target (trace_dir : string) (flags : ReplayFlags)
  : option Ending :=
  match process_created_how flags with
  | CREATED_NONE => None
  | how =>
      match pid_exists trace_dir (target_process flags) with
      | inl e => Some e
      | inr false => Some (Returns 2)
      | inr true =>
          match how with
          | CREATED_EXEC =>
              match pid_execs trace_dir (target_process flags) with
              | inl e => Some e
              | inr false => Some (Returns 2)
              | inr true => None
              end
          | _ => None
          end
      end
  end.

(** [run] once the arguments are parsed. *)
Definition run_parsed (trace_dir : string) (flags : ReplayFlags) : Ending :=
  match resolve_command trace_dir flags with
  | inl e => e
  | inr flags =>
      match check_target trace_dir flags with
      | Some e => e
      | None =>
          if prerequisites_ok (session env) then replay trace_dir flags
          else Aborted
      end
  end.

Definition initial (args : list string) : LoopState :=
  {| args := args; found_dir := false; trace_dir := EmptyString;
     flags := ReplayFlags_default |}.

(** [ReplayCommand::run]. *)
Definition run (fuel : nat) (args : list string) : option Ending :=
  if RUNNING_UNDER_RR env then Some (Returns 1)
  else
    match parse_args fuel (initial args) with
    | None => None
    | Some (inl e) => Some e
    | Some (inr st) => Some (run_parsed (trace_dir st) (flags st))
    end.

(** The parsers use up arguments: what a parser that succeeds leaves is
    shorter than what it was given. *)
Definition parsers_consume : Prop :=
  (forall args args',
     parse_global_option env args = Some args' ->
     (List.length args' < List.length args)%nat)
  /\ (forall args opt args',
        parse_option env args = Some (opt, args') ->
        (List.length args' < List.length args)%nat)
  /\ (forall args dir args',
        parse_optional_trace_dir env args = Some (dir, args') ->
        (List.length args' < List.length args)%nat).

(** The states the loop of [run] goes through. *)
Inductive reaches : LoopState -> LoopState -> Prop :=
| reaches_here st : reaches st st
| reaches_round st st' st'' :
    args st <> [] -> parse_round st = Continue st' ->
    reaches st' st'' -> reaches st st''.

(** The arguments left are not recognised: neither the parser of the
    global options nor that of the options of the command takes them,
    and they are not taken as the trace directory either, because one
    has been found already or because the parser of the directory
    refuses them. *)
Definition unrecognised (st : LoopState) : Prop :=
  args st <> []
  /\ parse_global_option env (args st) = None
  /\ parse_option env (args st) = None
  /\ (found_dir st = true
      \/ parse_optional_trace_dir env (args st) = None).

(** The serving process comes to the end of the replay. *)
Definition clean_finish (flags : ReplayFlags) : Prop :=
  prerequisites_ok (session env) = true
  /\ serve_replay_returns (session env) = true
  /\ (dont_launch_debugger flags = true
      \/ (pipe2_fails (session env) = false
          /\ fork_returns_zero (session env) = true
          /\ sigaction_fails (session env) = false)).

End WithEnv.

(** A command line parser for the examples: [-a], [-p <value>] (a
    command name), and anything not starting with [-] as the trace
    directory. *)
Definition example_parse_option (args : list string)
  : option (ParsedOption * list string) :=
  match args with
  | a :: rest =>
      if String.eqb a "-a"
      then Some ({| short_name := "a"; value := EmptyString;
                    int_value := 0 |}, rest)
      else if String.eqb a "-p" then
        match rest with
        | v :: rest' =>
            Some ({| short_name := "p"; value := v; int_value := 0 |}, rest')
        | [] => None
        end
      else None
  | [] => None
  end.

Definition example_parse_dir (args : list string)
  : option (string * list string) :=
  match args with
  | a :: rest =>
      if String.prefix "-" a then None else Some (a, rest)
  | [] => None
  end.

Definition example_session : Session :=
  {| prerequisites_ok := true; serve_replay_returns := true;
     pipe2_fails := false; fork_returns_zero := true;
     sigaction_fails := false; launch_gdb_returns := false;
     child_status := None |}.

Definition example_events : list TraceTaskEvent :=
  [ {| type_ := EXEC; tid_ := 5; cmd_line_ := ["/bin/ls"; "-l"] |};
    {| type_ := FORK; tid_ := 6; cmd_line_ := [] |};
    {| type_ := EXIT; tid_ := 6; cmd_line_ := [] |};
    {| type_ := EXIT; tid_ := 5; cmd_line_ := [] |} ]%string.

Definition example_env (under_rr : bool) : Env :=
  {| RUNNING_UNDER_RR := under_rr;
     parse_global_option := fun _ => None;
     parse_option := example_parse_option;
     verify_valid_int := fun opt lo hi =>
       (lo <=? int_value opt) && (int_value opt <=? hi);
     parse_optional_trace_dir := example_parse_dir;
     open_trace := fun _ => Tasks true example_events 0;
     session := example_session |}.

End ReplayCommand.

(* ================================================================== *)
(** ** GdbCommand.cc: the checkpoint commands *)

Module GdbCommand.

(** GdbServer.h and ReplayTimeline.h are not among the sources.  Of a
    [GdbServer::Checkpoint] GdbCommand.cc reads [is_explicit], [mark]
    and [where]; of the timeline it asks [can_add_checkpoint()] and it
    calls [remove_explicit_checkpoint(mark)].  The mark its constructor
    takes from the timeline is an input here. *)
Inductive Explicit : Type := EXPLICIT | NOT_EXPLICIT.

Record Checkpoint : Type := {
  mark : Z;
  is_explicit : Explicit;
  where_ : string
}.

(** [std::map<int, Checkpoint>]: the entries in the order of their
    keys. *)
Definition Checkpoints : Type := list (Z * Checkpoint).

Fixpoint find (id : Z) (m : Checkpoints) : option Checkpoint :=
  match m with
  | [] => None
  | (k, c) :: rest => if k =? id then Some c else find id rest
  end.

Fixpoint erase (id : Z) (m : Checkpoints) : Checkpoints :=
  match m with
  | [] => []
  | (k, c) :: rest => if k =? id then rest else (k, c) :: erase id rest
  end.

(** [checkpoints[id] = c]. *)
Fixpoint assign (id : Z) (c : Checkpoint) (m : Checkpoints) : Checkpoints :=
  match m with
  | [] => [(id, c)]
  | (k, c') :: rest =>
      if id <? k then (id, c) :: m
      else if k =? id then (id, c) :: rest
      else (k, c') :: assign id c rest
  end.

(** The global [gNextCheckpointId], the checkpoints of the server, and
    the marks handed to [remove_explicit_checkpoint] so far. *)
Record State : Type := {
  gNextCheckpointId : Z;
  checkpoints : Checkpoints;
  removed_explicit : list Z
}.

Definition initial : State :=
  {| gNextCheckpointId := 0; checkpoints := []; removed_explicit := [] |}.

(** The replies, by the parts they are put together from: "Checkpoint
    <id> at <where>", "Deleted checkpoint <id>." and "No checkpoint
    number <id>.". *)
Inductive Reply : Type :=
| CheckpointAt (id : Z) (where_ : string)
| DeletedCheckpoint (id : Z)
| NoCheckpointNumber (id : Z).

(** [invoke_checkpoint]; [can_add_checkpoint] and [mark_] are what the
    timeline answers.  [None] where [args] has no [args[1]] and where
    [++gNextCheckpointId] overflows [int]. *)
Definition invoke_checkpoint (can_add_checkpoint : bool) (mark_ : Z)
           (args : list string) (st : State) : option (Reply * State) :=
  match nth_error args 1 with
  | None => None
  | Some where__ =>
      if gNextCheckpointId st >=? Trace.INT_MAX then None
      else
        let checkpoint_id := gNextCheckpointId st + 1 in
        let e := if can_add_checkpoint then EXPLICIT else NOT_EXPLICIT in
        Some (CheckpointAt checkpoint_id where__,
              {| gNextCheckpointId := checkpoint_id;
                 checkpoints :=
                   assign checkpoint_id
                          {| mark := mark_; is_explicit := e;
                             where_ := where__ |}
                          (checkpoints st);
                 removed_explicit := removed_explicit st |})
  end.

(** [invoke_delete_checkpoint]; [stoi] is the number [std::stoi] reads
    off its argument, [None] where it throws. *)
Definition invoke_delete_checkpoint (stoi : string -> option Z)
           (args : list string) (st : State) : option (Reply * State) :=
  match nth_error args 1 with
  | None => None
  | Some a =>
      match stoi a with
      | None => None
      | Some id =>
          match find id (checkpoints st) with
          | Some c =>
              Some (DeletedCheckpoint id,
                    {| gNextCheckpointId := gNextCheckpointId st;
                       checkpoints := erase id (checkpoints st);
                       removed_explicit :=
                         match is_explicit c with
                         | EXPLICIT => removed_explicit st ++ [mark c]
                         | NOT_EXPLICIT => removed_explicit st
                         end |})
          | None => Some (NoCheckpointNumber id, st)
          end
      end
  end.

(** The commands a debugger sends, with what the timeline answers to a
    "checkpoint". *)
Inductive Command : Type :=
| CmdCheckpoint (can_add_checkpoint : bool) (mark_ : Z) (args : list string)
| CmdDeleteCheckpoint (args : list string).

Definition invoke (stoi : string -> option Z) (c : Command) (st : State)
  : option (Reply * State) :=
  match c with
  | CmdCheckpoint can_add mark_ args => invoke_checkpoint can_add mark_ args st
  | CmdDeleteCheckpoint args => invoke_delete_checkpoint stoi args st
  end.

(** A run of commands and its replies. *)
Fixpoint run (stoi : string -> option Z) (cs : list Command) (st : State)
  : option (list Reply * State) :=
  match cs with
  | [] => Some ([], st)
  | c :: rest =>
      match invoke stoi c st with
      | None => None
      | Some (r, st') =>
          match run stoi rest st' with
          | None => None
          | Some (rs, st'') => Some (r :: rs, st'')
          end
      end
  end.

(** The ids in the replies to "checkpoint". *)
Fixpoint created (rs : list Reply) : list Z :=
  match rs with
  | [] => []
  | CheckpointAt id _ :: rest => id :: created rest
  | _ :: rest => created rest
  end.

(** The ids in the replies "Deleted checkpoint". *)
Fixpoint deleted (rs : list Reply) : list Z :=
  match rs with
  | [] => []
  | DeletedCheckpoint id :: rest => id :: deleted rest
  | _ :: rest => deleted rest
  end.

(** 1, 2, ..., in the order the ids are handed out. *)
Fixpoint ids_from (first : Z) (n : nat) : list Z :=
  match n with
  | O => []
  | S n' => first :: ids_from (first + 1) n'
  end.

(** [std::stoi] on a decimal numeral of one digit, for examples. *)
Definition example_stoi (s : string) : option Z :=
  match s with
  | String c EmptyString => Trace.digit_value c
  | _ => None
  end.

End GdbCommand.

(* ================================================================== *)
(** ** Session.cc: why the tracee stopped *)

Module Session.

Import AddressSpace.

(** [enum RunCommand] and [is_singlestep] of Session.h. *)
Inductive RunCommand : Type :=
| RUN_CONTINUE
| RUN_SINGLESTEP
| RUN_SINGLESTEP_FAST_FORWARD.

Definition is_singlestep (command : RunCommand) : bool :=
  match command with
  | RUN_SINGLESTEP | RUN_SINGLESTEP_FAST_FORWARD => true
  | RUN_CONTINUE => false
  end.

(** [enum WatchType] and [struct WatchConfig] of AddressSpace.h. *)
Inductive WatchType : Type := WATCH_EXEC | WATCH_WRITE | WATCH_READWRITE.

Record WatchConfig : Type := {
  addr : Z;
  num_bytes : Z;
  type : WatchType
}.

(** [struct BreakStatus], without the pointer to the task. *)
Record BreakStatus : Type := {
  watchpoints_hit : list WatchConfig;
  signal : Z;
  breakpoint_hit : bool;
  singlestep_complete : bool;
  approaching_ticks_target : bool;
  task_exit : bool
}.

Definition any_break (b : BreakStatus) : bool :=
  negb (match watchpoints_hit b with [] => true | _ => false end)
  || negb (signal b =? 0) || breakpoint_hit b || singlestep_complete b
  || approaching_ticks_target b.

(** Task.h is not among the sources.  [struct TrapReasons], by the
    members [diagnose_debugger_trap] reads. *)
Record TrapReasons : Type := {
  singlestep : bool;
  watchpoint : bool;
  breakpoint : bool
}.

(** What [diagnose_debugger_trap] asks of the task and of its address
    space: [pending_sig()], [get_breakpoint_type_at_addr(t->ip())],
    [compute_trap_reasons()], [get_breakpoint_type_for_retired_insn(
    t->ip())] and what [consume_watchpoint_changes()] returns. *)
Record Task : Type := {
  pending_sig : Z;
  breakpoint_type_at_ip : BreakpointType;
  trap_reasons : TrapReasons;
  breakpoint_type_for_retired_insn : BreakpointType;
  watchpoint_changes : list WatchConfig
}.

(** What [diagnose_debugger_trap] does to the task: whether it has
    consumed the watchpoint changes, and whether it has moved the ip
    back before the breakpoint. *)
Record Done : Type := {
  consumed_watchpoint_changes : bool;
  moved_ip_before_breakpoint : bool
}.

(** [Session::diagnose_debugger_trap]; [TIME_SLICE_SIGNAL] is that of
    PerfCounters.h. *)
Definition diagnose_debugger_trap (TIME_SLICE_SIGNAL : Z) (t : Task)
           (run_command : RunCommand) : BreakStatus * Done :=
  let stop_sig := pending_sig t in
  if negb (Trace.SIGTRAP =? stop_sig) then
    let pending_bp := breakpoint_type_at_ip t in
    match pending_bp with
    | BKPT_USER =>
        ({| watchpoints_hit := []; signal := 0; breakpoint_hit := true;
            singlestep_complete := false; approaching_ticks_target := false;
            task_exit := false |},
         {| consumed_watchpoint_changes := false;
            moved_ip_before_breakpoint := false |})
    | _ =>
        ({| watchpoints_hit := [];
            signal := if negb (stop_sig =? 0)
                         && negb (stop_sig =? TIME_SLICE_SIGNAL)
                      then stop_sig else 0;
            breakpoint_hit := false;
            singlestep_complete := false; approaching_ticks_target := false;
            task_exit := false |},
         {| consumed_watchpoint_changes := false;
            moved_ip_before_breakpoint := false |})
    end
  else
    let reasons := trap_reasons t in
    let singlestep_complete_ :=
      singlestep reasons && is_singlestep run_command in
    let watchpoints_hit_ :=
      if watchpoint reasons then watchpoint_changes t else [] in
    let user_breakpoint :=
      breakpoint reasons
      && match breakpoint_type_for_retired_insn t with
         | BKPT_USER => true
         | _ => false
         end in
    ({| watchpoints_hit := watchpoints_hit_; signal := 0;
        breakpoint_hit := user_breakpoint;
        singlestep_complete := singlestep_complete_;
        approaching_ticks_target := false; task_exit := false |},
     {| consumed_watchpoint_changes := watchpoint reasons;
        moved_ip_before_breakpoint := user_breakpoint |}).

End Session.

(* ================================================================== *)
(** ** TraceStream.cc: where traces are saved *)

Module TraceDir.

(** What [default_rr_trace_dir] and [trace_save_dir] read: the
    environment, a variable being [None] when it is not set, and the
    file system, through [stat] returning 0. *)
Record Env : Type := {
  HOME : option string;
  XDG_DATA_HOME : option string;
  _RR_TRACE_DIR : option string;
  stat_succeeds : string -> bool
}.

Definition empty (s : string) : bool :=
  match s with EmptyString => true | _ => false end.

(** [dir_exists]. *)
Definition dir_exists (env : Env) (dir : string) : bool :=
  negb (empty dir) && stat_succeeds env dir.

(** [default_rr_trace_dir], on the value of its static [cached_dir]: the
    directory returned and the new [cached_dir]. *)
Definition default_rr_trace_dir (env : Env) (cached_dir : string)
  : string * string :=
  if negb (empty cached_dir) then (cached_dir, cached_dir)
  else
    let dot_dir :=
      match HOME env with
      | Some home => (home ++ "/.rr")%string
      | None => EmptyString
      end in
    let xdg_dir :=
      match XDG_DATA_HOME env with
      | Some xdg_data_home => (xdg_data_home ++ "/rr")%string
      | None =>
          match HOME env with
          | Some home => (home ++ "/.local/share/rr")%string
          | None => EmptyString
          end
      end in
    let cached_dir :=
      if dir_exists env xdg_dir then xdg_dir
      else if dir_exists env dot_dir then dot_dir
      else if negb (empty xdg_dir) then xdg_dir
      else "/tmp/rr"%string in
    (cached_dir, cached_dir).

(** [trace_save_dir]. *)
Definition trace_save_dir (env : Env) (cached_dir : string)
  : string * string :=
  match _RR_TRACE_DIR env with
  | Some output_dir => (output_dir, cached_dir)
  | None => default_rr_trace_dir env cached_dir
  end.

End TraceDir.

(* ================================================================== *)
(** ** TraceStream.cc: the records of mapped regions *)

Module TraceMmaps.

Import AddressSpace.

Inductive MappedDataSource : Type := SOURCE_TRACE | SOURCE_FILE | SOURCE_ZERO.
Inductive MappingOrigin : Type :=
| SYSCALL_MAPPING | EXEC_MAPPING | PATCH_MAPPING.
Inductive RecordInTrace : Type := DONT_RECORD_IN_TRACE | RECORD_IN_TRACE.

(** The members of [struct stat] that TraceStream.cc uses. *)
Record stat_t : Type := {
  st_dev : Z;
  st_ino : Z;
  st_mode : Z;
  st_uid : Z;
  st_gid : Z;
  st_size : Z;
  st_mtime : Z
}.

(** What the two functions take from outside TraceStream.cc:
    [should_copy_mmap_region] of util.h, whether [link()] returns 0, and
    what [stat()] finds, [None] where it fails. *)
Record Env : Type := {
  should_copy_mmap_region : KernelMapping -> stat_t -> bool;
  link_succeeds : string -> string -> bool;
  stat : string -> option stat_t
}.

(** The [mmaps] substream, as the sequence of the objects written. *)
Inductive Item : Type :=
| ItemZ (v : Z)
| ItemSource (s : MappedDataSource)
| ItemString (s : string).

(** [TraceWriter], by the members [write_mapped_region] uses;
    [files_assumed_immutable] is the [std::set] of pairs. *)
Record TraceWriter : Type := {
  w_trace_dir : string;
  w_global_time : Z;
  w_mmaps : list Item;
  files_assumed_immutable : list (Z * Z);
  mmap_count : Z
}.

Definition pair_eqb (a b : Z * Z) : bool :=
  (fst a =? fst b) && (snd a =? snd b).

Definition set_member (p : Z * Z) (s : list (Z * Z)) : bool :=
  existsb (pair_eqb p) s.

Definition set_insert (p : Z * Z) (s : list (Z * Z)) : list (Z * Z) :=
  if set_member p s then s else s ++ [p].

(** [file_name.rfind('/')]: the position of the last slash. *)
Fixpoint rfind_slash (s : string) : option nat :=
  match s with
  | EmptyString => None
  | String c rest =>
      match rfind_slash rest with
      | Some i => Some (S i)
      | None => if Ascii.eqb c "/" then Some O else None
      end
  end.

(** [TraceWriter::try_hardlink_file]; [sprintf] with [%d] prints
    [mmap_count] as an [int]. *)
Definition try_hardlink_file (env : Env) (w : TraceWriter)
           (file_name : string) : string :=
  let count_str := NilZero.string_of_int (Z.to_int (Int.s32 (mmap_count w))) in
  let basename :=
    match rfind_slash file_name with
    | Some last_slash => ReplayCommand.substr (last_slash + 1) file_name
    | None => file_name
    end in
  let link_path :=
    (w_trace_dir w ++ "/mmap_" ++ count_str ++ "_hardlink_" ++ basename)%string in
  if link_succeeds env file_name link_path then link_path else file_name.

(** The choice [write_mapped_region] makes: where the data of the
    mapping will come from at replay, and the name of the backing
    file. *)
Definition choose_source (env : Env) (km : KernelMapping) (st : stat_t)
           (origin : MappingOrigin) (w : TraceWriter)
  : MappedDataSource * string * list (Z * Z) :=
  if String.prefix "/SYSV" (fsname_ km) then
    (SOURCE_TRACE, EmptyString, files_assumed_immutable w)
  else if match origin with SYSCALL_MAPPING => true | _ => false end
          && ((inode_ km =? 0)
              || String.eqb (fsname_ km) "/dev/zero (deleted)") then
    (SOURCE_ZERO, EmptyString, files_assumed_immutable w)
  else if should_copy_mmap_region env km st
          && negb (set_member (st_dev st, st_ino st)
                              (files_assumed_immutable w)) then
    (SOURCE_TRACE, EmptyString, files_assumed_immutable w)
  else
    (SOURCE_FILE, try_hardlink_file env w (fsname_ km),
     set_insert (st_dev st, st_ino st) (files_assumed_immutable w)).

(** The objects [write_mapped_region] writes for a mapping. *)
Definition region_items (time : Z) (source : MappedDataSource)
           (km : KernelMapping) (backing_file_name : string) (st : stat_t)
  : list Item :=
  [ItemZ time; ItemSource source; ItemZ (start_ (range km));
   ItemZ (end_ (range km)); ItemString (fsname_ km); ItemZ (device_ km);
   ItemZ (inode_ km); ItemZ (prot_ km); ItemZ (flags_ km);
   ItemZ (offset km); ItemString backing_file_name;
   ItemZ (Int.u32 (st_mode st)); ItemZ (Int.u32 (st_uid st));
   ItemZ (Int.u32 (st_gid st)); ItemZ (Int.s64 (st_size st));
   ItemZ (Int.s64 (st_mtime st))].

(** [TraceWriter::write_mapped_region]. *)
Definition write_mapped_region (env : Env) (km : KernelMapping) (st : stat_t)
           (origin : MappingOrigin) (w : TraceWriter)
  : RecordInTrace * TraceWriter :=
  let '(source, backing_file_name, assumed) :=
    choose_source env km st origin w in
  (match source with
   | SOURCE_TRACE => RECORD_IN_TRACE
   | _ => DONT_RECORD_IN_TRACE
   end,
   {| w_trace_dir := w_trace_dir w;
      w_global_time := w_global_time w;
      w_mmaps := w_mmaps w
                 ++ region_items (w_global_time w) source km
                                 backing_file_name st;
      files_assumed_immutable := assumed;
      mmap_count := Int.u32 (mmap_count w + 1) |}).

(** [TraceReader], by the members [read_mapped_region] uses; [r_mmaps]
    is what is still unread of the substream. *)
Record TraceReader : Type := {
  r_trace_dir : string;
  r_global_time : Z;
  r_mmaps : list Item
}.

(** [struct MappedData]. *)
Record MappedData : Type := {
  source : MappedDataSource;
  file_name : string;
  file_data_offset_bytes : Z;
  file_size_bytes : Z
}.

(** How [read_mapped_region] ends: with a mapping for the current event
    ([*found] true); without one ([*found] false, the reader as it was);
    in [FATAL()]; in a failed assertion; [ReadFails] stands for a
    substream that ends or holds something else than what is read. *)
Inductive Read : Type :=
| Found (km : KernelMapping) (data : MappedData) (r : TraceReader)
| NotFound (r : TraceReader)
| Fatal
| AssertionFails
| ReadFails.

(** [TraceReader::read_mapped_region]; [page_size] is what [page_size()]
    of util.h returns. *)
Definition read_mapped_region (page_size : Z) (env : Env) (r : TraceReader)
  : Read :=
  match r_mmaps r with
  | [] => NotFound r
  | ItemZ time :: _ =>
      if negb (time =? r_global_time r) then NotFound r
      else
        match r_mmaps r with
        | ItemZ time :: ItemSource source_ :: ItemZ start :: ItemZ end_addr
          :: ItemString original_file_name :: ItemZ device :: ItemZ inode
          :: ItemZ prot :: ItemZ flags :: ItemZ file_offset_bytes
          :: ItemString backing_file_name :: ItemZ mode :: ItemZ uid
          :: ItemZ gid :: ItemZ file_size :: ItemZ mtime :: rest =>
            let backing_file_name :=
              match source_ with
              | SOURCE_FILE =>
                  match backing_file_name with
                  | String "/" _ => backing_file_name
                  | _ => (r_trace_dir r ++ "/" ++ backing_file_name)%string
                  end
              | _ => backing_file_name
              end in
            let stat_fails :=
              match source_ with
              | SOURCE_FILE =>
                  match stat env backing_file_name with
                  | Some _ => false
                  | None => true
                  end
              | _ => false
              end in
            if stat_fails then Fatal
            else
              match KernelMapping_create page_size start end_addr
                      original_file_name device inode prot flags
                      file_offset_bytes with
              | None => AssertionFails
              | Some km =>
                  Found km
                    {| source := source_; file_name := backing_file_name;
                       file_data_offset_bytes := file_offset_bytes;
                       file_size_bytes := Int.u64 file_size |}
                    {| r_trace_dir := r_trace_dir r;
                       r_global_time := r_global_time r;
                       r_mmaps := rest |}
              end
        | _ => ReadFails
        end
  | _ => ReadFails
  end.

(** The name [read_mapped_region] gives for the backing file of a
    mapping whose data come from a file. *)
Definition resolved (dir backing_file_name : string) : string :=
  match backing_file_name with
  | String "/" _ => backing_file_name
  | _ => (dir ++ "/" ++ backing_file_name)%string
  end.

(** A mapping as the constructor of [KernelMapping] leaves it. *)
Definition constructed (page_size : Z) (km : KernelMapping) : Prop :=
  assert_valid page_size km = true /\ 0 <= offset km < 2 ^ 64.

(** A recording writes one mapped region after the other. *)
Definition write_mapped_regions (env : Env)
           (regions : list (KernelMapping * stat_t * MappingOrigin))
           (w : TraceWriter) : TraceWriter :=
  fold_left (fun w r =>
               snd (write_mapped_region env (fst (fst r)) (snd (fst r))
                                        (snd r) w))
            regions w.

Definition example_env : Env :=
  {| should_copy_mmap_region := fun _ _ => false;
     link_succeeds := fun _ _ => true;
     stat := fun _ => Some {| st_dev := 8; st_ino := 17; st_mode := 33188;
                              st_uid := 1000; st_gid := 1000;
                              st_size := 8192; st_mtime := 1 |} |}.

Definition example_writer : TraceWriter :=
  {| w_trace_dir := "/tmp/rr/ls-0"; w_global_time := 7; w_mmaps := [];
     files_assumed_immutable := []; mmap_count := 3 |}.

Definition example_stat : stat_t :=
  {| st_dev := 8; st_ino := 17; st_mode := 33188; st_uid := 1000;
     st_gid := 1000; st_size := 8192; st_mtime := 1 |}.

End TraceMmaps.

(* ================================================================== *)
(** ** TraceStream.cc: the arguments and the environment of the tracee *)

Module ArgsEnv.

(** The file [args_env] of a trace, as the string of its bytes.  The
    writer is the end of the constructor of [TraceWriter] with
    [operator<<] for a vector of strings; the reader is the end of the
    constructor of [TraceReader] with [operator>>]. *)

Definition NUL : ascii := Ascii.zero.
Definition endl : string := String "010" EmptyString.
Definition PATH_MAX : nat := 4096.

(** [out << vs.size()] and [out << bind_to_cpu]: the decimal numeral of
    a [size_t] and of an [int]. *)
Definition print_size (n : nat) : string :=
  NilZero.string_of_uint (N.to_uint (N.of_nat n)).

Definition print_int (n : Z) : string :=
  NilZero.string_of_int (Z.to_int n).

(** The loop [for (auto& v : vs) { out << v << '\0'; }]. *)
Fixpoint write_each (vs : list string) : string :=
  match vs with
  | [] => EmptyString
  | v :: rest => (v ++ String NUL (write_each rest))%string
  end.

(** [operator<<(ostream&, const vector<string>&)]. *)
Definition write_strings (vs : list string) : string :=
  (print_size (List.length vs) ++ endl ++ write_each vs)%string.

(** What the constructor of [TraceWriter] writes into [args_env]. *)
Definition write_args_env (cwd : string) (argv envp : list string)
           (bind_to_cpu : Z) : string :=
  (cwd ++ String NUL
     (write_strings argv ++ write_strings envp ++ print_int bind_to_cpu))%string.

(** [in.getline(buf, sizeof(buf), '\0')] with room for [n] characters
    before the terminator: the characters up to the next NUL, which is
    extracted and not stored.  [None] when the file ends first, or when
    [n] characters are stored and the next is not NUL: the stream is
    then not good, and every extraction that follows leaves its
    variable as it was. *)
Fixpoint getline (n : nat) (s : string) : option (string * string) :=
  match s with
  | EmptyString => None
  | String c rest =>
      if Ascii.eqb c NUL then Some (EmptyString, rest)
      else
        match n with
        | O => None
        | S n' =>
            match getline n' rest with
            | Some (line, rest') => Some (String c line, rest')
            | None => None
            end
        end
  end.

(** The digits at the head of [s]: their value after [acc], whether
    there was any, and what follows them. *)
Fixpoint read_digits (s : string) (acc : Z) (any : bool)
  : Z * bool * string :=
  match s with
  | String c rest =>
      match Trace.digit_value c with
      | Some d => read_digits rest (10 * acc + d) true
      | None => (acc, any, s)
      end
  | EmptyString => (acc, any, s)
  end.

(** [in >> len] for a [size_t]: white space is skipped and decimal
    digits are read.  [None] when the file has ended, when there is no
    digit, and when the value does not fit: [len] is then not the
    number of strings written.  A sign is not read here. *)
Definition extract_size_t (s : string) : option (Z * string) :=
  let '(v, any, rest) := read_digits (Trace.skip_space s) 0 false in
  if negb any then None
  else if v >? 2 ^ 64 - 1 then None
  else Some (v, rest).

(** [in.ignore(1)]. *)
Definition ignore1 (s : string) : string :=
  match s with
  | String _ rest => rest
  | EmptyString => EmptyString
  end.

(** The loop [for (size_t i = 0; i < len; ++i)] of [operator>>]. *)
Fixpoint read_each (len : nat) (s : string) : option (list string * string) :=
  match len with
  | O => Some ([], s)
  | S len' =>
      match getline (PATH_MAX - 1) s with
      | None => None
      | Some (v, s') =>
          match read_each len' s' with
          | None => None
          | Some (vs, s'') => Some (v :: vs, s'')
          end
      end
  end.

(** [operator>>(istream&, vector<string>&)]. *)
Definition read_strings (s : string) : option (list string * string) :=
  match extract_size_t s with
  | None => None
  | Some (len, s') => read_each (Z.to_nat len) (ignore1 s')
  end.

(** What the constructor of [TraceReader] reads from [args_env]: [cwd],
    [argv], [envp] and [bind_to_cpu].  [None] when one of the
    extractions before the last leaves the stream not good, or the file
    ends before [bind_to_cpu]. *)
Definition read_args_env (contents : string)
  : option (string * list string * list string * Z) :=
  match getline (PATH_MAX - 1) contents with
  | None => None
  | Some (cwd, s) =>
      match read_strings s with
      | None => None
      | Some (argv, s) =>
          match read_strings s with
          | None => None
          | Some (envp, s) =>
              match Trace.skip_space s with
              | EmptyString => None
              | _ => Some (cwd, argv, envp, fst (Trace.extract_int s))
              end
          end
      end
  end.

(** A string that the reader can take: it holds no NUL and is shorter
    than [PATH_MAX]. *)
Fixpoint no_nul (s : string) : bool :=
  match s with
  | EmptyString => true
  | String c rest => negb (Ascii.eqb c NUL) && no_nul rest
  end.

Definition readable (s : string) : Prop :=
  no_nul s = true /\ (String.length s < PATH_MAX)%nat.

(** A string of [n] letters, for examples. *)
Fixpoint letters (n : nat) : string :=
  match n with
  | O => EmptyString
  | S n' => String "a" (letters n')
  end.

End ArgsEnv.


(* ================================================================== *)
(** * Properties *)

(** ** Machine integers *)

Lemma u64_range v : 0 <= Int.u64 v < 2 ^ 64.
Proof. unfold Int.u64, Int.to_unsigned. apply Z.mod_pos_bound. lia. Qed.

Lemma s64_small v : 0 <= v < 2 ^ 63 -> Int.s64 v = v.
Proof.
  intros H. unfold Int.s64, Int.to_signed.
  rewrite Z.mod_small by lia.
  destruct (v <? 2 ^ (64 - 1)) eqn:E; [reflexivity|].
  apply Z.ltb_ge in E. simpl in E. lia.
Qed.

(** ** Register comparison *)

Section RegisterComparison.

Import Registers.

Lemma reports_record nm nm' v1 v2 c :
  reports nm (record_mismatch nm' v1 v2 c)
  = reports nm c || String.eqb nm' nm.
Proof.
  unfold reports, record_mismatch. simpl.
  rewrite existsb_app. simpl. now rewrite orb_false_r.
Qed.

Lemma reports_compare_one {S} nm (u1 u2 : S) c rv :
  reports nm (compare_one u1 u2 c rv)
  = reports nm c || (String.eqb (name rv) nm && differs u1 u2 rv).
Proof.
  unfold compare_one, differs.
  destruct (nbytes rv =? 0); simpl.
  { now rewrite andb_false_r, orb_false_r. }
  destruct (comparison_mask rv =? 0); simpl.
  { now rewrite andb_false_r, orb_false_r. }
  destruct (Z.land _ _ =? 0); simpl.
  - now rewrite andb_false_r, orb_false_r.
  - now rewrite reports_record, andb_true_r.
Qed.

Lemma reports_fold {S} nm (u1 u2 : S) table : forall c,
  reports nm (fold_left (compare_one u1 u2) table c)
  = reports nm c
    || existsb (fun rv => String.eqb (name rv) nm && differs u1 u2 rv) table.
Proof.
  induction table as [|rv table IH]; intros c; simpl.
  - now rewrite orb_false_r.
  - rewrite IH, reports_compare_one. now rewrite orb_assoc.
Qed.

Lemma reports_core {S} nm (table : list (RegisterValue S)) u1 u2 :
  reports nm (compare_registers_core table u1 u2)
  = existsb (fun rv => String.eqb (name rv) nm && differs u1 u2 rv) table.
Proof. unfold compare_registers_core. now rewrite reports_fold. Qed.

Lemma reports_REGCMP nm nm' f1 f2 c :
  reports nm (REGCMP nm' f1 f2 c)
  = reports nm c || (String.eqb nm' nm && negb (f1 =? f2)).
Proof.
  unfold REGCMP. destruct (f1 =? f2); simpl.
  - now rewrite andb_false_r, orb_false_r.
  - now rewrite reports_record, andb_true_r.
Qed.

(** A table entry whose mask is zero never makes a difference. *)
Lemma differs_mask0 {S} (u1 u2 : S) nm off n :
  differs u1 u2 (RV_WITH_MASK nm off n 0) = false.
Proof. unfold differs. simpl. now rewrite andb_false_r. Qed.

(** An entry with the full four-byte mask differs exactly when the
    32-bit values do. *)
Lemma differs_full32 {S} (u1 u2 : S) nm off :
  differs u1 u2 (RV nm off 4) = negb (Int.u32 (off u1) =? Int.u32 (off u2)).
Proof.
  unfold differs, load. simpl nbytes. simpl comparison_mask. simpl offset.
  change (8 * 4) with 32. fold (Int.u32 (off u1)) (Int.u32 (off u2)).
  change (mask_for_nbytes 4) with (Z.ones 32).
  change (4 =? 0) with false. change (Z.ones 32 =? 0) with false. simpl negb.
  simpl andb. f_equal.
  rewrite Z.land_ones by lia.
  assert (H1 : 0 <= Int.u32 (off u1) < 2 ^ 32)
    by (apply Z.mod_pos_bound; lia).
  assert (H2 : 0 <= Int.u32 (off u2) < 2 ^ 32)
    by (apply Z.mod_pos_bound; lia).
  set (a := Int.u32 (off u1)) in *. set (b := Int.u32 (off u2)) in *.
  assert (Hx : 0 <= Z.lxor a b < 2 ^ 32).
  { split.
    - apply Z.lxor_nonneg. lia.
    - destruct (Z.eq_dec (Z.lxor a b) 0) as [->|Hne]; [lia|].
      apply Z.log2_lt_pow2.
      + assert (0 <= Z.lxor a b) by (apply Z.lxor_nonneg; lia). lia.
      + eapply Z.le_lt_trans; [apply Z.log2_lxor; lia|].
        apply Z.max_lub_lt.
        * destruct (Z.eq_dec a 0) as [->|]; [simpl; lia|].
          apply Z.log2_lt_pow2; lia.
        * destruct (Z.eq_dec b 0) as [->|]; [simpl; lia|].
          apply Z.log2_lt_pow2; lia. }
  rewrite Z.mod_small by exact Hx.
  destruct (Z.eqb_spec a b) as [->|Hab].
  - rewrite Z.lxor_nilpotent. reflexivity.
  - destruct (Z.eqb_spec (Z.lxor a b) 0) as [E|E]; [|reflexivity].
    apply Z.lxor_eq in E. contradiction.
Qed.

Lemma existsb_false_Forall {A} (f : A -> bool) l :
  Forall (fun x => f x = false) l -> existsb f l = false.
Proof.
  induction 1 as [|x l Hx _ IH]; simpl; [reflexivity|].
  now rewrite Hx, IH.
Qed.

Ltac table_entries :=
  apply existsb_false_Forall;
  repeat (apply Forall_cons || apply Forall_nil);
  try reflexivity;
  try (cbn [name RV_WITH_MASK]; rewrite differs_mask0; reflexivity).

Lemma core_x86_orig_eax u1 u2 :
  reports "orig_eax" (compare_registers_core x86_registers u1 u2) = false.
Proof. rewrite reports_core. unfold x86_registers. table_entries. Qed.

Lemma core_x64_orig_rax u1 u2 :
  reports "orig_rax" (compare_registers_core x64_registers u1 u2) = false.
Proof. rewrite reports_core. unfold x64_registers. table_entries. Qed.

Lemma orig_eax_reported u1 u2 :
  reports "orig_eax" (compare_registers_arch_x86 u1 u2) = true <->
  (0 <= X86Arch.orig_eax u1 \/ 0 <= X86Arch.orig_eax u2)
  /\ X86Arch.orig_eax u1 <> X86Arch.orig_eax u2.
Proof.
  unfold compare_registers_arch_x86.
  destruct (Z.geb_spec (X86Arch.orig_eax u1) 0) as [H1|H1];
    destruct (Z.geb_spec (X86Arch.orig_eax u2) 0) as [H2|H2]; cbn [orb];
    rewrite ?reports_REGCMP, core_x86_orig_eax; simpl;
    destruct (Z.eqb_spec (X86Arch.orig_eax u1) (X86Arch.orig_eax u2));
    simpl; split; intros; try discriminate; try reflexivity; try lia.
Qed.

Lemma orig_rax_reported u1 u2 :
  reports "orig_rax" (compare_registers_arch_x64 u1 u2) = true <->
  (0 <= Int.s64 (X64Arch.orig_rax u1) \/ 0 <= Int.s64 (X64Arch.orig_rax u2))
  /\ X64Arch.orig_rax u1 <> X64Arch.orig_rax u2.
Proof.
  unfold compare_registers_arch_x64.
  rewrite !reports_REGCMP. simpl String.eqb. simpl andb.
  rewrite !orb_false_r.
  destruct (Z.geb_spec (Int.s64 (X64Arch.orig_rax u1)) 0) as [H1|H1];
    destruct (Z.geb_spec (Int.s64 (X64Arch.orig_rax u2)) 0) as [H2|H2];
    cbn [orb];
    rewrite ?reports_REGCMP, core_x64_orig_rax; simpl;
    destruct (Z.eqb_spec (X64Arch.orig_rax u1) (X64Arch.orig_rax u2));
    simpl; split; intros; try discriminate; try reflexivity; try lia.
Qed.

Lemma compare_register_files_internal_of r1 r2 b c :
  compare_register_files r1 r2 b = Some c ->
  compare_register_files_internal r1 r2 = Some c.
Proof.
  unfold compare_register_files.
  destruct (compare_register_files_internal r1 r2) as [c'|]; [|discriminate].
  destruct (_ || _); [trivial|discriminate].
Qed.

(** C1 (as amended).  [compare_register_files] reports a mismatch on
    [orig_eax] / [orig_rax] exactly when at least one of the two values is
    non-negative and the two values differ; the register is left out of
    the comparison only when both values are negative. *)
Theorem orig_ax_mismatch_iff r1 r2 b c :
  compare_register_files r1 r2 b = Some c ->
  (reports (orig_ax_name (arch r1)) c = true <->
   (0 <= original_syscallno r1 \/ 0 <= original_syscallno r2)
   /\ orig_ax r1 <> orig_ax r2).
Proof.
  intros H. apply compare_register_files_internal_of in H.
  destruct r1 as [u1|u1], r2 as [u2|u2]; simpl in H; try discriminate;
    injection H as <-; simpl.
  - apply orig_eax_reported.
  - apply orig_rax_reported.
Qed.

Lemma orig_ax_mismatch_iff_witness :
  exists c,
    compare_register_files (x86_with_orig_eax 3) (x86_with_orig_eax (-1))
                           EXPECT_MISMATCHES = Some c
    /\ (reports "orig_eax" c = true <->
        (0 <= 3 \/ 0 <= -1) /\ 3 <> -1).
Proof.
  eexists. split; [reflexivity|].
  apply (orig_ax_mismatch_iff (x86_with_orig_eax 3) (x86_with_orig_eax (-1))
                              EXPECT_MISMATCHES).
  reflexivity.
Defined.

(** C1 as stated fails: with [orig_eax = 3] in one file and [-1] in the
    other, a mismatch on [orig_eax] is reported although one of the two
    values is negative. *)
Lemma orig_eax_compared_when_one_negative :
  exists c,
    compare_register_files (x86_with_orig_eax 3) (x86_with_orig_eax (-1))
                           EXPECT_MISMATCHES = Some c
    /\ reports "orig_eax" c = true
    /\ matched c = false
    /\ ~ (0 <= original_syscallno (x86_with_orig_eax 3)
          /\ 0 <= original_syscallno (x86_with_orig_eax (-1))).
Proof.
  eexists. split; [reflexivity|]. split; [reflexivity|].
  split; [reflexivity|]. simpl. lia.
Qed.

Lemma core_css_x86 nm u1 u2 :
  In nm (css_names x86) ->
  reports nm (compare_registers_core x86_registers u1 u2) = false.
Proof.
  intros Hin. rewrite reports_core. unfold x86_registers.
  simpl in Hin.
  destruct Hin as [<-|[<-|[<-|[<-|[]]]]]; table_entries.
Qed.

Lemma core_css_x64 nm u1 u2 :
  In nm (css_names x86_64) ->
  reports nm (compare_registers_core x64_registers u1 u2) = false.
Proof.
  intros Hin. rewrite reports_core. unfold x64_registers.
  simpl in Hin.
  destruct Hin as [<-|[<-|[<-|[<-|[]]]]]; table_entries.
Qed.

Lemma core_x86_xfs u1 u2 :
  reports "xfs" (compare_registers_core x86_registers u1 u2)
  = negb (Int.u32 (X86Arch.xfs u1) =? Int.u32 (X86Arch.xfs u2)).
Proof.
  rewrite reports_core. unfold x86_registers.
  cbn [existsb name RV RV_WITH_MASK String.eqb Ascii.eqb Bool.eqb andb orb].
  rewrite differs_full32, orb_false_r. reflexivity.
Qed.

Lemma core_x86_xgs u1 u2 :
  reports "xgs" (compare_registers_core x86_registers u1 u2)
  = negb (Int.u32 (X86Arch.xgs u1) =? Int.u32 (X86Arch.xgs u2)).
Proof.
  rewrite reports_core. unfold x86_registers.
  cbn [existsb name RV RV_WITH_MASK String.eqb Ascii.eqb Bool.eqb andb orb].
  rewrite differs_full32, orb_false_r. reflexivity.
Qed.

Lemma core_x64_fs u1 u2 :
  reports "fs" (compare_registers_core x64_registers u1 u2)
  = negb (Int.u32 (X64Arch.fs u1) =? Int.u32 (X64Arch.fs u2)).
Proof.
  rewrite reports_core. unfold x64_registers.
  cbn [existsb name RV RV_WITH_MASK String.eqb Ascii.eqb Bool.eqb andb orb].
  rewrite differs_full32, orb_false_r. reflexivity.
Qed.

Lemma core_x64_gs u1 u2 :
  reports "gs" (compare_registers_core x64_registers u1 u2)
  = negb (Int.u32 (X64Arch.gs u1) =? Int.u32 (X64Arch.gs u2)).
Proof.
  rewrite reports_core. unfold x64_registers.
  cbn [existsb name RV RV_WITH_MASK String.eqb Ascii.eqb Bool.eqb andb orb].
  rewrite differs_full32, orb_false_r. reflexivity.
Qed.

(** What the special cases after the table loop add for a name that none
    of them uses. *)
Lemma reports_arch_x86_other nm u1 u2 :
  String.eqb "orig_eax" nm = false ->
  reports nm (compare_registers_arch_x86 u1 u2)
  = reports nm (compare_registers_core x86_registers u1 u2).
Proof.
  intros Hnm. unfold compare_registers_arch_x86.
  destruct (_ || _); [|reflexivity].
  rewrite reports_REGCMP, Hnm. simpl. now rewrite orb_false_r.
Qed.

Lemma reports_arch_x64_other nm u1 u2 :
  existsb (fun s => String.eqb s nm)
          ["orig_rax"%string; "cs_upper"%string; "ds_upper"%string;
           "es_upper"%string; "fs_upper"%string; "gs_upper"%string;
           "ss_upper"%string; "eflags_upper"%string] = false ->
  reports nm (compare_registers_arch_x64 u1 u2)
  = reports nm (compare_registers_core x64_registers u1 u2).
Proof.
  intros Hnm. unfold compare_registers_arch_x64.
  cbn [existsb] in Hnm.
  repeat (apply orb_false_elim in Hnm; destruct Hnm as [?H Hnm]).
  rewrite !reports_REGCMP.
  repeat match goal with H : String.eqb _ nm = false |- _ =>
    rewrite H; clear H end.
  cbn [andb]. rewrite !orb_false_r.
  destruct (_ || _); [|reflexivity].
  rewrite reports_REGCMP.
  match goal with |- context [String.eqb "orig_rax" nm] =>
    destruct (String.eqb "orig_rax" nm) eqn:E end.
  - exfalso.
    repeat match goal with H : _ || _ = false |- _ =>
      apply orb_false_elim in H; destruct H end; congruence.
  - simpl. now rewrite orb_false_r.
Qed.

(** C3 (as amended).  The comparison does not mask the segment registers
    to sixteen bits.  cs, ss, ds and es carry the comparison mask 0 and no
    mismatch is ever reported on them; fs and gs carry the full 32-bit
    mask, so a mismatch on fs (on gs) is reported exactly when the two
    32-bit values differ, in whatever bit. *)
Theorem segment_registers_comparison r1 r2 b c :
  compare_register_files r1 r2 b = Some c ->
  (forall nm, In nm (css_names (arch r1)) -> reports nm c = false)
  /\ reports (fs_name (arch r1)) c
     = negb (Int.u32 (fs_of r1) =? Int.u32 (fs_of r2))
  /\ reports (gs_name (arch r1)) c
     = negb (Int.u32 (gs_of r1) =? Int.u32 (gs_of r2)).
Proof.
  intros H. apply compare_register_files_internal_of in H.
  destruct r1 as [u1|u1], r2 as [u2|u2]; simpl in H; try discriminate;
    injection H as <-; cbn [arch fs_name gs_name fs_of gs_of].
  - split; [|split].
    + intros nm Hin. rewrite reports_arch_x86_other.
      * now apply core_css_x86.
      * simpl in Hin. destruct Hin as [<-|[<-|[<-|[<-|[]]]]]; reflexivity.
    + rewrite reports_arch_x86_other by reflexivity. apply core_x86_xfs.
    + rewrite reports_arch_x86_other by reflexivity. apply core_x86_xgs.
  - split; [|split].
    + intros nm Hin. rewrite reports_arch_x64_other.
      * now apply core_css_x64.
      * simpl in Hin. destruct Hin as [<-|[<-|[<-|[<-|[]]]]]; reflexivity.
    + rewrite reports_arch_x64_other by reflexivity. apply core_x64_fs.
    + rewrite reports_arch_x64_other by reflexivity. apply core_x64_gs.
Qed.

Lemma segment_registers_comparison_witness :
  exists c,
    compare_register_files (x86_with_segments 1 0) (x86_with_segments 2 65536)
                           LOG_MISMATCHES = Some c
    /\ (forall nm, In nm (css_names x86) -> reports nm c = false)
    /\ reports "xfs" c = true.
Proof.
  eexists. split; [reflexivity|].
  destruct (segment_registers_comparison
              (x86_with_segments 1 0) (x86_with_segments 2 65536)
              LOG_MISMATCHES _ eq_refl) as (Hcss & Hfs & _).
  split; [exact Hcss|exact Hfs].
Defined.

(** C3 as stated fails in both directions: two files that differ in the
    low sixteen bits of cs (1 against 2) and in nothing else compare
    equal, and two files that differ only in bit 16 of fs do not. *)
Lemma segment_mask_is_not_low16 :
  (exists c,
     compare_register_files (x86_with_segments 1 0) (x86_with_segments 2 0)
                            EXPECT_MISMATCHES = Some c
     /\ Z.land 1 65535 <> Z.land 2 65535
     /\ matched c = true /\ mismatches c = [])
  /\ (exists c,
        compare_register_files (x86_with_segments 0 0)
                               (x86_with_segments 0 65536)
                               EXPECT_MISMATCHES = Some c
        /\ Z.land 0 65535 = Z.land 65536 65535
        /\ matched c = false /\ reports "xfs" c = true).
Proof.
  split; eexists; (split; [reflexivity|]).
  - split; [discriminate|]. split; reflexivity.
  - split; [reflexivity|]. split; reflexivity.
Qed.

(** The [match] flag of a comparison is set exactly when no mismatch has
    been recorded. *)
Lemma matched_compare_one {S} (u1 u2 : S) c rv :
  (matched c = true <-> mismatches c = []) ->
  (matched (compare_one u1 u2 c rv) = true
   <-> mismatches (compare_one u1 u2 c rv) = []).
Proof.
  intros H. unfold compare_one.
  destruct (nbytes rv =? 0); [exact H|].
  destruct (comparison_mask rv =? 0); [exact H|].
  destruct (Z.land _ _ =? 0); [exact H|].
  simpl. split; [discriminate|].
  intros E. destruct (mismatches c); discriminate.
Qed.

Lemma matched_core {S} (table : list (RegisterValue S)) u1 u2 :
  matched (compare_registers_core table u1 u2) = true
  <-> mismatches (compare_registers_core table u1 u2) = [].
Proof.
  unfold compare_registers_core.
  assert (G : forall c, (matched c = true <-> mismatches c = []) ->
     (matched (fold_left (compare_one u1 u2) table c) = true
      <-> mismatches (fold_left (compare_one u1 u2) table c) = [])).
  { induction table as [|rv table IH]; intros c Hc; simpl; [exact Hc|].
    apply IH. now apply matched_compare_one. }
  apply G. simpl. split; reflexivity.
Qed.

End RegisterComparison.

(* ------------------------------------------------------------------ *)
(** ** The commit path of the syscall buffer *)

Ltac sym :=
  repeat (progress (cbn -[Z.add Z.sub Z.div Z.eqb Z.geb Z.gtb Z.ltb Z.leb];
                    rewrite ?Z.eqb_refl)).

Ltac unfold_preload :=
  unfold Preload.commit_raw_syscall, Preload.start_commit_buffered_syscall,
    Preload.arm_desched_event, Preload.disarm_desched_event,
    Preload.privileged_untraced_ioctl, Preload.breakpoint_function,
    Preload.untraced_syscall, Preload.traced_raw_syscall,
    Preload.assert, Preload.store, Preload.fatal, Preload.mret,
    Preload.bind, Preload.get.

Section CommitPath.

Import Preload.

Variable I : Interface.

(** A [commit_raw_syscall] that returns: its result, its effects and the
    state of the ring afterwards. *)
Lemma commit_done no re r s a s' :
  commit_raw_syscall I no re r s = Done a s' ->
  a = r
  /\ trace s' = trace s ++ commit_effects I re r s
  /\ locked (hdr s') = 0
  /\ desched_signal_may_be_relevant (hdr s') = 0
  /\ abort_commit (hdr s') = 0
  /\ num_rec_bytes (hdr s')
     = (if abort_commit (hdr s) =? 0
        then num_rec_bytes (hdr s)
             + stored_record_size I (re - buffer_last I s)
        else num_rec_bytes (hdr s))
  /\ size (recs s' (buffer_last I s)) = re - buffer_last I s
  /\ ret (recs s' (buffer_last I s))
     = (if abort_commit (hdr s) =? 0 then r else 0).
Proof.
  unfold commit_effects. unfold_preload. sym.
  destruct (re >=? buffer_last I s); sym; [|discriminate].
  destruct (locked (hdr s) =? 0); sym; [discriminate|].
  destruct (syscallno (recs s (buffer_last I s)) =? no); sym; [|discriminate].
  destruct (abort_commit (hdr s) =? 0) eqn:Eab; sym;
    destruct (desched (recs s (buffer_last I s)) =? 0); sym;
    try (destruct (ioctl_result (kernel s) PERF_EVENT_IOC_DISABLE =? 0); sym;
         [|discriminate]);
    intros H; injection H as <- <-; sym; rewrite <- ?app_assoc; sym;
    try rewrite Eab; repeat split; try reflexivity;
    try (apply Z.eqb_eq; assumption).
Qed.

(** When its assertions hold, the record is the one being committed and
    the kernel accepts the disarming ioctl, [commit_raw_syscall]
    returns. *)
Lemma commit_total no re r s :
  re >= buffer_last I s ->
  locked (hdr s) <> 0 ->
  syscallno (recs s (buffer_last I s)) = no ->
  (desched (recs s (buffer_last I s)) <> 0 ->
   ioctl_result (kernel s) PERF_EVENT_IOC_DISABLE = 0) ->
  exists s', commit_raw_syscall I no re r s = Done r s'.
Proof.
  intros Hre Hl Hno Hio.
  unfold_preload. sym.
  destruct (Z.geb_spec re (buffer_last I s)); [|lia]. sym.
  destruct (Z.eqb_spec (locked (hdr s)) 0); [contradiction|]. sym.
  destruct (Z.eqb_spec (syscallno (recs s (buffer_last I s))) no);
    [|contradiction]. sym.
  destruct (abort_commit (hdr s) =? 0) eqn:Eab; sym;
    destruct (Z.eqb_spec (desched (recs s (buffer_last I s))) 0); sym;
    try (rewrite Hio by assumption; sym); eexists; reflexivity.
Qed.

Lemma emit_all_facts evs : forall s,
  trace (emit_all evs s) = trace s ++ evs
  /\ hdr (emit_all evs s) = hdr s
  /\ recs (emit_all evs s) = recs s
  /\ buffer (emit_all evs s) = buffer s
  /\ kernel (emit_all evs s) = kernel s
  /\ desched_counter_fd (emit_all evs s) = desched_counter_fd s.
Proof.
  induction evs as [|e evs IH]; intros s; simpl.
  - rewrite app_nil_r. repeat split.
  - destruct (IH (emit e s)) as (Ht & Hh & Hr & Hb & Hk & Hf).
    unfold emit_all in *. rewrite Ht, Hh, Hr, Hb, Hk, Hf. simpl.
    rewrite <- app_assoc. repeat split.
Qed.

Lemma local_memcpys_run l : forall s,
  local_memcpys l s = Done tt (emit_all (map memcpy_effect l) s).
Proof.
  induction l as [|[[d sr] n] l IH]; intros s; simpl; [reflexivity|].
  unfold bind, local_memcpy. now rewrite IH.
Qed.

Lemma filter_memcpys l :
  filter desched_step (map memcpy_effect l) = [].
Proof. induction l as [|[[d sr] n] l IH]; simpl; auto. Qed.

Lemma filter_commit_effects re r s :
  filter desched_step (commit_effects I re r s)
  = Store hdr_desched_signal_may_be_relevant 0
    :: (if desched (recs s (buffer_last I s)) =? 0 then []
        else [Ioctl (desched_counter_fd s) PERF_EVENT_IOC_DISABLE]).
Proof.
  unfold commit_effects.
  destruct (abort_commit (hdr s) =? 0);
    destruct (desched (recs s (buffer_last I s)) =? 0); reflexivity.
Qed.

Lemma start_commit_accepts no re s s1 :
  start_commit_buffered_syscall I no re MAY_BLOCK s = Done 1 s1 ->
  trace s1 = trace s ++
    [Store (rec_syscallno (buffer_last I s)) no;
     Store (rec_desched (buffer_last I s)) 1;
     Store (rec_size (buffer_last I s)) (re - buffer_last I s);
     Store hdr_desched_signal_may_be_relevant 1;
     Ioctl (desched_counter_fd s) PERF_EVENT_IOC_ENABLE]
  /\ buffer s1 = buffer s
  /\ hdr s1 = {| num_rec_bytes := num_rec_bytes (hdr s);
                 abort_commit := abort_commit (hdr s);
                 notify_on_syscall_hook_exit :=
                   notify_on_syscall_hook_exit (hdr s);
                 locked := locked (hdr s);
                 desched_signal_may_be_relevant := 1 |}
  /\ desched (recs s1 (buffer_last I s)) = 1
  /\ syscallno (recs s1 (buffer_last I s)) = no
  /\ desched_counter_fd s1 = desched_counter_fd s
  /\ kernel s1 = kernel s.
Proof.
  unfold_preload. unfold MAY_BLOCK. sym.
  destruct (buffer s =? 0); sym; [intros H; discriminate H|].
  destruct (buffer_last I s + stored_record_size I (re - buffer_last I s)
            <? buffer_last I s + sizeof_syscallbuf_record I); sym;
    [intros H; discriminate H|].
  destruct (buffer_last I s + stored_record_size I (re - buffer_last I s)
            >? buffer_end I s - sizeof_syscallbuf_record I); sym;
    [intros H; discriminate H|].
  change (1 =? 0) with false. sym.
  destruct (ioctl_result (kernel s) PERF_EVENT_IOC_ENABLE =? 0); sym;
    [|intros H; discriminate H].
  intros H; injection H as <-. sym. rewrite <- !app_assoc. sym.
  repeat split.
Qed.

Lemma untraced_syscall_run no s :
  exists s2,
    untraced_syscall no s = Done (syscall_result (kernel s) no) s2
    /\ trace s2 = trace s ++ [UntracedSyscall no]
    /\ buffer s2 = buffer s
    /\ num_rec_bytes (hdr s2) = num_rec_bytes (hdr s)
    /\ locked (hdr s2) = locked (hdr s)
    /\ recs s2 = recs s
    /\ desched_counter_fd s2 = desched_counter_fd s
    /\ kernel s2 = kernel s.
Proof.
  unfold untraced_syscall. eexists. split; [reflexivity|].
  destruct (descheduled (kernel (emit (UntracedSyscall no) s)));
    repeat split.
Qed.


(** [sys_read] has the shape of [may_block_syscall]. *)
Lemma sys_read_shape fd buf count s :
  sys_read I fd buf count s
  = (ptr <- prep_syscall_for_fd I (Int.s32 fd) ;;
     may_block_syscall I SYS_read
       (sys_read_record_end (Int.u64 buf) (Int.u64 count) ptr) []
       (sys_read_outputs (Int.u64 buf) (Int.u64 count) ptr)) s.
Proof.
  unfold sys_read, may_block_syscall, bind.
  destruct (prep_syscall_for_fd I (Int.s32 fd) s) as [ptr s0|s0];
    [|reflexivity].
  fold (sys_read_record_end (Int.u64 buf) (Int.u64 count) ptr).
  destruct (start_commit_buffered_syscall I SYS_read
              (sys_read_record_end (Int.u64 buf) (Int.u64 count) ptr)
              MAY_BLOCK s0)
    as [ok s1|s1]; [|reflexivity].
  destruct (ok =? 0); [reflexivity|].
  simpl local_memcpys. unfold mret at 1.
  destruct (untraced_syscall SYS_read s1) as [r s2|s2]; [|reflexivity].
  unfold copy_output_buffer, sys_read_outputs.
  destruct ((if negb (Int.u64 buf =? 0) && (Int.u64 count >? 0)
             then ptr else 0) =? 0);
    [reflexivity|].
  cbv zeta. destruct (Int.s32 r <=? 0); reflexivity.
Qed.

(** C2 (as amended).  In a buffered may-block syscall that
    [start_commit_buffered_syscall] accepts and that returns, the steps of
    the desched protocol are, in this order: set
    [desched_signal_may_be_relevant], arm the counter, the untraced
    syscall, clear [desched_signal_may_be_relevant], disarm the counter.
    The flag is set before the counter is armed and cleared before the
    counter is disarmed. *)
Theorem desched_steps_in_order no re inputs outputs s r s' :
  (exists s1,
     start_commit_buffered_syscall I no re MAY_BLOCK s = Done 1 s1) ->
  may_block_syscall I no re inputs outputs s = Done r s' ->
  filter desched_step (trace s')
  = filter desched_step (trace s)
    ++ [Store hdr_desched_signal_may_be_relevant 1;
        Ioctl (desched_counter_fd s) PERF_EVENT_IOC_ENABLE;
        UntracedSyscall no;
        Store hdr_desched_signal_may_be_relevant 0;
        Ioctl (desched_counter_fd s) PERF_EVENT_IOC_DISABLE].
Proof.
  intros [s1 Hstart]. unfold may_block_syscall, bind.
  rewrite Hstart. change (1 =? 0) with false. cbv beta iota.
  unfold bind. rewrite (local_memcpys_run inputs s1).
  destruct (start_commit_accepts _ _ _ _ Hstart)
    as (Ht1 & Hb1 & Hh1 & Hd1 & Hn1 & Hf1 & Hk1).
  destruct (emit_all_facts (map memcpy_effect inputs) s1)
    as (Hta & Hha & Hra & Hba & Hka & Hfa).
  set (sa := emit_all (map memcpy_effect inputs) s1) in *.
  destruct (untraced_syscall_run no sa)
    as (s2 & Hrun & Ht2 & Hb2 & Hn2 & Hl2 & Hr2 & Hf2 & Hk2).
  rewrite Hrun.
  set (r0 := syscall_result (kernel sa) no) in *.
  rewrite local_memcpys_run.
  destruct (emit_all_facts (map memcpy_effect (fst (outputs r0))) s2)
    as (Htb & Hhb & Hrb & Hbb & Hkb & Hfb).
  set (sb := emit_all (map memcpy_effect (fst (outputs r0))) s2) in *.
  intros Hc. apply commit_done in Hc. destruct Hc as (_ & Ht & _).
  assert (Hlast : buffer_last I sb = buffer_last I s).
  { unfold buffer_last. rewrite Hhb, Hbb, Hn2, Hb2, Hha, Hba, Hh1, Hb1.
    reflexivity. }
  rewrite Ht, Htb, Ht2, Hta, Ht1.
  rewrite !filter_app, !filter_memcpys, filter_commit_effects.
  rewrite Hlast, Hrb, Hr2, Hra, Hd1, Hfb, Hf2, Hfa, Hf1.
  simpl. rewrite !app_nil_r, <- !app_assoc. reflexivity.
Qed.

(** C4.  A commit that is not aborted stores the size and the return
    value into the record before it advances [num_rec_bytes]; it advances
    [num_rec_bytes] by [stored_record_size] of the size it stored, and
    stores nothing into the record afterwards. *)
Theorem commit_publishes_complete_record no re r s :
  re >= buffer_last I s ->
  locked (hdr s) <> 0 ->
  syscallno (recs s (buffer_last I s)) = no ->
  (desched (recs s (buffer_last I s)) <> 0 ->
   ioctl_result (kernel s) PERF_EVENT_IOC_DISABLE = 0) ->
  abort_commit (hdr s) = 0 ->
  exists s' before after,
    commit_raw_syscall I no re r s = Done r s'
    /\ trace s' = trace s ++ before
                  ++ Store hdr_num_rec_bytes (num_rec_bytes (hdr s')) :: after
    /\ In (Store (rec_size (buffer_last I s)) (re - buffer_last I s)) before
    /\ In (Store (rec_ret (buffer_last I s)) r) before
    /\ (forall v, ~ In (Store hdr_num_rec_bytes v) before)
    /\ (forall f v, In (Store f v) after -> f = hdr_locked)
    /\ size (recs s' (buffer_last I s)) = re - buffer_last I s
    /\ ret (recs s' (buffer_last I s)) = r
    /\ num_rec_bytes (hdr s')
       = num_rec_bytes (hdr s)
         + stored_record_size I (size (recs s' (buffer_last I s))).
Proof.
  intros Hre Hl Hno Hio Hab.
  destruct (commit_total no re r s Hre Hl Hno Hio) as [s' Hrun].
  destruct (commit_done _ _ _ _ _ _ Hrun)
    as (_ & Ht & _ & _ & _ & Hn & Hsz & Hret).
  unfold commit_effects in Ht. rewrite Hab in *. simpl in Hn, Hret, Ht.
  exists s'.
  exists [Store (rec_size (buffer_last I s)) (re - buffer_last I s);
          Store hdr_desched_signal_may_be_relevant 0;
          Store (rec_ret (buffer_last I s)) r].
  exists ((if desched (recs s (buffer_last I s)) =? 0 then []
           else [Ioctl (desched_counter_fd s) PERF_EVENT_IOC_DISABLE])
          ++ [Store hdr_locked 0;
              BreakpointCall ((num_rec_bytes (hdr s)
                               + stored_record_size I (re - buffer_last I s))
                              / 8)]).
  split; [exact Hrun|]. split.
  { rewrite Ht, Hn. simpl. rewrite <- ?app_assoc. reflexivity. }
  split; [simpl; auto|]. split; [simpl; auto|]. split.
  { intros v [H|[H|[H|[]]]]; discriminate H. }
  split.
  { intros f v Hin. apply in_app_or in Hin. destruct Hin as [Hin|Hin].
    - destruct (desched (recs s (buffer_last I s)) =? 0);
        [destruct Hin|destruct Hin as [H|[]]; discriminate H].
    - destruct Hin as [H|[H|[]]]; [|discriminate H].
      now injection H as <- _. }
  split; [exact Hsz|]. split; [exact Hret|].
  rewrite Hsz. exact Hn.
Qed.

(** C10.  A commit that finds [abort_commit] set leaves [num_rec_bytes]
    where it was, clears [abort_commit], zeroes the record's return value
    and, as its last store, clears [locked]. *)
Theorem aborted_commit_not_published no re r s :
  re >= buffer_last I s ->
  locked (hdr s) <> 0 ->
  syscallno (recs s (buffer_last I s)) = no ->
  (desched (recs s (buffer_last I s)) <> 0 ->
   ioctl_result (kernel s) PERF_EVENT_IOC_DISABLE = 0) ->
  abort_commit (hdr s) <> 0 ->
  exists s' effects,
    commit_raw_syscall I no re r s = Done r s'
    /\ trace s' = trace s ++ effects ++ [Store hdr_locked 0]
    /\ (forall v, ~ In (Store hdr_num_rec_bytes v) effects)
    /\ (forall e, ~ In (BreakpointCall e) effects)
    /\ num_rec_bytes (hdr s') = num_rec_bytes (hdr s)
    /\ abort_commit (hdr s') = 0
    /\ ret (recs s' (buffer_last I s)) = 0
    /\ locked (hdr s') = 0.
Proof.
  intros Hre Hl Hno Hio Hab.
  destruct (commit_total no re r s Hre Hl Hno Hio) as [s' Hrun].
  destruct (commit_done _ _ _ _ _ _ Hrun)
    as (_ & Ht & Hlk & _ & Hac & Hn & _ & Hret).
  unfold commit_effects in Ht.
  apply Z.eqb_neq in Hab. rewrite Hab in *.
  exists s'.
  exists ([Store (rec_size (buffer_last I s)) (re - buffer_last I s);
           Store hdr_desched_signal_may_be_relevant 0;
           Store hdr_abort_commit 0;
           Store (rec_ret (buffer_last I s)) 0]
          ++ (if desched (recs s (buffer_last I s)) =? 0 then []
              else [Ioctl (desched_counter_fd s) PERF_EVENT_IOC_DISABLE])).
  split; [exact Hrun|]. split.
  { rewrite Ht. simpl. rewrite <- ?app_assoc. simpl.
    rewrite ?app_nil_r. reflexivity. }
  split.
  { intros v Hin. apply in_app_or in Hin. destruct Hin as [Hin|Hin].
    - destruct Hin as [H|[H|[H|[H|[]]]]]; discriminate H.
    - destruct (desched (recs s (buffer_last I s)) =? 0);
        [destruct Hin|destruct Hin as [H|[]]; discriminate H]. }
  split.
  { intros e Hin. apply in_app_or in Hin. destruct Hin as [Hin|Hin].
    - destruct Hin as [H|[H|[H|[H|[]]]]]; discriminate H.
    - destruct (desched (recs s (buffer_last I s)) =? 0);
        [destruct Hin|destruct Hin as [H|[]]; discriminate H]. }
  repeat split; assumption.
Qed.

End CommitPath.

Section CommitPathExamples.

Import Preload.

Lemma desched_steps_in_order_witness :
  match may_block_syscall example_interface SYS_read 65570 []
          (sys_read_outputs 1000 10 65560) example_locked_state with
  | Done r s' =>
      filter desched_step (trace s')
      = filter desched_step (trace example_locked_state)
        ++ [Store hdr_desched_signal_may_be_relevant 1;
            Ioctl 7 PERF_EVENT_IOC_ENABLE;
            UntracedSyscall SYS_read;
            Store hdr_desched_signal_may_be_relevant 0;
            Ioctl 7 PERF_EVENT_IOC_DISABLE]
  | Fatal _ => False
  end.
Proof.
  destruct (may_block_syscall example_interface SYS_read 65570 []
              (sys_read_outputs 1000 10 65560) example_locked_state)
    as [r s'|s'] eqn:E.
  - apply (desched_steps_in_order example_interface SYS_read 65570 []
             (sys_read_outputs 1000 10 65560) example_locked_state r s');
      [|exact E].
    eexists. vm_compute. reflexivity.
  - vm_compute in E. discriminate E.
Defined.


(** C2 as stated fails: in a run of [sys_read] the flag is cleared before
    the counter is disarmed, not after. *)
Lemma flag_cleared_before_disarm :
  exists r s',
    sys_read example_interface 3 1000 10 (example_state false 0 0)
    = Done r s'
    /\ filter desched_step (trace s')
       = [Store hdr_desched_signal_may_be_relevant 1;
          Ioctl 7 PERF_EVENT_IOC_ENABLE;
          UntracedSyscall SYS_read;
          Store hdr_desched_signal_may_be_relevant 0;
          Ioctl 7 PERF_EVENT_IOC_DISABLE]
    /\ filter desched_step (trace s')
       <> [Store hdr_desched_signal_may_be_relevant 1;
           Ioctl 7 PERF_EVENT_IOC_ENABLE;
           UntracedSyscall SYS_read;
           Ioctl 7 PERF_EVENT_IOC_DISABLE;
           Store hdr_desched_signal_may_be_relevant 0].
Proof.
  eexists. eexists. split; [vm_compute; reflexivity|].
  split; [reflexivity|]. intros H. discriminate H.
Qed.

Lemma commit_publishes_complete_record_witness :
  exists s' before after,
    commit_raw_syscall example_interface 0 65570 5 example_locked_state
    = Done 5 s'
    /\ trace s' = before
                  ++ Store hdr_num_rec_bytes (num_rec_bytes (hdr s')) :: after
    /\ In (Store (rec_size 65544) 26) before
    /\ In (Store (rec_ret 65544) 5) before
    /\ num_rec_bytes (hdr s') = 32.
Proof.
  destruct (commit_publishes_complete_record example_interface 0 65570 5
              example_locked_state)
    as (s' & before & after & Hrun & Ht & Hsz & Hret & _ & _ & Hs & _ & Hn).
  - vm_compute. discriminate.
  - vm_compute. discriminate.
  - reflexivity.
  - intros _. reflexivity.
  - reflexivity.
  - exists s', before, after.
    split; [exact Hrun|]. split; [exact Ht|].
    split; [exact Hsz|]. split; [exact Hret|].
    rewrite Hn, Hs. reflexivity.
Defined.

Lemma aborted_commit_not_published_witness :
  exists s',
    commit_raw_syscall example_interface 0 65570 5 (example_state true 1 1)
    = Done 5 s'
    /\ num_rec_bytes (hdr s') = 0
    /\ abort_commit (hdr s') = 0
    /\ ret (recs s' 65544) = 0
    /\ locked (hdr s') = 0.
Proof.
  destruct (aborted_commit_not_published example_interface 0 65570 5
              (example_state true 1 1))
    as (s' & effects & Hrun & _ & _ & _ & Hn & Hac & Hret & Hl).
  - vm_compute. discriminate.
  - vm_compute. discriminate.
  - reflexivity.
  - intros _. reflexivity.
  - vm_compute. discriminate.
  - exists s'. repeat split; assumption.
Defined.

End CommitPathExamples.

(* ------------------------------------------------------------------ *)
(** ** Trace frames: writing and reading back *)

Section TraceRoundTrip.

Import Trace.

Variable X : Externals.
Hypothesis HX : lawful X.

Lemma write_frame_events (f : TraceFrame X) w :
  write_frame f w
  = Build_TraceWriter X (w_events w ++ frame_items f) (w_global_time w + 1).
Proof.
  unfold write_frame, frame_items, exec_info_items, signal_items,
    extra_regs_items, basic_info_of, w_tick_time, put.
  destruct (Event_has_exec_info (ev f));
    destruct (is_signal_event (ev f)); simpl;
    try destruct (ExtraRegisters.data_size (recorded_extra_regs f) >? 0);
    simpl; rewrite <- ?app_assoc; simpl; rewrite ?app_nil_r; reflexivity.
Qed.

Lemma write_frames_events (frames : list (TraceFrame X)) : forall w,
  write_frames frames w
  = Build_TraceWriter X (w_events w ++ flat_map frame_items frames)
                        (w_global_time w + Z.of_nat (List.length frames)).
Proof.
  induction frames as [|f frames IH]; intros w.
  - simpl. rewrite app_nil_r, Z.add_0_r. now destruct w.
  - unfold write_frames in *. cbn [fold_left]. rewrite IH, write_frame_events.
    cbn [w_events w_global_time flat_map List.length].
    rewrite <- app_assoc. f_equal. lia.
Qed.

Lemma data_size_small (x : ExtraRegisters.t) :
  Z.of_nat (List.length (ExtraRegisters.data_ x)) < 2 ^ 31 ->
  ExtraRegisters.data_size x = Z.of_nat (List.length (ExtraRegisters.data_ x)).
Proof.
  intros H. unfold ExtraRegisters.data_size, Int.s32, Int.to_signed.
  rewrite Z.mod_small by lia.
  change (32 - 1) with 31.
  destruct (Z.ltb_spec (Z.of_nat (List.length (ExtraRegisters.data_ x))) (2 ^ 31)); lia.
Qed.

Lemma Format_char_round_trip fmt :
  ExtraRegisters.Format_of_char (ExtraRegisters.Format_to_char fmt) = fmt.
Proof. destruct fmt; reflexivity. Qed.

Lemma read_exec_info_items (frame0 : TraceFrame X) x regs perf dir all rest t :
  ExtraRegisters.arch_ x = Some (Event_arch (ev frame0)) ->
  (ExtraRegisters.data_ x = [] ->
   ExtraRegisters.format_ x = ExtraRegisters.NONE) ->
  Z.of_nat (List.length (ExtraRegisters.data_ x)) < 2 ^ 31 ->
  read_exec_info frame0
    (mk_reader dir all
       (([ItemRegisters regs; ItemExtra perf] ++ extra_regs_items x) ++ rest)
       t)
  = Some (with_extra_regs x (with_regs_perf regs perf frame0),
          mk_reader dir all rest t).
Proof.
  intros Harch Hnone Hlen.
  unfold extra_regs_items.
  rewrite (data_size_small x Hlen).
  unfold read_exec_info, take, mk_reader.
  cbn [r_unread app trace_dir r_events r_global_time].
  destruct x as [fmt a data]. cbn [ExtraRegisters.data_ ExtraRegisters.format_
    ExtraRegisters.arch_] in *.
  destruct (Z.gtb_spec (Z.of_nat (List.length data)) 0) as [Hpos|Hzero].
  - cbn [app r_unread trace_dir r_events r_global_time].
    rewrite Nat2Z.id, firstn_all, Z.eqb_refl.
    unfold with_extra_regs, with_regs_perf, ExtraRegisters.set_to_raw_data,
      ExtraRegisters.set_arch.
    cbn. rewrite Format_char_round_trip, Harch. reflexivity.
  - assert (data = []) by (destruct data; [reflexivity|simpl in Hzero; lia]).
    subst data. rewrite (Hnone eq_refl).
    cbn. unfold with_extra_regs, with_regs_perf, ExtraRegisters.create.
    cbn. rewrite Harch. reflexivity.
Qed.

Lemma signal_data_round_trip (e d : Event) :
  carries_addr (si_signo (siginfo (signal d)))
  = carries_addr (si_signo (siginfo (signal e))) ->
  signal_data (set_signal_data (signal_data (signal e)) (signal d))
  = signal_data (signal e).
Proof.
  intros H. unfold signal_data, set_signal_data.
  destruct (carries_addr (si_signo (siginfo (signal e)))) eqn:E;
    rewrite H; cbn; rewrite H; reflexivity.
Qed.

Lemma read_frame_items (f : TraceFrame X) dir all rest t :
  encodable X (ev f) ->
  extra_regs_ok f ->
  t + 1 = global_time f ->
  exists f',
    read_frame (mk_reader dir all (frame_items f ++ rest) t)
    = Some (f', mk_reader dir all rest (global_time f))
    /\ view f' = view f.
Proof.
  intros Henc Hok Ht.
  pose proof (decode_has_exec_info X HX _ Henc) as Hexec.
  pose proof (decode_arch X HX _ Henc) as Harch.
  pose proof (decode_is_signal X HX _ Henc) as Hsig.
  pose proof (decode_signo X HX _ Henc) as Hsigno.
  pose proof (encode_decode X HX _ Henc) as Hed.
  set (d := decode X (encode X (ev f))) in *.
  set (frame0 := TraceFrame_create X (global_time f) (tid_ f) d (ticks_ f)
                                   (monotonic_time_ f)).
  assert (Hafter : exists frame1,
    match Event_has_exec_info d with
    | HAS_EXEC_INFO =>
        read_exec_info frame0
          (mk_reader dir all
             ((exec_info_items f ++ signal_items f) ++ rest) t)
    | NO_EXEC_INFO =>
        Some (frame0,
              mk_reader dir all
                ((exec_info_items f ++ signal_items f) ++ rest) t)
    end
    = Some (frame1, mk_reader dir all (signal_items f ++ rest) t)
    /\ ev frame1 = d
    /\ global_time frame1 = global_time f
    /\ tid_ frame1 = tid_ f /\ ticks_ frame1 = ticks_ f
    /\ monotonic_time_ frame1 = monotonic_time_ f
    /\ (Event_has_exec_info (ev f) = HAS_EXEC_INFO ->
        recorded_regs frame1 = recorded_regs f
        /\ extra_perf frame1 = extra_perf f
        /\ recorded_extra_regs frame1 = recorded_extra_regs f)).
  { rewrite Hexec. unfold exec_info_items.
    destruct (Event_has_exec_info (ev f)) eqn:E.
    - exists frame0. cbn [app]. repeat (split; [reflexivity|]).
      intros Hc; discriminate Hc.
    - destruct (Hok E) as (Ha & Hn & Hl).
      eexists. split.
      + rewrite <- app_assoc. apply read_exec_info_items; try assumption.
        change (ev frame0) with d. rewrite Harch. exact Ha.
      + repeat split; reflexivity. }
  destruct Hafter as (frame1 & Hread & Hev & Hgt & Htid & Hticks & Hmono & Hx).
  unfold read_frame, frame_items, mk_reader, take.
  cbn [r_unread app trace_dir r_events r_global_time].
  change (TraceFrame_create X (bi_global_time (basic_info_of f))
            (bi_tid_ (basic_info_of f)) (decode X (bi_ev (basic_info_of f)))
            (bi_ticks_ (basic_info_of f))
            (bi_monotonic_sec (basic_info_of f))) with frame0.
  change (ev frame0) with d.
  unfold mk_reader in Hread. rewrite Hread.
  rewrite Hev, Hsig. unfold signal_items.
  cbn [r_unread app trace_dir r_events r_global_time].
  destruct (is_signal_event (ev f)) eqn:Esig;
    unfold r_tick_time;
    cbn [r_unread app trace_dir r_events r_global_time global_time with_ev];
    rewrite Hgt, Ht, Z.eqb_refl; eexists; (split; [reflexivity|]).
  - unfold view.
    cbn [global_time tid_ ev ticks_ monotonic_time_ recorded_regs extra_perf
         recorded_extra_regs with_ev].
    rewrite (encode_si_addr X HX), Hed.
    change (Event_has_exec_info (with_signal
              (set_signal_data (signal_data (signal (ev f))) (signal d)) d))
      with (Event_has_exec_info d).
    change (is_signal_event (with_signal
              (set_signal_data (signal_data (signal (ev f))) (signal d)) d))
      with (is_signal_event d).
    rewrite Hexec, Hsig, Esig, Hgt, Htid, Hticks, Hmono.
    cbn [signal with_signal].
    rewrite (signal_data_round_trip (ev f) d (Hsigno eq_refl)).
    destruct (Event_has_exec_info (ev f)) eqn:E; [reflexivity|].
    destruct (Hx eq_refl) as (-> & -> & ->). reflexivity.
  - unfold view. rewrite Hev, Hed, Hexec, Hsig, Esig, Hgt, Htid, Hticks, Hmono.
    destruct (Event_has_exec_info (ev f)) eqn:E; [reflexivity|].
    destruct (Hx eq_refl) as (-> & -> & ->). reflexivity.
Qed.

Lemma read_frames_items (frames : list (TraceFrame X)) :
  forall dir all rest t,
    numbered_from (t + 1) frames ->
    Forall recordable frames ->
    exists fs,
      read_frames (List.length frames)
                  (mk_reader dir all (flat_map frame_items frames ++ rest) t)
      = Some (fs, mk_reader dir all rest (t + Z.of_nat (List.length frames)))
      /\ map view fs = map view frames.
Proof.
  induction frames as [|f frames IH]; intros dir all rest t Hnum Hrec.
  - exists []. cbn. rewrite Z.add_0_r. split; reflexivity.
  - destruct Hnum as [Hf Hnum].
    inversion Hrec as [|f0 l [Henc Hok] Hrec']; subst.
    cbn [flat_map List.length read_frames]. rewrite <- app_assoc.
    destruct (read_frame_items f dir all
                (flat_map frame_items frames ++ rest) t Henc Hok
                (eq_sym Hf)) as (f' & Hread & Hview).
    rewrite Hread. rewrite Hf.
    destruct (IH dir all rest (t + 1) Hnum Hrec') as (fs & Hreads & Hviews).
    rewrite Hreads. exists (f' :: fs). split.
    + do 2 f_equal. f_equal. lia.
    + cbn [map]. now rewrite Hview, Hviews.
Qed.

(** C5 (as amended).  Frames written through [write_frame] that carry the
    event times 1, 2, ..., N in this order, whose events are ones the
    encoding is meant for and whose extra registers carry the event's
    architecture (and are of format NONE when empty) are returned by N
    calls of [read_frame] with the same event time, tid, encoded event,
    ticks and monotonic time, the same registers, extra perf values and
    extra registers where the event has exec info, and the same signal
    payload where it is a signal event; after [rewind] the same N frames
    are returned again. *)
Theorem trace_round_trip dir (frames : list (TraceFrame X)) :
  numbered_from 1 frames ->
  Forall recordable frames ->
  exists fs r1,
    read_frames (List.length frames)
                (reader_on dir (write_frames frames (TraceWriter_create X)))
    = Some (fs, r1)
    /\ map view fs = map view frames
    /\ read_frames (List.length frames) (rewind r1) = Some (fs, r1).
Proof.
  intros Hnum Hrec.
  rewrite write_frames_events. unfold reader_on, TraceWriter_create.
  cbn [w_events w_global_time app].
  destruct (read_frames_items frames dir (flat_map frame_items frames) [] 0
              Hnum Hrec) as (fs & Hreads & Hviews).
  rewrite app_nil_r in Hreads. unfold mk_reader in Hreads.
  exists fs. eexists. split; [exact Hreads|]. split; [exact Hviews|].
  unfold rewind. cbn [trace_dir r_events]. exact Hreads.
Qed.

End TraceRoundTrip.

Section TraceExamples.

Import Trace.

Lemma land_signo_det s b :
  0 <= s < 128 -> b = 128 \/ b = 0 ->
  Z.land (Z.lor s b) (Z.lnot DET_SIGNAL_BIT) = s
  /\ Z.testbit (Z.lor s b) 7 = Z.testbit b 7.
Proof.
  intros Hs Hb.
  assert (Hs7 : Z.land s (Z.ones 7) = s).
  { rewrite Z.land_ones by lia. apply Z.mod_small. simpl. lia. }
  split.
  - rewrite Z.land_lor_distr_l.
    replace (Z.land b (Z.lnot DET_SIGNAL_BIT)) with 0
      by (destruct Hb; subst b; reflexivity).
    rewrite Z.lor_0_r. rewrite <- Hs7 at 1.
    rewrite <- Z.land_assoc.
    change (Z.land (Z.ones 7) (Z.lnot DET_SIGNAL_BIT)) with (Z.ones 7).
    exact Hs7.
  - rewrite Z.lor_spec. rewrite <- Hs7.
    rewrite Z.land_spec. change (Z.testbit (Z.ones 7) 7) with false.
    now rewrite andb_false_r.
Qed.

Lemma example_externals_lawful : lawful example_externals.
Proof.
  split; cbn [encode decode encodable example_externals].
  - reflexivity.
  - reflexivity.
  - reflexivity.
  - intros e Henc Hsig. unfold example_decode, example_encode.
    cbn [siginfo signal si_signo e_data]. rewrite Hsig.
    destruct (land_signo_det (si_signo (siginfo (signal e)))
                (match deterministic (signal e) with
                 | DETERMINISTIC_SIG => DET_SIGNAL_BIT
                 | NONDETERMINISTIC_SIG => 0
                 end) (Henc Hsig)) as [-> _]; [|reflexivity].
    destruct (deterministic (signal e)); auto.
  - intros e Henc.
    destruct e as [ty [hx ar] [[signo addr] det] [st num rs]].
    unfold example_encodable in Henc. cbn in Henc.
    unfold example_encode, example_decode, is_signal_event, is_syscall_event.
    destruct ty;
      cbn -[Z.lor Z.land Z.lnot Z.testbit DET_SIGNAL_BIT];
      try reflexivity;
      try (destruct st; reflexivity);
      (destruct (land_signo_det signo
                   (match det with
                    | DETERMINISTIC_SIG => DET_SIGNAL_BIT
                    | NONDETERMINISTIC_SIG => 0
                    end) (Henc eq_refl)) as [-> ->];
       [destruct det; auto|destruct det; reflexivity]).
  - intros e d. unfold example_encode, with_signal, set_signal_data,
      is_signal_event, is_syscall_event.
    cbn [event_type base syscall signal].
    destruct (carries_addr (si_signo (siginfo (signal e)))); reflexivity.
Qed.

Lemma example_frames_recordable :
  Forall recordable [example_frame 1; example_sched_frame 2].
Proof.
  apply Forall_cons; [|apply Forall_cons; [|apply Forall_nil]].
  - split.
    + intros _. cbn. unfold SIGSEGV. lia.
    + intros _. cbn. split; [reflexivity|]. split; [|lia].
      intros H; discriminate H.
  - split.
    + intros H; discriminate H.
    + intros H; discriminate H.
Qed.

Lemma trace_round_trip_witness :
  exists fs r1,
    read_frames 2
      (reader_on "trace"
         (write_frames [example_frame 1; example_sched_frame 2]
                       (TraceWriter_create example_externals)))
    = Some (fs, r1)
    /\ map view fs = map view [example_frame 1; example_sched_frame 2]
    /\ read_frames 2 (rewind r1) = Some (fs, r1).
Proof.
  apply (trace_round_trip example_externals example_externals_lawful "trace"
           [example_frame 1; example_sched_frame 2]).
  - cbn. repeat split; reflexivity.
  - exact example_frames_recordable.
Defined.

(** C5 as stated fails: a frame written with an event time other than the
    writer's (5 for the first frame, where the reader counts 1) makes
    [read_frame] fail its assertion [time() == frame.time()]; the N calls
    return no sequence at all. *)
Lemma frame_with_other_time_not_read_back :
  write_frames [example_frame 5] (TraceWriter_create example_externals)
  = {| w_events := frame_items (example_frame 5); w_global_time := 2 |}
  /\ read_frames 1
       (reader_on "trace"
          (write_frames [example_frame 5]
                        (TraceWriter_create example_externals)))
     = None.
Proof. split; reflexivity. Qed.

End TraceExamples.

(* ------------------------------------------------------------------ *)
(** ** Opening a trace: the version check *)

Section VersionCheck.

Import Trace.

Variable X : Externals.

(** C6 (as amended).  Opening a trace whose version file is missing,
    unparsable or holds an integer other than 41 is fatal: the constructor
    prints a message and exits with [EX_DATAERR] without returning a
    reader.  For a missing file the message names the version file (and
    not the expected version); for an unparsable file or another integer
    it names the version file and the expected version 41.  The
    constructor returns only when the version file parses to exactly
    41. *)
Theorem version_check (files : string -> TraceFiles X) latest dir :
  let d := opened_dir latest dir in
  (version_file (files d) = None ->
   exists m,
     TraceReader_create files latest dir = Exited EX_DATAERR m
     /\ text m = VERSION_FILE_NOT_FOUND
     /\ names_file (version_path d) m
     /\ ~ names_expected_version m)
  /\ (forall contents,
        version_file (files d) = Some contents ->
        extract_int contents <> (TRACE_VERSION, false) ->
        exists m,
          TraceReader_create files latest dir = Exited EX_DATAERR m
          /\ text m = INCOMPATIBLE_VERSION
          /\ names_file (version_path d) m
          /\ names_expected_version m)
  /\ (forall r,
        TraceReader_create files latest dir = Returned r ->
        exists contents,
          version_file (files d) = Some contents
          /\ extract_int contents = (TRACE_VERSION, false)).
Proof.
  intros d. unfold TraceReader_create. fold d.
  destruct (version_file (files d)) as [contents|] eqn:Ev.
  - split; [intros H; discriminate H|].
    destruct (extract_int contents) as [v fail] eqn:Ex.
    split.
    + intros c Hc Hne. injection Hc as <-. rewrite Ex in *.
      assert (Hbad : fail || negb (TRACE_VERSION =? v) = true).
      { destruct fail; [reflexivity|]. cbn [orb].
        destruct (Z.eqb_spec TRACE_VERSION v) as [<-|]; [|reflexivity].
        now contradiction Hne. }
      rewrite Hbad. eexists. split; [reflexivity|].
      split; [reflexivity|]. unfold names_file, names_expected_version.
      simpl. auto.
    + intros r Hr. exists contents. split; [reflexivity|].
      destruct fail; [discriminate Hr|].
      destruct (Z.eqb_spec TRACE_VERSION v) as [<-|];
        [exact Ex|discriminate Hr].
  - split.
    + intros _. eexists. split; [reflexivity|]. split; [reflexivity|].
      unfold names_file, names_expected_version. simpl.
      split; [auto|]. intros [H|[H|[H|[]]]]; discriminate H.
    + split; [intros c H; discriminate H|intros r H; discriminate H].
Qed.

End VersionCheck.

Section VersionCheckExamples.

Import Trace.

Lemma version_check_witness :
  exists m,
    TraceReader_create (files_with_version example_externals "40") "latest"
                       "/t"
    = Exited EX_DATAERR m
    /\ text m = INCOMPATIBLE_VERSION
    /\ names_file "/t/version" m
    /\ names_expected_version m.
Proof.
  destruct (version_check example_externals
              (files_with_version example_externals "40") "latest" "/t")
    as (_ & H & _).
  apply (H "40"%string).
  - reflexivity.
  - intros E. discriminate E.
Defined.

(** C6 as stated fails for a missing version file: the message that is
    printed names the version file, not the expected version. *)
Lemma missing_version_message_lacks_expected_value :
  exists m,
    TraceReader_create (files_without_version example_externals) "latest"
                       "/t"
    = Exited EX_DATAERR m
    /\ args m = [ArgString "/t/version"; ArgString "/t/version";
                 ArgString "/t/version"]
    /\ ~ names_expected_version m.
Proof.
  eexists. split; [reflexivity|]. split; [reflexivity|].
  intros [H|[H|[H|[]]]]; discriminate H.
Qed.

(** The version file a writer leaves, "41" and a newline, is accepted, and
    so is any text that begins with it. *)
Lemma written_version_accepted :
  extract_int (String "4" (String "1" (String (ascii_of_nat 10) EmptyString)))
  = (TRACE_VERSION, false)
  /\ extract_int "41abc" = (TRACE_VERSION, false).
Proof. split; reflexivity. Qed.

End VersionCheckExamples.

(* ------------------------------------------------------------------ *)
(** ** Iterating over the memory map *)

Section MapsIteration.

Import AddressSpace.

Lemma comparator_point k p :
  MappingComparator k {| start_ := p; end_ := p |} = (start_ k <? p).
Proof.
  unfold MappingComparator, intersects. cbn [start_ end_].
  destruct (Z.ltb_spec (Z.max (start_ k) p) (Z.min (end_ k) p)); [lia|].
  reflexivity.
Qed.

Lemma lower_bound_skipn mem p :
  lower_bound mem {| start_ := p; end_ := p |}
  = skipn (lb_index (List.map fst mem) p) mem.
Proof.
  induction mem as [|e mem IH]; [reflexivity|].
  cbn [lower_bound List.map lb_index]. rewrite comparator_point.
  destruct (start_ (fst e) <? p); [exact IH|reflexivity].
Qed.

Lemma lb_index_below lo mem p :
  well_formed_from lo mem -> p <= lo -> lb_index (List.map fst mem) p = O.
Proof.
  destruct mem as [|[k m] rest]; [reflexivity|].
  intros (Hlo & _) Hp. cbn [List.map fst lb_index].
  destruct (Z.ltb_spec (start_ k) p); [lia|reflexivity].
Qed.

Lemma well_formed_nth : forall mem lo i e,
  well_formed_from lo mem -> nth_error mem i = Some e ->
  lo <= start_ (fst e) /\ start_ (fst e) < end_ (fst e)
  /\ range (map (snd e)) = fst e.
Proof.
  induction mem as [|[k m] rest IH]; intros lo i e Hwf Hnth.
  - destruct i; discriminate Hnth.
  - destruct Hwf as (Hlo & Hne & Hr & Hrest). destruct i as [|i].
    + injection Hnth as <-. cbn. auto.
    + cbn in Hnth. destruct (IH _ _ _ Hrest Hnth) as (H1 & H2 & H3).
      repeat split; try assumption. lia.
Qed.

Lemma lb_index_end : forall mem lo i e,
  well_formed_from lo mem -> nth_error mem i = Some e ->
  lb_index (List.map fst mem) (end_ (fst e)) = S i.
Proof.
  induction mem as [|[k m] rest IH]; intros lo i e Hwf Hnth.
  - destruct i; discriminate Hnth.
  - destruct Hwf as (Hlo & Hne & Hr & Hrest). cbn [List.map fst lb_index].
    destruct i as [|i].
    + injection Hnth as <-. cbn [fst].
      destruct (Z.ltb_spec (start_ k) (end_ k)); [|lia].
      f_equal. apply (lb_index_below (end_ k)); [exact Hrest|lia].
    + cbn in Hnth.
      destruct (well_formed_nth _ _ _ _ Hrest Hnth) as (H1 & H2 & _).
      destruct (Z.ltb_spec (start_ k) (end_ (fst e))); [|lia].
      f_equal. exact (IH _ _ _ Hrest Hnth).
Qed.

Lemma to_it_skipn mem p :
  to_it mem (at_ p) = skipn (lb_index (List.map fst mem) p) mem.
Proof. unfold to_it. cbn. apply lower_bound_skipn. Qed.

Lemma skipn_nth_error {A} (l : list A) i e :
  nth_error l i = Some e -> exists rest, skipn i l = e :: rest.
Proof.
  revert i. induction l as [|x l IH]; intros [|i] H; try discriminate H.
  - injection H as ->. eexists. reflexivity.
  - cbn in *. exact (IH _ H).
Qed.

Lemma nth_error_same_keys (mem mem' : MemoryMap) i e :
  List.map fst mem' = List.map fst mem ->
  nth_error mem i = Some e ->
  exists e', nth_error mem' i = Some e' /\ fst e' = fst e.
Proof.
  intros Hk Hn.
  assert (H : nth_error (List.map fst mem') i = Some (fst e)).
  { rewrite Hk. rewrite nth_error_map, Hn. reflexivity. }
  rewrite nth_error_map in H.
  destruct (nth_error mem' i) as [e'|]; [|discriminate H].
  exists e'. split; [reflexivity|]. now injection H.
Qed.

Lemma step_keeps body mem :
  Forall keeps_entries body -> well_formed mem ->
  well_formed (step body mem)
  /\ List.map fst (step body mem) = List.map fst mem.
Proof.
  intros Hb Hwf. destruct body as [|g body]; [split; auto|].
  inversion Hb; subst. cbn. auto.
Qed.

Lemma iterate_S fuel body mem it :
  iterate (S fuel) body mem it
  = if not_at_end mem it then
      match deref mem it with
      | None => None
      | Some m =>
          match incr (step body mem) it with
          | None => None
          | Some it' =>
              match iterate fuel (tl body) (step body mem) it' with
              | Some (ms, final) => Some (m :: ms, final)
              | None => None
              end
          end
      end
    else Some ([], mem).
Proof. reflexivity. Qed.

Lemma iterate_walk : forall n body mem i p,
  well_formed mem -> Forall keeps_entries body ->
  List.length mem = (i + n)%nat ->
  lb_index (List.map fst mem) p = i ->
  exists final,
    iterate (S n) body mem (at_ p) = Some (walk n body mem i, final).
Proof.
  induction n as [|n IH]; intros body mem i p Hwf Hb Hlen Hidx.
  - rewrite iterate_S. unfold not_at_end. rewrite to_it_skipn, Hidx.
    replace i with (List.length mem) by lia. rewrite skipn_all.
    exists mem. reflexivity.
  - assert (Hi : (i < List.length mem)%nat) by lia.
    destruct (nth_error mem i) as [e|] eqn:He;
      [|apply nth_error_None in He; lia].
    destruct (skipn_nth_error _ _ _ He) as [rest Hskip].
    destruct (step_keeps body mem Hb Hwf) as [Hwf' Hkeys'].
    destruct (nth_error_same_keys mem (step body mem) i e Hkeys' He)
      as (e' & He' & Hfst).
    destruct (skipn_nth_error _ _ _ He') as [rest' Hskip'].
    destruct (well_formed_nth _ _ _ _ Hwf' He') as (_ & _ & Hrange).
    destruct (IH (tl body) (step body mem) (S i) (end_ (fst e')))
      as [final Hfinal].
    + exact Hwf'.
    + destruct body; [constructor|now inversion Hb].
    + rewrite <- (length_map fst), Hkeys', length_map. lia.
    + exact (lb_index_end _ _ _ _ Hwf' He').
    + exists final.
      rewrite iterate_S. cbn [walk]. fold (step body mem).
      unfold not_at_end, deref, incr.
      rewrite !to_it_skipn, Hkeys', Hidx, Hskip, Hskip', He.
      cbn [snd at_end at_]. rewrite Hrange.
      change {| ptr := end_ (fst e'); at_end := false |}
        with (at_ (end_ (fst e'))).
      rewrite Hfinal. reflexivity.
Qed.


Lemma walk_ranges : forall n body mem i,
  well_formed mem -> Forall keeps_entries body ->
  List.length mem = (i + n)%nat ->
  List.map (fun m => range (map m)) (walk n body mem i)
  = skipn i (List.map fst mem).
Proof.
  induction n as [|n IH]; intros body mem i Hwf Hb Hlen.
  - cbn. rewrite skipn_all2; [reflexivity|]. rewrite length_map. lia.
  - destruct (nth_error mem i) as [e|] eqn:He;
      [|apply nth_error_None in He; lia].
    cbn [walk]. rewrite He. fold (step body mem). cbn [List.map snd].
    destruct (step_keeps body mem Hb Hwf) as [Hwf' Hkeys'].
    rewrite IH; try assumption.
    + destruct (well_formed_nth _ _ _ _ Hwf He) as (_ & _ & ->).
      rewrite Hkeys'.
      assert (Hk : nth_error (List.map fst mem) i = Some (fst e))
        by (rewrite nth_error_map, He; reflexivity).
      destruct (skipn_nth_error _ _ _ Hk) as [rest Hrest].
      rewrite Hrest. f_equal.
      change (S i) with (1 + i)%nat. rewrite <- skipn_skipn, Hrest.
      reflexivity.
    + destruct body; [constructor|now inversion Hb].
    + rewrite <- (length_map fst), Hkeys', length_map. lia.
Qed.

(** The keys of a well-formed map are in address order, without
    overlap. *)
Lemma well_formed_sorted : forall mem lo,
  well_formed_from lo mem ->
  StronglySorted (fun a b => end_ a <= start_ b) (List.map fst mem)
  /\ Forall (fun k => lo <= start_ k) (List.map fst mem).
Proof.
  induction mem as [|[k m] rest IH]; intros lo Hwf.
  - split; constructor.
  - destruct Hwf as (Hlo & Hne & _ & Hrest).
    destruct (IH _ Hrest) as [Hs Hf]. cbn [List.map fst]. split.
    + constructor; [exact Hs|exact Hf].
    + constructor; [exact Hlo|].
      eapply Forall_impl; [|exact Hf]. cbn. intros a Ha. lia.
Qed.

Lemma StronglySorted_map {A B} (f : A -> B) (R : B -> B -> Prop) l :
  StronglySorted R (List.map f l) ->
  StronglySorted (fun a b => R (f a) (f b)) l.
Proof.
  induction l as [|x l IH]; intros H; [constructor|].
  cbn in H. inversion H as [|? ? Hs Hf]; subst. constructor.
  - exact (IH Hs).
  - rewrite Forall_map in Hf. exact Hf.
Qed.

(** C8.  Iterating over a well-formed memory map with [maps()] yields the
    mappings in increasing address order, one for every entry, also when
    the body of the loop changes the map between two steps without adding
    or removing an entry: each [*] and each [++] finds its place again by
    [lower_bound] on the stored address, and what is yielded at the [i]th
    step is the mapping stored at position [i] at that time. *)
Theorem maps_iteration_robust body mem :
  well_formed mem ->
  Forall keeps_entries body ->
  exists ms final,
    iterate (S (List.length mem)) body mem maps_begin = Some (ms, final)
    /\ ms = walk (List.length mem) body mem 0
    /\ List.map (fun m => range (map m)) ms = List.map fst mem
    /\ in_address_order ms.
Proof.
  intros Hwf Hb.
  destruct (iterate_walk (List.length mem) body mem 0 0 Hwf Hb eq_refl)
    as [final Hit].
  { apply (lb_index_below 0); [exact Hwf|lia]. }
  exists (walk (List.length mem) body mem 0), final.
  split; [exact Hit|]. split; [reflexivity|].
  assert (Hr := walk_ranges (List.length mem) body mem 0 Hwf Hb eq_refl).
  cbn [skipn] in Hr. split; [exact Hr|].
  apply (StronglySorted_map (fun m => range (map m))
           (fun a b => end_ a <= start_ b)).
  rewrite Hr. apply (well_formed_sorted mem 0 Hwf).
Qed.


Lemma protect_mapping_keeps addr prot :
  keeps_entries (protect_mapping addr prot).
Proof.
  intros mem Hwf. unfold well_formed in *. revert Hwf. generalize 0.
  induction mem as [|[k m] rest IH]; intros lo Hwf; [split; auto|].
  destruct Hwf as (Hlo & Hne & Hr & Hrest).
  destruct (IH _ Hrest) as [IHwf IHk].
  unfold protect_mapping in *. cbn [List.map fst].
  destruct (contains k addr); cbn [fst snd map set_prot range];
    (split; [repeat split; assumption|now rewrite IHk]).
Qed.

Lemma example_map_well_formed : well_formed example_map.
Proof. unfold well_formed. cbn. repeat split; lia. Qed.

End MapsIteration.

Section MapsIterationExamples.

Import AddressSpace.

Lemma maps_iteration_robust_witness :
  exists ms final,
    iterate 4 [protect_mapping 4096 7] example_map maps_begin
    = Some (ms, final)
    /\ ms = walk 3 [protect_mapping 4096 7] example_map 0
    /\ List.map (fun m => range (map m)) ms = List.map fst example_map
    /\ in_address_order ms.
Proof.
  apply (maps_iteration_robust [protect_mapping 4096 7] example_map).
  - exact example_map_well_formed.
  - constructor; [apply protect_mapping_keeps|constructor].
Defined.

End MapsIterationExamples.

(* ------------------------------------------------------------------ *)
(** ** The stack for remote syscalls *)

Section ScratchStack.

Import AddressSpace AutoRemoteSyscalls.

Lemma find_stack_S fuel mem it :
  find_stack (S fuel) mem it
  = if not_at_end mem it then
      match deref mem it with
      | None => None
      | Some m =>
          if is_usable_area (map m) then Some (range (map m))
          else match incr mem it with
               | None => None
               | Some it' => find_stack fuel mem it'
               end
      end
    else Some {| start_ := 0; end_ := 0 |}.
Proof. reflexivity. Qed.

(** The loop finds the first usable mapping in address order. *)
Lemma find_stack_skipn : forall n mem i p,
  well_formed mem ->
  List.length mem = (i + n)%nat ->
  lb_index (List.map fst mem) p = i ->
  find_stack (S n) mem (at_ p) = Some (found_range (skipn i mem)).
Proof.
  induction n as [|n IH]; intros mem i p Hwf Hlen Hidx.
  - rewrite find_stack_S. unfold not_at_end. rewrite to_it_skipn, Hidx.
    replace i with (List.length mem) by lia. rewrite skipn_all.
    reflexivity.
  - destruct (nth_error mem i) as [e|] eqn:He;
      [|apply nth_error_None in He; lia].
    destruct (skipn_nth_error _ _ _ He) as [rest Hskip].
    destruct (well_formed_nth _ _ _ _ Hwf He) as (_ & _ & Hrange).
    rewrite find_stack_S. unfold not_at_end, deref, incr.
    rewrite !to_it_skipn, Hidx, Hskip. cbn [snd at_end at_].
    unfold found_range. cbn [find].
    destruct (is_usable_area (map (snd e))); [reflexivity|].
    rewrite Hrange.
    change {| ptr := end_ (fst e); at_end := false |}
      with (at_ (end_ (fst e))).
    rewrite (IH mem (S i) (end_ (fst e)) Hwf).
    + unfold found_range. do 3 f_equal.
      change (S i) with (1 + i)%nat. rewrite <- skipn_skipn, Hskip.
      reflexivity.
    + lia.
    + exact (lb_index_end _ _ _ _ Hwf He).
Qed.

Lemma find_stack_found mem :
  well_formed mem ->
  find_stack (S (List.length mem)) mem maps_begin
  = Some (found_range mem).
Proof.
  intros Hwf.
  apply (find_stack_skipn (List.length mem) mem 0 0 Hwf eq_refl).
  apply (lb_index_below 0); [exact Hwf|lia].
Qed.

(** Whether the stack pointer is left alone once the initial exec is
    done. *)
Lemma plenty_of_space_iff t :
  (if has_mapping (vm t) (sp t - 1) then
     match mapping_of (vm t) (sp t - 1) with
     | Some m =>
         is_usable_area (map m) && (start_ (range (map m)) + 2048 <=? sp t)
     | None => false
     end
   else false) = true
  <-> plenty_of_space t.
Proof.
  unfold plenty_of_space, has_mapping.
  destruct (mapping_of (vm t) (sp t - 1)) as [m|].
  - split.
    + intros H. apply andb_prop in H. destruct H as [Hu Hs].
      exists m. repeat split; [exact Hu|]. now apply Z.leb_le.
    + intros (m' & Hm & Hu & Hs). injection Hm as <-.
      rewrite Hu. apply Z.leb_le in Hs. now rewrite Hs.
  - split; [intros H; discriminate H|].
    intros (m' & Hm & _). discriminate Hm.
Qed.

(** A usable area is one that is readable, writable and private. *)
Lemma is_usable_area_iff km :
  is_usable_area km = true
  <-> Z.testbit (prot_ km) 0 = true /\ Z.testbit (prot_ km) 1 = true
      /\ Z.testbit (flags_ km) 1 = true.
Proof.
  unfold is_usable_area.
  change (Z.lor PROT_READ PROT_WRITE) with (Z.ones 2).
  change MAP_PRIVATE with (Z.shiftl 1 1).
  rewrite andb_true_iff, negb_true_iff, Z.eqb_eq, Z.eqb_neq.
  assert (Hp : Z.land (prot_ km) (Z.ones 2) = Z.ones 2
               <-> Z.testbit (prot_ km) 0 = true
                   /\ Z.testbit (prot_ km) 1 = true).
  { split.
    - intros H. split.
      + assert (E : Z.testbit (Z.land (prot_ km) (Z.ones 2)) 0 = true)
          by (rewrite H; reflexivity).
        rewrite Z.land_spec in E. now apply andb_prop in E.
      + assert (E : Z.testbit (Z.land (prot_ km) (Z.ones 2)) 1 = true)
          by (rewrite H; reflexivity).
        rewrite Z.land_spec in E. now apply andb_prop in E.
    - intros [H0 H1]. apply Z.bits_inj'. intros n Hn.
      rewrite Z.land_spec.
      destruct (Z.eq_dec n 0) as [->|Hn0]; [now rewrite H0|].
      destruct (Z.eq_dec n 1) as [->|Hn1]; [now rewrite H1|].
      rewrite Z.ones_spec_high by lia. apply andb_false_r. }
  assert (Hf : Z.land (flags_ km) (Z.shiftl 1 1) <> 0
               <-> Z.testbit (flags_ km) 1 = true).
  { split.
    - intros H. destruct (Z.testbit (flags_ km) 1) eqn:E; [reflexivity|].
      exfalso. apply H. apply Z.bits_inj'. intros n Hn.
      rewrite Z.land_spec, Z.bits_0.
      destruct (Z.eq_dec n 1) as [->|Hn1]; [now rewrite E|].
      rewrite Z.shiftl_spec by lia.
      replace (Z.testbit 1 (n - 1)) with false; [apply andb_false_r|].
      symmetry. destruct (Z.ltb_spec n 1).
      + apply Z.testbit_neg_r. lia.
      + apply Z.bits_above_log2; cbn; lia.
    - intros H E.
      assert (E1 : Z.testbit (Z.land (flags_ km) (Z.shiftl 1 1)) 1 = true)
        by (rewrite Z.land_spec, H; reflexivity).
      rewrite E in E1. discriminate E1. }
  rewrite Hp, Hf. tauto.
Qed.

(** C7 (as amended).  Before the session's initial exec the stack pointer
    is left alone.  After it, the stack pointer is left alone exactly when
    the byte below it lies in a mapping that is private, readable and
    writable and the stack pointer is at least 2048 bytes above that
    mapping's start; otherwise the first mapping in address order that is
    private, readable and writable is selected and the stack pointer is
    set to its end, and the assertion "No stack area found" fails when
    there is none (or the one found starts at the null address). *)
Theorem scratch_stack_selection t :
  well_formed (vm t) ->
  exists r,
    maybe_fix_stack_pointer (S (List.length (vm t))) t = Some r
    /\ (r = Unchanged
        <-> done_initial_exec t = false \/ plenty_of_space t)
    /\ (r <> Unchanged ->
        match first_usable (vm t) with
        | Some m =>
            is_usable_area (map m) = true
            /\ r = (if start_ (range (map m)) =? 0 then NoStackAreaFound
                    else SetSp (end_ (range (map m))))
        | None => r = NoStackAreaFound
        end)
    /\ (forall km,
          is_usable_area km = true
          <-> Z.testbit (prot_ km) 0 = true /\ Z.testbit (prot_ km) 1 = true
              /\ Z.testbit (flags_ km) 1 = true).
Proof.
  intros Hwf. unfold maybe_fix_stack_pointer.
  destruct (done_initial_exec t) eqn:Hexec; cbn [negb].
  2:{ exists Unchanged. split; [reflexivity|]. split; [tauto|].
      split; [intros H; now contradiction H|apply is_usable_area_iff]. }
  pose proof (plenty_of_space_iff t) as Hplenty.
  destruct (if has_mapping (vm t) (sp t - 1) then _ else false) eqn:Hp.
  - exists Unchanged. split; [reflexivity|]. split.
    + split; [intros _; right; now apply Hplenty|reflexivity].
    + split; [intros H; now contradiction H|apply is_usable_area_iff].
  - rewrite (find_stack_found _ Hwf).
    exists (if start_ (found_range (vm t)) =? 0 then NoStackAreaFound
            else SetSp (end_ (found_range (vm t)))).
    split; [destruct (_ =? 0); reflexivity|].
    assert (Hne : (if start_ (found_range (vm t)) =? 0
                   then NoStackAreaFound
                   else SetSp (end_ (found_range (vm t)))) <> Unchanged)
      by (destruct (_ =? 0); discriminate).
    split; [|split; [|apply is_usable_area_iff]].
    + split; [intros H; now contradiction Hne|].
      intros [H|H]; [discriminate H|].
      apply Hplenty in H. discriminate H.
    + intros _. unfold first_usable, found_range.
      destruct (find _ (vm t)) as [e|] eqn:Hfind; cbn [option_map].
      * split; [|reflexivity].
        apply find_some in Hfind. apply Hfind.
      * reflexivity.
Qed.

End ScratchStack.

Section ScratchStackExamples.

Import AddressSpace AutoRemoteSyscalls.

Lemma scratch_stack_selection_witness :
  exists r,
    maybe_fix_stack_pointer 4 (example_task true 100 example_map) = Some r
    /\ r = SetSp 16384.
Proof.
  destruct (scratch_stack_selection (example_task true 100 example_map)
              example_map_well_formed) as (r & Hrun & _ & Hmoved & _).
  exists r. split; [exact Hrun|].
  assert (Hne : r <> Unchanged).
  { intros ->. vm_compute in Hrun. discriminate Hrun. }
  destruct (Hmoved Hne) as [_ ->]. reflexivity.
Defined.

(** C7 as stated fails in two ways.  Before the initial exec the stack
    pointer is kept although no mapping lies below it; and a stack pointer
    with plenty of room in a mapping that is private and writable, but not
    readable, is not kept. *)
Lemma stack_pointer_kept_or_moved_otherwise :
  (maybe_fix_stack_pointer 4 (example_task false 100 example_map)
   = Some Unchanged
   /\ mapping_of example_map (100 - 1) = None)
  /\ (maybe_fix_stack_pointer 3 (example_task true 16384 write_only_map)
      = Some (SetSp 69632)
      /\ exists m,
           mapping_of write_only_map (16384 - 1) = Some m
           /\ Z.testbit (prot_ (map m)) 1 = true
           /\ Z.testbit (flags_ (map m)) 1 = true
           /\ start_ (range (map m)) + 2048 <= 16384).
Proof.
  split; [split; reflexivity|].
  split; [reflexivity|].
  eexists. split; [reflexivity|]. cbn. repeat split. lia.
Qed.

End ScratchStackExamples.

(* ------------------------------------------------------------------ *)
(** ** Strings *)

Section Substrings.

Import ReplayCommand.

Lemma substring_all (s : string) :
  String.substring 0 (String.length s) s = s.
Proof. induction s as [|c s IH]; cbn; [reflexivity|now rewrite IH]. Qed.

Lemma substr_append (a b : string) :
  substr (String.length a) (a ++ b) = b.
Proof.
  unfold substr. induction a as [|c a IH]; cbn.
  - rewrite Nat.sub_0_r. apply substring_all.
  - exact IH.
Qed.

Lemma length_append (a b : string) :
  String.length (a ++ b) = (String.length a + String.length b)%nat.
Proof. induction a as [|c a IH]; cbn; [reflexivity|now rewrite IH]. Qed.

Lemma split_at (n : nat) : forall s : string,
  (n <= String.length s)%nat ->
  s = (String.substring 0 n s ++ substr n s)%string.
Proof.
  unfold substr. induction n as [|n IH]; intros s Hn.
  - cbn. rewrite Nat.sub_0_r, substring_all.
    destruct s; reflexivity.
  - destruct s as [|c s]; cbn in Hn; [lia|].
    cbn. f_equal. apply IH. lia.
Qed.

(** The test on the first word of a command line, on the strings. *)
Lemma command_matches_names (cmd command : string) :
  command_matches cmd command = true <-> names_command cmd command.
Proof.
  unfold command_matches, names_command. split.
  - intros H. apply orb_prop in H. destruct H as [H|H].
    + left. now apply String.eqb_eq.
    + right. apply andb_prop in H. destruct H as [Hl He].
      apply Nat.ltb_lt in Hl. apply String.eqb_eq in He.
      exists (String.substring 0
                (String.length cmd - String.length command - 1) cmd).
      rewrite <- He. apply split_at. lia.
  - intros [->|[dir ->]].
    + now rewrite String.eqb_refl.
    + apply orb_true_intro. right.
      rewrite length_append. cbn [String.length].
      apply andb_true_intro. split; [apply Nat.ltb_lt; lia|].
      replace (String.length dir + S (String.length command)
               - String.length command - 1)%nat
        with (String.length dir) by lia.
      rewrite substr_append. apply String.eqb_refl.
Qed.

End Substrings.

(* ------------------------------------------------------------------ *)
(** ** The exit codes of the replay command *)

Section ReplayExitCodes.

Import ReplayCommand.

Variable env : Env.
Hypothesis Hconsume : parsers_consume env.

(** The loop over the arguments ends: each round that continues leaves
    fewer arguments. *)
Lemma parse_replay_arg_shrinks a f :
  match parse_replay_arg env a f with
  | Accepted a' _ => (List.length a' < List.length a)%nat
  | Rejected a' _ => (List.length a' <= List.length a)%nat
  | UnknownOption => True
  end.
Proof.
  destruct Hconsume as (Hg & Ho & _).
  unfold parse_replay_arg.
  destruct (parse_global_option env a) as [a'|] eqn:Eg.
  - exact (Hg _ _ Eg).
  - destruct (parse_option env a) as [[opt a']|] eqn:Eo.
    + pose proof (Ho _ _ _ Eo) as Hlt.
      repeat match goal with
             | |- context [if ?c then _ else _] => destruct c
             end; auto; lia.
    + lia.
Qed.

Lemma parse_round_shrinks st st' :
  parse_round env st = Continue st' ->
  (List.length (args st') < List.length (args st))%nat.
Proof.
  destruct Hconsume as (_ & _ & Hd).
  unfold parse_round.
  pose proof (parse_replay_arg_shrinks (args st) (flags st)) as Hs.
  destruct (parse_replay_arg env (args st) (flags st)) as [a' f'|a' f'|].
  - intros E; inversion E; subst; exact Hs.
  - destruct (found_dir st); [discriminate|].
    destruct (parse_optional_trace_dir env a') as [[dir a'']|] eqn:Ed;
      [|discriminate].
    intros E; inversion E; subst; cbn.
    pose proof (Hd _ _ _ Ed). lia.
  - discriminate.
Qed.

Lemma parse_args_total fuel st :
  (List.length (args st) < fuel)%nat ->
  exists r, parse_args env fuel st = Some r.
Proof.
  revert st; induction fuel as [|fuel IH]; intros st Hlt; [lia|].
  cbn. destruct (args st) as [|a l] eqn:Ea; [eauto|].
  destruct (parse_round env st) as [st'| |] eqn:Er; eauto.
  apply IH. pose proof (parse_round_shrinks _ _ Er) as Hs.
  rewrite Ea in Hs; cbn in Hs, Hlt. lia.
Qed.

Lemma parse_args_reaches st st' :
  reaches env st st' ->
  forall fuel, (List.length (args st) < fuel)%nat ->
  exists fuel', (List.length (args st') < fuel')%nat
    /\ parse_args env fuel st = parse_args env fuel' st'.
Proof.
  induction 1 as [st|st st' st'' Hne Er _ IH]; intros fuel Hlt.
  - exists fuel; split; [assumption|reflexivity].
  - destruct fuel as [|fuel]; [lia|].
    pose proof (parse_round_shrinks _ _ Er) as Hs.
    destruct (IH fuel ltac:(lia)) as (fuel' & Hlt' & E).
    exists fuel'; split; [assumption|].
    cbn. destruct (args st) as [|a l]; [congruence|].
    rewrite Er. exact E.
Qed.

Lemma parse_args_unrecognised st fuel :
  unrecognised env st -> (List.length (args st) < fuel)%nat ->
  parse_args env fuel st = Some (inl (Returns 1)).
Proof.
  intros (Hne & Hg & Ho & Hd) Hlt.
  assert (Er : parse_round env st = Help).
  { unfold parse_round, parse_replay_arg. rewrite Hg, Ho.
    destruct Hd as [Hd|Hd]; rewrite Hd; [reflexivity|].
    destruct (found_dir st); reflexivity. }
  destruct fuel as [|fuel]; [lia|].
  cbn. destruct (args st); [congruence|]. rewrite Er. reflexivity.
Qed.

Lemma parse_args_done st fuel :
  args st = [] -> parse_args env fuel st = Some (inr st).
Proof. intros E. destruct fuel; cbn; rewrite E; reflexivity. Qed.

Lemma existsb_pointwise {A : Type} (f g : A -> bool) l :
  (forall x, f x = g x) -> existsb f l = existsb g l.
Proof.
  intros H. induction l as [|x l IH]; cbn; [reflexivity|].
  rewrite H, IH. reflexivity.
Qed.

(** What the loops over the task events compute on a trace that is
    good. *)
Lemma task_loop_exists (test : TraceTaskEvent -> option bool) events tid0 :
  Forall (fun e => type_ e <> NONE) events ->
  (forall e b, test e = Some b -> b = true) ->
  task_loop test false events tid0
  = inr (existsb (fun e => match test e with Some _ => true | None => false end)
                 (events ++ [record_at_end tid0])).
Proof.
  intros Hn Ht. induction Hn as [|e l He _ IH]; cbn.
  - destruct (test (record_at_end tid0)) as [b|] eqn:E; [|reflexivity].
    rewrite (Ht _ _ E). reflexivity.
  - destruct (type_ e); try congruence;
      (destruct (test e) as [b|] eqn:E;
       [rewrite (Ht _ _ E); reflexivity|exact IH]).
Qed.

Lemma pid_exists_in_trace dir pid events tid0 :
  open_trace env dir = Tasks true events tid0 ->
  Forall (fun e => type_ e <> NONE) events ->
  pid_exists env dir pid
  = inr (existsb (fun e => tid_ e =? pid) (events ++ [record_at_end tid0])).
Proof.
  intros Eo Hn. unfold pid_exists, with_trace. rewrite Eo.
  rewrite task_loop_exists; [|assumption|].
  - f_equal. apply existsb_pointwise. intros e. unfold pid_exists_test.
    destruct (tid_ e =? pid); reflexivity.
  - intros e b. unfold pid_exists_test.
    destruct (tid_ e =? pid); congruence.
Qed.

Lemma pid_execs_in_trace dir pid events tid0 :
  open_trace env dir = Tasks true events tid0 ->
  Forall (fun e => type_ e <> NONE) events ->
  pid_execs env dir pid
  = inr (existsb (fun e => (tid_ e =? pid) && is_exec e) events).
Proof.
  intros Eo Hn. unfold pid_execs, with_trace. rewrite Eo.
  rewrite task_loop_exists; [|assumption|].
  - f_equal. rewrite existsb_app.
    replace (existsb _ [record_at_end tid0]) with false
      by (cbn; unfold pid_execs_test; cbn; destruct (tid0 =? pid); reflexivity).
    rewrite orb_false_r.
    apply existsb_pointwise. intros e. unfold pid_execs_test.
    destruct ((tid_ e =? pid) && is_exec e); reflexivity.
  - intros e b. unfold pid_execs_test.
    destruct ((tid_ e =? pid) && is_exec e); congruence.
Qed.

Lemma replay_returns_zero dir f c :
  replay env dir f = Returns c -> c = 0.
Proof.
  unfold replay.
  repeat match goal with
         | |- context [if ?c then _ else _] => destruct c
         | |- context [match ?c with _ => _ end] => destruct c
         end; intros E; inversion E; reflexivity.
Qed.

Lemma replay_clean_finish dir f :
  clean_finish env f -> replay env dir f = Returns 0.
Proof.
  intros (_ & Hs & [Hd|(Hp & Hf & Ha)]); unfold replay.
  - rewrite Hd, Hs. reflexivity.
  - rewrite Hp, Hf, Ha, Hs. destruct (dont_launch_debugger f); reflexivity.
Qed.

Lemma well_formed_types events :
  well_formed events -> Forall (fun e => type_ e <> NONE) events.
Proof.
  unfold well_formed. intros H.
  eapply Forall_impl; [|exact H]. intros e [He _]. exact He.
Qed.

(** The lookup of a command, on the events: the id of a process that has
    exec()ed the command, or -1 when there is none. *)
Lemma task_loop_find command events tid0 :
  well_formed events ->
  exists pid,
    task_loop (find_pid_test command) (-1) events tid0 = inr pid
    /\ ((pid = -1 /\ ~ execs_command events command)
        \/ (0 < pid /\ execs_command events command
            /\ has_exec events pid)).
Proof.
  induction 1 as [|e l [Hty Htid] _ IH].
  - exists (-1). split; [reflexivity|]. left. split; [reflexivity|].
    intros (e & _ & _ & [] & _).
  - destruct (find_pid_test command e) as [a|] eqn:Ef.
    + exists a. split.
      { cbn. rewrite Ef. destruct (type_ e); [contradiction|reflexivity..]. }
      right. unfold find_pid_test in Ef.
      destruct (type_ e) eqn:Et; try discriminate Ef.
      destruct (cmd_line_ e) as [|cmd rest] eqn:Ec; [discriminate Ef|].
      destruct (command_matches cmd command) eqn:Em; [|discriminate Ef].
      injection Ef as <-. split; [exact Htid|]. split.
      * exists e, cmd, rest. split; [now left|]. split; [exact Et|].
        split; [exact Ec|]. now apply command_matches_names.
      * exists e. split; [now left|]. split; [reflexivity|exact Et].
    + destruct IH as (pid & Hrun & Hpid). exists pid. split.
      { cbn. rewrite Ef. destruct (type_ e); [contradiction|exact Hrun..]. }
      destruct Hpid as [[-> Hno]|(Hpos & (e' & cmd & rest & Hin & Hrest)
                                  & (e'' & Hin' & Hrest'))].
      * left. split; [reflexivity|].
        intros (e' & cmd & rest & [<-|Hin] & Et & Ec & Hn).
        -- unfold find_pid_test in Ef. rewrite Et, Ec in Ef.
           apply command_matches_names in Hn. rewrite Hn in Ef.
           discriminate Ef.
        -- apply Hno. exists e', cmd, rest. auto.
      * right. split; [exact Hpos|]. split.
        -- exists e', cmd, rest. split; [now right|exact Hrest].
        -- exists e''. split; [now right|exact Hrest'].
Qed.

(** The two checks of a process id, on the events. *)
Lemma pid_exists_has_record dir pid events tid0 :
  open_trace env dir = Tasks true events tid0 ->
  well_formed events ->
  exists b,
    pid_exists env dir pid = inr b
    /\ (b = true <-> has_record (events ++ [record_at_end tid0]) pid).
Proof.
  intros Eo Hw. eexists. split.
  { apply (pid_exists_in_trace _ _ _ _ Eo (well_formed_types _ Hw)). }
  unfold has_record. rewrite existsb_exists. split.
  - intros (e & Hin & He). exists e. split; [exact Hin|lia].
  - intros (e & Hin & He). exists e. split; [exact Hin|lia].
Qed.

Lemma pid_execs_has_exec dir pid events tid0 :
  open_trace env dir = Tasks true events tid0 ->
  well_formed events ->
  exists b,
    pid_execs env dir pid = inr b /\ (b = true <-> has_exec events pid).
Proof.
  intros Eo Hw. eexists. split.
  { apply (pid_execs_in_trace _ _ _ _ Eo (well_formed_types _ Hw)). }
  unfold has_exec, is_exec. rewrite existsb_exists. split.
  - intros (e & Hin & He). exists e. split; [exact Hin|].
    apply andb_prop in He. destruct He as [Ht Hx].
    split; [lia|]. destruct (type_ e); try discriminate Hx. reflexivity.
  - intros (e & Hin & Ht & Hx). exists e. split; [exact Hin|].
    rewrite Hx, <- Ht, Z.eqb_refl. reflexivity.
Qed.

(** [run] once the arguments are parsed, on a trace that can be read:
    it returns 2 when the process asked for is not found, and goes on to
    [replay] when it is. *)
Lemma run_parsed_in_trace dir f events tid0 :
  open_trace env dir = Tasks true events tid0 ->
  well_formed events ->
  (not_in_trace events tid0 f /\ run_parsed env dir f = Returns 2)
  \/ (~ not_in_trace events tid0 f
      /\ exists f',
           dont_launch_debugger f' = dont_launch_debugger f
           /\ run_parsed env dir f
              = if prerequisites_ok (session env) then replay env dir f'
                else Aborted).
Proof.
  intros Eo Hw. unfold run_parsed, resolve_command.
  destruct (String.eqb_spec (target_command f) EmptyString) as [Ec|Ec];
    cbn [negb].
  - (* asked for by its id, or not at all *)
    unfold check_target.
    destruct (pid_exists_has_record dir (target_process f) _ _ Eo Hw)
      as (b1 & -> & Hb1).
    destruct (pid_execs_has_exec dir (target_process f) _ _ Eo Hw)
      as (b2 & -> & Hb2).
    assert (Hnone : process_created_how f = CREATED_NONE ->
                    ~ not_in_trace events tid0 f).
    { intros Hh [[Hne _]|(_ & Hne & _)]; contradiction. }
    destruct (process_created_how f) eqn:Eh.
    + right. split; [now apply Hnone|]. exists f. split; reflexivity.
    + destruct b1.
      * destruct b2.
        -- right. split.
           { intros [[Hne _]|(_ & _ & [Hno|[_ Hno]])];
               [contradiction|apply Hno; now apply Hb1
               |apply Hno; now apply Hb2]. }
           exists f. split; reflexivity.
        -- left. split; [|reflexivity]. right.
           split; [exact Ec|]. split; [rewrite Eh; discriminate|].
           right. split; [exact Eh|].
           intros Hx. apply Hb2 in Hx. discriminate Hx.
      * left. split; [|reflexivity]. right.
        split; [exact Ec|]. split; [rewrite Eh; discriminate|].
        left. intros Hx. apply Hb1 in Hx. discriminate Hx.
    + destruct b1.
      * right. split.
        { intros [[Hne _]|(_ & _ & [Hno|[Hx _]])];
            [contradiction|apply Hno; now apply Hb1|congruence]. }
        exists f. split; reflexivity.
      * left. split; [|reflexivity]. right.
        split; [exact Ec|]. split; [rewrite Eh; discriminate|].
        left. intros Hx. apply Hb1 in Hx. discriminate Hx.
  - (* asked for by the name of a command *)
    unfold find_pid_for_command, with_trace. rewrite Eo.
    destruct (task_loop_find (target_command f) events tid0 Hw)
      as (pid & -> & [[-> Hno]|(Hpos & Hex & Hpx)]).
    + left. split; [|reflexivity]. left. now split.
    + destruct (Z.leb_spec pid 0) as [|_]; [lia|].
      right. split.
      { intros [[_ Hno]|(He & _)]; contradiction. }
      set (f' := set_target pid (target_command f)
                            (process_created_how f) f).
      exists f'. split; [reflexivity|].
      unfold check_target.
      change (process_created_how f') with (process_created_how f).
      change (target_process f') with pid.
      destruct (pid_exists_has_record dir pid _ _ Eo Hw) as (b1 & -> & Hb1).
      destruct (pid_execs_has_exec dir pid _ _ Eo Hw) as (b2 & -> & Hb2).
      assert (H1 : b1 = true).
      { apply Hb1. destruct Hpx as (e & Hin & Ht & _).
        exists e. split; [|exact Ht]. apply in_or_app. now left. }
      assert (H2 : b2 = true) by now apply Hb2.
      subst b1 b2. destruct (process_created_how f); reflexivity.
Qed.

(** [run] once the arguments are parsed, when no process is asked
    for. *)
Lemma run_parsed_no_target dir f :
  target_command f = EmptyString ->
  process_created_how f = CREATED_NONE ->
  run_parsed env dir f
  = if prerequisites_ok (session env) then replay env dir f else Aborted.
Proof.
  intros Ec Eh. unfold run_parsed, resolve_command.
  rewrite Ec. cbn [String.eqb negb]. unfold check_target.
  rewrite Eh. reflexivity.
Qed.

Lemma replay_ends dir f f' e :
  dont_launch_debugger f' = dont_launch_debugger f ->
  e = (if prerequisites_ok (session env) then replay env dir f'
       else Aborted) ->
  (clean_finish env f -> e = Returns 0)
  /\ (forall c, e = Returns c -> c = 0).
Proof.
  intros Hd ->. split.
  - intros (Hp & Hs & Hrest). rewrite Hp.
    apply replay_clean_finish. split; [exact Hp|]. split; [exact Hs|].
    now rewrite Hd.
  - intros c. destruct (prerequisites_ok (session env));
      [apply replay_returns_zero|discriminate].
Qed.


End ReplayExitCodes.

Section ReplayExamples.

Import ReplayCommand.
Local Open Scope string_scope.

Lemma example_parsers_consume b : parsers_consume (example_env b).
Proof.
  split; [|split]; cbn.
  - intros a a' E; discriminate E.
  - intros a opt a'. unfold example_parse_option.
    destruct a as [|x l]; [discriminate|].
    destruct (String.eqb x "-a").
    + intros E; inversion E; subst; cbn; lia.
    + destruct (String.eqb x "-p"); [|discriminate].
      destruct l as [|v l']; [discriminate|].
      intros E; inversion E; subst; cbn; lia.
  - intros a dir a'. unfold example_parse_dir.
    destruct a as [|x l]; [discriminate|].
    destruct (String.prefix "-" x); [discriminate|].
    intros E; inversion E; subst; cbn; lia.
Qed.

Lemma example_events_well_formed : well_formed example_events.
Proof. repeat constructor; try discriminate; reflexivity. Qed.


(** Runs of the command on the example trace: under rr, a clean finish,
    an option that is not recognised, a command that is found and one
    that is not. *)
Lemma replay_exit_code_examples :
  run (example_env true) 3 ["-a"; "trace"] = Some (Returns 1)
  /\ run (example_env false) 3 ["-a"; "trace"] = Some (Returns 0)
  /\ run (example_env false) 3 ["-a"; "--bogus"] = Some (Returns 1)
  /\ run (example_env false) 4 ["-p"; "ls"; "trace"] = Some (Returns 0)
  /\ run (example_env false) 4 ["-p"; "cat"; "trace"] = Some (Returns 2).
Proof. repeat split; reflexivity. Qed.

End ReplayExamples.

(* ------------------------------------------------------------------ *)
(** ** Register accessors and conversions *)

Section RegisterAccess.

Import Registers.

Lemma u32_range v : 0 <= Int.u32 v < 2 ^ 32.
Proof. unfold Int.u32, Int.to_unsigned. apply Z.mod_pos_bound. lia. Qed.

Lemma s32_range v : - 2 ^ 31 <= Int.s32 v < 2 ^ 31.
Proof.
  unfold Int.s32, Int.to_signed.
  pose proof (Z.mod_pos_bound v (2 ^ 32) ltac:(lia)) as H.
  destruct (v mod 2 ^ 32 <? 2 ^ (32 - 1)) eqn:E.
  - apply Z.ltb_lt in E. simpl in E. lia.
  - apply Z.ltb_ge in E. simpl in E. lia.
Qed.

Lemma u32_s32 v : Int.u32 (Int.s32 v) = Int.u32 v.
Proof.
  unfold Int.u32, Int.s32, Int.to_signed, Int.to_unsigned.
  destruct (v mod 2 ^ 32 <? 2 ^ (32 - 1)).
  - apply Z.mod_mod. lia.
  - rewrite <- (Z.mod_mod v (2 ^ 32)) at 2 by lia.
    rewrite <- (Z_mod_plus_full (v mod 2 ^ 32 - 2 ^ 32) 1 (2 ^ 32)).
    f_equal. lia.
Qed.

Lemma s32_canonical v : canonical32 v -> Int.s32 v = v.
Proof.
  unfold canonical32, Int.s32, Int.to_signed. intros H.
  destruct (Z_lt_dec v 0) as [Hn|Hp].
  - replace (v mod 2 ^ 32) with (v + 2 ^ 32).
    + destruct (v + 2 ^ 32 <? 2 ^ (32 - 1)) eqn:E.
      * apply Z.ltb_lt in E. simpl in E. lia.
      * lia.
    + symmetry. rewrite <- (Z_mod_plus_full v 1 (2 ^ 32)).
      rewrite Z.mul_1_l. apply Z.mod_small. lia.
  - rewrite Z.mod_small by lia.
    destruct (v <? 2 ^ (32 - 1)) eqn:E; [reflexivity|].
    apply Z.ltb_ge in E. simpl in E. lia.
Qed.

Lemma s32_u32 v : Int.s32 (Int.u32 v) = Int.s32 v.
Proof.
  unfold Int.u32, Int.s32, Int.to_signed, Int.to_unsigned.
  rewrite Z.mod_mod by lia. reflexivity.
Qed.

Lemma u64_idem v : Int.u64 (Int.u64 v) = Int.u64 v.
Proof. unfold Int.u64, Int.to_unsigned. apply Z.mod_mod. lia. Qed.

Lemma u32_idem v : Int.u32 (Int.u32 v) = Int.u32 v.
Proof. unfold Int.u32, Int.to_unsigned. apply Z.mod_mod. lia. Qed.

Lemma s32_idem v : Int.s32 (Int.s32 v) = Int.s32 v.
Proof. apply s32_canonical. apply s32_range. Qed.

Lemma u64_small v : 0 <= v < 2 ^ 64 -> Int.u64 v = v.
Proof. intros H. unfold Int.u64, Int.to_unsigned. apply Z.mod_small. lia. Qed.

Lemma u32_small v : 0 <= v < 2 ^ 32 -> Int.u32 v = v.
Proof. intros H. unfold Int.u32, Int.to_unsigned. apply Z.mod_small. lia. Qed.

Lemma s32_u64 v : Int.s32 (Int.u64 v) = Int.s32 v.
Proof.
  unfold Int.u64, Int.s32, Int.to_signed, Int.to_unsigned.
  replace (v mod 2 ^ 64 mod 2 ^ 32) with (v mod 2 ^ 32); [reflexivity|].
  symmetry. apply Z.mod_mod_divide.
  exists (2 ^ 32). reflexivity.
Qed.

Lemma u32_u64 v : Int.u32 (Int.u64 v) = Int.u32 v.
Proof. rewrite <- u32_s32, s32_u64. apply u32_s32. Qed.

(** X1.  For an index from 1 to 6, [set_arg] followed by [arg] with the
    same index gives back the value, cut to the width of the
    architecture, and leaves the five other arguments as they were;
    for any other index both fail their assertion. *)
Theorem set_arg_then_arg (i value : Z) (r : t) :
  (1 <= i <= 6 ->
   exists r',
     set_arg i value r = Some r'
     /\ arch r' = arch r
     /\ arg i r' = Some (truncate (arch r) value)
     /\ (forall j, j <> i -> arg j r' = arg j r))
  /\ (~ 1 <= i <= 6 -> set_arg i value r = None /\ arg i r = None).
Proof.
  split.
  - intros Hi.
    assert (Hc : i = 1 \/ i = 2 \/ i = 3 \/ i = 4 \/ i = 5 \/ i = 6) by lia.
    destruct r as [u|u];
      decompose [or] Hc; subst i; cbn -[Int.u32 Int.s32 Int.u64];
      (eexists; split; [reflexivity|]; split; [reflexivity|]; split;
       [cbn -[Int.u32 Int.s32 Int.u64];
        rewrite ?u32_s32, ?u64_idem; reflexivity|];
       intros j Hj; unfold arg;
       repeat match goal with
              | |- context [j =? ?k] =>
                  destruct (Z.eqb_spec j k); [subst j; try lia; reflexivity|]
              end; reflexivity).
  - intros Hi. unfold set_arg, arg.
    repeat match goal with
           | |- context [i =? ?k] => destruct (Z.eqb_spec i k); [lia|]
           end.
    split; reflexivity.
Qed.


(** X2.  [set_rdtsc_output] puts the low 32 bits of the value into the
    result register and the high 32 bits into the third argument
    register, on both architectures: read back, the two halves give the
    64-bit value again. *)
Theorem set_rdtsc_output_halves (value : Z) (r : t) :
  let r' := set_rdtsc_output value r in
  arch r' = arch r
  /\ syscall_result r' = Int.u64 value mod 2 ^ 32
  /\ arg3 r' = Int.u64 value / 2 ^ 32
  /\ syscall_result r' + 2 ^ 32 * arg3 r' = Int.u64 value.
Proof.
  cbv zeta.
  pose proof (u64_range value) as Hv.
  assert (Hlo : Z.land (Int.u64 value) 4294967295 = Int.u64 value mod 2 ^ 32).
  { change 4294967295 with (Z.ones 32). apply Z.land_ones. lia. }
  assert (Hhi : Z.shiftr (Int.u64 value) 32 = Int.u64 value / 2 ^ 32).
  { apply Z.shiftr_div_pow2. lia. }
  assert (Hl : 0 <= Int.u64 value mod 2 ^ 32 < 2 ^ 32)
    by (apply Z.mod_pos_bound; lia).
  assert (Hh : 0 <= Int.u64 value / 2 ^ 32 < 2 ^ 32).
  { split; [apply Z.div_pos; lia|].
    apply Z.div_lt_upper_bound; [lia|]. change (2 ^ 32 * 2 ^ 32) with (2 ^ 64).
    lia. }
  assert (Hsum : Int.u64 value mod 2 ^ 32 + 2 ^ 32 * (Int.u64 value / 2 ^ 32)
                 = Int.u64 value).
  { rewrite Z.add_comm. symmetry. apply Z.div_mod. lia. }
  assert (Heq : syscall_result (set_rdtsc_output value r)
                = Int.u64 value mod 2 ^ 32
                /\ arg3 (set_rdtsc_output value r) = Int.u64 value / 2 ^ 32).
  { unfold set_rdtsc_output, syscall_result, arg3.
    rewrite Hlo, Hhi.
    destruct r as [u|u]; cbn -[Int.u32 Int.s32 Int.u64 Z.pow Z.div Z.modulo].
    - rewrite !u32_s32, (u32_small _ Hl), (u32_small _ Hh).
      split; reflexivity.
    - rewrite !u64_idem.
      rewrite (u64_small (_ mod _)), (u64_small (_ / _)) by lia.
      split; reflexivity. }
  destruct Heq as [E1 E2].
  split; [destruct r; reflexivity|].
  rewrite E1, E2. split; [reflexivity|]. split; [reflexivity|]. exact Hsum.
Qed.


Lemma testbit_u64 v n : 0 <= n ->
  Z.testbit (Int.u64 v) n = (n <? 64) && Z.testbit v n.
Proof.
  intros Hn. unfold Int.u64, Int.to_unsigned.
  destruct (Z.ltb_spec n 64).
  - apply Z.mod_pow2_bits_low. lia.
  - apply Z.mod_pow2_bits_high. lia.
Qed.

Lemma testbit_u32 v n : 0 <= n ->
  Z.testbit (Int.u32 v) n = (n <? 32) && Z.testbit v n.
Proof.
  intros Hn. unfold Int.u32, Int.to_unsigned.
  destruct (Z.ltb_spec n 32).
  - apply Z.mod_pow2_bits_low. lia.
  - apply Z.mod_pow2_bits_high. lia.
Qed.

Lemma testbit_31 x : 0 <= x < 2 ^ 32 ->
  Z.testbit x 31 = negb (x <? 2 ^ 31).
Proof.
  intros Hx.
  replace (Z.testbit x 31) with (Z.testbit (x / 2 ^ 31) 0)
    by (rewrite Z.div_pow2_bits by lia; reflexivity).
  destruct (Z.ltb_spec x (2 ^ 31)) as [Hlt|Hge]; cbn [negb].
  - rewrite Z.div_small by lia. reflexivity.
  - replace (x / 2 ^ 31) with 1; [reflexivity|].
    apply Z.div_unique with (r := x - 2 ^ 31); lia.
Qed.

Lemma testbit_s32 v n : 0 <= n ->
  Z.testbit (Int.s32 v) n = Z.testbit v (Z.min n 31).
Proof.
  intros Hn.
  pose proof (s32_range v) as Hr.
  assert (Hlow : forall k, 0 <= k < 32 ->
                           Z.testbit (Int.s32 v) k = Z.testbit v k).
  { intros k Hk.
    rewrite <- (Z.mod_pow2_bits_low (Int.s32 v) 32 k) by lia.
    fold (Int.to_unsigned 32 (Int.s32 v)). fold (Int.u32 (Int.s32 v)).
    rewrite u32_s32. unfold Int.u32, Int.to_unsigned.
    apply Z.mod_pow2_bits_low. lia. }
  destruct (Z_lt_dec n 32) as [Hlt|Hge].
  - rewrite Hlow by lia.
    destruct (Z_lt_dec n 31); [rewrite Z.min_l by lia; reflexivity|].
    replace n with 31 by lia. reflexivity.
  - rewrite Z.min_r by lia. rewrite <- (Hlow 31) by lia.
    assert (Hhigh : forall k, 31 <= k ->
                              Z.testbit (Int.s32 v) k
                              = (Int.s32 v <? 0)).
    { intros k Hk.
      destruct (Z.ltb_spec (Int.s32 v) 0) as [Hneg|Hpos].
      - destruct (Z.eq_dec k 31) as [->|Hk31].
        + rewrite Hlow by lia.
          rewrite <- (Z.mod_pow2_bits_low v 32 31) by lia.
          rewrite testbit_31 by (apply Z.mod_pos_bound; lia).
          unfold Int.s32, Int.to_signed in Hneg.
          pose proof (Z.mod_pos_bound v (2 ^ 32) ltac:(lia)).
          destruct (v mod 2 ^ 32 <? 2 ^ (32 - 1)) eqn:E; [lia|].
          change (2 ^ (32 - 1)) with (2 ^ 31) in E. rewrite E. reflexivity.
        + apply Z.bits_iff_neg; [|assumption].
          apply Z.log2_lt_pow2; [lia|].
          apply Z.lt_le_trans with (2 ^ 32); [lia|].
          apply Z.pow_le_mono_r; lia.
      - destruct (Z.eq_dec (Int.s32 v) 0) as [->|Hne]; [apply Z.bits_0|].
        apply Z.bits_above_log2; [lia|].
        apply Z.log2_lt_pow2; [lia|].
        apply Z.lt_le_trans with (2 ^ 31); [lia|].
        apply Z.pow_le_mono_r; lia. }
    rewrite (Hhigh n), (Hhigh 31) by lia. reflexivity.
Qed.

Lemma testbit_flags r n : 0 <= n ->
  Z.testbit (flags r) n
  = (n <? 64)
    && match r with
       | X86Regs u => Z.testbit (X86Arch.eflags u) (Z.min n 31)
       | X64Regs u =>
           if n <? 32 then Z.testbit (X64Arch.eflags u) n
           else Z.testbit (X64Arch.eflags_upper u) (n - 32)
       end.
Proof.
  intros Hn. destruct r as [u|u]; unfold flags.
  - rewrite testbit_u64, testbit_s32 by lia. reflexivity.
  - rewrite Z.lor_spec, testbit_u64, testbit_u32 by lia.
    rewrite Z.shiftl_spec by lia.
    destruct (Z.ltb_spec n 32) as [Hlt|Hge].
    + rewrite (Z.testbit_neg_r _ (n - 32)) by lia.
      rewrite andb_false_r, orb_false_r.
      destruct (Z.ltb_spec n 64); [reflexivity|lia].
    + rewrite testbit_u32 by lia. cbn [andb orb].
      destruct (Z.ltb_spec n 64) as [H64|H64]; cbn [andb]; [|reflexivity].
      destruct (Z.ltb_spec (n - 32) 32); [reflexivity|lia].
Qed.

Lemma testbit_set_flags value r n : 0 <= n ->
  Z.testbit (flags (set_flags value r)) n
  = (n <? 64)
    && Z.testbit value (match r with X86Regs _ => Z.min n 31
                                | X64Regs _ => n end).
Proof.
  intros Hn. rewrite testbit_flags by lia.
  destruct (Z.ltb_spec n 64) as [H64|H64]; cbn [andb]; [|reflexivity].
  destruct r as [u|u]; cbn -[Int.u32 Int.s32 Int.u64 Z.testbit Z.min Z.shiftr Z.sub].
  - rewrite testbit_s32 by lia. rewrite Z.min_id || idtac.
    replace (Z.min (Z.min n 31) 31) with (Z.min n 31) by lia.
    rewrite testbit_u64 by lia.
    destruct (Z.ltb_spec (Z.min n 31) 64); [reflexivity|lia].
  - destruct (Z.ltb_spec n 32) as [Hlt|Hge].
    + rewrite testbit_u32, testbit_u64 by lia.
      destruct (Z.ltb_spec n 32); [|lia].
      destruct (Z.ltb_spec n 64); [reflexivity|lia].
    + rewrite testbit_u32 by lia. rewrite Z.shiftr_spec by lia.
      rewrite testbit_u64 by lia.
      replace (n - 32 + 32) with n by lia.
      destruct (Z.ltb_spec (n - 32) 32); [|lia].
      destruct (Z.ltb_spec n 64); [reflexivity|lia].
Qed.

Lemma testbit_flag_constant k n : 0 <= k ->
  Z.testbit (Z.shiftl 1 k) n = (k =? n).
Proof.
  intros Hk. rewrite Z.shiftl_1_l. apply Z.pow2_bits_eqb. lia.
Qed.

(** X3.  [clear_singlestep_flag] clears the trap flag and leaves every
    other bit of [flags()] as it was, on both architectures;
    [singlestep_flag] is false afterwards and [df_flag] unchanged. *)
Theorem clear_singlestep_flag_clears_tf_only (r : t) :
  singlestep_flag (clear_singlestep_flag r) = false
  /\ arch (clear_singlestep_flag r) = arch r
  /\ (forall n, n <> 8 ->
        Z.testbit (flags (clear_singlestep_flag r)) n
        = Z.testbit (flags r) n)
  /\ df_flag (clear_singlestep_flag r) = df_flag r.
Proof.
  assert (Hbits : forall n, 0 <= n ->
            Z.testbit (flags (clear_singlestep_flag r)) n
            = Z.testbit (flags r) n && negb (n =? 8)).
  { intros n Hn. unfold clear_singlestep_flag.
    rewrite testbit_set_flags by lia.
    assert (Hm : forall m, 0 <= m < 64 ->
              Z.testbit (Z.land (flags r) (Int.u64 (Z.lnot X86_TF_FLAG))) m
              = Z.testbit (flags r) m && negb (m =? 8)).
    { intros m Hm. rewrite Z.land_spec, testbit_u64, Z.lnot_spec by lia.
      unfold X86_TF_FLAG. rewrite testbit_flag_constant by lia.
      destruct (Z.ltb_spec m 64); [|lia]. cbn [andb].
      rewrite (Z.eqb_sym 8 m). reflexivity. }
    destruct (Z.ltb_spec n 64) as [H64|H64]; cbn [andb].
    - destruct r as [u|u].
      + rewrite Hm by lia. rewrite !testbit_flags by lia.
        destruct (Z.ltb_spec n 64); [|lia].
        destruct (Z.ltb_spec (Z.min n 31) 64); [|lia]. cbn [andb].
        replace (Z.min (Z.min n 31) 31) with (Z.min n 31) by lia.
        destruct (Z.eqb_spec n 8) as [->|Hne].
        * reflexivity.
        * destruct (Z.eqb_spec (Z.min n 31) 8); [lia|reflexivity].
      + apply Hm. lia.
    - rewrite testbit_flags by lia.
      destruct (Z.ltb_spec n 64); [lia|reflexivity]. }
  assert (Hland : forall k, 0 <= k -> k <> 8 ->
            Z.land (flags (clear_singlestep_flag r)) (Z.shiftl 1 k)
            = Z.land (flags r) (Z.shiftl 1 k)).
  { intros k Hk Hne. apply Z.bits_inj'. intros n Hn.
    rewrite !Z.land_spec, Hbits, testbit_flag_constant by lia.
    destruct (Z.eqb_spec k n) as [<-|]; [|now rewrite !andb_false_r].
    destruct (Z.eqb_spec k 8); [lia|]. now rewrite !andb_true_r. }
  split; [|split; [|split]].
  - unfold singlestep_flag.
    replace (Z.land (flags (clear_singlestep_flag r)) X86_TF_FLAG) with 0;
      [reflexivity|].
    symmetry. apply Z.bits_inj'. intros n Hn.
    rewrite Z.land_spec, Hbits, Z.bits_0 by lia.
    unfold X86_TF_FLAG. rewrite testbit_flag_constant by lia.
    rewrite (Z.eqb_sym 8 n). destruct (n =? 8); cbn;
      now rewrite ?andb_false_r.
  - destruct r; reflexivity.
  - intros n Hne. destruct (Z_lt_dec n 0) as [Hneg|Hpos].
    + now rewrite !Z.testbit_neg_r by lia.
    + rewrite Hbits by lia. destruct (Z.eqb_spec n 8); [lia|].
      apply andb_true_r.
  - unfold df_flag, X86_DF_FLAG. rewrite Hland by lia. reflexivity.
Qed.


Lemma s32_from_x86_narrow v : canonical32 v ->
  to_x86_narrow (from_x86_narrow v) = v.
Proof.
  intros H. unfold to_x86_narrow, from_x86_narrow.
  rewrite s32_u64, s32_u32. apply s32_canonical, H.
Qed.

Lemma s32_from_x86_narrow_signed v : canonical32 v ->
  to_x86_narrow (from_x86_narrow_signed v) = v.
Proof.
  intros H. unfold to_x86_narrow, from_x86_narrow_signed.
  rewrite s32_u64, s32_idem. apply s32_canonical, H.
Qed.

Lemma s32_from_x86_same v : canonical32 v ->
  to_x86_same (from_x86_same v) = v.
Proof.
  intros H. unfold to_x86_same, from_x86_same.
  rewrite s32_u32. apply s32_canonical, H.
Qed.

(** X4.  The registers that [get_ptrace] hands out are read back
    unchanged by [set_from_ptrace], also for a 32-bit tracee under a
    64-bit build, where [convert_x86] widens and narrows them. *)
Theorem ptrace_round_trip (native : SupportedArch) (r : t) :
  canonical r ->
  arch r = native \/ (arch r = x86 /\ native = x86_64) ->
  exists p,
    get_ptrace native r = Some p
    /\ arch p = native
    /\ forall r0, arch r0 = arch r -> set_from_ptrace native p r0 = Some r.
Proof.
  intros Hc Ha. destruct Ha as [<-|[Ha ->]].
  - exists r. unfold get_ptrace, set_from_ptrace.
    assert (E : SupportedArch_eqb (arch r) (arch r) = true)
      by (destruct (arch r); reflexivity).
    rewrite E. split; [reflexivity|]. split; [reflexivity|].
    intros r0 ->. rewrite E. reflexivity.
  - destruct r as [u|u]; [|discriminate Ha].
    eexists. split; [reflexivity|]. split; [reflexivity|].
    intros r0 H0. destruct r0 as [u0|u0]; [|discriminate H0].
    cbn -[to_x86_narrow to_x86_same from_x86_narrow from_x86_narrow_signed
          from_x86_same].
    cbn [canonical] in Hc.
    repeat match goal with
           | H : Forall _ (_ :: _) |- _ => inversion H; subst; clear H
           end.
    unfold convert_x86_to_x86, convert_x86_from_x86.
    cbn -[to_x86_narrow to_x86_same from_x86_narrow from_x86_narrow_signed
          from_x86_same].
    rewrite !s32_from_x86_narrow, !s32_from_x86_same,
      s32_from_x86_narrow_signed by assumption.
    destruct u; reflexivity.
Qed.

(** X5.  Widening the registers of a 32-bit tracee, [get_ptrace]
    zero-extends the stack pointer, which stays in the 32-bit address
    space, and sign-extends the result register, so that a failed
    syscall is still a failed syscall in the widened registers. *)
Theorem get_ptrace_widening (u : X86Arch.user_regs_struct) :
  exists p,
    get_ptrace x86_64 (X86Regs u) = Some (X64Regs p)
    /\ 0 <= X64Arch.rsp p < 2 ^ 32
    /\ X64Arch.rsp p = sp (X86Regs u)
    /\ Int.s64 (X64Arch.rax p) = syscall_result_signed (X86Regs u)
    /\ syscall_failed (X64Regs p) = syscall_failed (X86Regs u).
Proof.
  eexists. split; [reflexivity|].
  cbn -[Int.u32 Int.s32 Int.u64 Int.s64 Z.pow].
  unfold from_x86_narrow, from_x86_narrow_signed.
  pose proof (u32_range (X86Arch.esp u)) as Hsp.
  pose proof (s32_range (X86Arch.eax u)) as Hax.
  rewrite (u64_small (Int.u32 _)) by lia.
  assert (Hs : Int.s64 (Int.u64 (Int.s32 (X86Arch.eax u)))
               = Int.s32 (X86Arch.eax u)).
  { unfold Int.s64, Int.u64, Int.to_signed, Int.to_unsigned.
    rewrite Z.mod_mod by lia.
    set (y := Int.s32 (X86Arch.eax u)) in *.
    destruct (Z_lt_dec y 0).
    - replace (y mod 2 ^ 64) with (y + 2 ^ 64).
      + destruct (y + 2 ^ 64 <? 2 ^ (64 - 1)) eqn:E; [|lia].
        apply Z.ltb_lt in E. change (2 ^ (64 - 1)) with (2 ^ 63) in E. lia.
      + symmetry. rewrite <- (Z_mod_plus_full y 1 (2 ^ 64)).
        rewrite Z.mul_1_l. apply Z.mod_small. lia.
    - rewrite Z.mod_small by lia.
      destruct (y <? 2 ^ (64 - 1)) eqn:E; [reflexivity|].
      apply Z.ltb_ge in E. change (2 ^ (64 - 1)) with (2 ^ 63) in E. lia. }
  split; [lia|]. split; [reflexivity|]. split; [exact Hs|].
  unfold syscall_failed, syscall_result_signed, RR_GET_REG_SIGNED.
  cbn -[Int.u32 Int.s32 Int.u64 Int.s64 Z.pow].
  unfold from_x86_narrow_signed. rewrite Hs. reflexivity.
Qed.

Lemma s64_canonical v : - 2 ^ 63 <= v < 2 ^ 63 -> Int.s64 v = v.
Proof.
  unfold Int.s64, Int.to_signed. intros H.
  destruct (Z_lt_dec v 0) as [Hn|Hp].
  - replace (v mod 2 ^ 64) with (v + 2 ^ 64).
    + destruct (v + 2 ^ 64 <? 2 ^ (64 - 1)) eqn:E; [|lia].
      apply Z.ltb_lt in E. change (2 ^ (64 - 1)) with (2 ^ 63) in E. lia.
    + symmetry. rewrite <- (Z_mod_plus_full v 1 (2 ^ 64)).
      rewrite Z.mul_1_l. apply Z.mod_small. lia.
  - rewrite Z.mod_small by lia.
    destruct (v <? 2 ^ (64 - 1)) eqn:E; [reflexivity|].
    apply Z.ltb_ge in E. change (2 ^ (64 - 1)) with (2 ^ 63) in E. lia.
Qed.

Lemma s64_u64 v : Int.s64 (Int.u64 v) = Int.s64 v.
Proof.
  unfold Int.u64, Int.s64, Int.to_signed, Int.to_unsigned.
  rewrite Z.mod_mod by lia. reflexivity.
Qed.

(** X6.  With [-e] stored as the syscall result, for an error number
    [e], [syscall_result_signed] reads [-e] on both architectures,
    [syscall_failed] holds exactly when [e <= ERANGE], and
    [syscall_may_restart] holds exactly for the four restart codes, none
    of which counts as a failure. *)
Theorem syscall_result_error_codes (r : t) (e : Z) :
  1 <= e < 2 ^ 31 ->
  let r' := set_syscall_result (- e) r in
  syscall_result_signed r' = - e
  /\ syscall_failed r' = (e <=? ERANGE)
  /\ syscall_may_restart r'
     = ((e =? ERESTART_RESTARTBLOCK) || (e =? ERESTARTNOINTR)
        || (e =? ERESTARTNOHAND) || (e =? ERESTARTSYS))
  /\ (syscall_may_restart r' = true -> syscall_failed r' = false)
  /\ syscall_result r'
     = match arch r with x86 => 2 ^ 32 - e | x86_64 => 2 ^ 64 - e end.
Proof.
  intros He. cbv zeta.
  assert (Hs : syscall_result_signed (set_syscall_result (- e) r) = - e).
  { destruct r as [u|u];
      cbn -[Int.u32 Int.s32 Int.u64 Int.s64 Z.pow].
    - rewrite s32_idem. apply s32_canonical. unfold canonical32. lia.
    - rewrite s64_u64. apply s64_canonical. lia. }
  assert (Hf : syscall_failed (set_syscall_result (- e) r) = (e <=? ERANGE)).
  { unfold syscall_failed. rewrite Hs. unfold ERANGE.
    destruct (Z.leb_spec e 34), (Z.leb_spec (-34) (- e)),
      (Z.ltb_spec (- e) 0); try reflexivity; lia. }
  assert (Hr : syscall_may_restart (set_syscall_result (- e) r)
               = ((e =? ERESTART_RESTARTBLOCK) || (e =? ERESTARTNOINTR)
                  || (e =? ERESTARTNOHAND) || (e =? ERESTARTSYS))).
  { unfold syscall_may_restart. rewrite Hs, Z.opp_involutive.
    rewrite s64_canonical by lia. reflexivity. }
  split; [exact Hs|]. split; [exact Hf|]. split; [exact Hr|]. split.
  - rewrite Hr, Hf.
    unfold ERESTART_RESTARTBLOCK, ERESTARTNOINTR, ERESTARTNOHAND,
      ERESTARTSYS, ERANGE.
    intros H. apply Z.leb_gt.
    repeat (apply orb_true_iff in H; destruct H as [H|H]);
      apply Z.eqb_eq in H; lia.
  - destruct r as [u|u]; cbn -[Int.u32 Int.s32 Int.u64 Int.s64 Z.pow].
    + rewrite u32_s32. unfold Int.u32, Int.to_unsigned.
      rewrite <- (Z_mod_plus_full (- e) 1 (2 ^ 32)).
      rewrite Z.mod_small by lia. lia.
    + rewrite u64_idem. unfold Int.u64, Int.to_unsigned.
      rewrite <- (Z_mod_plus_full (- e) 1 (2 ^ 64)).
      rewrite Z.mod_small by lia. lia.
Qed.

End RegisterAccess.

Section RegisterAccessExamples.

Import Registers.

Lemma ptrace_round_trip_witness :
  canonical (x86_with_orig_eax (-1))
  /\ exists p,
       get_ptrace x86_64 (x86_with_orig_eax (-1)) = Some p
       /\ arch p = x86_64
       /\ set_from_ptrace x86_64 p (x86_with_orig_eax 0)
          = Some (x86_with_orig_eax (-1)).
Proof.
  assert (Hc : canonical (x86_with_orig_eax (-1))).
  { cbn. repeat (apply Forall_cons; [unfold canonical32; cbn; lia|]).
    constructor. }
  split; [exact Hc|].
  destruct (ptrace_round_trip x86_64 (x86_with_orig_eax (-1)) Hc
              (or_intror (conj eq_refl eq_refl))) as (p & Hg & Ha & Hs).
  exists p. split; [exact Hg|]. split; [exact Ha|].
  apply Hs. reflexivity.
Defined.

Lemma syscall_result_error_codes_witness :
  1 <= 2 < 2 ^ 31
  /\ syscall_failed (set_syscall_result (- 2) (x86_with_orig_eax 5)) = true
  /\ syscall_result (set_syscall_result (- 2) (x86_with_orig_eax 5))
     = 4294967294.
Proof.
  assert (H : 1 <= 2 < 2 ^ 31) by lia.
  split; [exact H|].
  destruct (syscall_result_error_codes (x86_with_orig_eax 5) 2 H)
    as (_ & Hf & _ & _ & Hr).
  split; [exact Hf|exact Hr].
Defined.

End RegisterAccessExamples.

(* ------------------------------------------------------------------ *)
(** ** Matching register files *)

Section RegisterMatching.

Import Registers.

Lemma matched_after_one {S} (u1 u2 : S) c rv :
  matched (compare_one u1 u2 c rv) = matched c && negb (differs u1 u2 rv).
Proof.
  unfold compare_one, differs.
  destruct (nbytes rv =? 0); cbn [negb andb]; [now rewrite andb_true_r|].
  destruct (comparison_mask rv =? 0); cbn [negb andb];
    [now rewrite andb_true_r|].
  destruct (Z.land _ _ =? 0); cbn [negb andb matched record_mismatch].
  - now rewrite andb_true_r.
  - now rewrite andb_false_r.
Qed.

Lemma matched_table {S} (table : list (RegisterValue S)) u1 u2 :
  matched (compare_registers_core table u1 u2)
  = forallb (fun rv => negb (differs u1 u2 rv)) table.
Proof.
  unfold compare_registers_core.
  assert (G : forall c,
             matched (fold_left (compare_one u1 u2) table c)
             = matched c && forallb (fun rv => negb (differs u1 u2 rv)) table).
  { induction table as [|rv table IH]; intros c; cbn [fold_left forallb].
    - now rewrite andb_true_r.
    - rewrite IH, matched_after_one. now rewrite andb_assoc. }
  rewrite G. reflexivity.
Qed.

Lemma matched_REGCMP nm f1 f2 c :
  matched (REGCMP nm f1 f2 c) = matched c && (f1 =? f2).
Proof.
  unfold REGCMP. destruct (f1 =? f2); cbn [matched record_mismatch].
  - now rewrite andb_true_r.
  - now rewrite andb_false_r.
Qed.

Lemma lxor_ones_zero w a b :
  0 < w -> 0 <= a < 2 ^ w -> 0 <= b < 2 ^ w ->
  (Z.land (Z.lxor a b) (Z.ones w) =? 0) = (a =? b).
Proof.
  intros Hw Ha Hb.
  rewrite Z.land_ones by lia.
  assert (Hx : 0 <= Z.lxor a b < 2 ^ w).
  { split.
    - apply Z.lxor_nonneg. lia.
    - destruct (Z.eq_dec (Z.lxor a b) 0) as [->|Hne]; [lia|].
      apply Z.log2_lt_pow2.
      + assert (0 <= Z.lxor a b) by (apply Z.lxor_nonneg; lia). lia.
      + eapply Z.le_lt_trans; [apply Z.log2_lxor; lia|].
        apply Z.max_lub_lt.
        * destruct (Z.eq_dec a 0) as [->|]; [simpl; lia|].
          apply Z.log2_lt_pow2; lia.
        * destruct (Z.eq_dec b 0) as [->|]; [simpl; lia|].
          apply Z.log2_lt_pow2; lia. }
  rewrite Z.mod_small by exact Hx.
  destruct (Z.eqb_spec a b) as [->|Hab].
  - rewrite Z.lxor_nilpotent. reflexivity.
  - destruct (Z.eqb_spec (Z.lxor a b) 0) as [E|E]; [|reflexivity].
    apply Z.lxor_eq in E. contradiction.
Qed.

Lemma differs_full64 {S} (u1 u2 : S) nm off :
  differs u1 u2 (RV nm off 8) = negb (Int.u64 (off u1) =? Int.u64 (off u2)).
Proof.
  unfold differs, load. cbn [nbytes comparison_mask offset RV].
  change (8 * 8) with 64. fold (Int.u64 (off u1)) (Int.u64 (off u2)).
  change (mask_for_nbytes 8) with (Z.ones 64).
  change (8 =? 0) with false. change (Z.ones 64 =? 0) with false.
  cbn [negb andb]. f_equal.
  apply lxor_ones_zero; [lia| |]; apply Z.mod_pos_bound; lia.
Qed.

Lemma differs_flags {S} (u1 u2 : S) nm off :
  differs u1 u2 (RV_WITH_MASK nm off 4 deterministic_eflags_mask)
  = negb (Z.land (Z.lxor (Int.u32 (off u1)) (Int.u32 (off u2)))
                 deterministic_eflags_mask =? 0).
Proof. reflexivity. Qed.

Lemma Forall_forallb {A} (P : A -> Prop) (f : A -> bool) l :
  (forall x, f x = true <-> P x) ->
  forallb f l = true <-> Forall P l.
Proof.
  intros H. induction l as [|x l IH]; cbn [forallb].
  - split; [constructor|reflexivity].
  - rewrite andb_true_iff, H, IH. split.
    + intros [? ?]. now constructor.
    + intros HF. inversion HF; subst. now split.
Qed.

Lemma x86_matched u1 u2 :
  matched (compare_registers_arch_x86 u1 u2) = true <-> x86_same u1 u2.
Proof.
  unfold compare_registers_arch_x86, x86_same.
  set (c := compare_registers_core x86_registers u1 u2).
  assert (Hc : matched c = true <->
               Forall (fun f => same32 (f u1) (f u2))
                 [X86Arch.eax; X86Arch.ecx; X86Arch.edx; X86Arch.ebx;
                  X86Arch.esp; X86Arch.ebp; X86Arch.esi; X86Arch.edi;
                  X86Arch.eip; X86Arch.xfs; X86Arch.xgs]
               /\ same_flags (X86Arch.eflags u1) (X86Arch.eflags u2)).
  { unfold c. rewrite matched_table. unfold x86_registers.
    cbn [forallb]. rewrite !differs_full32, !differs_mask0, differs_flags.
    cbn [negb]. rewrite !negb_involutive, !andb_true_r.
    rewrite !andb_true_iff, !Z.eqb_eq. unfold same_flags, same32.
    split.
    - intros H. decompose [and] H. split; [|assumption].
      repeat (apply Forall_cons; [assumption|]). constructor.
    - intros [HF Hfl].
      repeat match goal with
             | H : Forall _ (_ :: _) |- _ => inversion H; subst; clear H
             end.
      tauto. }
  destruct (Z.geb_spec (X86Arch.orig_eax u1) 0) as [H1|H1];
    destruct (Z.geb_spec (X86Arch.orig_eax u2) 0) as [H2|H2]; cbn [orb];
    rewrite ?matched_REGCMP, ?andb_true_iff, ?Z.eqb_eq, Hc;
    intuition lia.
Qed.

Lemma x64_matched u1 u2 :
  matched (compare_registers_arch_x64 u1 u2) = true <-> x64_same u1 u2.
Proof.
  unfold compare_registers_arch_x64, x64_same.
  set (c := compare_registers_core x64_registers u1 u2).
  assert (Hc : matched c = true <->
               Forall (fun f => same64 (f u1) (f u2))
                 [X64Arch.rax; X64Arch.rcx; X64Arch.rdx; X64Arch.rbx;
                  X64Arch.rbp; X64Arch.rsi; X64Arch.rdi; X64Arch.r8;
                  X64Arch.r9; X64Arch.r10; X64Arch.r11; X64Arch.r12;
                  X64Arch.r13; X64Arch.r14; X64Arch.r15; X64Arch.rip]
               /\ same32 (X64Arch.fs u1) (X64Arch.fs u2)
               /\ same32 (X64Arch.gs u1) (X64Arch.gs u2)
               /\ same_flags (X64Arch.eflags u1) (X64Arch.eflags u2)).
  { unfold c. rewrite matched_table. unfold x64_registers.
    cbn [forallb]. rewrite !differs_full64, !differs_full32, !differs_mask0,
      differs_flags.
    cbn [negb]. rewrite !negb_involutive, !andb_true_r.
    rewrite !andb_true_iff, !Z.eqb_eq. unfold same_flags, same32, same64.
    split.
    - intros H. decompose [and] H. split; [|tauto].
      repeat (apply Forall_cons; [assumption|]). constructor.
    - intros [HF Hfl].
      repeat match goal with
             | H : Forall _ (_ :: _) |- _ => inversion H; subst; clear H
             end.
      tauto. }
  rewrite !matched_REGCMP, !andb_true_iff, !Z.eqb_eq.
  assert (Ho : matched
                 (if (Int.s64 (X64Arch.orig_rax u1) >=? 0)
                     || (Int.s64 (X64Arch.orig_rax u2) >=? 0)
                  then REGCMP "orig_rax" (X64Arch.orig_rax u1)
                              (X64Arch.orig_rax u2) c
                  else c) = true
               <-> matched c = true
                   /\ ((Int.s64 (X64Arch.orig_rax u1) < 0
                        /\ Int.s64 (X64Arch.orig_rax u2) < 0)
                       \/ X64Arch.orig_rax u1 = X64Arch.orig_rax u2)).
  { destruct (Z.geb_spec (Int.s64 (X64Arch.orig_rax u1)) 0) as [H1|H1];
      destruct (Z.geb_spec (Int.s64 (X64Arch.orig_rax u2)) 0) as [H2|H2];
      cbn [orb];
      rewrite ?matched_REGCMP, ?andb_true_iff, ?Z.eqb_eq; intuition lia. }
  rewrite Ho, Hc. split.
  - intros H. decompose [and] H.
    repeat (split; [assumption|]).
    repeat (apply Forall_cons; [assumption|]). constructor.
  - intros H. decompose [and] H.
    repeat match goal with
           | H : Forall (fun f => f u1 = f u2) (_ :: _) |- _ =>
               inversion H; subst; clear H
           end.
    tauto.
Qed.


Lemma internal_matched r1 r2 c :
  compare_register_files_internal r1 r2 = Some c ->
  (matched c = true <-> same_registers r1 r2).
Proof.
  destruct r1 as [u1|u1], r2 as [u2|u2]; cbn; intros E;
    inversion E; subst.
  - apply x86_matched.
  - apply x64_matched.
Qed.

Lemma internal_none r1 r2 :
  compare_register_files_internal r1 r2 = None <-> arch r1 <> arch r2.
Proof.
  destruct r1, r2; cbn; split; intros H; try discriminate; try reflexivity;
    congruence.
Qed.

Lemma matches_iff_same_registers_aux (r1 r2 : t) :
  (matches r1 r2 = Some true <-> same_registers r1 r2)
  /\ (matches r1 r2 = None <-> arch r1 <> arch r2).
Proof.
  unfold matches, compare_register_files. cbn [behavior_level].
  change (0 >=? 2) with false. cbn [negb orb].
  destruct (compare_register_files_internal r1 r2) as [c|] eqn:E;
    cbn [option_map].
  - pose proof (internal_matched _ _ _ E) as Hm. split.
    + rewrite <- Hm. split; [intros H; now inversion H|intros ->; reflexivity].
    + split; [discriminate|]. intros Hne.
      apply internal_none in Hne. congruence.
  - split.
    + split; [discriminate|]. intros Hs.
      destruct r1, r2; cbn in E, Hs; try discriminate; contradiction.
    + split; [intros _; now apply internal_none|reflexivity].
Qed.

Lemma same_flags_iff a b :
  same_flags a b <->
  Z.land (Int.u32 a) deterministic_eflags_mask
  = Z.land (Int.u32 b) deterministic_eflags_mask.
Proof.
  unfold same_flags.
  replace (Z.land (Z.lxor (Int.u32 a) (Int.u32 b)) deterministic_eflags_mask)
    with (Z.lxor (Z.land (Int.u32 a) deterministic_eflags_mask)
                 (Z.land (Int.u32 b) deterministic_eflags_mask)).
  - apply Z.lxor_eq_0_iff.
  - apply Z.bits_inj'. intros n Hn.
    rewrite Z.lxor_spec, !Z.land_spec, Z.lxor_spec.
    destruct (Z.testbit (Int.u32 a) n), (Z.testbit (Int.u32 b) n),
      (Z.testbit deterministic_eflags_mask n); reflexivity.
Qed.

Lemma x86_same_refl u : x86_same u u.
Proof.
  unfold x86_same. split; [|split].
  - repeat constructor.
  - apply same_flags_iff. reflexivity.
  - right. reflexivity.
Qed.

Lemma x64_same_refl u : x64_same u u.
Proof.
  unfold x64_same. repeat split; try (right; reflexivity);
    try (apply same_flags_iff; reflexivity); repeat constructor.
Qed.

Lemma Forall_sym {A} (R : Z -> Z -> Prop) (u1 u2 : A) (l : list (A -> Z)) :
  (forall a b, R a b -> R b a) ->
  Forall (fun f => R (f u1) (f u2)) l -> Forall (fun f => R (f u2) (f u1)) l.
Proof. intros HR. induction 1; constructor; auto. Qed.

Lemma Forall_trans {A} (R : Z -> Z -> Prop) (u1 u2 u3 : A)
      (l : list (A -> Z)) :
  (forall a b c, R a b -> R b c -> R a c) ->
  Forall (fun f => R (f u1) (f u2)) l ->
  Forall (fun f => R (f u2) (f u3)) l ->
  Forall (fun f => R (f u1) (f u3)) l.
Proof.
  intros HR H1. induction H1; intros H2; inversion H2; subst; constructor;
    eauto.
Qed.

Lemma same_registers_sym r1 r2 : same_registers r1 r2 -> same_registers r2 r1.
Proof.
  destruct r1 as [u1|u1], r2 as [u2|u2]; cbn; try contradiction.
  - intros (H1 & H2 & H3). split; [|split].
    + apply Forall_sym with (R := same32); [|exact H1].
      unfold same32; congruence.
    + apply same_flags_iff. apply same_flags_iff in H2. congruence.
    + destruct H3 as [[? ?]|?]; [left; split; assumption|right; congruence].
  - intros (H1 & H2 & H3 & H4 & H5 & H6).
    split; [|split; [|split; [|split; [|split]]]].
    + apply Forall_sym with (R := same64); [|exact H1].
      unfold same64; congruence.
    + unfold same32 in *; congruence.
    + unfold same32 in *; congruence.
    + apply same_flags_iff. apply same_flags_iff in H4. congruence.
    + destruct H5 as [[? ?]|?]; [left; split; assumption|right; congruence].
    + apply Forall_sym with (R := @eq Z); [|exact H6]. congruence.
Qed.

Lemma same_registers_trans r1 r2 r3 :
  same_registers r1 r2 -> same_registers r2 r3 -> same_registers r1 r3.
Proof.
  destruct r1 as [u1|u1], r2 as [u2|u2], r3 as [u3|u3]; cbn;
    try contradiction.
  - intros (H1 & H2 & H3) (K1 & K2 & K3). split; [|split].
    + apply Forall_trans with (R := same32) (u2 := u2); try assumption.
      unfold same32; congruence.
    + apply same_flags_iff. apply same_flags_iff in H2, K2. congruence.
    + destruct H3 as [[? ?]|?], K3 as [[? ?]|?]; try (left; lia);
        right; congruence.
  - intros (H1 & H2 & H3 & H4 & H5 & H6) (K1 & K2 & K3 & K4 & K5 & K6).
    split; [|split; [|split; [|split; [|split]]]].
    + apply Forall_trans with (R := same64) (u2 := u2); try assumption.
      unfold same64; congruence.
    + unfold same32 in *; congruence.
    + unfold same32 in *; congruence.
    + apply same_flags_iff. apply same_flags_iff in H4, K4. congruence.
    + destruct H5 as [[? ?]|E1], K5 as [[? ?]|E2].
      * left; lia.
      * left. rewrite <- E2. lia.
      * left. rewrite E1. lia.
      * right; congruence.
    + apply Forall_trans with (R := @eq Z) (u2 := u2); try assumption.
      congruence.
Qed.


(** X7.  Two register files match exactly when they agree on the
    general-purpose registers, the instruction pointer, [fs] and [gs],
    on the flags under [deterministic_eflags_mask], on [orig_*ax] unless
    both values are negative and, on x86-64, on the upper halves of the
    segment registers and flags; [cs], [ss], [ds], [es] and, on x86-64,
    [rsp], [fs_base] and [gs_base] play no part.  The comparison fails
    its assertion exactly when the architectures differ. *)
Theorem matches_iff_same_registers (r1 r2 : t) :
  (matches r1 r2 = Some true <-> same_registers r1 r2)
  /\ (matches r1 r2 = None <-> arch r1 <> arch r2).
Proof. exact (matches_iff_same_registers_aux r1 r2). Qed.

(** X8.  [matches] is reflexive, symmetric and transitive. *)
Theorem matches_equivalence :
  (forall r, matches r r = Some true)
  /\ (forall r1 r2, matches r1 r2 = matches r2 r1)
  /\ (forall r1 r2 r3,
        matches r1 r2 = Some true -> matches r2 r3 = Some true ->
        matches r1 r3 = Some true).
Proof.
  split; [|split].
  - intros r. apply matches_iff_same_registers_aux.
    destruct r; cbn; [apply x86_same_refl|apply x64_same_refl].
  - intros r1 r2.
    destruct (matches r1 r2) as [[|]|] eqn:E1.
    + symmetry. apply matches_iff_same_registers_aux.
      apply same_registers_sym. now apply matches_iff_same_registers_aux.
    + destruct (matches r2 r1) as [[|]|] eqn:E2; [|reflexivity|].
      * apply matches_iff_same_registers_aux in E2.
        apply same_registers_sym in E2.
        apply matches_iff_same_registers_aux in E2. congruence.
      * apply matches_iff_same_registers_aux in E2.
        exfalso. apply E2.
        destruct r1, r2; try reflexivity;
          (unfold matches, compare_register_files in E1;
           cbn [compare_register_files_internal option_map] in E1;
           discriminate E1).
    + symmetry. apply matches_iff_same_registers_aux.
      apply matches_iff_same_registers_aux in E1. congruence.
  - intros r1 r2 r3 H1 H2. apply matches_iff_same_registers_aux.
    apply matches_iff_same_registers_aux in H1, H2.
    eapply same_registers_trans; eassumption.
Qed.

Lemma logged_REGCMP nm f1 f2 c :
  (matched c = true <-> mismatches c = []) ->
  (matched (REGCMP nm f1 f2 c) = true <-> mismatches (REGCMP nm f1 f2 c) = []).
Proof.
  intros H. unfold REGCMP. destruct (f1 =? f2); [exact H|].
  cbn. split; [discriminate|].
  intros E. destruct (mismatches c); discriminate.
Qed.

Lemma logged_internal r1 r2 c :
  compare_register_files_internal r1 r2 = Some c ->
  (matched c = true <-> mismatches c = []).
Proof.
  destruct r1 as [u1|u1], r2 as [u2|u2]; cbn [compare_register_files_internal];
    intros E; inversion E; subst; clear E.
  - unfold compare_registers_arch_x86.
    destruct (_ || _); [apply logged_REGCMP|]; apply matched_core.
  - unfold compare_registers_arch_x64.
    repeat apply logged_REGCMP.
    destruct (_ || _); [apply logged_REGCMP|]; apply matched_core.
Qed.

Lemma flat_map_singleton {A B : Type} (f : A -> B) (l : list A) :
  flat_map (fun x => [f x]) l = map f l.
Proof. induction l as [|x l IH]; cbn; [reflexivity|now rewrite IH]. Qed.

Lemma flat_map_nothing {A B : Type} (l : list A) :
  flat_map (fun _ : A => @nil B) l = [].
Proof. induction l as [|x l IH]; cbn; [reflexivity|exact IH]. Qed.

(** What is logged, by the level of [mismatch_behavior]. *)
Lemma logged_by_behavior b c :
  (matched c = true <-> mismatches c = []) ->
  logged b c
  = match b with
    | EXPECT_MISMATCHES => []
    | LOG_MISMATCHES =>
        if matched c then [SameLine]
        else map (MismatchLine LOG_info) (mismatches c)
    | BAIL_ON_MISMATCH => map (MismatchLine LOG_error) (mismatches c)
    end.
Proof.
  intros Hm. unfold logged, maybe_print_reg_mismatch.
  destruct b; cbn [behavior_level].
  - change (0 >=? 2) with false. change (0 >=? 1) with false.
    change (0 =? 1) with false. cbv iota.
    rewrite flat_map_nothing, andb_false_r. reflexivity.
  - change (1 >=? 2) with false. change (1 >=? 1) with true.
    change (1 =? 1) with true. cbv iota.
    rewrite flat_map_singleton, andb_true_r.
    destruct (matched c) eqn:E; [|apply app_nil_r].
    destruct Hm as [Hm _]. rewrite (Hm eq_refl). reflexivity.
  - change (2 >=? 2) with true. change (2 =? 1) with false. cbv iota.
    rewrite flat_map_singleton, andb_false_r. apply app_nil_r.
Qed.

(** X9.  [compare_register_files] is fatal exactly when the
    architectures differ or when, under [BAIL_ON_MISMATCH], the files do
    not match; in the second case each mismatch has been logged as an
    error before.  When it returns, its result is true exactly when the
    files match, which is exactly when [maybe_print_reg_mismatch] was
    not called.  What is logged depends on [mismatch_behavior]: under
    [EXPECT_MISMATCHES] nothing, whatever the result; under
    [LOG_MISMATCHES] one line at [info] for each mismatch, in the order
    of the comparison, or the one line that the files are the same;
    under [BAIL_ON_MISMATCH] a comparison that returns has logged
    nothing. *)
Theorem compare_register_files_outcome (r1 r2 : t) (b : MismatchBehavior) :
  match compare_register_files r1 r2 b with
  | None =>
      arch r1 <> arch r2
      \/ (b = BAIL_ON_MISMATCH /\ ~ same_registers r1 r2
          /\ exists c,
               compare_register_files_internal r1 r2 = Some c
               /\ mismatches c <> []
               /\ logged b c = map (MismatchLine LOG_error) (mismatches c))
  | Some c =>
      arch r1 = arch r2
      /\ (matched c = true <-> same_registers r1 r2)
      /\ (matched c = true <-> mismatches c = [])
      /\ (b = BAIL_ON_MISMATCH -> matched c = true)
      /\ logged b c
         = match b with
           | EXPECT_MISMATCHES => []
           | LOG_MISMATCHES =>
               if matched c then [SameLine]
               else map (MismatchLine LOG_info) (mismatches c)
           | BAIL_ON_MISMATCH => []
           end
  end.
Proof.
  unfold compare_register_files.
  destruct (compare_register_files_internal r1 r2) as [c|] eqn:E.
  - pose proof (internal_matched _ _ _ E) as Hm.
    pose proof (logged_internal _ _ _ E) as Hl.
    pose proof (logged_by_behavior b c Hl) as Hlog.
    assert (Ha : arch r1 = arch r2).
    { destruct r1, r2; try reflexivity; discriminate E. }
    destruct b; cbn [behavior_level];
      [change (0 >=? 2) with false|change (1 >=? 2) with false
       |change (2 >=? 2) with true]; cbn [negb orb].
    + split; [exact Ha|]. split; [exact Hm|]. split; [exact Hl|].
      split; [discriminate|exact Hlog].
    + split; [exact Ha|]. split; [exact Hm|]. split; [exact Hl|].
      split; [discriminate|exact Hlog].
    + case_eq (matched c); intros Em.
      * split; [exact Ha|]. split; [exact Hm|]. split; [exact Hl|].
        split; [intros _; exact Em|].
        destruct Hl as [Hl _]. rewrite Hlog, (Hl Em). reflexivity.
      * right. split; [reflexivity|]. split.
        { intros Hs. apply Hm in Hs. congruence. }
        exists c. split; [reflexivity|]. split; [|exact Hlog].
        intros Hn. apply Hl in Hn. congruence.
  - left. now apply internal_none.
Qed.

End RegisterMatching.

(* ------------------------------------------------------------------ *)
(** ** Reference counts, derived mappings and iteration from an address *)

Section ReferenceCounts.

Import AddressSpace.

Lemma ref_counts which b b' :
  ref which b = Some b' ->
  counts_valid b = true
  /\ counts_valid b' = true
  /\ internal_count b'
     = internal_count b + (if BreakpointType_eqb which BKPT_INTERNAL
                           then 1 else 0)
  /\ user_count b'
     = user_count b + (if BreakpointType_eqb which BKPT_USER then 1 else 0).
Proof.
  unfold ref, counter, counts_valid.
  destruct (Z.geb_spec (internal_count b) 0) as [Hi|Hi]; cbn [andb];
    [|discriminate].
  destruct (Z.geb_spec (user_count b) 0) as [Hu|Hu]; [|discriminate].
  destruct which; [discriminate| |].
  - destruct (internal_count b =? Trace.INT_MAX); [discriminate|].
    intros E; inversion E; subst; clear E. cbn.
    destruct (Z.geb_spec (internal_count b + 1) 0); [|lia].
    destruct (Z.geb_spec (user_count b) 0); [|lia].
    repeat split; lia.
  - destruct (user_count b =? Trace.INT_MAX); [discriminate|].
    intros E; inversion E; subst; clear E. cbn.
    destruct (Z.geb_spec (internal_count b) 0); [|lia].
    destruct (Z.geb_spec (user_count b + 1) 0); [|lia].
    repeat split; lia.
Qed.

Lemma unref_counts which b n b' :
  unref which b = Some (n, b') ->
  counts_valid b' = true
  /\ n = internal_count b' + user_count b'
  /\ internal_count b'
     = internal_count b + (if BreakpointType_eqb which BKPT_INTERNAL
                           then -1 else 0)
  /\ user_count b'
     = user_count b + (if BreakpointType_eqb which BKPT_USER then -1 else 0).
Proof.
  unfold unref, counter.
  destruct (_ || _); [|discriminate].
  destruct which; [discriminate| |].
  - destruct (internal_count b >=? 0); [|discriminate].
    destruct (counts_valid _) eqn:Ev; [|discriminate].
    destruct (_ >? Trace.INT_MAX); [discriminate|].
    intros E; inversion E; subst; clear E.
    split; [exact Ev|]. cbn. repeat split; lia.
  - destruct (user_count b >=? 0); [|discriminate].
    destruct (counts_valid _) eqn:Ev; [|discriminate].
    destruct (_ >? Trace.INT_MAX); [discriminate|].
    intros E; inversion E; subst; clear E.
    split; [exact Ev|]. cbn. repeat split; lia.
Qed.

Lemma run_ops_counts : forall ops b b',
  counts_valid b = true ->
  internal_count b <= Trace.INT_MAX -> user_count b <= Trace.INT_MAX ->
  run_ops ops b = Some b' ->
  counts_valid b' = true
  /\ internal_count b' <= Trace.INT_MAX /\ user_count b' <= Trace.INT_MAX
  /\ internal_count b' = internal_count b + balance BKPT_INTERNAL ops
  /\ user_count b' = user_count b + balance BKPT_USER ops.
Proof.
  induction ops as [|[w|w] ops IH]; intros b b' Hv Hmi Hmu Hr; cbn in Hr.
  - inversion Hr; subst. cbn [balance].
    split; [assumption|]. split; [assumption|]. split; [assumption|].
    split; lia.
  - destruct (ref w b) as [b1|] eqn:E; [|discriminate].
    destruct (ref_counts _ _ _ E) as (_ & Hv1 & Hi & Hu).
    assert (Hb1 : internal_count b1 <= Trace.INT_MAX
                  /\ user_count b1 <= Trace.INT_MAX).
    { unfold ref, counter in E. destruct (counts_valid b); [|discriminate].
      destruct w; [discriminate| |]; cbn in Hi, Hu.
      - destruct (_ >=? 0); [|discriminate].
        destruct (Z.eqb_spec (internal_count b) Trace.INT_MAX);
          [discriminate|]. lia.
      - destruct (_ >=? 0); [|discriminate].
        destruct (Z.eqb_spec (user_count b) Trace.INT_MAX);
          [discriminate|]. lia. }
    destruct Hb1 as [Hb1 Hb2].
    destruct (IH _ _ Hv1 Hb1 Hb2 Hr) as (Hv' & Hmi' & Hmu' & Hi' & Hu').
    split; [exact Hv'|]. cbn [balance].
    split; [lia|]. split; [lia|]. split; lia.
  - destruct (unref w b) as [[n b1]|] eqn:E; [|discriminate].
    destruct (unref_counts _ _ _ _ E) as (Hv1 & _ & Hi & Hu).
    assert (Hb1 : internal_count b1 <= Trace.INT_MAX
                  /\ user_count b1 <= Trace.INT_MAX).
    { destruct (BreakpointType_eqb w BKPT_INTERNAL),
        (BreakpointType_eqb w BKPT_USER); lia. }
    destruct Hb1 as [Hb1 Hb2].
    destruct (IH _ _ Hv1 Hb1 Hb2 Hr) as (Hv' & Hmi' & Hmu' & Hi' & Hu').
    split; [exact Hv'|]. cbn [balance].
    split; [lia|]. split; [lia|]. split; lia.
Qed.

(** X10.  After calls of [ref] and [unref] on a fresh [Breakpoint] that
    all pass their assertions, each counter holds the references of its
    type that were added and not removed, and neither is negative;
    [type] is [BKPT_USER] exactly when a user reference is left.  A
    further [unref] fails when no reference is left; when it succeeds it
    returns the number of references left, and [ref] undoes it. *)
Theorem breakpoint_reference_counts (ops : list BreakpointOp) (data : Z)
        (b : Breakpoint) :
  run_ops ops (Breakpoint_create data) = Some b ->
  internal_count b = balance BKPT_INTERNAL ops
  /\ user_count b = balance BKPT_USER ops
  /\ 0 <= internal_count b /\ 0 <= user_count b
  /\ (type b = BKPT_USER <-> 0 < balance BKPT_USER ops)
  /\ (forall which,
        (internal_count b =? 0) && (user_count b =? 0) = true ->
        unref which b = None)
  /\ (forall which n b',
        unref which b = Some (n, b') ->
        n = balance BKPT_INTERNAL (ops ++ [Unref which])
            + balance BKPT_USER (ops ++ [Unref which])
        /\ ref which b' = Some b).
Proof.
  intros Hr.
  assert (Hm0 : 0 <= Trace.INT_MAX) by (unfold Trace.INT_MAX; lia).
  destruct (run_ops_counts ops (Breakpoint_create data) b eq_refl
              Hm0 Hm0 Hr)
    as (Hv & Hmi & Hmu & Hi & Hu).
  cbn in Hi, Hu.
  unfold counts_valid in Hv. apply andb_true_iff in Hv.
  destruct Hv as [Hvi Hvu]. apply Z.geb_le in Hvi, Hvu.
  split; [exact Hi|]. split; [exact Hu|]. split; [exact Hvi|].
  split; [exact Hvu|]. split; [|split].
  - unfold type. destruct (Z.gtb_spec (user_count b) 0); split;
      intros; try discriminate; try reflexivity; lia.
  - intros which H0. apply andb_true_iff in H0. destruct H0 as [Ei Eu].
    apply Z.eqb_eq in Ei, Eu. unfold unref. rewrite Ei, Eu. reflexivity.
  - intros which n b' Hun.
    destruct (unref_counts _ _ _ _ Hun) as (Hv' & Hn & Hi' & Hu').
    assert (Hb : forall w, balance w (ops ++ [Unref which])
                 = balance w ops
                   + (if BreakpointType_eqb which w then -1 else 0)).
    { intros w. clear. induction ops as [|[x|x] ops IH]; cbn [app balance].
      - lia.
      - rewrite IH. lia.
      - rewrite IH. lia. }
    split; [rewrite !Hb; lia|].
    unfold counts_valid in Hv'. apply andb_true_iff in Hv'.
    destruct Hv' as [Hvi' Hvu']. apply Z.geb_le in Hvi', Hvu'.
    assert (Hd : overwritten_data b' = overwritten_data b).
    { unfold unref in Hun.
      destruct (_ || _); [|discriminate].
      destruct (counter which b); [|discriminate].
      destruct (counts_valid _); [|discriminate].
      destruct (_ >? _); [discriminate|].
      inversion Hun; subst. destruct which; reflexivity. }
    unfold ref, counts_valid, counter.
    destruct (Z.geb_spec (internal_count b') 0); [|lia].
    destruct (Z.geb_spec (user_count b') 0); [|lia]. cbn [andb].
    destruct which; cbn in Hi', Hu'.
    + unfold unref, counter in Hun. destruct (_ || _); discriminate.
    + destruct (Z.eqb_spec (internal_count b') Trace.INT_MAX); [lia|].
      f_equal. destruct b, b'.
      cbn [internal_count user_count overwritten_data set_counter] in *.
      f_equal; lia.
    + destruct (Z.eqb_spec (user_count b') Trace.INT_MAX); [lia|].
      f_equal. destruct b, b'.
      cbn [internal_count user_count overwritten_data set_counter] in *.
      f_equal; lia.
Qed.


Lemma watches_exec w : watches EXEC_BIT w = (exec_count w >? 0).
Proof.
  unfold watches, watched_bits, EXEC_BIT, READ_BIT, WRITE_BIT.
  destruct (exec_count w >? 0), (read_count w >? 0), (write_count w >? 0);
    reflexivity.
Qed.

Lemma watches_read w : watches READ_BIT w = (read_count w >? 0).
Proof.
  unfold watches, watched_bits, EXEC_BIT, READ_BIT, WRITE_BIT.
  destruct (exec_count w >? 0), (read_count w >? 0), (write_count w >? 0);
    reflexivity.
Qed.

Lemma watches_write w : watches WRITE_BIT w = (write_count w >? 0).
Proof.
  unfold watches, watched_bits, EXEC_BIT, READ_BIT, WRITE_BIT.
  destruct (exec_count w >? 0), (read_count w >? 0), (write_count w >? 0);
    reflexivity.
Qed.

Lemma watched_bits_zero w :
  watch_valid w = true ->
  (watched_bits w = 0 <-> exec_count w + read_count w + write_count w = 0).
Proof.
  unfold watch_valid, watched_bits, EXEC_BIT, READ_BIT, WRITE_BIT.
  rewrite !andb_true_iff, !Z.geb_le. intros [[He Hr] Hw].
  destruct (Z.gtb_spec (exec_count w) 0), (Z.gtb_spec (read_count w) 0),
    (Z.gtb_spec (write_count w) 0); cbn; split; intros; try discriminate;
    try reflexivity; lia.
Qed.

(** X11.  An [unwatch] that passes its assertions leaves valid counters
    and returns their sum, which is zero exactly when no access is
    watched any more; the accesses watched before are those watched
    afterwards and those named by [which]; [watch] with the same bits
    undoes it. *)
Theorem watchpoint_unwatch (which : Z) (w w' : Watchpoint) (n : Z) :
  unwatch which w = Some (n, w') ->
  watch_valid w' = true
  /\ n = exec_count w' + read_count w' + write_count w'
  /\ (n = 0 <-> watched_bits w' = 0)
  /\ (forall bit, In bit [EXEC_BIT; READ_BIT; WRITE_BIT] ->
        watches bit w = watches bit w' || negb (Z.land bit which =? 0))
  /\ (exec_count w <= Trace.INT_MAX -> read_count w <= Trace.INT_MAX ->
      write_count w <= Trace.INT_MAX -> watch which w' = Some w).
Proof.
  unfold unwatch. destruct (watch_valid w) eqn:Hv; [|discriminate].
  unfold watch_valid in Hv. rewrite !andb_true_iff, !Z.geb_le in Hv.
  destruct Hv as [[He Hr] Hw]. cbv zeta beta.
  destruct (Z.land EXEC_BIT which =? 0) eqn:Be;
    [|destruct (Z.gtb_spec (exec_count w) 0) as [Pe|Pe]; [|discriminate]];
    (destruct (Z.land READ_BIT which =? 0) eqn:Br;
     [|destruct (Z.gtb_spec (read_count w) 0) as [Pr|Pr]; [|discriminate]]);
    (destruct (Z.land WRITE_BIT which =? 0) eqn:Bw;
     [|destruct (Z.gtb_spec (write_count w) 0) as [Pw|Pw]; [|discriminate]]);
    (destruct (_ >? Trace.INT_MAX); [discriminate|]);
    intros E; inversion E; subst n w'; clear E;
    (match goal with
     | |- watch_valid ?x = true /\ _ =>
         assert (Hv' : watch_valid x = true)
           by (unfold watch_valid;
               cbn [with_counts exec_count read_count write_count];
               rewrite !andb_true_iff, !Z.geb_le;
               split; [split|]; lia)
     end);
    (split; [exact Hv'|]; split; [reflexivity|]; split;
     [rewrite (watched_bits_zero _ Hv'); reflexivity|]; split;
     [intros bit [<-|[<-|[<-|[]]]];
      rewrite ?watches_exec, ?watches_read, ?watches_write, ?Be, ?Br, ?Bw;
      cbn [with_counts exec_count read_count write_count negb];
      rewrite ?orb_false_r, ?orb_true_r;
      repeat match goal with
             | |- context [?a >? 0] =>
                 destruct (Z.gtb_spec a 0); try lia
             end; reflexivity
     |intros Hme Hmr Hmw; unfold watch, has_bit; rewrite Hv', Be, Br, Bw;
      cbn [with_counts exec_count read_count write_count
           debug_regs_for_exec_read value_bytes valid changed];
      repeat match goal with
             | |- context [?a >? Trace.INT_MAX] =>
                 destruct (Z.gtb_spec a Trace.INT_MAX); try lia
             end;
      cbn [orb]; unfold with_counts;
      destruct w;
      cbn [exec_count read_count write_count
           debug_regs_for_exec_read value_bytes valid changed];
      repeat f_equal; lia]).
Qed.

End ReferenceCounts.

Section KernelMappings.

Import AddressSpace.

Variable page_size : Z.

Lemma create_fields start e fsname device inode prot flags off km :
  KernelMapping_create page_size start e fsname device inode prot flags off
  = Some km ->
  range km = {| start_ := start; end_ := e |}
  /\ fsname_ km = fsname /\ device_ km = device /\ inode_ km = inode
  /\ prot_ km = prot /\ flags_ km = Z.land flags map_flags_mask
  /\ offset km = Int.u64 off
  /\ assert_valid page_size km = true.
Proof.
  unfold KernelMapping_create.
  destruct (assert_valid page_size _) eqn:Ev; [|discriminate].
  intros E; inversion E; subst; clear E.
  repeat (split; [reflexivity|]). exact Ev.
Qed.

Lemma land_mask_idem flags :
  Z.land (Z.land flags map_flags_mask) map_flags_mask
  = Z.land flags map_flags_mask.
Proof. rewrite <- Z.land_assoc, Z.land_diag. reflexivity. Qed.

Lemma u64_add_l a b : Int.u64 (Int.u64 a + b) = Int.u64 (a + b).
Proof.
  unfold Int.u64, Int.to_unsigned. rewrite Zplus_mod_idemp_l. reflexivity.
Qed.

(** X12.  A [subrange] of a [subrange] of a mapping is the [subrange] of
    the mapping itself: the same range, and for a mapping of a real
    device the file offset moved by the distance from the start of the
    original mapping. *)
Theorem subrange_of_subrange (km k1 k2 : KernelMapping) (a b c d : Z) :
  subrange page_size a b km = Some k1 ->
  subrange page_size c d k1 = Some k2 ->
  subrange page_size c d km = Some k2
  /\ start_ (range km) <= a /\ a <= c /\ c <= d /\ d <= b
  /\ b <= end_ (range km)
  /\ offset k2
     = Int.u64 (offset km + (if is_real_device km
                             then c - start_ (range km) else 0)).
Proof.
  unfold subrange.
  destruct (Z.geb_spec a (start_ (range km))) as [Ha|]; [|discriminate].
  destruct (Z.leb_spec b (end_ (range km))) as [Hb|]; [|discriminate].
  cbn [andb]. intros E1.
  destruct (create_fields _ _ _ _ _ _ _ _ _ E1)
    as (Hr1 & Hf1 & Hd1 & Hi1 & Hp1 & Hfl1 & Ho1 & Hv1).
  rewrite Hr1, Hf1, Hd1, Hi1, Hp1, Hfl1, Ho1. cbn [start_ end_].
  destruct (Z.geb_spec c a) as [Hc|]; [|discriminate].
  destruct (Z.leb_spec d b) as [Hd|]; [|discriminate].
  cbn [andb]. intros E2.
  destruct (create_fields _ _ _ _ _ _ _ _ _ E2)
    as (Hr2 & Hf2 & Hd2 & Hi2 & Hp2 & Hfl2 & Ho2 & Hv2).
  assert (Hreal : is_real_device k1 = is_real_device km)
    by (unfold is_real_device; rewrite Hd1; reflexivity).
  rewrite Hreal in *.
  assert (Hoff : Int.u64 (Int.u64 (offset km
                   + (if is_real_device km then a - start_ (range km) else 0))
                   + (if is_real_device km then c - a else 0))
                 = Int.u64 (offset km
                   + (if is_real_device km then c - start_ (range km)
                      else 0))).
  { rewrite u64_add_l. f_equal. destruct (is_real_device km); lia. }
  assert (Hcd : c <= d).
  { unfold assert_valid in Hv2. rewrite !andb_true_iff in Hv2.
    destruct Hv2 as [[[H _] _] _]. rewrite Hr2 in H. cbn in H.
    apply Z.geb_le in H. exact H. }
  assert (Hk : KernelMapping_create page_size c d (fsname_ km) (device_ km)
                 (inode_ km) (prot_ km) (flags_ km)
                 (offset km + (if is_real_device km
                               then c - start_ (range km) else 0))
               = Some k2).
  { unfold KernelMapping_create in E2 |- *.
    rewrite land_mask_idem, Hoff in E2. exact E2. }
  destruct (Z.geb_spec c (start_ (range km))); [|lia].
  destruct (Z.leb_spec d (end_ (range km))); [|lia]. cbn [andb].
  split; [exact Hk|].
  repeat (split; [lia|]).
  rewrite Ho2. exact Hoff.
Qed.

End KernelMappings.

Section MapsStartingAt.

Import AddressSpace.

Lemma iterate_more : forall fuel body mem it r,
  iterate fuel body mem it = Some r ->
  iterate (S fuel) body mem it = Some r.
Proof.
  induction fuel as [|fuel IH]; intros body mem it r H; [discriminate H|].
  rewrite iterate_S in H. rewrite iterate_S.
  destruct (not_at_end mem it); [|exact H].
  destruct (deref mem it) as [m|]; [|discriminate H].
  destruct (incr (step body mem) it) as [it'|]; [|discriminate H].
  destruct (iterate fuel (tl body) (step body mem) it') as [[ms final]|] eqn:E;
    [|discriminate H].
  rewrite (IH _ _ _ _ E). exact H.
Qed.

Lemma iterate_more_fuel fuel k body mem it r :
  iterate fuel body mem it = Some r ->
  iterate (fuel + k) body mem it = Some r.
Proof.
  intros H. induction k as [|k IH].
  - now rewrite Nat.add_0_r.
  - rewrite Nat.add_succ_r. now apply iterate_more.
Qed.

Lemma walk_nil : forall n mem i,
  (List.length mem = i + n)%nat ->
  walk n [] mem i = List.map snd (skipn i mem).
Proof.
  induction n as [|n IH]; intros mem i Hlen.
  - cbn. rewrite skipn_all2 by lia. reflexivity.
  - cbn [walk]. destruct (nth_error mem i) as [e|] eqn:He.
    + destruct (skipn_nth_error _ _ _ He) as [rest Hrest].
      cbn [tl step]. rewrite IH by lia. rewrite Hrest. cbn [List.map].
      f_equal.
      assert (Hs : skipn (S i) mem = rest).
      { replace (S i) with (1 + i)%nat by lia.
        rewrite <- skipn_skipn, Hrest. reflexivity. }
      rewrite Hs. reflexivity.
    + apply nth_error_None in He. lia.
Qed.

Lemma skipn_lb_filter : forall mem lo p,
  well_formed_from lo mem ->
  skipn (lb_index (List.map fst mem) p) mem
  = filter (fun e => p <=? start_ (fst e)) mem.
Proof.
  induction mem as [|[k m] rest IH]; intros lo p Hwf; [reflexivity|].
  destruct Hwf as (Hlo & Hne & Hr & Hrest).
  cbn [List.map fst lb_index filter].
  destruct (Z.ltb_spec (start_ k) p) as [Hlt|Hge].
  - destruct (Z.leb_spec p (start_ k)); [lia|]. cbn [skipn].
    exact (IH _ _ Hrest).
  - destruct (Z.leb_spec p (start_ k)); [|lia]. cbn [skipn]. f_equal.
    rewrite <- (IH _ p Hrest).
    rewrite (lb_index_below (end_ k)); [reflexivity|exact Hrest|lia].
Qed.

(** X13.  Iterating from [maps_starting_at(start)] yields, in address
    order, the mappings that begin at [start] or above it; a mapping
    that holds [start] but begins below it is left out. *)
Theorem maps_starting_at_yields (mem : MemoryMap) (start : Z) :
  well_formed mem ->
  exists final,
    iterate (S (List.length mem)) [] mem (begin_ start)
    = Some (List.map snd (filter (fun e => start <=? start_ (fst e)) mem),
            final)
    /\ forall m, In m (List.map snd
                         (filter (fun e => start <=? start_ (fst e)) mem)) ->
                 start <= start_ (range (map m)).
Proof.
  intros Hwf.
  set (i := lb_index (List.map fst mem) start).
  assert (Hi : (i <= List.length mem)%nat).
  { unfold i. clear. induction mem as [|e mem IH]; cbn; [lia|].
    destruct (_ <? _); lia. }
  destruct (iterate_walk (List.length mem - i) [] mem i start Hwf
              (Forall_nil _) ltac:(lia) eq_refl) as [final Hf].
  exists final. split.
  - replace (S (List.length mem))
      with (S (List.length mem - i) + i)%nat by lia.
    apply iterate_more_fuel. change (at_ start) with (begin_ start) in Hf.
    rewrite Hf. rewrite walk_nil by lia.
    unfold i. rewrite (skipn_lb_filter mem 0 start Hwf). reflexivity.
  - intros m Hin. apply in_map_iff in Hin. destruct Hin as (e & <- & He).
    apply filter_In in He. destruct He as [Hin He].
    apply Z.leb_le in He.
    destruct (In_nth_error _ _ Hin) as [j Hj].
    destruct (well_formed_nth _ _ _ _ Hwf Hj) as (_ & _ & Hr).
    rewrite Hr. exact He.
Qed.

End MapsStartingAt.

Section AddressSpaceExamples.

Import AddressSpace.

Lemma breakpoint_reference_counts_witness :
  exists b,
    run_ops [Ref BKPT_USER; Ref BKPT_INTERNAL; Unref BKPT_USER]
            (Breakpoint_create 204) = Some b
    /\ internal_count b = 1 /\ user_count b = 0
    /\ ~ type b = BKPT_USER.
Proof.
  eexists. split; [reflexivity|].
  destruct (breakpoint_reference_counts
              [Ref BKPT_USER; Ref BKPT_INTERNAL; Unref BKPT_USER] 204 _
              eq_refl) as (Hi & Hu & _ & _ & Ht & _).
  split; [exact Hi|]. split; [exact Hu|].
  intros H. apply Ht in H. cbn in H. lia.
Defined.

Lemma watchpoint_unwatch_witness :
  exists w1 w2 n,
    watch 3 (Watchpoint_create 4) = Some w1
    /\ unwatch 1 w1 = Some (n, w2)
    /\ n = 1 /\ watched_bits w2 <> 0.
Proof.
  eexists. eexists. eexists. split; [reflexivity|]. split; [reflexivity|].
  match goal with
  | |- ?n = 1 /\ watched_bits ?w2 <> 0 =>
      destruct (watchpoint_unwatch 1
                  (with_counts 1 1 0 (Watchpoint_create 4)) w2 n eq_refl)
        as (_ & Hn & Hz & _)
  end.
  split; [exact Hn|].
  intros H. apply Hz in H. discriminate H.
Defined.

Lemma subrange_of_subrange_witness :
  exists k1 k2,
    subrange 4096 69632 90112 example_file_mapping = Some k1
    /\ subrange 4096 73728 77824 k1 = Some k2
    /\ subrange 4096 73728 77824 example_file_mapping = Some k2
    /\ offset k2 = 16384.
Proof.
  eexists. eexists. split; [reflexivity|]. split; [reflexivity|].
  destruct (subrange_of_subrange 4096 example_file_mapping _ _
              69632 90112 73728 77824 eq_refl eq_refl)
    as (H & _ & _ & _ & _ & _ & Ho).
  split; [exact H|exact Ho].
Defined.

Lemma maps_starting_at_yields_witness :
  well_formed example_map
  /\ exists final,
       iterate 4 [] example_map (begin_ 5000)
       = Some (List.map snd [example_mapping 8192 16384 3 2;
                             example_mapping 65536 69632 3 2], final).
Proof.
  split; [exact example_map_well_formed|].
  destruct (maps_starting_at_yields example_map 5000 example_map_well_formed)
    as (final & H & _).
  exists final. exact H.
Defined.

End AddressSpaceExamples.

(* ------------------------------------------------------------------ *)
(** ** The wrappers of buffered syscalls *)

Section BufferedWrappers.

Import Preload.

Variable I : Interface.

Ltac unfold_wrappers :=
  unfold Preload.start_commit_buffered_syscall,
    Preload.prep_syscall_for_fd, Preload.prep_syscall,
    Preload.copy_output_buffer, Preload.local_memcpy,
    Preload.arm_desched_event, Preload.disarm_desched_event,
    Preload.privileged_untraced_ioctl, Preload.breakpoint_function,
    Preload.untraced_syscall, Preload.traced_raw_syscall,
    Preload.assert, Preload.store, Preload.fatal, Preload.mret,
    Preload.bind, Preload.get.

(** What [prep_syscall_for_fd] does: nothing, returning null, or it takes
    the lock of a buffer that was free. *)
Lemma prep_syscall_for_fd_cases fd s :
  prep_syscall_for_fd I fd s = Done 0 s
  \/ (buffer s <> 0 /\ locked (hdr s) = 0
      /\ prep_syscall_for_fd I fd s
         = Done (buffer_last I s + sizeof_syscallbuf_record I)
             (emit (Store hdr_locked 1)
                (with_hdr
                   {| num_rec_bytes := num_rec_bytes (hdr s);
                      abort_commit := abort_commit (hdr s);
                      notify_on_syscall_hook_exit :=
                        notify_on_syscall_hook_exit (hdr s);
                      locked := 1;
                      desched_signal_may_be_relevant :=
                        desched_signal_may_be_relevant (hdr s) |} s))).
Proof.
  unfold_wrappers. sym.
  destruct ((fd <? 0) || (fd >=? SYSCALLBUF_FDS_DISABLED_SIZE I)
            || syscallbuf_fds_disabled s fd); sym; [now left|].
  destruct (Z.eqb_spec (buffer s) 0); sym; [now left|].
  destruct (Z.eqb_spec (locked (hdr s)) 0); sym; [|now left].
  right. repeat split; assumption.
Qed.

(** The ways [start_commit_buffered_syscall] ends: it bails out and
    touches nothing; it finds the record too long and unlocks the buffer;
    or it accepts, fills the record in and, for a syscall that may block,
    arms the desched counter (failing when the kernel refuses). *)
Lemma start_commit_cases no re bl s :
  (start_commit_buffered_syscall I no re bl s = Done 0 s
   /\ (buffer s = 0
       \/ stored_record_size I (re - buffer_last I s)
          < sizeof_syscallbuf_record I))
  \/ (exists s1,
        start_commit_buffered_syscall I no re bl s = Done 0 s1
        /\ buffer s <> 0
        /\ trace s1 = trace s ++ [Store hdr_locked 0]
        /\ locked (hdr s1) = 0
        /\ num_rec_bytes (hdr s1) = num_rec_bytes (hdr s)
        /\ buffer s1 = buffer s
        /\ kernel s1 = kernel s)
  \/ (exists s1 effects,
        (start_commit_buffered_syscall I no re bl s = Done 1 s1
         \/ start_commit_buffered_syscall I no re bl s = Fatal s1)
        /\ buffer s <> 0
        /\ sizeof_syscallbuf_record I
           <= stored_record_size I (re - buffer_last I s)
        /\ buffer_last I s + stored_record_size I (re - buffer_last I s)
           <= buffer_end I s - sizeof_syscallbuf_record I
        /\ trace s1 = trace s ++ effects
        /\ filter syscall_entry effects = []
        /\ (bl <> MAY_BLOCK ->
            (forall fd cmd, ~ In (Ioctl fd cmd) effects)
            /\ (forall v,
                  ~ In (Store hdr_desched_signal_may_be_relevant v) effects)
            /\ desched (recs s1 (buffer_last I s)) = 0)
        /\ syscallno (recs s1 (buffer_last I s)) = no
        /\ locked (hdr s1) = locked (hdr s)
        /\ abort_commit (hdr s1) = abort_commit (hdr s)
        /\ num_rec_bytes (hdr s1) = num_rec_bytes (hdr s)
        /\ buffer s1 = buffer s
        /\ kernel s1 = kernel s).
Proof.
  unfold_wrappers. sym.
  destruct (Z.eqb_spec (buffer s) 0) as [Hb|Hb]; sym.
  { left. split; [reflexivity|now left]. }
  destruct (Z.ltb_spec
              (buffer_last I s + stored_record_size I (re - buffer_last I s))
              (buffer_last I s + sizeof_syscallbuf_record I)); sym.
  { left. split; [reflexivity|right; lia]. }
  destruct (Z.gtb_spec
              (buffer_last I s + stored_record_size I (re - buffer_last I s))
              (buffer_end I s - sizeof_syscallbuf_record I)); sym.
  { right. left. eexists. split; [reflexivity|]. sym. repeat split.
    assumption. }
  right. right. unfold MAY_BLOCK.
  destruct (Z.eqb_spec (-1) bl) as [Hbl|Hbl]; sym.
  - change (1 =? 0) with false. sym.
    destruct (ioctl_result (kernel s) PERF_EVENT_IOC_ENABLE =? 0); sym;
      eexists; eexists;
      (split; [first [left; reflexivity | right; reflexivity]|]);
      (split; [assumption|]); (split; [lia|]); (split; [lia|]);
      (split; [sym; rewrite <- !app_assoc; reflexivity|]);
      (split; [reflexivity|]);
      (split; [intros Hne; exfalso; apply Hne; symmetry; exact Hbl|]);
      sym; repeat split.
  - eexists; eexists.
    split; [left; reflexivity|].
    split; [assumption|]. split; [lia|]. split; [lia|].
    split; [sym; rewrite <- !app_assoc; reflexivity|].
    split; [reflexivity|].
    split.
    { intros _. split; [|split].
      - intros fd cmd [E|[E|[E|[]]]]; discriminate E.
      - intros v [E|[E|[E|[]]]]; discriminate E.
      - sym. reflexivity. }
    sym. repeat split.
Qed.

Lemma copy_output_buffer_run rs ptr buf buf2 s :
  exists effects,
    copy_output_buffer rs ptr buf buf2 s
    = Done (if buf2 =? 0 then ptr
            else if rs <=? 0 then buf2 else ptr_add buf2 rs)
        (emit_all effects s)
    /\ filter syscall_entry effects = []
    /\ (forall fd cmd, ~ In (Ioctl fd cmd) effects)
    /\ (forall v, ~ In (Store hdr_desched_signal_may_be_relevant v) effects).
Proof.
  unfold copy_output_buffer.
  destruct (buf2 =? 0).
  { exists []. repeat split; intros; intros []. }
  destruct (rs <=? 0).
  { exists []. repeat split; intros; intros []. }
  exists [LocalMemcpy buf buf2 rs]. repeat split.
  - intros fd cmd [E|[]]; discriminate E.
  - intros v [E|[]]; discriminate E.
Qed.

(** [commit_raw_syscall] leaves the address of the buffer alone. *)
Lemma commit_keeps_buffer no re r s a s' :
  commit_raw_syscall I no re r s = Done a s' -> buffer s' = buffer s.
Proof.
  unfold_preload. sym.
  destruct (re >=? buffer_last I s); sym; [|discriminate].
  destruct (locked (hdr s) =? 0); sym; [discriminate|].
  destruct (syscallno (recs s (buffer_last I s)) =? no); sym; [|discriminate].
  destruct (abort_commit (hdr s) =? 0) eqn:Eab; sym;
    destruct (desched (recs s (buffer_last I s)) =? 0); sym;
    try (destruct (ioctl_result (kernel s) PERF_EVENT_IOC_DISABLE =? 0); sym;
         [|discriminate]);
    intros H; injection H as <- <-; reflexivity.
Qed.

(** A commit of a record whose [desched] is clear enters no ioctl, and
    the only value it stores into [desched_signal_may_be_relevant] is 0,
    also when one of its assertions fails. *)
Lemma commit_without_desched no re r s :
  desched (recs s (buffer_last I s)) = 0 ->
  exists effects,
    trace (final (commit_raw_syscall I no re r s)) = trace s ++ effects
    /\ filter syscall_entry effects = []
    /\ (forall fd cmd, ~ In (Ioctl fd cmd) effects)
    /\ (forall v, In (Store hdr_desched_signal_may_be_relevant v) effects ->
                  v = 0).
Proof.
  intros Hd. unfold_preload. sym.
  destruct (re >=? buffer_last I s); sym.
  2:{ exists []. rewrite app_nil_r. repeat split; intros; try intros [];
        contradiction. }
  destruct (locked (hdr s) =? 0); sym.
  { eexists. split; [reflexivity|]. split; [reflexivity|]. split.
    - intros fd cmd [E|[]]; discriminate E.
    - intros v [E|[]]; discriminate E. }
  destruct (syscallno (recs s (buffer_last I s)) =? no); sym.
  2:{ rewrite <- !app_assoc. eexists. split; [reflexivity|].
      split; [reflexivity|]. split.
      - intros fd cmd [E|[E|[]]]; discriminate E.
      - intros v [E|[E|[]]]; [discriminate E|now injection E as <-]. }
  rewrite Hd. sym.
  destruct (abort_commit (hdr s) =? 0) eqn:Eab; sym;
    rewrite <- ?app_assoc; sym; rewrite ?Hd; sym; rewrite <- ?app_assoc;
    (eexists; split; [reflexivity|]); (split; [reflexivity|]); split.
  - intros fd cmd Hin. repeat (destruct Hin as [E|Hin]; [discriminate E|]).
    destruct Hin.
  - intros v Hin.
    repeat (destruct Hin as [E|Hin];
            [first [discriminate E | now injection E as <-]|]).
    destruct Hin.
  - intros fd cmd Hin. repeat (destruct Hin as [E|Hin]; [discriminate E|]).
    destruct Hin.
  - intros v Hin.
    repeat (destruct Hin as [E|Hin];
            [first [discriminate E | now injection E as <-]|]).
    destruct Hin.
Qed.

(** When the task is descheduled inside the untraced syscall, the tracer
    has set [abort_commit] by the time the syscall returns. *)
Lemma untraced_syscall_abort no s r s2 :
  untraced_syscall no s = Done r s2 ->
  abort_commit (hdr s2)
  = (if descheduled (kernel s) then 1 else abort_commit (hdr s)).
Proof.
  unfold untraced_syscall. intros E. injection E as _ <-.
  cbn [kernel emit]. destruct (descheduled (kernel s)); reflexivity.
Qed.

(** The part of [sys_read] after [start_commit_buffered_syscall] has
    accepted: the untraced [read], the copy of what was read and the
    commit of the record, which ends where the copy ended. *)
Lemma sys_read_tail ptr buf buf2 s1 r s' :
  (r0 <- untraced_syscall SYS_read ;;
   ptr0 <- copy_output_buffer (Int.s32 r0) ptr buf buf2 ;;
   commit_raw_syscall I SYS_read ptr0 r0) s1 = Done r s' ->
  exists pe,
    pe = (if buf2 =? 0 then ptr
          else if Int.s32 r <=? 0 then buf2 else ptr_add buf2 (Int.s32 r))
    /\ r = syscall_result (kernel s1) SYS_read
    /\ locked (hdr s1) <> 0
    /\ locked (hdr s') = 0
    /\ filter syscall_entry (trace s')
       = filter syscall_entry (trace s1) ++ [UntracedSyscall SYS_read]
    /\ buffer s' = buffer s1
    /\ pe >= buffer_last I s1
    /\ num_rec_bytes (hdr s')
       = (if (abort_commit (hdr s1) =? 0) && negb (descheduled (kernel s1))
          then num_rec_bytes (hdr s1)
               + stored_record_size I (pe - buffer_last I s1)
          else num_rec_bytes (hdr s1)).
Proof.
  unfold bind.
  destruct (untraced_syscall_run SYS_read s1)
    as (s2 & Hrun & Ht2 & Hb2 & Hn2 & Hl2 & Hr2 & Hf2 & Hk2).
  pose proof (untraced_syscall_abort _ _ _ _ Hrun) as Hab.
  rewrite Hrun.
  destruct (copy_output_buffer_run
              (Int.s32 (syscall_result (kernel s1) SYS_read))
              ptr buf buf2 s2) as (effs & Hcp & Hfc & _).
  rewrite Hcp.
  destruct (emit_all_facts effs s2) as (Hta & Hha & Hra & Hba & Hka & Hfa).
  set (pe := if buf2 =? 0 then ptr else _).
  intros Hcommit. exists pe.
  assert (Hlast : buffer_last I (emit_all effs s2) = buffer_last I s1).
  { unfold buffer_last. now rewrite Hha, Hba, Hn2, Hb2. }
  assert (Hge : pe >= buffer_last I (emit_all effs s2)
                /\ locked (hdr (emit_all effs s2)) <> 0).
  { revert Hcommit. unfold_preload. sym.
    destruct (Z.geb_spec pe (buffer_last I (emit_all effs s2)));
      [|intros E; discriminate E]. sym.
    destruct (Z.eqb_spec (locked (hdr (emit_all effs s2))) 0);
      [intros E; discriminate E|]. intros _. split; [lia|assumption]. }
  destruct Hge as [Hge Hlk1].
  pose proof (commit_keeps_buffer _ _ _ _ _ _ Hcommit) as Hbuf.
  apply commit_done in Hcommit.
  destruct Hcommit as (-> & Ht & Hlk & _ & _ & Hn & _).
  split; [reflexivity|]. split; [reflexivity|].
  split; [now rewrite <- Hl2, <- Hha|]. split; [exact Hlk|]. split.
  { rewrite Ht, Hta, Ht2, !filter_app, Hfc.
    unfold commit_effects.
    destruct (abort_commit (hdr (emit_all effs s2)) =? 0);
      destruct (desched (recs (emit_all effs s2)
                           (buffer_last I (emit_all effs s2))) =? 0);
      simpl; rewrite ?app_nil_r; reflexivity. }
  split; [now rewrite Hbuf, Hba, Hb2|].
  split; [now rewrite <- Hlast|].
  rewrite Hn, Hlast, Hha, Hn2, Hab.
  destruct (descheduled (kernel s1)); cbn [negb];
    [now rewrite andb_false_r|].
  rewrite andb_true_r. reflexivity.
Qed.

(** The result of the syscall as the [int] that [copy_output_buffer]
    takes. *)
Lemma s32_below r : - 2 ^ 31 <= r -> Int.s32 r <= r.
Proof.
  intros H. pose proof (s32_range r) as Hr.
  destruct (Z.lt_ge_cases r (2 ^ 31)) as [Hlt|Hge]; [|lia].
  unfold Int.s32, Int.to_signed in *. change (32 - 1) with 31 in *.
  pose proof (Z.mod_pos_bound r (2 ^ 32) ltac:(lia)) as Hm.
  destruct (Z.lt_ge_cases r 0) as [Hneg|Hpos].
  - replace (r mod 2 ^ 32) with (r + 2 ^ 32).
    + destruct (Z.ltb_spec (r + 2 ^ 32) (2 ^ 31)); lia.
    + apply Z.mod_unique with (q := -1); lia.
  - rewrite Z.mod_small by lia.
    destruct (Z.ltb_spec r (2 ^ 31)); lia.
Qed.

(** Where the record of a [read] of [count] bytes ends inside the address
    space, the sums of [sys_read] and [copy_output_buffer] do not wrap
    around. *)
Lemma record_end_no_wrap s count r :
  (forall n, n <= stored_record_size I n) ->
  0 <= sizeof_syscallbuf_record I ->
  0 <= buffer_last I s ->
  buffer_last I s
  + stored_record_size I (sizeof_syscallbuf_record I + Int.u64 count)
  < 2 ^ 64 ->
  - 2 ^ 31 <= r <= Int.u64 count ->
  let p := buffer_last I s + sizeof_syscallbuf_record I in
  ptr_add p (Int.u64 count) = p + Int.u64 count
  /\ (0 < Int.s32 r ->
      ptr_add p (Int.s32 r) = p + Int.s32 r
      /\ Int.s32 r <= Int.u64 count).
Proof.
  intros Hround Hsz Hlast Hfit Hres p.
  pose proof (u64_range count) as Hc.
  pose proof (Hround (sizeof_syscallbuf_record I + Int.u64 count)) as Hr.
  pose proof (s32_below r ltac:(lia)) as Hs.
  unfold ptr_add, p. split.
  - apply u64_small. lia.
  - intros Hpos. split; [apply u64_small|]; lia.
Qed.



(** X16.  [sys_close], a syscall that will not block, never enters an
    ioctl on the desched counter, and the only value it stores into
    [desched_signal_may_be_relevant] is 0; this holds of every run, also
    of one that dies in an assertion. *)
Theorem sys_close_never_arms fd s :
  exists effects,
    trace (final (sys_close I fd s)) = trace s ++ effects
    /\ (forall fd' cmd, ~ In (Ioctl fd' cmd) effects)
    /\ (forall v, In (Store hdr_desched_signal_may_be_relevant v) effects ->
                  v = 0).
Proof.
  unfold sys_close. unfold bind at 1.
  assert (Hwb : WONT_BLOCK <> MAY_BLOCK) by discriminate.
  assert (Hrest : forall p s0 effs0,
    trace s0 = trace s ++ effs0 ->
    (forall fd' cmd, ~ In (Ioctl fd' cmd) effs0) ->
    (forall v, ~ In (Store hdr_desched_signal_may_be_relevant v) effs0) ->
    exists effects,
      trace (final
        ((ok <- start_commit_buffered_syscall I SYS_close p WONT_BLOCK ;;
          if ok =? 0 then traced_raw_syscall SYS_close
          else
            r <- untraced_syscall SYS_close ;;
            commit_raw_syscall I SYS_close p r) s0)) = trace s ++ effects
      /\ (forall fd' cmd, ~ In (Ioctl fd' cmd) effects)
      /\ (forall v,
            In (Store hdr_desched_signal_may_be_relevant v) effects ->
            v = 0)).
  { intros p s0 effs0 Ht0 Hi0 Hf0. unfold bind at 1.
    destruct (start_commit_cases SYS_close p WONT_BLOCK s0)
      as [(Hs & _)|[(s1 & Hs & _ & Ht1 & Hl1 & Hn1 & Hb1 & Hk1)
                   |(s1 & effects & [Hs|Hs] & _ & _ & _ & Ht1 & Hf1 & Hwont
                     & _ & Hl1 & _ & Hn1 & Hb1 & Hk1)]];
      rewrite Hs.
    - change (0 =? 0) with true. cbv iota. unfold traced_raw_syscall. sym.
      exists (effs0 ++ [TracedSyscall SYS_close]).
      split; [now rewrite Ht0, app_assoc|]. split.
      + intros fd' cmd Hin. apply in_app_or in Hin.
        destruct Hin as [Hin|[E|[]]]; [now apply (Hi0 fd' cmd)|discriminate E].
      + intros v Hin. apply in_app_or in Hin.
        destruct Hin as [Hin|[E|[]]]; [now apply Hf0 in Hin|discriminate E].
    - change (0 =? 0) with true. cbv iota. unfold traced_raw_syscall. sym.
      exists (effs0 ++ [Store hdr_locked 0; TracedSyscall SYS_close]).
      split; [rewrite Ht1, Ht0, <- !app_assoc; reflexivity|]. split.
      + intros fd' cmd Hin. apply in_app_or in Hin.
        destruct Hin as [Hin|[E|[E|[]]]];
          [now apply (Hi0 fd' cmd)|discriminate E|discriminate E].
      + intros v Hin. apply in_app_or in Hin.
        destruct Hin as [Hin|[E|[E|[]]]];
          [now apply Hf0 in Hin|discriminate E|discriminate E].
    - change (1 =? 0) with false. cbv iota.
      destruct (Hwont Hwb) as (Hi1 & Hf1' & Hd1).
      unfold bind.
      destruct (untraced_syscall_run SYS_close s1)
        as (s2 & Hrun & Ht2 & Hb2 & Hn2 & Hl2 & Hr2 & Hfd2 & Hk2).
      rewrite Hrun.
      assert (Hlast : buffer_last I s2 = buffer_last I s0).
      { unfold buffer_last. now rewrite Hb2, Hn2, Hb1, Hn1. }
      destruct (commit_without_desched SYS_close p
                  (syscall_result (kernel s1) SYS_close) s2)
        as (effs3 & Ht3 & _ & Hi3 & Hf3).
      { now rewrite Hlast, Hr2. }
      exists (effs0 ++ effects ++ [UntracedSyscall SYS_close] ++ effs3).
      split.
      { rewrite Ht3, Ht2, Ht1, Ht0, <- !app_assoc. reflexivity. }
      split.
      + intros fd' cmd Hin.
        apply in_app_or in Hin. destruct Hin as [Hin|Hin];
          [now apply (Hi0 fd' cmd)|].
        apply in_app_or in Hin. destruct Hin as [Hin|Hin];
          [now apply (Hi1 fd' cmd)|].
        destruct Hin as [E|Hin]; [discriminate E|now apply (Hi3 fd' cmd)].
      + intros v Hin.
        apply in_app_or in Hin. destruct Hin as [Hin|Hin];
          [now apply Hf0 in Hin|].
        apply in_app_or in Hin. destruct Hin as [Hin|Hin].
        * now apply Hf1' in Hin.
        * destruct Hin as [E|Hin]; [discriminate E|now apply Hf3].
    - destruct (Hwont Hwb) as (Hi1 & Hf1' & _). cbn [final].
      exists (effs0 ++ effects).
      split; [now rewrite Ht1, Ht0, app_assoc|]. split.
      + intros fd' cmd Hin. apply in_app_or in Hin.
        destruct Hin as [Hin|Hin];
          [now apply (Hi0 fd' cmd)|now apply (Hi1 fd' cmd)].
      + intros v Hin. apply in_app_or in Hin.
        destruct Hin as [Hin|Hin];
          [now apply Hf0 in Hin|now apply Hf1' in Hin]. }
  destruct (prep_syscall_for_fd_cases fd s) as [Hp|(_ & _ & Hp)];
    rewrite Hp; clear Hp.
  - apply (Hrest 0 s []); [now rewrite app_nil_r| |]; intros; intros [].
  - apply (Hrest _ _ [Store hdr_locked 1]); [reflexivity| |].
    + intros fd' cmd [E|[]]; discriminate E.
    + intros v [E|[]]; discriminate E.
Qed.

End BufferedWrappers.

Section BufferedWrapperExamples.

Import Preload.

(** The example interface rounds sizes up to a multiple of eight. *)
Lemma example_stored_record_size n :
  stored_record_size example_interface n = 8 * ((n + 7) / 8).
Proof.
  cbn [stored_record_size example_interface].
  rewrite <- Z.ldiff_land. change 7 with (Z.ones 3) at 2.
  rewrite Z.ldiff_ones_r by lia.
  rewrite Z.shiftl_mul_pow2, Z.shiftr_div_pow2 by lia.
  change (2 ^ 3) with 8. lia.
Qed.

Lemma example_rounds_up n : n <= stored_record_size example_interface n.
Proof.
  rewrite example_stored_record_size.
  pose proof (Z.div_mod (n + 7) 8 ltac:(lia)).
  pose proof (Z.mod_pos_bound (n + 7) 8 ltac:(lia)). lia.
Qed.

Lemma example_monotone m n :
  m <= n ->
  stored_record_size example_interface m
  <= stored_record_size example_interface n.
Proof.
  intros H. rewrite !example_stored_record_size.
  pose proof (Z.div_le_mono (m + 7) (n + 7) 8 ltac:(lia) ltac:(lia)). lia.
Qed.



(** Outside these bounds the buffer can stay locked: for a [count] so
    large that [ptr += count] wraps around, the record seems to end
    before it starts, [start_commit_buffered_syscall] bails out without
    unlocking, and [sys_read] returns from the traced [read] with the
    buffer still locked. *)
Lemma sys_read_wrapped_count_keeps_lock :
  exists r s',
    sys_read example_interface 3 1000 (2 ^ 64 - 100) (example_state false 0 0)
    = Done r s'
    /\ locked (hdr s') = 1
    /\ trace s' = [Store hdr_locked 1; TracedSyscall SYS_read].
Proof. eexists. eexists. vm_compute. repeat split. Qed.

End BufferedWrapperExamples.

(* ------------------------------------------------------------------ *)
(** ** Raw data through the trace *)

Section RawDataRoundTrip.

Import TraceRawData.

Lemma record_streams steps : forall w,
  w_global_time (record steps w) >= w_global_time w
  /\ w_data_header (record steps w)
     = w_data_header w ++ headers (w_global_time w) steps
  /\ w_data (record steps w) = w_data w ++ bytes steps.
Proof.
  induction steps as [|[d a|] steps IH]; intros w; simpl.
  - rewrite !app_nil_r. repeat split. lia.
  - destruct (IH (write_raw d a w)) as (Ht & Hh & Hd).
    rewrite Hh, Hd. simpl in *. rewrite <- !app_assoc. repeat split.
    exact Ht.
  - destruct (IH (w_tick_time w)) as (Ht & Hh & Hd).
    rewrite Hh, Hd. simpl in *. repeat split. lia.
Qed.

(** The first header of a recording from time [t] on is not older than
    [t]. *)
Lemma headers_head steps : forall t time rest,
  headers t steps = time :: rest -> t <= time.
Proof.
  induction steps as [|[d a|] steps IH]; intros t time rest; simpl.
  - discriminate.
  - intros H. injection H as <- _. lia.
  - intros H. apply IH in H. lia.
Qed.

Lemma nothing_more_for_frame steps t d :
  read_raw_data_for_frame t
    {| r_global_time := t; r_data_header := headers (t + 1) steps;
       r_data := d |}
  = Returns None
      {| r_global_time := t; r_data_header := headers (t + 1) steps;
         r_data := d |}.
Proof.
  unfold read_raw_data_for_frame. cbn [r_data_header].
  destruct (headers (t + 1) steps) as [|time rest] eqn:E; [reflexivity|].
  apply headers_head in E.
  destruct (Z.geb_spec time t); [|lia]. cbn [negb].
  destruct (Z.gtb_spec time t); [reflexivity|lia].
Qed.

Lemma replays_recording steps : forall t,
  replays steps {| r_global_time := t; r_data_header := headers t steps;
                   r_data := bytes steps |}.
Proof.
  induction steps as [|[d a|] steps IH]; intros t.
  - reflexivity.
  - cbn [replays headers bytes r_global_time].
    eexists. split; [|split; [|apply (IH t)]]; [|reflexivity].
    unfold read_raw_data_for_frame, read_raw_data.
    cbn [r_data_header r_global_time r_data app].
    destruct (Z.geb_spec t t); [|lia]. cbn [negb].
    destruct (Z.gtb_spec t t); [lia|].
    rewrite Z.eqb_refl. cbn [negb].
    rewrite length_app.
    destruct (Z.ltb_spec (Z.of_nat (List.length d + List.length (bytes steps)))
                (Z.of_nat (List.length d))); [lia|].
    rewrite Nat2Z.id, firstn_app, Nat.sub_diag, firstn_all, firstn_O,
      app_nil_r.
    rewrite skipn_app, Nat.sub_diag, skipn_all, skipn_O. reflexivity.
  - cbn [replays headers bytes r_global_time]. split.
    + apply nothing_more_for_frame.
    + apply (IH (t + 1)).
Qed.

(** X17.  Raw data come back as they were saved: in a replay of what a
    fresh writer recorded, begun when the reader has read the first
    frame, [read_raw_data_for_frame] returns, frame by frame, the records
    saved while that frame was current, with their addresses and bytes
    and in the order they were saved, and it returns false exactly where
    the recording went on to the next frame. *)
Theorem raw_data_round_trip (steps : list WriterStep) :
  replays steps (r_tick_time (reader_on (record steps TraceWriter_create))).
Proof.
  unfold reader_on, r_tick_time. cbn [r_global_time r_data_header r_data].
  destruct (record_streams steps TraceWriter_create) as (_ & Hh & Hd).
  rewrite Hh, Hd. apply (replays_recording steps 1).
Qed.

End RawDataRoundTrip.

(* ------------------------------------------------------------------ *)
(** ** Looking a process up in the trace *)

Section TaskLookup.

Import ReplayCommand.

Variable env : Env.

(** X18.  The test of [find_pid_for_command] accepts the first word of a
    command line exactly when it is the command asked for, or ends in
    a slash followed by it. *)
Theorem command_matches_basename (cmd command : string) :
  command_matches cmd command = true
  <-> cmd = command
      \/ exists dir : string, cmd = (dir ++ String "/" command)%string.
Proof.
  unfold command_matches. split.
  - intros H. apply orb_prop in H. destruct H as [H|H].
    + left. now apply String.eqb_eq.
    + right. apply andb_prop in H. destruct H as [Hl He].
      apply Nat.ltb_lt in Hl. apply String.eqb_eq in He.
      exists (String.substring 0
                (String.length cmd - String.length command - 1) cmd).
      rewrite <- He. apply split_at. lia.
  - intros [->|[dir ->]].
    + now rewrite String.eqb_refl.
    + apply orb_true_intro. right.
      rewrite length_append. cbn [String.length].
      apply andb_true_intro. split; [apply Nat.ltb_lt; lia|].
      replace (String.length dir + S (String.length command)
               - String.length command - 1)%nat
        with (String.length dir) by lia.
      rewrite substr_append. apply String.eqb_refl.
Qed.

(** The loop of [find_pid_for_command] and that of [pid_execs] over the
    same records. *)
Lemma task_loop_found command events tid0 pid :
  task_loop (find_pid_test command) (-1) events tid0 = inr pid ->
  pid <> -1 ->
  task_loop (pid_execs_test pid) false events tid0 = inr true
  /\ task_loop (pid_exists_test pid) false events tid0 = inr true
  /\ exists e cmd rest,
       In e events /\ type_ e = EXEC /\ tid_ e = pid
       /\ cmd_line_ e = cmd :: rest /\ command_matches cmd command = true.
Proof.
  intros H Hp. induction events as [|e events IH]; cbn in H |- *.
  - unfold find_pid_test in H. cbn in H. congruence.
  - assert (Hskip :
      task_loop (find_pid_test command) (-1) events tid0 = inr pid ->
      type_ e <> NONE ->
      (match pid_execs_test pid e with
       | Some a => inr a
       | None => task_loop (pid_execs_test pid) false events tid0
       end = inr true)
      /\ (match pid_exists_test pid e with
          | Some a => inr a
          | None => task_loop (pid_exists_test pid) false events tid0
          end = inr true)
      /\ exists e0 cmd rest,
           (e = e0 \/ In e0 events) /\ type_ e0 = EXEC /\ tid_ e0 = pid
           /\ cmd_line_ e0 = cmd :: rest
           /\ command_matches cmd command = true).
    { intros H' Hne.
      destruct (IH H') as (H1 & H2 & e' & cmd & rest & Hin & Hrest).
      unfold pid_execs_test, pid_exists_test.
      split; [|split].
      - destruct ((tid_ e =? pid) && is_exec e); [reflexivity|exact H1].
      - destruct (tid_ e =? pid); [reflexivity|exact H2].
      - exists e', cmd, rest. split; [now right|exact Hrest]. }
    assert (Hne : type_ e <> NONE).
    { intros E. rewrite E in H. discriminate H. }
    assert (H' : match find_pid_test command e with
                 | Some a => inr a
                 | None => task_loop (find_pid_test command) (-1) events tid0
                 end = inr pid).
    { destruct (type_ e); [contradiction|exact H..]. }
    clear H.
    destruct (find_pid_test command e) as [a|] eqn:Ef.
    2:{ destruct (Hskip H' Hne) as (H1 & H2 & H3).
        split; [|split; [|exact H3]].
        - destruct (type_ e); [contradiction|exact H1..].
        - destruct (type_ e); [contradiction|exact H2..]. }
    injection H' as ->. unfold find_pid_test in Ef.
    destruct (type_ e) eqn:Et; try discriminate Ef.
    destruct (cmd_line_ e) as [|cmd rest] eqn:Ec; [discriminate Ef|].
    destruct (command_matches cmd command) eqn:Em; [|discriminate Ef].
    injection Ef as Ef.
    unfold pid_execs_test, pid_exists_test, is_exec.
    rewrite Ef, Z.eqb_refl, Et. cbn [andb].
    split; [reflexivity|]. split; [reflexivity|].
    exists e, cmd, rest. repeat split; auto.
Qed.

(** X19.  A process that [find_pid_for_command] finds for a command
    passes the checks made of a process given by its id: [pid_exists]
    and [pid_execs] on the same trace return true. *)
Theorem found_pid_execs dir command pid :
  find_pid_for_command env dir command = inr pid ->
  pid <> -1 ->
  pid_exists env dir pid = inr true /\ pid_execs env dir pid = inr true.
Proof.
  unfold find_pid_for_command, pid_exists, pid_execs, with_trace.
  destruct (open_trace env dir) as [status|good events tid0];
    [discriminate|].
  destruct good; [|intros H Hp; injection H as <-; contradiction].
  intros H Hp.
  destruct (task_loop_found _ _ _ _ H Hp) as (H1 & H2 & _). now split.
Qed.

End TaskLookup.

Section TaskLookupExamples.

Import ReplayCommand.
Local Open Scope string_scope.

Lemma found_pid_execs_witness :
  pid_exists (example_env false) "trace" 5 = inr true
  /\ pid_execs (example_env false) "trace" 5 = inr true.
Proof.
  apply (found_pid_execs (example_env false) "trace" "ls" 5).
  - reflexivity.
  - discriminate.
Defined.

End TaskLookupExamples.

(* ------------------------------------------------------------------ *)
(** ** The scratch area of remote syscalls *)

Section ScratchMemory.

Import AutoRestoreMem.

Lemma read_bytes_length m n : forall a,
  List.length (read_bytes_helper m a n) = n.
Proof. induction n as [|n IH]; intros a; cbn; [reflexivity|now rewrite IH]. Qed.

Lemma write_bytes_spec bytes : forall (m : Memory) a p,
  write_bytes m a bytes p
  = if (a <=? p) && (p <? a + Z.of_nat (List.length bytes))
    then nth (Z.to_nat (p - a)) bytes 0
    else m p.
Proof.
  induction bytes as [|b rest IH]; intros m a p.
  - cbn [write_bytes List.length]. 
    destruct (Z.leb_spec a p); destruct (Z.ltb_spec p (a + Z.of_nat 0));
      cbn [andb]; try reflexivity; lia.
  - cbn [write_bytes]. rewrite IH. cbn [List.length].
    destruct (Z.leb_spec (a + 1) p); destruct (Z.leb_spec a p);
      destruct (Z.ltb_spec p (a + 1 + Z.of_nat (List.length rest)));
      destruct (Z.ltb_spec p (a + Z.of_nat (S (List.length rest))));
      cbn [andb]; try lia.
    all: first
      [ replace (Z.to_nat (p - a)) with (S (Z.to_nat (p - (a + 1)))) by lia;
        reflexivity
      | assert (p = a) as -> by lia; rewrite Z.eqb_refl, Z.sub_diag;
        reflexivity
      | destruct (Z.eqb_spec p a); [lia|reflexivity] ].
Qed.

Lemma read_bytes_nth m n : forall a i,
  (i < n)%nat ->
  nth i (read_bytes_helper m a n) 0 = m (a + Z.of_nat i).
Proof.
  induction n as [|n IH]; intros a i Hi; [lia|].
  destruct i as [|i]; cbn [read_bytes_helper nth].
  - now rewrite Z.add_0_r.
  - rewrite IH by lia. f_equal. lia.
Qed.

(** Reading the stack pointer that was just set. *)
Lemma sp_set_sp v r :
  0 <= v <= Registers.sp r ->
  Registers.sp (Registers.set_sp (Int.u64 v) r) = v.
Proof.
  destruct r as [u|u]; unfold Registers.sp, Registers.set_sp,
    Registers.RR_GET_REG, Registers.RR_SET_REG; intros Hv.
  - pose proof (u32_range (X86Arch.esp u)) as Hr.
    destruct u; cbn in *.
    rewrite (u64_small v) by (unfold Int.u32, Int.to_unsigned in *; lia).
    rewrite u32_s32. apply u32_small. lia.
  - destruct u; cbn in *.
    assert (0 <= v < 2 ^ 64).
    { unfold Int.u64, Int.to_unsigned in Hv.
      pose proof (Z.mod_pos_bound rsp (2 ^ 64) ltac:(lia)). lia. }
    rewrite !u64_idem. apply u64_small. lia.
Qed.

(** X20.  An [AutoRestoreMem] gives back what it took: when the scratch
    area fits below the stack pointer, and whatever is done to the
    tracee in between leaves the stack pointer where [init] put it (and
    the registers of the same architecture), the destructor's assertion
    holds, the stack pointer is again what it
    was before [init], every byte of the scratch area is again what it
    was before [init], and no byte outside the area is touched by the
    destructor. *)
Theorem scratch_area_restored mem_ num_bytes x a x1
        (body : Remote -> Remote) :
  0 <= num_bytes <= Registers.sp (regs x) ->
  init mem_ num_bytes x = Some (a, x1) ->
  Registers.sp (regs (body x1)) = Registers.sp (regs x1) ->
  Registers.arch (regs (body x1)) = Registers.arch (regs x1) ->
  exists x2,
    destroy a (body x1) = Some x2
    /\ addr a = Registers.sp (regs x) - num_bytes
    /\ Registers.sp (regs x2) = Registers.sp (regs x)
    /\ (forall p, addr a <= p < addr a + num_bytes -> mem x2 p = mem x p)
    /\ (forall p, ~ (addr a <= p < addr a + num_bytes) ->
                  mem x2 p = mem (body x1) p).
Proof.
  intros Hn Hinit Hbody Harch. unfold init in Hinit.
  destruct (Registers.sp (regs x) =? 0); [discriminate|].
  assert (Hsp1 : Registers.sp
                   (Registers.set_sp
                      (Int.u64 (Registers.sp (regs x) - num_bytes)) (regs x))
                 = Registers.sp (regs x) - num_bytes).
  { apply sp_set_sp. lia. }
  rewrite Hsp1 in Hinit. injection Hinit as <- <-.
  cbn [regs addr] in *. rewrite Hsp1 in Hbody.
  assert (Harch' : Registers.arch (regs (body
            {| regs := Registers.set_sp
                         (Int.u64 (Registers.sp (regs x) - num_bytes))
                         (regs x);
               mem := match mem_ with
                      | Some bytes =>
                          write_bytes_helper (mem x)
                            (Registers.sp (regs x) - num_bytes)
                            (Z.to_nat num_bytes) bytes
                      | None => mem x
                      end |})) = Registers.arch (regs x)).
  { rewrite Harch. destruct (regs x); reflexivity. }
  clear Harch.
  unfold destroy. cbn [saved_sp len addr data].
  rewrite Hbody.
  assert (Hback : Int.u64 (Registers.sp (regs x) - num_bytes + num_bytes)
                  = Registers.sp (regs x)).
  { replace (Registers.sp (regs x) - num_bytes + num_bytes)
      with (Registers.sp (regs x)) by lia.
    destruct (regs x) as [u|u];
      unfold Registers.sp, Registers.RR_GET_REG.
    - apply u64_small. pose proof (u32_range (X86Arch.esp u)). lia.
    - apply u64_idem. }
  rewrite Hback, Z.eqb_refl. cbn [negb].
  eexists. split; [reflexivity|]. cbn [regs mem].
  split; [reflexivity|]. split.
  { destruct (body _) as [r2 m2]. cbn [regs] in *.
    destruct r2 as [u2|u2], (regs x) as [u|u];
      unfold Registers.sp, Registers.set_sp, Registers.RR_GET_REG,
        Registers.RR_SET_REG in *; destruct u2, u; cbn in *.
    - rewrite u32_s32, u32_idem. reflexivity.
    - discriminate Harch'.
    - discriminate Harch'.
    - rewrite !u64_idem. reflexivity. }
  assert (Hlen : List.length
                   (firstn (Z.to_nat num_bytes)
                      (read_bytes_helper (mem x)
                         (Registers.sp (regs x) - num_bytes)
                         (Z.to_nat num_bytes))) = Z.to_nat num_bytes).
  { rewrite length_firstn, read_bytes_length. lia. }
  split; intros p Hp; unfold write_bytes_helper;
    rewrite write_bytes_spec, Hlen, Z2Nat.id by lia.
  - destruct (Z.leb_spec (Registers.sp (regs x) - num_bytes) p); [|lia].
    destruct (Z.ltb_spec p (Registers.sp (regs x) - num_bytes + num_bytes));
      [|lia].
    cbn [andb]. rewrite firstn_all2 by (rewrite read_bytes_length; lia).
    rewrite read_bytes_nth by lia. f_equal. lia.
  - destruct (Z.leb_spec (Registers.sp (regs x) - num_bytes) p);
      destruct (Z.ltb_spec p (Registers.sp (regs x) - num_bytes + num_bytes));
      cbn [andb]; try reflexivity; lia.
Qed.

End ScratchMemory.

Section ScratchMemoryExamples.

Import AutoRestoreMem.

Lemma scratch_area_restored_witness :
  exists a x1 x2,
    init (Some [1; 2; 3; 4]) 4 (example_remote 4096) = Some (a, x1)
    /\ destroy a x1 = Some x2
    /\ addr a = 4092
    /\ Registers.sp (regs x2) = 4096
    /\ (forall p, addr a <= p < addr a + 4 ->
                  mem x2 p = mem (example_remote 4096) p).
Proof.
  destruct (init (Some [1; 2; 3; 4]) 4 (example_remote 4096))
    as [[a x1]|] eqn:E; [|discriminate E].
  destruct (scratch_area_restored (Some [1; 2; 3; 4]) 4
              (example_remote 4096) a x1 (fun x => x))
    as (x2 & Hd & Ha & Hsp & Hin & _).
  - vm_compute. split; discriminate.
  - exact E.
  - reflexivity.
  - reflexivity.
  - exists a, x1, x2. split; [reflexivity|]. split; [exact Hd|].
    split; [exact Ha|]. split; [exact Hsp|exact Hin].
Defined.

End ScratchMemoryExamples.

(* ------------------------------------------------------------------ *)
(** ** Allocation in the scratch area *)

Section RemoteAllocations.

Import RemoteAllocation.

Lemma land_align a :
  0 <= a < 2 ^ 64 ->
  Z.land a (Int.u64 (Z.lnot 7)) = 8 * (a / 8).
Proof.
  intros Ha.
  assert (E : Int.u64 (Z.lnot 7) = Z.land (Z.lnot 7) (Z.ones 64)).
  { unfold Int.u64, Int.to_unsigned. rewrite Z.land_ones by lia.
    reflexivity. }
  rewrite E, Z.land_assoc, (Z.land_comm a), <- Z.land_assoc.
  rewrite (Z.land_ones a) by lia. rewrite (Z.mod_small a) by lia.
  rewrite Z.land_comm, <- Z.ldiff_land. change 7 with (Z.ones 3).
  rewrite Z.ldiff_ones_r by lia.
  rewrite Z.shiftl_mul_pow2, Z.shiftr_div_pow2 by lia.
  change (2 ^ 3) with 8. lia.
Qed.

(** [align_size] rounds up to the next multiple of eight. *)
Lemma align_size_rounds_up size :
  0 <= size <= 2 ^ 64 - 8 ->
  align_size size = 8 * ((size + 7) / 8)
  /\ size <= align_size size < size + 8.
Proof.
  intros Hs. unfold align_size, sizeof_uintptr_t.
  replace (size + 8 - 1) with (size + 7) by lia. change (8 - 1) with 7.
  rewrite (u64_small (size + 7)) by lia.
  rewrite land_align by lia.
  pose proof (Z.div_mod (size + 7) 8 ltac:(lia)).
  pose proof (Z.mod_pos_bound (size + 7) 8 ltac:(lia)).
  split; [reflexivity|lia].
Qed.

(** One allocation in a buffer that lies in the address space: it
    succeeds when the rounded size fits, and moves [buf_end] by the
    rounded size. *)
Lemma allocate_fits buf_end remote_buf size :
  0 <= size < 2 ^ 32 ->
  0 <= AutoRestoreMem.addr remote_buf <= buf_end ->
  buf_end + align_size size
  <= AutoRestoreMem.addr remote_buf + AutoRestoreMem.len remote_buf ->
  AutoRestoreMem.addr remote_buf + AutoRestoreMem.len remote_buf < 2 ^ 64 ->
  allocate buf_end remote_buf size
  = Some (buf_end, buf_end + align_size size).
Proof.
  intros Hs Hb Hfit Hspace. unfold allocate.
  destruct (align_size_rounds_up size ltac:(lia)) as [_ Ha].
  rewrite (u64_small (buf_end + align_size size)) by lia.
  rewrite u64_small by lia.
  destruct (Z.leb_spec (buf_end + align_size size
                        - AutoRestoreMem.addr remote_buf)
                       (AutoRestoreMem.len remote_buf)); [reflexivity|lia].
Qed.

(** X21.  The buffer [retrieve_fd_arch] asks for is large enough: with a
    buffer of [data_length] bytes that lies in the address space, no
    allocation of [retrieve_fd_arch], [child_connect_socket] and
    [child_sendmsg] fails its assertion, every structure lies inside the
    buffer, the socketcall arguments lie before all the others, and the
    message header, the iovec and the control buffer of [child_sendmsg]
    do not overlap. *)
Theorem retrieve_fd_places_fit (A : Arch) (remote_buf : AutoRestoreMem.t) :
  0 < sizeof_sockaddr_un A < 2 ^ 32 ->
  0 <= sizeof_msghdr A < 2 ^ 32 ->
  0 <= sizeof_iovec A < 2 ^ 32 ->
  0 <= cmsg_space_fd A < 2 ^ 32 ->
  0 <= sizeof_socketcall_args A < 2 ^ 32 ->
  AutoRestoreMem.len remote_buf = data_length A ->
  0 <= AutoRestoreMem.addr remote_buf ->
  AutoRestoreMem.addr remote_buf + AutoRestoreMem.len remote_buf < 2 ^ 64 ->
  exists p,
    retrieve_fd_places A remote_buf = Some p
    /\ let buf := AutoRestoreMem.addr remote_buf in
       let buf_limit := buf + AutoRestoreMem.len remote_buf in
       let others := if has_socketcall_syscall A
                     then sc_args p + sizeof_socketcall_args A
                     else buf in
       (has_socketcall_syscall A = true -> sc_args p = buf)
       /\ (has_socketcall_syscall A = false -> sc_args p = 0)
       /\ others <= remote_dot p /\ remote_dot p + 2 <= buf_limit
       /\ others <= remote_addr p
       /\ remote_addr p + sizeof_sockaddr_un A <= buf_limit
       /\ others <= remote_msg p
       /\ remote_msg p + sizeof_msghdr A <= remote_msgdata p
       /\ remote_msgdata p + sizeof_iovec A <= remote_cmsgbuf p
       /\ remote_cmsgbuf p + cmsg_space_fd A <= buf_limit.
Proof.
  intros Hun Hmsg Hio Hcm Hsc Hlen Haddr Hspace.
  destruct (align_size_rounds_up (sizeof_sockaddr_un A) ltac:(lia))
    as [_ Hun'].
  destruct (align_size_rounds_up (sizeof_msghdr A) ltac:(lia)) as [_ Hmsg'].
  destruct (align_size_rounds_up (sizeof_iovec A) ltac:(lia)) as [_ Hio'].
  destruct (align_size_rounds_up (cmsg_space_fd A) ltac:(lia)) as [_ Hcm'].
  destruct (align_size_rounds_up (sizeof_socketcall_args A) ltac:(lia))
    as [_ Hsc'].
  destruct (align_size_rounds_up 2 ltac:(lia)) as [Hdot _].
  change (8 * ((2 + 7) / 8)) with 8 in Hdot.
  assert (Hun8 : 8 <= align_size (sizeof_sockaddr_un A)).
  { destruct (align_size_rounds_up (sizeof_sockaddr_un A) ltac:(lia))
      as [E _]. rewrite E.
    pose proof (Z.div_le_lower_bound (sizeof_sockaddr_un A + 7) 8 1
                  ltac:(lia) ltac:(lia)). lia. }
  assert (Hdl : data_length A
                = Z.max (align_size (sizeof_sockaddr_un A))
                        (align_size (sizeof_msghdr A)
                         + align_size (cmsg_space_fd A)
                         + align_size (sizeof_iovec A))
                  + (if has_socketcall_syscall A
                     then align_size (sizeof_socketcall_args A) else 0)).
  { unfold data_length, reserve.
    rewrite (u64_small (align_size (sizeof_msghdr A)
                        + align_size (cmsg_space_fd A))) by lia.
    rewrite (u64_small (align_size (sizeof_msghdr A)
                        + align_size (cmsg_space_fd A)
                        + align_size (sizeof_iovec A))) by lia.
    destruct (has_socketcall_syscall A); [|lia].
    apply u64_small. lia. }
  rewrite Hdl in Hlen. clear Hdl.
  unfold retrieve_fd_places.
  set (buf := AutoRestoreMem.addr remote_buf) in *.
  set (sc := if has_socketcall_syscall A
             then align_size (sizeof_socketcall_args A) else 0) in *.
  assert (Hsc0 : 0 <= sc <= align_size (sizeof_socketcall_args A)).
  { unfold sc. destruct (has_socketcall_syscall A); lia. }
  assert (Hfirst :
    (if has_socketcall_syscall A
     then allocate buf remote_buf (sizeof_socketcall_args A)
     else Some (0, buf))
    = Some (if has_socketcall_syscall A then buf else 0, buf + sc)).
  { unfold sc. destruct (has_socketcall_syscall A).
    - apply allocate_fits; fold buf; lia.
    - now rewrite Z.add_0_r. }
  rewrite Hfirst.
  rewrite (allocate_fits (buf + sc) remote_buf 2) by (fold buf; lia).
  rewrite (allocate_fits (buf + sc) remote_buf (sizeof_sockaddr_un A))
    by (fold buf; lia).
  rewrite (allocate_fits (buf + sc) remote_buf (sizeof_msghdr A))
    by (fold buf; lia).
  rewrite (allocate_fits _ remote_buf (sizeof_iovec A)) by (fold buf; lia).
  rewrite (allocate_fits _ remote_buf (cmsg_space_fd A)) by (fold buf; lia).
  eexists. split; [reflexivity|].
  cbn [sc_args remote_dot remote_addr remote_msg remote_msgdata
       remote_cmsgbuf].
  unfold sc in *.
  destruct (has_socketcall_syscall A);
    (split; [intros; congruence || reflexivity|]);
    (split; [intros; congruence || reflexivity|]);
    repeat (split; [lia|]); lia.
Qed.

End RemoteAllocations.

Section RemoteAllocationExamples.

Import RemoteAllocation.

Lemma retrieve_fd_places_fit_witness :
  exists p,
    retrieve_fd_places X86Sizes
      {| AutoRestoreMem.addr := 4096; AutoRestoreMem.data := [];
         AutoRestoreMem.len := data_length X86Sizes;
         AutoRestoreMem.saved_sp := 0 |} = Some p
    /\ sc_args p = 4096
    /\ remote_msg p + 28 <= remote_msgdata p
    /\ remote_msgdata p + 8 <= remote_cmsgbuf p
    /\ remote_cmsgbuf p + 16 <= 4096 + data_length X86Sizes.
Proof.
  destruct (retrieve_fd_places_fit X86Sizes
              {| AutoRestoreMem.addr := 4096; AutoRestoreMem.data := [];
                 AutoRestoreMem.len := data_length X86Sizes;
                 AutoRestoreMem.saved_sp := 0 |})
    as (p & Hp & Hsc & _ & _ & _ & _ & _ & _ & H1 & H2 & H3);
    try (vm_compute; split; congruence); try reflexivity;
    try (vm_compute; congruence).
  exists p. split; [exact Hp|]. split; [exact (Hsc eq_refl)|].
  split; [exact H1|]. split; [exact H2|exact H3].
Defined.

End RemoteAllocationExamples.

(* ------------------------------------------------------------------ *)
(** ** Checkpoint ids *)

Section Checkpoints.

Import GdbCommand.

Variable stoi : string -> option Z.

Lemma find_keys id m c : find id m = Some c -> In id (map fst m).
Proof.
  induction m as [|[k c'] m IH]; cbn; [discriminate|].
  destruct (Z.eqb_spec k id); [now left|]. intros H. right. now apply IH.
Qed.

Lemma find_not_key id m : find id m = None -> ~ In id (map fst m).
Proof.
  induction m as [|[k c'] m IH]; cbn; [intros _ []|].
  destruct (Z.eqb_spec k id); [discriminate|].
  intros H [E|Hin]; [contradiction|]. now apply IH.
Qed.

Lemma erase_keys id m k : In k (map fst (erase id m)) -> In k (map fst m).
Proof.
  induction m as [|[k' c'] m IH]; cbn; [auto|].
  destruct (k' =? id); cbn; [auto|]. intros [E|H]; [now left|right; auto].
Qed.

Lemma assign_keys id c m k :
  In k (map fst (assign id c m)) -> k = id \/ In k (map fst m).
Proof.
  induction m as [|[k' c'] m IH]; cbn.
  - intros [E|[]]. now left.
  - destruct (id <? k'); cbn.
    + intros [E|[E|H]]; auto.
    + destruct (Z.eqb_spec k' id); cbn.
      * intros [E|H]; auto.
      * intros [E|H]; auto. destruct (IH H); auto.
Qed.

Lemma In_ids_from n : forall first k,
  In k (ids_from first n) <-> first <= k < first + Z.of_nat n.
Proof.
  induction n as [|n IH]; intros first k; cbn [ids_from In].
  - split; [intros []|lia].
  - rewrite IH. lia.
Qed.

(** What a run keeps: the ids handed out so far are
    [gNextCheckpointId] many, counted from the one after the start, and
    every checkpoint there is has one of the ids handed out or had its
    id before. *)
Lemma run_ids cs : forall st rs st',
  run stoi cs st = Some (rs, st') ->
  created rs
  = ids_from (gNextCheckpointId st + 1) (List.length (created rs))
  /\ gNextCheckpointId st'
     = gNextCheckpointId st + Z.of_nat (List.length (created rs))
  /\ (forall k, In k (map fst (checkpoints st')) ->
                In k (map fst (checkpoints st)) \/ In k (created rs))
  /\ (forall k, In k (deleted rs) ->
                In k (map fst (checkpoints st)) \/ In k (created rs)).
Proof.
  induction cs as [|c cs IH]; intros st rs st' Hrun; cbn in Hrun.
  - injection Hrun as <- <-. cbn. repeat split; auto. lia.
  - destruct (invoke stoi c st) as [[r st1]|] eqn:Ei; [|discriminate].
    destruct (run stoi cs st1) as [[rs1 st2]|] eqn:Er; [|discriminate].
    injection Hrun as <- <-.
    destruct (IH _ _ _ Er) as (Hc & Hn & Hk & Hd).
    destruct c as [can_add mark_ args|args]; cbn in Ei.
    + unfold invoke_checkpoint in Ei.
      destruct (nth_error args 1) as [w|]; [|discriminate].
      destruct (gNextCheckpointId st >=? Trace.INT_MAX); [discriminate|].
      injection Ei as <- <-.
      cbn [created deleted List.length gNextCheckpointId checkpoints] in *.
      split; [cbn [ids_from]; f_equal; exact Hc|].
      split; [rewrite Hn; lia|]. split.
      * intros k Hin. destruct (Hk k Hin) as [H|H]; [|now right; right].
        apply assign_keys in H.
        destruct H as [->|H]; [right; now left|now left].
      * intros k Hin. destruct (Hd k Hin) as [H|H]; [|now right; right].
        apply assign_keys in H.
        destruct H as [->|H]; [right; now left|now left].
    + unfold invoke_delete_checkpoint in Ei.
      destruct (nth_error args 1) as [a|]; [|discriminate].
      destruct (stoi a) as [id|]; [|discriminate].
      destruct (find id (checkpoints st)) as [c|] eqn:Ef;
        injection Ei as <- <-; cbn in *.
      * split; [exact Hc|]. split; [exact Hn|]. split.
        -- intros k Hin. destruct (Hk k Hin) as [H|H]; [|auto].
           left. eapply erase_keys; eassumption.
        -- intros k [<-|Hin]; [left; eapply find_keys; eassumption|].
           destruct (Hd k Hin) as [H|H]; [|auto].
           left. eapply erase_keys; eassumption.
      * repeat split; auto.
Qed.

(** X22.  Checkpoint ids are never handed out twice: in any run of
    "checkpoint" and "delete checkpoint" commands from the start, the
    ids in the replies to "checkpoint" are 1, 2, 3, ... in this order,
    whatever has been deleted in between; every checkpoint the server
    holds at the end, and every checkpoint it has deleted, has an id
    that was handed out in the run. *)
Theorem checkpoint_ids_fresh cs rs st :
  run stoi cs initial = Some (rs, st) ->
  created rs = ids_from 1 (List.length (created rs))
  /\ NoDup (created rs)
  /\ (forall k, In k (map fst (checkpoints st)) -> In k (created rs))
  /\ (forall k, In k (deleted rs) -> In k (created rs)).
Proof.
  intros Hrun. destruct (run_ids _ _ _ _ Hrun) as (Hc & _ & Hk & Hd).
  cbn in *. split; [exact Hc|]. split.
  - rewrite Hc. generalize (List.length (created rs)). intros n.
    generalize 1. induction n as [|n IH]; intros first; cbn.
    + constructor.
    + constructor; [|apply IH]. rewrite In_ids_from. lia.
  - split; intros k Hin.
    + destruct (Hk k Hin) as [[]|H]; exact H.
    + destruct (Hd k Hin) as [[]|H]; exact H.
Qed.

End Checkpoints.

Section CheckpointExamples.

Import GdbCommand.
Local Open Scope string_scope.

Lemma checkpoint_ids_fresh_witness :
  exists rs st,
    run example_stoi
        [CmdCheckpoint true 10 ["checkpoint"; "main.c:3"];
         CmdDeleteCheckpoint ["delete"; "1"];
         CmdCheckpoint true 12 ["checkpoint"; "main.c:7"]] initial
    = Some (rs, st)
    /\ created rs = [1; 2]
    /\ map fst (checkpoints st) = [2]
    /\ NoDup (created rs).
Proof.
  eexists. eexists. split; [reflexivity|].
  split; [reflexivity|]. split; [reflexivity|].
  apply (checkpoint_ids_fresh example_stoi
           [CmdCheckpoint true 10 ["checkpoint"; "main.c:3"];
            CmdDeleteCheckpoint ["delete"; "1"];
            CmdCheckpoint true 12 ["checkpoint"; "main.c:7"]] _ _ eq_refl).
Defined.

End CheckpointExamples.

(* ------------------------------------------------------------------ *)
(** ** Debugger traps and the trace directory *)

Section DebuggerTrap.

Import AddressSpace Session.

Variable TIME_SLICE_SIGNAL : Z.

(** X23.  What [diagnose_debugger_trap] reports.  A signal is reported
    alone: with it there is no breakpoint hit, no completed singlestep
    and no watchpoint, and the task is not touched; the signal is the
    pending one, and it is never SIGTRAP nor the time-slice signal.  A
    completed singlestep is reported only for a SIGTRAP under a
    singlestep command, the ip is moved back only with a breakpoint
    hit, and the watchpoint changes are consumed only for a SIGTRAP.
    [approaching_ticks_target] and [task_exit] are never set. *)
Theorem diagnose_debugger_trap_reports t run_command :
  let b := fst (diagnose_debugger_trap TIME_SLICE_SIGNAL t run_command) in
  let d := snd (diagnose_debugger_trap TIME_SLICE_SIGNAL t run_command) in
  (signal b <> 0 ->
   signal b = pending_sig t
   /\ signal b <> Trace.SIGTRAP /\ signal b <> TIME_SLICE_SIGNAL
   /\ breakpoint_hit b = false /\ singlestep_complete b = false
   /\ watchpoints_hit b = []
   /\ consumed_watchpoint_changes d = false
   /\ moved_ip_before_breakpoint d = false)
  /\ (singlestep_complete b = true ->
      pending_sig t = Trace.SIGTRAP /\ is_singlestep run_command = true)
  /\ (moved_ip_before_breakpoint d = true -> breakpoint_hit b = true)
  /\ (consumed_watchpoint_changes d = true -> pending_sig t = Trace.SIGTRAP)
  /\ approaching_ticks_target b = false
  /\ task_exit b = false.
Proof.
  unfold diagnose_debugger_trap.
  destruct (Z.eqb_spec Trace.SIGTRAP (pending_sig t)) as [E|E]; cbn [negb].
  - cbn [fst snd signal breakpoint_hit singlestep_complete watchpoints_hit
         consumed_watchpoint_changes moved_ip_before_breakpoint
         approaching_ticks_target task_exit].
    split; [intros Hs; now contradiction Hs|].
    split; [intros Hs; apply andb_prop in Hs; split; [congruence|tauto]|].
    split; [tauto|]. split; [congruence|]. split; reflexivity.
  - assert (Hsig : forall v,
      v = (if negb (pending_sig t =? 0)
              && negb (pending_sig t =? TIME_SLICE_SIGNAL)
           then pending_sig t else 0) ->
      v <> 0 ->
      v = pending_sig t /\ v <> Trace.SIGTRAP /\ v <> TIME_SLICE_SIGNAL).
    { intros v -> Hv.
      destruct (Z.eqb_spec (pending_sig t) 0);
        destruct (Z.eqb_spec (pending_sig t) TIME_SLICE_SIGNAL);
        cbn [negb andb] in *; try contradiction.
      repeat split; congruence. }
    destruct (breakpoint_type_at_ip t);
      cbn [fst snd signal breakpoint_hit singlestep_complete watchpoints_hit
           consumed_watchpoint_changes moved_ip_before_breakpoint
           approaching_ticks_target task_exit];
      (split;
       [intros Hs;
        try (destruct (Hsig _ eq_refl Hs) as (H1 & H2 & H3));
        try (now contradiction Hs);
        repeat split; assumption|]);
      (split; [discriminate|]); (split; [discriminate|]);
      (split; [discriminate|]); split; reflexivity.
Qed.

End DebuggerTrap.

Section DefaultTraceDir.

Import TraceDir.

Lemma append_not_empty (a : string) (c : ascii) (b : string) :
  empty (a ++ String c b) = false.
Proof. destruct a; reflexivity. Qed.

(** X24.  [default_rr_trace_dir] never returns the empty string, so its
    cache is always filled by the first call: a second call returns the
    directory of the first, whatever the environment and the file
    system have become in between. *)
Theorem default_rr_trace_dir_is_fixed (env env' : Env) :
  let first := default_rr_trace_dir env EmptyString in
  empty (fst first) = false
  /\ default_rr_trace_dir env' (snd first) = (fst first, fst first).
Proof.
  cbv zeta.
  assert (H : empty (fst (default_rr_trace_dir env EmptyString)) = false
              /\ snd (default_rr_trace_dir env EmptyString)
                 = fst (default_rr_trace_dir env EmptyString)).
  { unfold default_rr_trace_dir, dir_exists. cbn [empty negb].
    destruct (HOME env) as [home|], (XDG_DATA_HOME env) as [xdg|];
      cbn [empty negb andb fst snd];
      rewrite ?append_not_empty; cbn [negb andb];
      repeat match goal with
             | |- context [if ?c then _ else _] => destruct c
             end;
      cbn [fst snd]; rewrite ?append_not_empty; split; reflexivity. }
  destruct H as [Hne Heq]. split; [exact Hne|].
  rewrite Heq. unfold default_rr_trace_dir at 1. rewrite Hne. reflexivity.
Qed.

End DefaultTraceDir.

(* ------------------------------------------------------------------ *)
(** ** The order of ranges and the alignment of sizes *)

Section RangeOrder.

Import AddressSpace.

(** X25.  [MappingComparator] orders ranges strictly: no range is before
    itself, two ranges are never each before the other, and the order is
    transitive through a middle range that is not empty.  A range that
    is not empty is unordered against the one-byte range at [p], so
    that a lookup of that byte finds it, exactly when it contains
    [p]. *)
Theorem MappingComparator_orders (a b c : MemoryRange) (p : Z) :
  MappingComparator a a = false
  /\ (MappingComparator a b = true -> MappingComparator b a = false)
  /\ (start_ b < end_ b ->
      MappingComparator a b = true -> MappingComparator b c = true ->
      MappingComparator a c = true)
  /\ (start_ a < end_ a ->
      (MappingComparator a {| start_ := p; end_ := p + 1 |} = false
       /\ MappingComparator {| start_ := p; end_ := p + 1 |} a = false
       <-> contains a p = true)).
Proof.
  unfold MappingComparator, intersects, contains.
  destruct a as [sa ea], b as [sb eb], c as [sc ec]. cbn [start_ end_].
  split; [|split; [|split]].
  - destruct (Z.max sa sa <? Z.min ea ea); [reflexivity|apply Z.ltb_irrefl].
  - destruct (Z.ltb_spec (Z.max sa sb) (Z.min ea eb)); [discriminate|].
    intros Hlt. apply Z.ltb_lt in Hlt.
    destruct (Z.max sb sa <? Z.min eb ea); [reflexivity|].
    apply Z.ltb_ge. lia.
  - intros Hb.
    destruct (Z.ltb_spec (Z.max sa sb) (Z.min ea eb)); [discriminate|].
    destruct (Z.ltb_spec (Z.max sb sc) (Z.min eb ec)); [discriminate|].
    intros Hab Hbc. apply Z.ltb_lt in Hab, Hbc.
    destruct (Z.ltb_spec (Z.max sa sc) (Z.min ea ec)); [lia|].
    apply Z.ltb_lt. lia.
  - intros Ha.
    destruct (Z.ltb_spec (Z.max sa p) (Z.min ea (p + 1)));
      destruct (Z.ltb_spec (Z.max p sa) (Z.min (p + 1) ea));
      destruct (Z.leb_spec sa p); destruct (Z.ltb_spec p ea);
      destruct (Z.ltb_spec sa p); destruct (Z.ltb_spec p sa);
      cbn [andb]; try lia; intuition congruence.
Qed.

End RangeOrder.

Section AlignSize.

Import RemoteAllocation.

(** X26.  [align_size] gives the least multiple of eight that is not
    below [size], for every [size_t] up to 2^64 - 8; for the seven
    sizes above, the sum wraps around and it gives 0. *)
Theorem align_size_least_multiple (size m : Z) :
  (0 <= size <= 2 ^ 64 - 8 ->
   align_size size mod 8 = 0
   /\ size <= align_size size
   /\ (m mod 8 = 0 -> size <= m -> align_size size <= m))
  /\ (2 ^ 64 - 8 < size < 2 ^ 64 -> align_size size = 0).
Proof.
  split.
  - intros Hs. destruct (align_size_rounds_up size Hs) as [E Hr].
    split; [|split; [lia|]].
    + rewrite E, Z.mul_comm. apply Z.mod_mul. lia.
    + intros Hm Hle.
      pose proof (Z.div_mod m 8 ltac:(lia)) as Hdm. rewrite Hm in Hdm.
      rewrite E.
      assert ((size + 7) / 8 <= m / 8); [|lia].
      replace (m / 8) with ((7 + m / 8 * 8) / 8)
        by (rewrite Z.div_add by lia; reflexivity).
      apply Z.div_le_mono; lia.
  - intros Hs. unfold align_size, sizeof_uintptr_t.
    replace (size + 8 - 1) with (size + 7) by lia. change (8 - 1) with 7.
    assert (E : Int.u64 (size + 7) = size + 7 - 2 ^ 64).
    { unfold Int.u64, Int.to_unsigned.
      replace (size + 7) with (size + 7 - 2 ^ 64 + 1 * 2 ^ 64) at 1 by lia.
      rewrite Z.mod_add by lia. apply Z.mod_small. lia. }
    rewrite E, land_align by lia.
    rewrite Z.div_small by lia. reflexivity.
Qed.

End AlignSize.

(* ------------------------------------------------------------------ *)
(** ** Mapped regions through the trace *)

Section MappedRegions.

Import AddressSpace TraceMmaps.

Variable page_size : Z.
Variable env : Env.

Lemma land_within_mask f m :
  Z.land f (Z.lnot m) = 0 -> Z.land f m = f.
Proof.
  intros H. apply Z.bits_inj'. intros n Hn.
  assert (Hb : Z.testbit (Z.land f (Z.lnot m)) n = false)
    by (rewrite H; apply Z.bits_0).
  rewrite Z.land_spec, Z.lnot_spec in Hb by lia.
  rewrite Z.land_spec.
  destruct (Z.testbit f n), (Z.testbit m n); cbn in *; congruence.
Qed.

Lemma constructed_create km :
  constructed page_size km ->
  KernelMapping_create page_size (start_ (range km)) (end_ (range km))
    (fsname_ km) (device_ km) (inode_ km) (prot_ km) (flags_ km) (offset km)
  = Some km.
Proof.
  intros [Hv Ho]. unfold KernelMapping_create.
  assert (Hf : Z.land (flags_ km) map_flags_mask = flags_ km).
  { unfold assert_valid in Hv.
    apply andb_prop in Hv. destruct Hv as [Hv _].
    apply andb_prop in Hv. destruct Hv as [_ Hv].
    apply Z.eqb_eq in Hv. apply land_within_mask. exact Hv. }
  rewrite Hf, (u64_small (offset km)) by lia.
  destruct km as [[s e] f d i p fl o]. cbn in *. rewrite Hv. reflexivity.
Qed.

Lemma u64_s64 v : Int.u64 (Int.s64 v) = Int.u64 v.
Proof.
  unfold Int.u64, Int.s64, Int.to_signed, Int.to_unsigned.
  destruct (v mod 2 ^ 64 <? 2 ^ (64 - 1)).
  - apply Z.mod_mod. lia.
  - rewrite <- (Z.mod_add (v mod 2 ^ 64 - 2 ^ 64) 1 (2 ^ 64)) by lia.
    replace (v mod 2 ^ 64 - 2 ^ 64 + 1 * 2 ^ 64) with (v mod 2 ^ 64) by lia.
    apply Z.mod_mod. lia.
Qed.

(** X27.  A mapped region comes back as it was written.  For a mapping
    as its constructor leaves it, a reader at the time of the writer
    finds the record [write_mapped_region] wrote: it returns the same
    mapping, the source the writer chose, the offset and the size of
    the file, and for data that come from a file the name of the backing
    file, made relative to the trace directory unless it starts with a
    slash; it ends in [FATAL()] exactly when that file cannot be found.
    The writer asks for the data to be recorded in the trace exactly
    when the source is the trace.  A reader at another time finds no
    record and stays where it is. *)
Theorem mapped_region_round_trip km st origin w dir rest :
  constructed page_size km ->
  let src := fst (fst (choose_source env km st origin w)) in
  let backing := snd (fst (choose_source env km st origin w)) in
  let result := write_mapped_region env km st origin w in
  let written := skipn (List.length (w_mmaps w)) (w_mmaps (snd result)) in
  let reader t := {| r_trace_dir := dir; r_global_time := t;
                     r_mmaps := written ++ rest |} in
  let name := match src with
              | SOURCE_FILE => resolved dir backing
              | _ => backing
              end in
  (fst result = RECORD_IN_TRACE <-> src = SOURCE_TRACE)
  /\ read_mapped_region page_size env (reader (w_global_time w))
     = (if match src with
           | SOURCE_FILE =>
               match stat env name with Some _ => false | None => true end
           | _ => false
           end
        then Fatal
        else Found km
               {| source := src; file_name := name;
                  file_data_offset_bytes := offset km;
                  file_size_bytes := Int.u64 (st_size st) |}
               {| r_trace_dir := dir; r_global_time := w_global_time w;
                  r_mmaps := rest |})
  /\ (forall t, t <> w_global_time w ->
                read_mapped_region page_size env (reader t)
                = NotFound (reader t)).
Proof.
  intros Hc. cbv zeta. unfold write_mapped_region.
  destruct (choose_source env km st origin w) as [[src backing] assumed].
  cbn [fst snd w_mmaps].
  rewrite skipn_app, Nat.sub_diag, skipn_all, skipn_O. cbn [app].
  split; [|split].
  - destruct src; split; congruence.
  - unfold read_mapped_region, region_items.
    cbn [r_mmaps r_global_time r_trace_dir app].
    rewrite Z.eqb_refl. cbn [negb].
    rewrite (constructed_create km Hc), u64_s64.
    unfold resolved. destruct src; reflexivity.
  - intros t Ht. unfold read_mapped_region, region_items.
    cbn [r_mmaps r_global_time app].
    destruct (Z.eqb_spec (w_global_time w) t); [congruence|reflexivity].
Qed.

Lemma set_member_insert p q s :
  set_member p s = true -> set_member p (set_insert q s) = true.
Proof.
  unfold set_insert. destruct (set_member q s); [auto|].
  unfold set_member. rewrite existsb_app. intros ->. reflexivity.
Qed.

Lemma set_member_inserted p s : set_member p (set_insert p s) = true.
Proof.
  unfold set_insert. destruct (set_member p s) eqn:E; [exact E|].
  unfold set_member. rewrite existsb_app. cbn. unfold pair_eqb.
  rewrite !Z.eqb_refl. cbn. apply orb_true_r.
Qed.

(** A file once assumed immutable stays so. *)
Lemma assumed_stays p km st origin w :
  set_member p (files_assumed_immutable w) = true ->
  set_member p (files_assumed_immutable
                  (snd (write_mapped_region env km st origin w))) = true.
Proof.
  intros H. unfold write_mapped_region, choose_source.
  destruct (String.prefix "/SYSV" (fsname_ km)); [exact H|].
  destruct (match origin with SYSCALL_MAPPING => true | _ => false end
            && ((inode_ km =? 0)
                || String.eqb (fsname_ km) "/dev/zero (deleted)"));
    [exact H|].
  destruct (should_copy_mmap_region env km st
            && negb (set_member (st_dev st, st_ino st)
                       (files_assumed_immutable w))); [exact H|].
  cbn [snd files_assumed_immutable]. now apply set_member_insert.
Qed.

Lemma assumed_stays_all p regions : forall w,
  set_member p (files_assumed_immutable w) = true ->
  set_member p (files_assumed_immutable
                  (write_mapped_regions env regions w)) = true.
Proof.
  induction regions as [|[[km st] o] regions IH]; intros w H; [exact H|].
  cbn. apply IH. now apply assumed_stays.
Qed.

(** X28.  A file that was once mapped without being copied into the
    trace is never copied later: when [write_mapped_region] has chosen a
    file as the source of a mapping, then, whatever regions are written
    in between, it does not ask for the data of a later mapping of the
    same device and inode to be recorded in the trace, whatever
    [should_copy_mmap_region] says; System V shared memory apart, which
    is always recorded. *)
Theorem file_once_assumed_immutable km st origin w regions km2 st2 origin2 :
  fst (fst (choose_source env km st origin w)) = SOURCE_FILE ->
  st_dev st2 = st_dev st ->
  st_ino st2 = st_ino st ->
  let w2 := write_mapped_regions env regions
              (snd (write_mapped_region env km st origin w)) in
  fst (write_mapped_region env km2 st2 origin2 w2)
  = (if String.prefix "/SYSV" (fsname_ km2) then RECORD_IN_TRACE
     else DONT_RECORD_IN_TRACE).
Proof.
  intros Hsrc Hdev Hino w2.
  assert (Hm : set_member (st_dev st2, st_ino st2)
                 (files_assumed_immutable w2) = true).
  { unfold w2. apply assumed_stays_all. rewrite Hdev, Hino.
    unfold write_mapped_region. revert Hsrc. unfold choose_source.
    destruct (String.prefix "/SYSV" (fsname_ km)); [discriminate|].
    destruct (match origin with SYSCALL_MAPPING => true | _ => false end
              && ((inode_ km =? 0)
                  || String.eqb (fsname_ km) "/dev/zero (deleted)"));
      [discriminate|].
    destruct (should_copy_mmap_region env km st
              && negb (set_member (st_dev st, st_ino st)
                         (files_assumed_immutable w))); [discriminate|].
    intros _. cbn [snd files_assumed_immutable].
    apply set_member_inserted. }
  unfold write_mapped_region, choose_source. rewrite Hm.
  destruct (String.prefix "/SYSV" (fsname_ km2)); [reflexivity|].
  destruct (match origin2 with SYSCALL_MAPPING => true | _ => false end
            && ((inode_ km2 =? 0)
                || String.eqb (fsname_ km2) "/dev/zero (deleted)"));
    [reflexivity|].
  rewrite andb_false_r. reflexivity.
Qed.

End MappedRegions.

Section MappedRegionExamples.

Import AddressSpace TraceMmaps.
Local Open Scope string_scope.

Lemma example_file_mapping_constructed :
  constructed 4096 example_file_mapping.
Proof. vm_compute. split; [reflexivity|split; congruence]. Qed.

Lemma mapped_region_round_trip_witness :
  read_mapped_region 4096 example_env
    {| r_trace_dir := "/tmp/rr/ls-0"; r_global_time := 7;
       r_mmaps := w_mmaps (snd (write_mapped_region example_env
                                  example_file_mapping example_stat
                                  EXEC_MAPPING example_writer)) |}
  = Found example_file_mapping
      {| source := SOURCE_FILE;
         file_name := "/tmp/rr/ls-0/mmap_3_hardlink_"
                      ++ ReplayCommand.substr
                           (match rfind_slash (fsname_ example_file_mapping)
                            with Some i => i + 1 | None => 0 end)%nat
                           (fsname_ example_file_mapping);
         file_data_offset_bytes := offset example_file_mapping;
         file_size_bytes := 8192 |}
      {| r_trace_dir := "/tmp/rr/ls-0"; r_global_time := 7; r_mmaps := [] |}.
Proof.
  pose proof (mapped_region_round_trip 4096 example_env example_file_mapping
                example_stat EXEC_MAPPING example_writer "/tmp/rr/ls-0" []
                example_file_mapping_constructed) as H.
  cbv zeta in H. destruct H as (_ & H & _).
  exact H.
Defined.

Lemma file_once_assumed_immutable_witness :
  fst (write_mapped_region example_env example_file_mapping example_stat
         SYSCALL_MAPPING
         (write_mapped_regions example_env []
            (snd (write_mapped_region example_env example_file_mapping
                    example_stat EXEC_MAPPING example_writer))))
  = DONT_RECORD_IN_TRACE.
Proof.
  apply (file_once_assumed_immutable example_env example_file_mapping
           example_stat EXEC_MAPPING example_writer []
           example_file_mapping example_stat SYSCALL_MAPPING);
    reflexivity.
Defined.

End MappedRegionExamples.

(* ------------------------------------------------------------------ *)
(** ** The arguments and the environment through the trace *)

Section ArgsEnvRoundTrip.

Import ArgsEnv.

Lemma string_app_assoc (a b c : string) :
  ((a ++ b) ++ c = a ++ (b ++ c))%string.
Proof. induction a as [|x a IH]; cbn; [reflexivity|now rewrite IH]. Qed.

Lemma getline_readable n : forall v rest,
  no_nul v = true -> (String.length v <= n)%nat ->
  getline n (v ++ String NUL rest) = Some (v, rest).
Proof.
  induction n as [|n IH]; intros v rest Hn Hl.
  - destruct v; [reflexivity|cbn in Hl; lia].
  - destruct v as [|c v]; [reflexivity|].
    cbn in Hn, Hl |- *. apply andb_prop in Hn. destruct Hn as [Hc Hn].
    apply negb_true_iff in Hc. rewrite Hc, IH by (auto; lia). reflexivity.
Qed.

Lemma getline_too_long n : forall v rest,
  no_nul v = true -> (n < String.length v)%nat ->
  getline n (v ++ rest) = None.
Proof.
  induction n as [|n IH]; intros v rest Hn Hl;
    (destruct v as [|c v]; [cbn in Hl; lia|]);
    cbn in Hn, Hl |- *; apply andb_prop in Hn; destruct Hn as [Hc Hn];
    apply negb_true_iff in Hc; rewrite Hc; [reflexivity|].
  rewrite IH by (auto; lia). reflexivity.
Qed.

Lemma read_each_written vs : forall rest,
  Forall readable vs ->
  read_each (List.length vs) (write_each vs ++ rest) = Some (vs, rest).
Proof.
  induction vs as [|v vs IH]; intros rest Hr; [reflexivity|].
  inversion Hr as [|? ? [Hn Hl] Hr']; subst.
  cbn [List.length read_each write_each].
  rewrite string_app_assoc. cbn [append].
  rewrite getline_readable by (auto; unfold PATH_MAX in *; lia).
  rewrite IH by assumption. reflexivity.
Qed.

(** The first of a run of digits is no white space, and a character that
    is no digit ends the run. *)
Definition starts_with_digit (s : string) : bool :=
  match s with
  | String c _ =>
      match Trace.digit_value c with Some _ => true | None => false end
  | EmptyString => false
  end.

Ltac each_digit d :=
  destruct d as [|d|d|d|d|d|d|d|d|d|d].

Lemma read_digits_acc d : forall p any rest,
  starts_with_digit rest = false ->
  read_digits (NilEmpty.string_of_uint d ++ rest) (Z.pos p) any
  = (Z.pos (Pos.of_uint_acc d p),
     any || negb (match d with Decimal.Nil => true | _ => false end),
     rest).
Proof.
  induction d; intros p any rest Hrest;
    cbn [NilEmpty.string_of_uint append read_digits Pos.of_uint_acc];
    try (change (Trace.digit_value "0") with (Some 0);
         change (Trace.digit_value "1") with (Some 1);
         change (Trace.digit_value "2") with (Some 2);
         change (Trace.digit_value "3") with (Some 3);
         change (Trace.digit_value "4") with (Some 4);
         change (Trace.digit_value "5") with (Some 5);
         change (Trace.digit_value "6") with (Some 6);
         change (Trace.digit_value "7") with (Some 7);
         change (Trace.digit_value "8") with (Some 8);
         change (Trace.digit_value "9") with (Some 9);
         cbv iota beta;
         match goal with
         | |- read_digits _ ?a true = (Z.pos (Pos.of_uint_acc _ ?q), _, _) =>
             replace a with (Z.pos q) by lia
         end;
         rewrite IHd by assumption; cbn [negb orb];
         rewrite ?orb_true_r; reflexivity).
  destruct rest as [|c rest]; [now rewrite orb_false_r|].
  cbn in Hrest |- *. destruct (Trace.digit_value c); [discriminate|].
  now rewrite orb_false_r.
Qed.

Lemma read_digits_zero d : forall any rest,
  starts_with_digit rest = false ->
  read_digits (NilEmpty.string_of_uint d ++ rest) 0 any
  = (Z.of_N (Pos.of_uint d),
     any || negb (match d with Decimal.Nil => true | _ => false end),
     rest).
Proof.
  induction d; intros any rest Hrest;
    cbn [NilEmpty.string_of_uint append read_digits Pos.of_uint];
    try (change (Trace.digit_value "0") with (Some 0);
         change (Trace.digit_value "1") with (Some 1);
         change (Trace.digit_value "2") with (Some 2);
         change (Trace.digit_value "3") with (Some 3);
         change (Trace.digit_value "4") with (Some 4);
         change (Trace.digit_value "5") with (Some 5);
         change (Trace.digit_value "6") with (Some 6);
         change (Trace.digit_value "7") with (Some 7);
         change (Trace.digit_value "8") with (Some 8);
         change (Trace.digit_value "9") with (Some 9);
         cbv iota beta).
  - destruct rest as [|c rest]; [now rewrite orb_false_r|].
    cbn in Hrest |- *. destruct (Trace.digit_value c); [discriminate|].
    now rewrite orb_false_r.
  - change (10 * 0 + 0) with 0. rewrite IHd by assumption.
    cbn [negb orb]. rewrite ?orb_true_r. reflexivity.
  - change (10 * 0 + 1) with (Z.pos 1).
    rewrite read_digits_acc by assumption. cbn [negb orb].
    rewrite ?orb_true_r. reflexivity.
  - change (10 * 0 + 2) with (Z.pos 2).
    rewrite read_digits_acc by assumption. cbn [negb orb].
    rewrite ?orb_true_r. reflexivity.
  - change (10 * 0 + 3) with (Z.pos 3).
    rewrite read_digits_acc by assumption. cbn [negb orb].
    rewrite ?orb_true_r. reflexivity.
  - change (10 * 0 + 4) with (Z.pos 4).
    rewrite read_digits_acc by assumption. cbn [negb orb].
    rewrite ?orb_true_r. reflexivity.
  - change (10 * 0 + 5) with (Z.pos 5).
    rewrite read_digits_acc by assumption. cbn [negb orb].
    rewrite ?orb_true_r. reflexivity.
  - change (10 * 0 + 6) with (Z.pos 6).
    rewrite read_digits_acc by assumption. cbn [negb orb].
    rewrite ?orb_true_r. reflexivity.
  - change (10 * 0 + 7) with (Z.pos 7).
    rewrite read_digits_acc by assumption. cbn [negb orb].
    rewrite ?orb_true_r. reflexivity.
  - change (10 * 0 + 8) with (Z.pos 8).
    rewrite read_digits_acc by assumption. cbn [negb orb].
    rewrite ?orb_true_r. reflexivity.
  - change (10 * 0 + 9) with (Z.pos 9).
    rewrite read_digits_acc by assumption. cbn [negb orb].
    rewrite ?orb_true_r. reflexivity.
Qed.

Lemma NilZero_nonnil d :
  d <> Decimal.Nil ->
  NilZero.string_of_uint d = NilEmpty.string_of_uint d.
Proof. destruct d; [contradiction|reflexivity..]. Qed.

Lemma skip_space_digits d rest :
  d <> Decimal.Nil ->
  Trace.skip_space (NilEmpty.string_of_uint d ++ rest)
  = (NilEmpty.string_of_uint d ++ rest)%string.
Proof. destruct d; [contradiction|reflexivity..]. Qed.

Lemma to_uint_nonnil n : N.to_uint n <> Decimal.Nil.
Proof.
  destruct n; [discriminate|apply DecimalPos.Unsigned.to_uint_nonnil].
Qed.

(** Reading back the count that [operator<<] has written. *)
Lemma extract_size_t_written n rest :
  Z.of_nat n < 2 ^ 64 ->
  starts_with_digit rest = false ->
  extract_size_t (print_size n ++ rest) = Some (Z.of_nat n, rest).
Proof.
  intros Hn Hrest. unfold extract_size_t, print_size.
  rewrite NilZero_nonnil, skip_space_digits by apply to_uint_nonnil.
  rewrite read_digits_zero by assumption.
  change (Pos.of_uint (N.to_uint (N.of_nat n)))
    with (N.of_uint (N.to_uint (N.of_nat n))).
  rewrite DecimalN.Unsigned.of_to, nat_N_Z.
  cbn [negb orb]. destruct (N.to_uint (N.of_nat n)) eqn:E;
    try (exfalso; revert E; apply to_uint_nonnil); cbn [negb orb];
    (destruct (Z.gtb_spec (Z.of_nat n) (2 ^ 64 - 1)); [lia|reflexivity]).
Qed.

(** The digits as the reader of the version file reads them. *)
Lemma Trace_read_digits s : forall acc any,
  Trace.read_digits s acc any
  = (fst (fst (read_digits s acc any)), snd (fst (read_digits s acc any))).
Proof.
  induction s as [|c s IH]; intros acc any; cbn; [reflexivity|].
  destruct (Trace.digit_value c); [apply IH|reflexivity].
Qed.

Lemma string_app_nil (a : string) : (a ++ EmptyString)%string = a.
Proof. induction a as [|x a IH]; cbn; [reflexivity|now rewrite IH]. Qed.

Lemma uint_starts_with_digit d :
  d <> Decimal.Nil ->
  starts_with_digit (NilEmpty.string_of_uint d) = true.
Proof. destruct d; [contradiction|reflexivity..]. Qed.

(** [extract_int] on a numeral without a sign, and on one with a minus
    sign. *)
Lemma extract_int_unsigned s :
  starts_with_digit s = true ->
  Trace.extract_int s
  = (let '(magnitude, any) := Trace.read_digits s 0 false in
     if negb any then (0, true)
     else if magnitude >? Trace.INT_MAX then (Trace.INT_MAX, true)
     else if magnitude <? Trace.INT_MIN then (Trace.INT_MIN, true)
     else (magnitude, false)).
Proof.
  destruct s as [|c s]; [discriminate|]. intros H.
  destruct c as [[|] [|] [|] [|] [|] [|] [|] [|]];
    try (vm_compute in H; discriminate H); reflexivity.
Qed.

Lemma extract_int_minus s :
  Trace.extract_int (String "-" s)
  = (let '(magnitude, any) := Trace.read_digits s 0 false in
     if negb any then (0, true)
     else if - magnitude >? Trace.INT_MAX then (Trace.INT_MAX, true)
     else if - magnitude <? Trace.INT_MIN then (Trace.INT_MIN, true)
     else (- magnitude, false)).
Proof. reflexivity. Qed.

(** Reading back the [int] that the writer has written last. *)
Lemma extract_int_written n :
  Trace.INT_MIN <= n <= Trace.INT_MAX ->
  Trace.skip_space (print_int n) <> EmptyString
  /\ Trace.extract_int (print_int n) = (n, false).
Proof.
  intros Hn. unfold print_int.
  assert (Hu : forall p,
    Trace.read_digits (NilEmpty.string_of_uint (Pos.to_uint p)) 0 false
    = (Z.pos p, true)).
  { intros p. rewrite Trace_read_digits.
    rewrite <- (string_app_nil (NilEmpty.string_of_uint (Pos.to_uint p))).
    rewrite read_digits_zero by reflexivity. cbn [fst snd].
    rewrite DecimalPos.Unsigned.of_to.
    destruct (Pos.to_uint p) eqn:E;
      try (exfalso; revert E; apply DecimalPos.Unsigned.to_uint_nonnil);
      reflexivity. }
  destruct n as [|p|p]; cbn [Z.to_int NilZero.string_of_int].
  - split; [discriminate|reflexivity].
  - rewrite NilZero_nonnil by apply DecimalPos.Unsigned.to_uint_nonnil.
    split.
    { rewrite <- (string_app_nil (NilEmpty.string_of_uint (Pos.to_uint p))).
      rewrite skip_space_digits
        by apply DecimalPos.Unsigned.to_uint_nonnil.
      rewrite string_app_nil.
      pose proof (DecimalPos.Unsigned.to_uint_nonnil p).
      destruct (Pos.to_uint p); [contradiction|discriminate..]. }
    rewrite extract_int_unsigned
      by (apply uint_starts_with_digit,
            DecimalPos.Unsigned.to_uint_nonnil).
    rewrite Hu. cbn [negb].
    destruct (Z.gtb_spec (Z.pos p) Trace.INT_MAX); [lia|].
    destruct (Z.ltb_spec (Z.pos p) Trace.INT_MIN); [lia|reflexivity].
  - rewrite NilZero_nonnil by apply DecimalPos.Unsigned.to_uint_nonnil.
    split; [discriminate|].
    rewrite extract_int_minus, Hu. cbn [negb].
    change (- Z.pos p) with (Z.neg p).
    destruct (Z.gtb_spec (Z.neg p) Trace.INT_MAX); [lia|].
    destruct (Z.ltb_spec (Z.neg p) Trace.INT_MIN); [lia|reflexivity].
Qed.

Lemma print_size_starts n rest :
  starts_with_digit (print_size n ++ rest) = true.
Proof.
  unfold print_size. rewrite NilZero_nonnil by apply to_uint_nonnil.
  pose proof (to_uint_nonnil (N.of_nat n)).
  destruct (N.to_uint (N.of_nat n)); [contradiction|reflexivity..].
Qed.

(** Reading back a vector of strings that [operator<<] has written,
    when what follows does not start with a digit. *)
Lemma read_strings_written vs rest :
  Forall readable vs ->
  Z.of_nat (List.length vs) < 2 ^ 64 ->
  read_strings (write_strings vs ++ rest) = Some (vs, rest).
Proof.
  intros Hr Hl. unfold read_strings, write_strings.
  rewrite string_app_assoc.
  rewrite extract_size_t_written by (assumption || reflexivity).
  rewrite Nat2Z.id. unfold endl. cbn [append ignore1].
  apply read_each_written. exact Hr.
Qed.

(** X29.  The initial working directory, arguments, environment and cpu
    of the tracee come back from [args_env] as the writer put them
    there, when no string holds a NUL, every string is shorter than
    PATH_MAX, the vectors have fewer than 2^64 entries and the cpu is an
    [int]. *)
Theorem args_env_round_trip cwd argv envp bind_to_cpu :
  readable cwd ->
  Forall readable argv ->
  Forall readable envp ->
  Z.of_nat (List.length argv) < 2 ^ 64 ->
  Z.of_nat (List.length envp) < 2 ^ 64 ->
  Trace.INT_MIN <= bind_to_cpu <= Trace.INT_MAX ->
  read_args_env (write_args_env cwd argv envp bind_to_cpu)
  = Some (cwd, argv, envp, bind_to_cpu).
Proof.
  intros [Hn Hl] Hargv Henvp Hla Hle Hcpu.
  unfold read_args_env, write_args_env.
  rewrite getline_readable by (auto; unfold PATH_MAX in *; lia).
  rewrite read_strings_written by assumption.
  rewrite read_strings_written by assumption.
  destruct (extract_int_written bind_to_cpu Hcpu) as [Hs He].
  rewrite He. cbn [fst].
  destruct (Trace.skip_space (print_int bind_to_cpu));
    [contradiction|reflexivity].
Qed.

(** X30.  A string of PATH_MAX or more characters does not come back:
    when the working directory, or one of the arguments after readable
    ones, is that long, [getline] fills its buffer before it finds the
    NUL and the reader does not get the values that were written. *)
Theorem args_env_long_string cwd argv long later envp bind_to_cpu :
  no_nul long = true ->
  (PATH_MAX <= String.length long)%nat ->
  Z.of_nat (List.length (argv ++ long :: later)) < 2 ^ 64 ->
  readable cwd ->
  Forall readable argv ->
  read_args_env (write_args_env long argv envp bind_to_cpu) = None
  /\ read_args_env
       (write_args_env cwd (argv ++ long :: later) envp bind_to_cpu)
     = None.
Proof.
  intros Hn Hlong Hlen [Hcn Hcl] Hargv. unfold read_args_env, write_args_env.
  split.
  - rewrite getline_too_long by (auto; unfold PATH_MAX in *; lia).
    reflexivity.
  - rewrite getline_readable by (auto; unfold PATH_MAX in *; lia).
    unfold read_strings, write_strings at 1.
    rewrite !string_app_assoc.
    rewrite extract_size_t_written by (assumption || reflexivity).
    rewrite Nat2Z.id. unfold endl. cbn [append ignore1].
    assert (Hfail : forall rest,
      read_each (List.length (argv ++ long :: later))
                (write_each (argv ++ long :: later) ++ rest) = None).
    { clear Hlen. intros rest.
      induction Hargv as [|v vs [Hvn Hvl] _ IH].
      - cbn [app List.length read_each write_each].
        rewrite string_app_assoc.
        rewrite getline_too_long by (auto; unfold PATH_MAX in *; lia).
        reflexivity.
      - cbn [app List.length read_each write_each].
        rewrite string_app_assoc. cbn [append].
        rewrite getline_readable by (auto; unfold PATH_MAX in *; lia).
        rewrite IH. reflexivity. }
    rewrite Hfail. reflexivity.
Qed.

End ArgsEnvRoundTrip.

Section ArgsEnvExamples.

Import ArgsEnv.
Local Open Scope string_scope.

Lemma example_readable s :
  no_nul s = true -> Nat.ltb (String.length s) PATH_MAX = true ->
  readable s.
Proof. intros H1 H2. split; [exact H1|now apply Nat.ltb_lt]. Qed.

Lemma args_env_round_trip_witness :
  read_args_env (write_args_env "/home/user" ["/bin/ls"; "-l"]
                                ["HOME=/home/user"] (-1))
  = Some ("/home/user", ["/bin/ls"; "-l"], ["HOME=/home/user"], -1).
Proof.
  apply args_env_round_trip.
  - apply example_readable; reflexivity.
  - repeat constructor; apply example_readable; reflexivity.
  - repeat constructor; apply example_readable; reflexivity.
  - reflexivity.
  - reflexivity.
  - split; discriminate.
Defined.

Lemma args_env_long_string_witness :
  read_args_env (write_args_env (letters 4096) ["/bin/ls"]
                                ["HOME=/home/user"] 0) = None
  /\ read_args_env
       (write_args_env "/home/user" (["/bin/ls"] ++ letters 4096 :: [])
                       ["HOME=/home/user"] 0) = None.
Proof.
  apply args_env_long_string.
  - vm_compute. reflexivity.
  - apply Nat.leb_le. vm_compute. reflexivity.
  - reflexivity.
  - apply example_readable; reflexivity.
  - repeat constructor; apply example_readable; reflexivity.
Defined.

End ArgsEnvExamples.
